(** * harec: the semantic checker (src/check.c)

    A shallow embedding of the two-pass checker of harec: the typed
    expression tree, the scope stack, the checker context, and one
    elaboration function per expression kind, followed by the properties
    of the elaborated tree that the specification states. *)

From Stdlib Require Import ZArith NArith String Ascii List Bool Lia.
From Stdlib Require Import DecimalString.
From Stdlib Require DecimalZ.
From stdpp Require Import base option list.

#[local] Set Warnings "-register-all".

Local Open Scope Z_scope.
Local Open Scope string_scope.

(** ** Identifiers and source locations *)

(** [struct identifier]: a name and an optional parent namespace. *)
Inductive identifier : Type :=
  mk_identifier (name : string) (ns : option identifier).

Definition ident_name (i : identifier) : string :=
  match i with mk_identifier n _ => n end.

Definition ident_ns (i : identifier) : option identifier :=
  match i with mk_identifier _ p => p end.

(** [identifier_eq]: the names and the whole namespace chains agree. *)
Fixpoint identifier_eq (a b : identifier) : bool :=
  match a, b with
  | mk_identifier n1 p1, mk_identifier n2 p2 =>
      String.eqb n1 n2 &&
      match p1, p2 with
      | None, None => true
      | Some q1, Some q2 => identifier_eq q1 q2
      | _, _ => false
      end
  end.

Record location : Type := mk_location {
  loc_path : string;
  loc_lineno : Z;
  loc_colno : Z
}.

(** ** Types *)

Inductive type_storage : Type :=
  | TYPE_STORAGE_BOOL | TYPE_STORAGE_CHAR | TYPE_STORAGE_ENUM
  | TYPE_STORAGE_F32 | TYPE_STORAGE_F64
  | TYPE_STORAGE_I16 | TYPE_STORAGE_I32 | TYPE_STORAGE_I64 | TYPE_STORAGE_I8
  | TYPE_STORAGE_INT | TYPE_STORAGE_NULL | TYPE_STORAGE_RUNE
  | TYPE_STORAGE_SIZE
  | TYPE_STORAGE_U16 | TYPE_STORAGE_U32 | TYPE_STORAGE_U64 | TYPE_STORAGE_U8
  | TYPE_STORAGE_UINT | TYPE_STORAGE_UINTPTR | TYPE_STORAGE_VOID
  | TYPE_STORAGE_ALIAS | TYPE_STORAGE_ARRAY | TYPE_STORAGE_FUNCTION
  | TYPE_STORAGE_POINTER | TYPE_STORAGE_SLICE | TYPE_STORAGE_STRING
  | TYPE_STORAGE_STRUCT | TYPE_STORAGE_TAGGED_UNION | TYPE_STORAGE_UNION.

Definition type_storage_eq_dec (a b : type_storage) : {a = b} + {a <> b}.
Proof. decide equality. Defined.

Definition storage_eqb (a b : type_storage) : bool :=
  if type_storage_eq_dec a b then true else false.

Inductive variadism : Type :=
  | VARIADISM_NONE | VARIADISM_C | VARIADISM_HARE.

(** Flag bits. *)
Definition TYPE_CONST : N := 1%N.
Definition PTR_NULLABLE : N := 1%N.
Definition FN_FINI : N := 1%N.
Definition FN_INIT : N := 2%N.
Definition FN_TEST : N := 4%N.

(** [SIZE_UNDEFINED] is [(size_t)-1]. *)
Definition SIZE_UNDEFINED : Z := 2 ^ 64 - 1.

(** A C condition [x & FLAG]. *)
Definition has_flag (x flag : N) : bool := negb (N.eqb (N.land x flag) 0%N).

Record enum_value : Type := mk_enum_value {
  ev_name : string;
  ev_ival : Z;
  ev_uval : Z
}.

(** Modelled from the spec: [struct type] is declared in types.h, which is
    not part of the sources at hand.  A type is a storage class tag, a set
    of flags, a size, and one storage-specific payload: pointer target and
    nullability bit; array member type and length (slices read the same
    member slot); struct/union field list; tagged-union member list; enum
    value list; function parameters, result and variadism; alias target.
    Interned types are hash-consed, so identity of pointers is structural
    equality here, and a [NULL] type pointer is [None]. *)
Inductive type : Type :=
  mk_type (storage : type_storage) (flags : N) (size : Z)
          (payload : type_payload)
with type_payload : Type :=
  | P_none
  | P_pointer (referent : type) (pflags : N)
  | P_array (members : type) (length : Z)
  | P_struct_union (fields : list (string * type))
  | P_tagged (tagged : list type)
  | P_enum (values : list enum_value)
  | P_func (result : type) (params : list type) (v : variadism)
  | P_alias (ident : identifier) (target : type).

Definition type_storage_of (t : type) : type_storage :=
  match t with mk_type s _ _ _ => s end.
Definition type_flags (t : type) : N :=
  match t with mk_type _ f _ _ => f end.
Definition type_size (t : type) : Z :=
  match t with mk_type _ _ z _ => z end.
Definition type_payload_of (t : type) : type_payload :=
  match t with mk_type _ _ _ p => p end.

Definition identifier_eq_dec : forall a b : identifier, {a = b} + {a <> b}.
Proof.
  fix IH 1. intros [n1 p1] [n2 p2].
  destruct (string_dec n1 n2) as [-> | Hn]; [| right; congruence].
  destruct p1 as [q1 |], p2 as [q2 |]; try (right; congruence).
  - destruct (IH q1 q2) as [-> | Hq]; [left; reflexivity | right; congruence].
  - left; reflexivity.
Defined.

Definition enum_value_eq_dec (a b : enum_value) : {a = b} + {a <> b}.
Proof. decide equality; try apply Z.eq_dec; apply string_dec. Defined.

Definition variadism_eq_dec (a b : variadism) : {a = b} + {a <> b}.
Proof. decide equality. Defined.

Fixpoint type_eq_dec (a b : type) {struct a} : {a = b} + {a <> b}
with type_payload_eq_dec (p q : type_payload) {struct p} : {p = q} + {p <> q}.
Proof.
  - decide equality; try apply Z.eq_dec; try apply N.eq_dec;
      try apply type_storage_eq_dec.
  - destruct p, q; try (right; discriminate); try (left; reflexivity).
    + destruct (type_eq_dec referent referent0); [| right; congruence].
      destruct (N.eq_dec pflags pflags0); [left | right]; congruence.
    + destruct (type_eq_dec members members0); [| right; congruence].
      destruct (Z.eq_dec length length0); [left | right]; congruence.
    + assert (D : {fields = fields0} + {fields <> fields0}).
      { revert fields0. induction fields as [| [n t] fs IHf]; intros [| [n' t'] fs'];
          try (right; discriminate); try (left; reflexivity).
        destruct (string_dec n n'); [| right; congruence].
        destruct (type_eq_dec t t'); [| right; congruence].
        destruct (IHf fs'); [left | right]; congruence. }
      destruct D; [left | right]; congruence.
    + assert (D : {tagged = tagged0} + {tagged <> tagged0}).
      { revert tagged0. induction tagged as [| t ts IHt]; intros [| t' ts'];
          try (right; discriminate); try (left; reflexivity).
        destruct (type_eq_dec t t'); [| right; congruence].
        destruct (IHt ts'); [left | right]; congruence. }
      destruct D; [left | right]; congruence.
    + destruct (List.list_eq_dec enum_value_eq_dec values values0);
        [left | right]; congruence.
    + destruct (type_eq_dec result result0); [| right; congruence].
      assert (D : {params = params0} + {params <> params0}).
      { revert params0. induction params as [| t ts IHt]; intros [| t' ts'];
          try (right; discriminate); try (left; reflexivity).
        destruct (type_eq_dec t t'); [| right; congruence].
        destruct (IHt ts'); [left | right]; congruence. }
      destruct D; [| right; congruence].
      destruct (variadism_eq_dec v v0); [left | right]; congruence.
    + destruct (identifier_eq_dec ident ident0); [| right; congruence].
      destruct (type_eq_dec target target0); [left | right]; congruence.
Defined.

(** [to == expr->result] on interned type pointers. *)
Definition type_ptr_eqb (a b : option type) : bool :=
  match a, b with
  | None, None => true
  | Some x, Some y => if type_eq_dec x y then true else false
  | _, _ => false
  end.

Record struct_field : Type := mk_struct_field {
  field_name : string;
  field_type : type;
  field_offset : Z
}.

(** ** The parsed tree (ast.h), as far as check.c reads it *)

Inductive expr_type : Type :=
  | EXPR_ACCESS | EXPR_ASSERT | EXPR_ASSIGN | EXPR_BINARITHM | EXPR_BINDING
  | EXPR_BREAK | EXPR_CALL | EXPR_CAST | EXPR_CONSTANT | EXPR_CONTINUE
  | EXPR_DEFER | EXPR_FOR | EXPR_IF | EXPR_LIST | EXPR_MATCH | EXPR_MEASURE
  | EXPR_RETURN | EXPR_SLICE | EXPR_STRUCT | EXPR_SWITCH | EXPR_UNARITHM.

Definition expr_type_eq_dec (a b : expr_type) : {a = b} + {a <> b}.
Proof. decide equality. Defined.

Definition expr_type_eqb (a b : expr_type) : bool :=
  if expr_type_eq_dec a b then true else false.

Inductive binarithm_operator : Type :=
  | BIN_BAND | BIN_BOR | BIN_DIV | BIN_GREATER | BIN_GREATEREQ | BIN_LAND
  | BIN_LEQUAL | BIN_LESS | BIN_LESSEQ | BIN_LOR | BIN_LSHIFT | BIN_LXOR
  | BIN_MINUS | BIN_MODULO | BIN_NEQUAL | BIN_PLUS | BIN_RSHIFT | BIN_TIMES
  | BIN_BXOR.

Inductive unarithm_operator : Type :=
  | UN_ADDRESS | UN_BNOT | UN_DEREF | UN_LNOT | UN_MINUS | UN_PLUS.

Inductive cast_kind : Type := C_CAST | C_ASSERTION | C_TEST.

Inductive measure_operator : Type := M_LEN | M_SIZE | M_OFFSET.

Inductive control_kind : Type := CTRL_BREAK | CTRL_CONTINUE.

(** [aexpr->type] of a control expression. *)
Definition control_expr_type (k : control_kind) : expr_type :=
  match k with CTRL_BREAK => EXPR_BREAK | CTRL_CONTINUE => EXPR_CONTINUE end.

(** [struct ast_type]: the storage tag, the flags and the payloads that
    check.c builds or reads (alias name, function prototype, struct
    fields).  What the checker only hands on to the type store is kept
    behind [AT_opaque]. *)
Inductive ast_type : Type :=
  mk_ast_type (loc : location) (storage : type_storage) (flags : N)
              (payload : ast_type_payload)
with ast_type_payload : Type :=
  | AT_none
  | AT_opaque (handle : N)
  | AT_alias (unwrap : bool) (alias : identifier)
  | AT_func (proto : ast_function_type)
  | AT_struct_union (fields : list (string * ast_type))
with ast_function_type : Type :=
  mk_ast_function_type (result : ast_type)
                       (params : list ast_function_parameters)
                       (v : variadism)
with ast_function_parameters : Type :=
  mk_ast_function_parameters (loc : location) (name : option string)
                             (type_ : ast_type).

Definition proto_params (p : ast_function_type) : list ast_function_parameters :=
  match p with mk_ast_function_type _ ps _ => ps end.
Definition param_loc (p : ast_function_parameters) : location :=
  match p with mk_ast_function_parameters l _ _ => l end.
Definition param_name (p : ast_function_parameters) : option string :=
  match p with mk_ast_function_parameters _ n _ => n end.
Definition param_type (p : ast_function_parameters) : ast_type :=
  match p with mk_ast_function_parameters _ _ t => t end.
Definition ast_type_loc (t : ast_type) : location :=
  match t with mk_ast_type l _ _ _ => l end.

(** Payload of an [EXPR_CONSTANT] node of the parsed tree, without the
    array case (which holds sub-expressions). *)
Inductive ast_scalar : Type :=
  | AC_ival (ival : Z)
  | AC_uval (uval : Z)
  | AC_rune (rune : Z)
  | AC_bval (bval : bool)
  | AC_string (len : Z) (value : list ascii)
  | AC_none.

Inductive ast_expression : Type :=
  mk_ast_expression (loc : location) (u : ast_expression_union)
with ast_expression_union : Type :=
  | A_access_ident (ident : identifier)
  | A_access_index (array index : ast_expression)
  | A_access_field (_struct : ast_expression) (field : string)
  | A_assert (cond message : option ast_expression)
  | A_assign (op : option binarithm_operator) (object value : ast_expression)
             (indirect : bool)
  | A_binarithm (op : binarithm_operator) (lvalue rvalue : ast_expression)
  | A_binding (bindings : list ast_expression_binding)
  | A_control (kind : control_kind) (label : option string)
  | A_call (lvalue : ast_expression) (args : list ast_call_argument)
  | A_cast (kind : cast_kind) (type_ : ast_type) (value : ast_expression)
  | A_constant (storage : type_storage) (c : ast_scalar)
  | A_constant_array (items : list ast_array_constant)
  | A_defer (deferred : ast_expression)
  | A_for (label : option string) (label_loc : location)
          (bindings : option ast_expression) (cond : ast_expression)
          (afterthought : option ast_expression) (body : ast_expression)
  | A_if (cond true_branch : ast_expression)
         (false_branch : option ast_expression)
  | A_list (exprs : list ast_expression)
  | A_match
  | A_measure_len (value : ast_expression)
  | A_measure_size (type_ : ast_type)
  | A_measure_offset
  | A_return (value : option ast_expression)
  | A_slice (object : ast_expression) (start end_ : option ast_expression)
  | A_struct (autofill : bool) (type_name : option identifier)
             (fields : list ast_field_value)
  | A_switch (value : ast_expression) (cases : list ast_switch_case)
  | A_unarithm (op : unarithm_operator) (operand : ast_expression)
with ast_expression_binding : Type :=
  mk_ast_expression_binding (name : string) (type_ : option ast_type)
                            (flags : N) (is_static : bool)
                            (initializer : ast_expression)
with ast_call_argument : Type :=
  mk_ast_call_argument (variadic : bool) (value : ast_expression)
with ast_array_constant : Type :=
  mk_ast_array_constant (value : ast_expression) (expand : bool)
with ast_field_value : Type :=
  mk_ast_field_value (is_embedded : bool) (name : string) (type_ : ast_type)
                     (initializer : ast_expression)
with ast_switch_case : Type :=
  mk_ast_switch_case (options : list ast_expression) (value : ast_expression).

Definition ast_loc (a : ast_expression) : location :=
  match a with mk_ast_expression l _ => l end.
Definition ast_union (a : ast_expression) : ast_expression_union :=
  match a with mk_ast_expression _ u => u end.

(** ** The typed tree (expr.h) and scope objects (scope.h) *)

Inductive object_type : Type := O_BIND | O_CONST | O_DECL | O_TYPE.

(** An address of a [struct scope] in the checker's heap of scopes. *)
Abbreviation scope_ptr := nat (only parsing).

Inductive expression : Type :=
  mk_expression (type_ : expr_type) (result : option type)
                (terminates : bool) (u : expression_union)
with expression_union : Type :=
  | E_zero
  | E_access_ident (object : scope_object)
  | E_access_index (array index : expression)
  | E_access_field (_struct : expression) (field : struct_field)
  | E_assert (cond : option expression) (message : expression)
  | E_assign (op : option binarithm_operator) (object value : expression)
             (indirect : bool)
  | E_binarithm (op : binarithm_operator) (lvalue rvalue : expression)
  | E_binding (bindings : list expression_binding)
  | E_call (lvalue : expression) (args : list expression)
  | E_cast (kind : cast_kind) (value : expression) (secondary : option type)
  | E_constant (c : expression_constant)
  | E_control (label : option string)
  | E_defer (deferred : expression)
  | E_for (bindings : option expression) (cond : expression)
          (afterthought : option expression) (body : expression)
          (scope : scope_ptr) (label : option string)
  | E_if (cond true_branch : expression) (false_branch : option expression)
  | E_list (exprs : list expression) (scope : scope_ptr)
  | E_measure_len (value : expression)
  | E_measure_size (type_ : option type)
  | E_return (value : option expression)
  | E_slice (object : expression) (start end_ : option expression)
  | E_struct (fields : list (struct_field * expression))
  | E_switch (value : expression) (cases : list switch_case)
  | E_unarithm (op : unarithm_operator) (operand : expression)
with expression_constant : Type :=
  | EC_none
  | EC_ival (ival : Z)
  | EC_uval (uval : Z)
  | EC_rune (rune : Z)
  | EC_bval (bval : bool)
  | EC_string (value : list ascii) (len : Z)
  | EC_array (items : list array_constant)
with array_constant : Type :=
  mk_array_constant (value : expression) (expand : bool)
with expression_binding : Type :=
  mk_expression_binding (object : scope_object) (initializer : expression)
with switch_case : Type :=
  mk_switch_case (options : list expression) (value : expression)
with scope_object : Type :=
  mk_scope_object (otype : object_type) (ident name : identifier)
                  (type_ : option type) (value : option expression).

Definition expr_type_of (e : expression) : expr_type :=
  match e with mk_expression t _ _ _ => t end.
Definition expr_result (e : expression) : option type :=
  match e with mk_expression _ r _ _ => r end.
Definition expr_terminates (e : expression) : bool :=
  match e with mk_expression _ _ t _ => t end.
Definition expr_union (e : expression) : expression_union :=
  match e with mk_expression _ _ _ u => u end.

Definition obj_otype (o : scope_object) : object_type :=
  match o with mk_scope_object k _ _ _ _ => k end.
Definition obj_ident (o : scope_object) : identifier :=
  match o with mk_scope_object _ i _ _ _ => i end.
Definition obj_name (o : scope_object) : identifier :=
  match o with mk_scope_object _ _ n _ _ => n end.
Definition obj_type (o : scope_object) : option type :=
  match o with mk_scope_object _ _ _ t _ => t end.
Definition obj_value (o : scope_object) : option expression :=
  match o with mk_scope_object _ _ _ _ v => v end.

(** A node fresh from [xcalloc]: every field zero. *)
Definition xcalloc_expression : expression :=
  mk_expression EXPR_ACCESS None false E_zero.

(** ** Scopes (scope.h) and the checker context (check.h) *)

(** [struct scope]: the parent pointer, the kind of expression the scope
    was made for, its label, and the objects in insertion order. *)
Record scope : Type := mk_scope {
  scope_type : expr_type;
  scope_label : option string;
  scope_parent : option scope_ptr;
  scope_objects : list scope_object
}.

(** [struct context].  [ctx_scopes] is the heap of scopes allocated so
    far: [scope_ptr]s index into it, so that [ctx_unit], [ctx_scope] and
    the scopes captured in the typed tree alias the same objects. *)
Record context : Type := mk_context {
  ctx_ns : option identifier;
  ctx_unit : option scope_ptr;
  ctx_scope : option scope_ptr;
  ctx_deferring : bool;
  ctx_id : Z;
  ctx_current_fntype : option type;
  ctx_scopes : list scope
}.

Definition set_scope (p : option scope_ptr) (c : context) : context :=
  mk_context (ctx_ns c) (ctx_unit c) p (ctx_deferring c) (ctx_id c)
             (ctx_current_fntype c) (ctx_scopes c).
Definition set_scopes (h : list scope) (c : context) : context :=
  mk_context (ctx_ns c) (ctx_unit c) (ctx_scope c) (ctx_deferring c)
             (ctx_id c) (ctx_current_fntype c) h.
Definition set_deferring (b : bool) (c : context) : context :=
  mk_context (ctx_ns c) (ctx_unit c) (ctx_scope c) b (ctx_id c)
             (ctx_current_fntype c) (ctx_scopes c).
Definition set_id (n : Z) (c : context) : context :=
  mk_context (ctx_ns c) (ctx_unit c) (ctx_scope c) (ctx_deferring c) n
             (ctx_current_fntype c) (ctx_scopes c).
Definition set_current_fntype (t : option type) (c : context) : context :=
  mk_context (ctx_ns c) (ctx_unit c) (ctx_scope c) (ctx_deferring c)
             (ctx_id c) t (ctx_scopes c).

(** ** Outcomes: the checker either returns or ends the process *)

(** [Abort msg] is a failed [expect] (a diagnostic, then [abort()]);
    [Crash] is a failed [assert] or the use of a null pointer. *)
Inductive outcome (A : Type) : Type :=
  | Ok (a : A)
  | Abort (msg : string)
  | Crash.
Arguments Ok {A} a.
Arguments Abort {A} msg.
Arguments Crash {A}.

Definition M (A : Type) : Type := context -> outcome (A * context).

Definition ret {A} (a : A) : M A := fun c => Ok (a, c).

Definition bind {A B} (m : M A) (k : A -> M B) : M B :=
  fun c =>
    match m c with
    | Ok (a, c') => k a c'
    | Abort msg => Abort msg
    | Crash => Crash
    end.

Declare Scope check_scope.
Delimit Scope check_scope with check.
Notation "x <- m ;; k" := (bind m (fun x => k))
  (at level 100, m at next level, right associativity) : check_scope.
Notation "m ;;; k" := (bind m (fun _ => k))
  (at level 100, right associativity) : check_scope.
Local Open Scope check_scope.

Definition get_ctx : M context := fun c => Ok (c, c).
Definition modify_ctx (f : context -> context) : M unit :=
  fun c => Ok (tt, f c).

(** [expect(loc, constraint, fmt, ...)]. *)
Definition expect (constraint : bool) (fmt : string) : M unit :=
  fun c => if constraint then Ok (tt, c) else Abort fmt.

(** [assert(cond)]. *)
Definition c_assert (cond : bool) : M unit :=
  fun c => if cond then Ok (tt, c) else Crash.

(** Following a pointer: a null one ends the process. *)
Definition deref {A} (p : option A) : M A :=
  fun c => match p with Some a => Ok (a, c) | None => Crash end.

(** Modelled from the spec: scope.c is not part of the sources at hand.
    [push(kind, label?)] creates a child scope under the current one and
    makes it current; the kind and label are stored by the caller, the
    fresh scope is zeroed ([EXPR_ACCESS] is the zero of [expr_type]). *)
Definition scope_push : M scope_ptr :=
  fun c =>
    let p := length (ctx_scopes c) in
    let s := mk_scope EXPR_ACCESS None (ctx_scope c) [] in
    Ok (p, set_scope (Some p) (set_scopes (ctx_scopes c ++ [s]) c)).

(** Modelled from the spec: [pop()] restores the parent of the current
    scope and hands back the scope that was current. *)
Definition scope_pop : M scope_ptr :=
  fun c =>
    match ctx_scope c with
    | None => Crash
    | Some p =>
        match ctx_scopes c !! p with
        | None => Crash
        | Some s => Ok (p, set_scope (scope_parent s) c)
        end
    end.

Definition scope_add_object (o : scope_object) (s : scope) : scope :=
  mk_scope (scope_type s) (scope_label s) (scope_parent s)
           (scope_objects s ++ [o]).

(** Modelled from the spec: [insert(kind, ident, mangled, type, value?)]
    adds an object at the end of the scope's list, without looking for
    duplicates, and returns it. *)
Definition scope_insert (p : option scope_ptr) (otype : object_type)
    (ident name : identifier) (t : option type) (value : option expression)
    : M scope_object :=
  fun c =>
    match p with
    | None => Crash
    | Some i =>
        match ctx_scopes c !! i with
        | None => Crash
        | Some s =>
            let o := mk_scope_object otype ident name t value in
            Ok (o, set_scopes (<[i := scope_add_object o s]> (ctx_scopes c)) c)
        end
    end.

(** An object answers to both of its identifiers. *)
Definition object_matches (ident : identifier) (o : scope_object) : bool :=
  identifier_eq (obj_ident o) ident || identifier_eq (obj_name o) ident.

(** Modelled from the spec: [lookup(ident)] searches the scope, then its
    parents, and returns the first match.  Names are compared with their
    whole namespace chain.  [fuel] bounds the walk up the parents; the
    number of allocated scopes is enough, as a parent is older than its
    child. *)
Fixpoint scope_lookup_from (fuel : nat) (h : list scope)
    (p : option scope_ptr) (ident : identifier) : option scope_object :=
  match fuel with
  | O => None
  | S fuel' =>
      match p with
      | None => None
      | Some i =>
          match h !! i with
          | None => None
          | Some s =>
              match List.find (object_matches ident) (scope_objects s) with
              | Some o => Some o
              | None => scope_lookup_from fuel' h (scope_parent s) ident
              end
          end
      end
  end.

Definition scope_lookup (h : list scope) (p : option scope_ptr)
    (ident : identifier) : option scope_object :=
  scope_lookup_from (length h) h p ident.

(** ** The collaborators of the checker *)

(** The type store (type_store.c, types.c) and the constant evaluator
    (eval.c) are used through their interfaces only.  [union_members] is
    what a read of [array.members] gives on a type whose payload is of
    another kind: the layout of the union of [struct type] (types.h)
    decides it.  The lookups of the type store take the types they are
    given as present: where the checker would hand a null type on to
    one of them (the element type of an array literal that found none),
    the run is a [Crash]. *)
Record externals : Type := mk_externals {
  type_store_lookup_atype : context -> ast_type -> option type;
  type_store_lookup_pointer : type -> N -> type;
  type_store_lookup_slice : type -> type;
  type_store_lookup_array : type -> Z -> type;
  type_dealias : type -> type;
  type_is_integer : type -> bool;
  type_is_signed : type -> bool;
  type_is_numeric : type -> bool;
  type_is_assignable : type -> type -> bool;
  type_is_castable : type -> type -> bool;
  type_get_field : type -> string -> option struct_field;
  type_id : type -> Z;
  union_members : type -> option type;
  eval_expr : context -> expression -> option expression;
  builtin_type_for_storage : type_storage -> bool -> option type;
  builtin_type_void : type;
  builtin_type_bool : type;
  builtin_type_size : type;
  builtin_type_str : type;
  builtin_type_const_str : type
}.

(** Modelled from the spec: [dereference(T)]: the referent of a
    non-nullable pointer, null for a nullable pointer, [T] otherwise. *)
Definition type_dereference (t : type) : option type :=
  match t with
  | mk_type TYPE_STORAGE_POINTER _ _ (P_pointer referent pflags) =>
      if has_flag pflags PTR_NULLABLE then None else Some referent
  | _ => Some t
  end.

(** Modelled from the spec: [lookup_with_flags(Type, flags)] returns a
    copy of the type with the additional flags. *)
Definition type_store_lookup_with_flags (t : type) (flags : N) : type :=
  match t with
  | mk_type s f z p => mk_type s (N.lor f flags) z p
  end.

(** Reads of the storage-specific members of [struct type]; reading a
    member the type does not hold is an error of the caller. *)
Definition array_members (t : type) : option type :=
  match type_payload_of t with P_array m _ => Some m | _ => None end.
Definition array_length (t : type) : option Z :=
  match type_payload_of t with P_array _ n => Some n | _ => None end.
Definition pointer_referent (t : type) : option type :=
  match type_payload_of t with P_pointer r _ => Some r | _ => None end.
Definition pointer_flags (t : type) : option N :=
  match type_payload_of t with P_pointer _ f => Some f | _ => None end.
Definition func_result (t : type) : option type :=
  match type_payload_of t with P_func r _ _ => Some r | _ => None end.
Definition func_params (t : type) : option (list type) :=
  match type_payload_of t with P_func _ ps _ => Some ps | _ => None end.
Definition func_variadism (t : type) : option variadism :=
  match type_payload_of t with P_func _ _ v => Some v | _ => None end.
Definition tagged_members (t : type) : option (list type) :=
  match type_payload_of t with P_tagged ts => Some ts | _ => None end.
Definition enum_values (t : type) : option (list enum_value) :=
  match type_payload_of t with P_enum vs => Some vs | _ => None end.

(** [t->array.members], read without a test of the storage of [t]: the
    member type of an array or of a slice; null for a type without
    payload, whose union is zeroed (the builtin types); for a type with
    a payload of another kind, what that payload has in this place. *)
Definition type_array_members (ext : externals) (t : type) : option type :=
  match type_payload_of t with
  | P_array m _ => Some m
  | P_none => None
  | _ => union_members ext t
  end.

(** The element type that [check_expr_array] starts with: the member
    type of the hint, if there is a hint. *)
Definition hint_members (ext : externals) (hint : option type)
    : option type :=
  match hint with
  | Some h => type_array_members ext h
  | None => None
  end.

(** [int]: [++] past [INT_MAX] is undefined in C; as compiled, the value
    wraps around to [INT_MIN]. *)
Definition INT_MIN : Z := - 2 ^ 31.
Definition INT_MAX : Z := 2 ^ 31 - 1.
Definition wrap_int (z : Z) : Z := (z + 2 ^ 31) mod 2 ^ 32 - 2 ^ 31.

(** ** The C library, as far as check.c uses it *)

(** [%d] of an [int]. *)
Definition string_of_int (z : Z) : string :=
  NilZero.string_of_int (Z.to_int z).

(** [xcalloc(1, n)] for a byte buffer. *)
Definition xcalloc_bytes (n : Z) : list ascii :=
  repeat Ascii.zero (Z.to_nat n).

(** [snprintf(buf, size, fmt, ...)], with [out] the text the format
    produces: at most [size - 1] characters are stored, followed by a
    terminating zero byte.  (The value returned is [String.length out].) *)
Definition snprintf (buf : list ascii) (size : Z) (out : string)
    : list ascii :=
  if (size <=? 0)%Z then buf
  else
    let written := take (Z.to_nat (size - 1)) (list_ascii_of_string out) in
    (written ++ [Ascii.zero] ++ drop (S (length written)) buf)%list.

(** The text of ["Assertion failed: %s:%d:%d"]. *)
Definition assertion_failed_text (loc : location) : string :=
  "Assertion failed: " ++ loc_path loc ++ ":" ++
  string_of_int (loc_lineno loc) ++ ":" ++ string_of_int (loc_colno loc).

(** The text of ["static.%d"]. *)
Definition static_name_text (id : Z) : string :=
  "static." ++ string_of_int id.

(** ** Implicit casts *)

(** [lower_implicit_cast(to, expr)]. *)
Definition lower_implicit_cast (to : option type) (expr : expression)
    : expression :=
  if type_ptr_eqb to (expr_result expr) then expr
  else mk_expression EXPR_CAST to (expr_terminates expr)
                     (E_cast C_CAST expr None).

(** ** Walks up the chain of scopes *)

Definition label_matches (label : string) (l : option string) : bool :=
  match l with
  | Some sl => String.eqb label sl
  | None => false
  end.

(** The loop of [check_expr_control]: from [scope] upwards, skip every
    scope that was not made for a [for]; stop at the first one if there
    is no label, or at the first one that carries the label.  The outer
    [option] is [None] when the walk leaves the heap. *)
Fixpoint control_walk (fuel : nat) (h : list scope)
    (scope : option scope_ptr) (label : option string)
    : option (option scope_ptr) :=
  match scope with
  | None => Some None
  | Some p =>
      match fuel with
      | O => None
      | S fuel' =>
          match h !! p with
          | None => None
          | Some s =>
              if negb (expr_type_eqb (scope_type s) EXPR_FOR)
              then control_walk fuel' h (scope_parent s) label
              else
                match label with
                | None => Some (Some p)
                | Some l =>
                    if label_matches l (scope_label s) then Some (Some p)
                    else control_walk fuel' h (scope_parent s) label
                end
          end
      end
  end.

(** The loop of [check_expr_for] over the ancestors of the new scope:
    [Some true] when no labelled ancestor carries [label]. *)
Fixpoint for_label_walk (fuel : nat) (h : list scope)
    (scope : option scope_ptr) (label : string) : option bool :=
  match scope with
  | None => Some true
  | Some p =>
      match fuel with
      | O => None
      | S fuel' =>
          match h !! p with
          | None => None
          | Some s =>
              if label_matches label (scope_label s) then Some false
              else for_label_walk fuel' h (scope_parent s) label
          end
      end
  end.

(** [scope->type = type; scope->label = label]. *)
Definition scope_set_kind (p : scope_ptr) (t : expr_type)
    (label : option string) : M unit :=
  fun c =>
    match ctx_scopes c !! p with
    | None => Crash
    | Some s =>
        let s' := mk_scope t label (scope_parent s) (scope_objects s) in
        Ok (tt, set_scopes (<[p := s']> (ctx_scopes c)) c)
    end.

Definition is_some {A} (o : option A) : bool :=
  match o with Some _ => true | None => false end.

Definition crash {A} : M A := fun _ => Crash.

(** A loop over a linked list that builds a linked list. *)
Definition mapM {A B} (f : A -> M B) : list A -> M (list B) :=
  fix go (l : list A) : M (list B) :=
    match l with
    | [] => ret []
    | a :: rest => b <- f a ;; bs <- go rest ;; ret (b :: bs)
    end.

Definition storage_is (t : type) (s : type_storage) : bool :=
  storage_eqb (type_storage_of t) s.

Definition binding_name (b : ast_expression_binding) : string :=
  match b with mk_ast_expression_binding n _ _ _ _ => n end.
Definition binding_type (b : ast_expression_binding) : option ast_type :=
  match b with mk_ast_expression_binding _ t _ _ _ => t end.
Definition binding_flags (b : ast_expression_binding) : N :=
  match b with mk_ast_expression_binding _ _ f _ _ => f end.
Definition binding_is_static (b : ast_expression_binding) : bool :=
  match b with mk_ast_expression_binding _ _ _ s _ => s end.
Definition binding_initializer (b : ast_expression_binding)
    : ast_expression :=
  match b with mk_ast_expression_binding _ _ _ _ i => i end.

Definition call_arg_variadic (a : ast_call_argument) : bool :=
  match a with mk_ast_call_argument v _ => v end.
Definition call_arg_value (a : ast_call_argument) : ast_expression :=
  match a with mk_ast_call_argument _ v => v end.

Definition array_item_value (a : ast_array_constant) : ast_expression :=
  match a with mk_ast_array_constant v _ => v end.
Definition array_item_expand (a : ast_array_constant) : bool :=
  match a with mk_ast_array_constant _ e => e end.

Definition field_value_is_embedded (f : ast_field_value) : bool :=
  match f with mk_ast_field_value e _ _ _ => e end.
Definition field_value_name (f : ast_field_value) : string :=
  match f with mk_ast_field_value _ n _ _ => n end.
Definition field_value_type (f : ast_field_value) : ast_type :=
  match f with mk_ast_field_value _ _ t _ => t end.
Definition field_value_initializer (f : ast_field_value) : ast_expression :=
  match f with mk_ast_field_value _ _ _ i => i end.

Definition case_options (c : ast_switch_case) : list ast_expression :=
  match c with mk_ast_switch_case o _ => o end.
Definition case_value (c : ast_switch_case) : ast_expression :=
  match c with mk_ast_switch_case _ v => v end.

(** ** The check pass: one elaboration per kind of expression *)

Section Checker.

Context (ext : externals).

Section Elaboration.

(** The elaborations below call back into [check_expression], which is
    tied up after them. *)
Variable check_expression : ast_expression -> option type -> M expression.

(** [type_is_assignable(&ctx->store, to, from)] on two type pointers. *)
Definition is_assignable (to from : option type) : M bool :=
  t <- deref to ;; f <- deref from ;; ret (type_is_assignable ext t f).

Definition check_expr_access_ident (ident : identifier) : M expression :=
  c <- get_ctx ;;
  let obj := scope_lookup (ctx_scopes c) (ctx_scope c) ident in
  expect (is_some obj) "Unknown object '%s'" ;;;
  obj <- deref obj ;;
  match obj_otype obj with
  | O_CONST =>
      (* Lower constants *)
      deref (obj_value obj)
  | O_BIND | O_DECL =>
      ret (mk_expression EXPR_ACCESS (obj_type obj) false
                         (E_access_ident obj))
  | O_TYPE =>
      expect false "Expected identifier, got type" ;;;
      ret (mk_expression EXPR_ACCESS None false E_zero)
  end.

Definition check_expr_access_index (aarray aindex : ast_expression)
    : M expression :=
  array <- check_expression aarray None ;;
  index <- check_expression aindex None ;;
  aresult <- deref (expr_result array) ;;
  let atype := type_dereference aresult in
  expect (is_some atype)
         "Cannot dereference nullable pointer for indexing" ;;;
  atype <- deref atype ;;
  iresult <- deref (expr_result index) ;;
  let itype := type_dealias ext iresult in
  expect (storage_is atype TYPE_STORAGE_ARRAY
          || storage_is atype TYPE_STORAGE_SLICE)
         "Cannot index non-array, non-slice %s object" ;;;
  expect (type_is_integer ext itype)
         "Cannot use non-integer %s type as slice/array index" ;;;
  let index := lower_implicit_cast (Some (builtin_type_size ext)) index in
  members <- deref (array_members atype) ;;
  ret (mk_expression EXPR_ACCESS
         (Some (type_store_lookup_with_flags members
                  (N.lor (type_flags atype) (type_flags members))))
         false (E_access_index array index)).

Definition check_expr_access_field (astruct : ast_expression)
    (field : string) : M expression :=
  _struct <- check_expression astruct None ;;
  sresult <- deref (expr_result _struct) ;;
  let stype := type_dereference sresult in
  expect (is_some stype)
         "Cannot dereference nullable pointer for field selection" ;;;
  stype <- deref stype ;;
  expect (storage_is stype TYPE_STORAGE_STRUCT
          || storage_is stype TYPE_STORAGE_UNION)
         "Cannot index non-struct, non-union object" ;;;
  let f := type_get_field ext stype field in
  expect (is_some f) "No such struct field '%s'" ;;;
  f <- deref f ;;
  ret (mk_expression EXPR_ACCESS (Some (field_type f)) false
                     (E_access_field _struct f)).

(** The message that [check_expr_assert] builds when the user gave none:
    the buffer [s] and the length [n] stored with it. *)
Definition assert_message_buffer (loc : location) : list ascii * Z :=
  let n := Z.of_nat (String.length (assertion_failed_text loc)) in
  let s := xcalloc_bytes (n + 1) in
  let s := snprintf s n (assertion_failed_text loc) in
  (s, n).

Definition check_expr_assert (loc : location)
    (acond amessage : option ast_expression) (hint : option type)
    : M expression :=
  cond_term <-
    match acond with
    | Some acond =>
        cond <- check_expression acond (Some (builtin_type_bool ext)) ;;
        cresult <- deref (expr_result cond) ;;
        expect (storage_is cresult TYPE_STORAGE_BOOL)
               "Assertion condition must be boolean" ;;;
        ret (Some cond, false)
    | None => ret (None, true)
    end ;;
  message <-
    match amessage with
    | Some amessage =>
        message <- check_expression amessage (Some (builtin_type_str ext)) ;;
        mresult <- deref (expr_result message) ;;
        expect (storage_is mresult TYPE_STORAGE_STRING)
               "Assertion message must be string" ;;;
        ret message
    | None =>
        let '(s, n) := assert_message_buffer loc in
        ret (mk_expression EXPR_CONSTANT
               (Some (builtin_type_const_str ext)) false
               (E_constant (EC_string s n)))
    end ;;
  ret (mk_expression EXPR_ASSERT (Some (builtin_type_void ext))
         (snd cond_term) (E_assert (fst cond_term) message)).

Definition check_expr_assign (op : option binarithm_operator)
    (aobject avalue : ast_expression) (indirect : bool)
    (hint : option type) : M expression :=
  object <- check_expression aobject None ;;
  value <- check_expression avalue (expr_result object) ;;
  value <-
    (if indirect then
       oresult <- deref (expr_result object) ;;
       expect (storage_is oresult TYPE_STORAGE_POINTER)
              "Cannot dereference non-pointer type for assignment" ;;;
       pflags <- deref (pointer_flags oresult) ;;
       expect (negb (has_flag pflags PTR_NULLABLE))
              "Cannot dereference nullable pointer type" ;;;
       referent <- deref (pointer_referent oresult) ;;
       ok <- is_assignable (Some referent) (expr_result value) ;;
       expect ok "Value type is not assignable to pointer type" ;;;
       ret (lower_implicit_cast (Some referent) value)
     else
       c_assert (expr_type_eqb (expr_type_of object) EXPR_ACCESS) ;;;
       oresult <- deref (expr_result object) ;;
       expect (negb (has_flag (type_flags oresult) TYPE_CONST))
              "Cannot assign to const object" ;;;
       ok <- is_assignable (expr_result object) (expr_result value) ;;
       expect ok "rvalue type is not assignable to lvalue" ;;;
       ret (lower_implicit_cast (expr_result object) value)) ;;
  ret (mk_expression EXPR_ASSIGN (Some (builtin_type_void ext)) false
                     (E_assign op object value indirect)).

Definition binarithm_is_numeric (op : binarithm_operator) : bool :=
  match op with
  | BIN_BAND | BIN_BOR | BIN_DIV | BIN_LSHIFT | BIN_MINUS | BIN_MODULO
  | BIN_PLUS | BIN_RSHIFT | BIN_TIMES | BIN_BXOR => true
  | BIN_GREATER | BIN_GREATEREQ | BIN_LAND | BIN_LEQUAL | BIN_LESS
  | BIN_LESSEQ | BIN_LOR | BIN_LXOR | BIN_NEQUAL => false
  end.

Definition check_expr_binarithm (op : binarithm_operator)
    (alvalue arvalue : ast_expression) (hint : option type)
    : M expression :=
  lvalue <- check_expression alvalue None ;;
  rvalue <- check_expression arvalue None ;;
  lresult <- deref (expr_result lvalue) ;;
  rresult <- deref (expr_result rvalue) ;;
  (* TODO: Promotion *)
  c_assert (storage_eqb (type_storage_of lresult)
                        (type_storage_of rresult)) ;;;
  let result :=
    if binarithm_is_numeric op then expr_result lvalue
    else Some (builtin_type_bool ext) in
  ret (mk_expression EXPR_BINARITHM result false
                     (E_binarithm op lvalue rvalue)).

(** The body of the loop of [check_expr_binding], for one binding. *)
Definition check_one_binding (abinding : ast_expression_binding)
    : M expression_binding :=
  c <- get_ctx ;;
  type_ <-
    match binding_type abinding with
    | Some atype =>
        t <- deref (type_store_lookup_atype ext c atype) ;;
        ret (Some (type_store_lookup_with_flags t
                     (N.lor (type_flags t) (binding_flags abinding))))
    | None => ret None
    end ;;
  let ident := mk_identifier (binding_name abinding) None in
  initializer <- check_expression (binding_initializer abinding) type_ ;;
  type_ <-
    match type_ with
    | Some t => ret t
    | None =>
        iresult <- deref (expr_result initializer) ;;
        ret (type_store_lookup_with_flags iresult (binding_flags abinding))
    end ;;
  expect (negb (type_size type_ =? 0)%Z
          && negb (type_size type_ =? SIZE_UNDEFINED)%Z)
         "Cannot create binding for type of zero or undefined size" ;;;
  ok <- is_assignable (Some type_) (expr_result initializer) ;;
  expect ok "Initializer is not assignable to binding type" ;;;
  let stored := lower_implicit_cast (Some type_) initializer in
  c <- get_ctx ;;
  if negb (binding_is_static abinding) then
    object <- scope_insert (ctx_scope c) O_BIND ident ident (Some type_)
                           None ;;
    ret (mk_expression_binding object stored)
  else
    let r := eval_expr ext c initializer in
    expect (is_some r)
           "Unable to evaluate static initializer at compile time" ;;;
    let gen := mk_identifier (static_name_text (ctx_id c)) None in
    modify_ctx (set_id (wrap_int (ctx_id c + 1))) ;;;
    object <- scope_insert (ctx_scope c) O_DECL gen ident (Some type_)
                           None ;;
    ret (mk_expression_binding object stored).

Definition check_expr_binding (abindings : list ast_expression_binding)
    (hint : option type) : M expression :=
  match abindings with
  | [] => crash
  | _ =>
      bindings <- mapM check_one_binding abindings ;;
      ret (mk_expression EXPR_BINDING (Some (builtin_type_void ext)) false
                         (E_binding bindings))
  end.

(** [check_expr_array], for the items of an array literal.  The item
    type is a parameter because [lower_vaargs] runs the same loop on the
    call arguments it wraps into an array literal. *)
Section ArrayLiteral.

Context {A : Type} (item_value : A -> ast_expression)
        (item_expand : A -> bool).

Definition list_is_nil {B} (l : list B) : bool :=
  match l with [] => true | _ => false end.

(** The [while (item)] loop: the items built, the element type, whether
    an item asked for expansion, and the number of items. *)
Definition check_array_items
    : list A -> option type ->
      M (list array_constant * option type * bool * Z) :=
  fix loop (items : list A) (type_ : option type) {struct items} :=
    match items with
    | [] => ret ([], type_, false, 0%Z)
    | item :: rest =>
        value <- check_expression (item_value item) type_ ;;
        cur <-
          match type_ with
          | None => ret (value, expr_result value)
          | Some t =>
              ok <- is_assignable type_ (expr_result value) ;;
              expect ok "Array members must be of a uniform type" ;;;
              ret (lower_implicit_cast type_ value, type_)
          end ;;
        (if item_expand item then c_assert (list_is_nil rest) else ret tt) ;;;
        r <- loop rest (snd cur) ;;
        let '(curs, ty, expandable, len) := r in
        ret (mk_array_constant (fst cur) false :: curs, ty,
             item_expand item || expandable, (len + 1)%Z)
    end.

(** [expr->constant.array->expand = true]. *)
Definition mark_expand (items : list array_constant)
    : list array_constant :=
  match items with
  | mk_array_constant v _ :: rest => mk_array_constant v true :: rest
  | [] => []
  end.

Definition check_expr_array (items : list A) (hint : option type)
    : M expression :=
  let type_ := hint_members ext hint in
  r <- check_array_items items type_ ;;
  let '(curs, type_, expandable, len) := r in
  if expandable then
    expect (is_some hint) "Cannot expand array for inferred type" ;;;
    h <- deref hint ;;
    (if storage_is h TYPE_STORAGE_ARRAY then
       hlen <- deref (array_length h) ;;
       expect (negb (hlen =? SIZE_UNDEFINED)%Z && (len <=? hlen)%Z)
              "Cannot expand array into destination type" ;;;
       t <- deref type_ ;;
       ret (mk_expression EXPR_CONSTANT
              (Some (type_store_lookup_array ext t hlen)) false
              (E_constant (EC_array (mark_expand curs))))
     else
       expect false "Cannot expand array into destination type" ;;;
       crash)
  else
    t <- deref type_ ;;
    ret (mk_expression EXPR_CONSTANT
           (Some (type_store_lookup_array ext t len)) false
           (E_constant (EC_array curs))).

End ArrayLiteral.

(** [lower_vaargs]: the remaining call arguments become the items of an
    array literal, which is checked against an unsized array of the
    variadic element type. *)
Definition lower_vaargs (aargs : list ast_call_argument) (type_ : type)
    : M expression :=
  let hint := type_store_lookup_array ext type_ SIZE_UNDEFINED in
  vaargs <- check_expr_array call_arg_value (fun _ => false) aargs
                             (Some hint) ;;
  vresult <- deref (expr_result vaargs) ;;
  c_assert (storage_is vresult TYPE_STORAGE_ARRAY) ;;;
  members <- deref (array_members vresult) ;;
  expect (type_ptr_eqb (Some members) (Some type_))
         "Argument is not assignable to variadic parameter type" ;;;
  ret vaargs.

(** The [while (param && aarg)] loop of [check_expr_call] and the two
    arity checks after it. *)
Definition check_call_args (v : variadism)
    : list type -> list ast_call_argument -> M (list expression) :=
  fix loop (params : list type) (aargs : list ast_call_argument)
      {struct aargs} :=
    match aargs with
    | [] =>
        expect (list_is_nil params)
               "Not enough parameters for function call" ;;;
        ret []
    | aarg :: arest =>
        match params with
        | [] =>
            expect false "Too many parameters for function call" ;;;
            ret []
        | param :: prest =>
            if list_is_nil prest
               && (if variadism_eq_dec v VARIADISM_HARE then true else false)
               && negb (call_arg_variadic aarg)
            then
              members <- deref (type_array_members ext param) ;;
              value <- lower_vaargs aargs members ;;
              ret [lower_implicit_cast (Some param) value]
            else
              value <- check_expression (call_arg_value aarg) (Some param) ;;
              ok <- is_assignable (Some param) (expr_result value) ;;
              expect ok "Argument is not assignable to parameter type" ;;;
              rest <- loop prest arest ;;
              ret (lower_implicit_cast (Some param) value :: rest)
        end
    end.

Definition check_expr_call (alvalue : ast_expression)
    (aargs : list ast_call_argument) (hint : option type) : M expression :=
  lvalue <- check_expression alvalue None ;;
  lresult <- deref (expr_result lvalue) ;;
  let fntype := type_dereference lresult in
  expect (is_some fntype)
         "Cannot dereference nullable pointer type for function call" ;;;
  fntype <- deref fntype ;;
  expect (storage_is fntype TYPE_STORAGE_FUNCTION)
         "Cannot call non-function type" ;;;
  result <- deref (func_result fntype) ;;
  params <- deref (func_params fntype) ;;
  v <- deref (func_variadism fntype) ;;
  args <- check_call_args v params aargs ;;
  ret (mk_expression EXPR_CALL (Some result) false (E_call lvalue args)).

Definition check_expr_cast (kind : cast_kind) (atype : ast_type)
    (avalue : ast_expression) (hint : option type) : M expression :=
  c <- get_ctx ;;
  let secondary := type_store_lookup_atype ext c atype in
  value <- check_expression avalue secondary ;;
  sec <- deref secondary ;;
  vresult <- deref (expr_result value) ;;
  expect (type_is_castable ext sec vresult) "Invalid cast" ;;;
  match kind with
  | C_ASSERTION | C_TEST =>
      let primary := type_dealias ext vresult in
      expect (storage_is primary TYPE_STORAGE_TAGGED_UNION)
             "Expected a tagged union type" ;;;
      members <- deref (tagged_members primary) ;;
      expect (existsb (fun t => (type_id ext t =? type_id ext sec)%Z) members)
             "Type is not a valid member of the tagged union type"
  | C_CAST => ret tt
  end ;;;
  let result :=
    match kind with
    | C_CAST | C_ASSERTION => secondary
    | C_TEST => Some (builtin_type_bool ext)
    end in
  ret (mk_expression EXPR_CAST result false (E_cast kind value secondary)).

Definition scalar_ival (c : ast_scalar) : option Z :=
  match c with AC_ival v => Some v | _ => None end.
Definition scalar_uval (c : ast_scalar) : option Z :=
  match c with AC_uval v => Some v | _ => None end.
Definition scalar_rune (c : ast_scalar) : option Z :=
  match c with AC_rune v => Some v | _ => None end.
Definition scalar_bval (c : ast_scalar) : option bool :=
  match c with AC_bval v => Some v | _ => None end.
Definition scalar_string (c : ast_scalar) : option (Z * list ascii) :=
  match c with AC_string n v => Some (n, v) | _ => None end.

(** [check_expr_constant] for every storage but [TYPE_STORAGE_ARRAY]. *)
Definition check_expr_constant (storage : type_storage) (c : ast_scalar)
    (hint : option type) : M expression :=
  let result := builtin_type_for_storage ext storage false in
  payload <-
    match storage with
    | TYPE_STORAGE_I8 | TYPE_STORAGE_I16 | TYPE_STORAGE_I32
    | TYPE_STORAGE_I64 | TYPE_STORAGE_INT =>
        v <- deref (scalar_ival c) ;; ret (EC_ival v)
    | TYPE_STORAGE_U8 | TYPE_STORAGE_U16 | TYPE_STORAGE_U32
    | TYPE_STORAGE_U64 | TYPE_STORAGE_UINT | TYPE_STORAGE_SIZE =>
        v <- deref (scalar_uval c) ;; ret (EC_uval v)
    | TYPE_STORAGE_RUNE =>
        v <- deref (scalar_rune c) ;; ret (EC_rune v)
    | TYPE_STORAGE_BOOL =>
        v <- deref (scalar_bval c) ;; ret (EC_bval v)
    | TYPE_STORAGE_NULL | TYPE_STORAGE_VOID =>
        (* No storage *)
        ret EC_none
    | TYPE_STORAGE_STRING =>
        s <- deref (scalar_string c) ;;
        ret (EC_string (take (Z.to_nat (fst s)) (snd s)) (fst s))
    | TYPE_STORAGE_ARRAY =>
        (* an array constant is an [A_constant_array] node *)
        crash
    | TYPE_STORAGE_F32 | TYPE_STORAGE_F64 | TYPE_STORAGE_STRUCT =>
        c_assert false ;;; crash (* TODO *)
    | TYPE_STORAGE_CHAR | TYPE_STORAGE_ENUM | TYPE_STORAGE_UINTPTR
    | TYPE_STORAGE_ALIAS | TYPE_STORAGE_FUNCTION | TYPE_STORAGE_POINTER
    | TYPE_STORAGE_SLICE | TYPE_STORAGE_TAGGED_UNION
    | TYPE_STORAGE_UNION =>
        c_assert false ;;; crash (* Invariant *)
    end ;;
  ret (mk_expression EXPR_CONSTANT result false (E_constant payload)).

Definition check_expr_defer (adeferred : ast_expression)
    (hint : option type) : M expression :=
  c <- get_ctx ;;
  expect (negb (ctx_deferring c))
         "Cannot defer within another defer expression." ;;;
  modify_ctx (set_deferring true) ;;;
  deferred <- check_expression adeferred None ;;
  modify_ctx (set_deferring false) ;;;
  ret (mk_expression EXPR_DEFER (Some (builtin_type_void ext)) false
                     (E_defer deferred)).

(** [check_expr_control]: [expr->type], [expr->terminates] and the label
    are stored; the walk up the scopes only decides whether the check
    goes on. *)
Definition check_expr_control (kind : control_kind)
    (label : option string) (hint : option type) : M expression :=
  c <- get_ctx ;;
  scope <- deref (control_walk (length (ctx_scopes c)) (ctx_scopes c)
                               (ctx_scope c) label) ;;
  expect (is_some scope) "Unknown label %s" ;;;
  ret (mk_expression (control_expr_type kind) None true (E_control label)).

Definition check_optional (a : option ast_expression) (hint : option type)
    : M (option expression) :=
  match a with
  | Some a => e <- check_expression a hint ;; ret (Some e)
  | None => ret None
  end.

Definition check_expr_for (alabel : option string)
    (abindings : option ast_expression) (acond : ast_expression)
    (aafterthought : option ast_expression) (abody : ast_expression)
    (hint : option type) : M expression :=
  scope <- scope_push ;;
  scope_set_kind scope EXPR_FOR alabel ;;;
  match alabel with
  | Some label =>
      c <- get_ctx ;;
      s <- deref (ctx_scopes c !! scope) ;;
      unique <- deref (for_label_walk (length (ctx_scopes c)) (ctx_scopes c)
                                      (scope_parent s) label) ;;
      expect unique "for loop label must be unique among its ancestors"
  | None => ret tt
  end ;;;
  bindings <- check_optional abindings None ;;
  cond <- check_expression acond (Some (builtin_type_bool ext)) ;;
  cresult <- deref (expr_result cond) ;;
  expect (storage_is cresult TYPE_STORAGE_BOOL)
         "Expected for condition to be boolean" ;;;
  afterthought <- check_optional aafterthought None ;;
  body <- check_expression abody None ;;
  scope_pop ;;;
  ret (mk_expression EXPR_FOR (Some (builtin_type_void ext)) false
         (E_for bindings cond afterthought body scope alabel)).

Definition check_expr_if (acond atrue : ast_expression)
    (afalse : option ast_expression) (hint : option type) : M expression :=
  cond <- check_expression acond (Some (builtin_type_bool ext)) ;;
  true_branch <- check_expression atrue None ;;
  r <-
    match afalse with
    | Some afalse =>
        false_branch <- check_expression afalse None ;;
        result <-
          (if expr_terminates true_branch && expr_terminates false_branch
           then ret (Some (builtin_type_void ext))
           else if expr_terminates true_branch
           then ret (expr_result false_branch)
           else if expr_terminates false_branch
           then ret (expr_result true_branch)
           else
             (* TODO: Tagged unions *)
             c_assert (type_ptr_eqb (expr_result true_branch)
                                    (expr_result false_branch)) ;;;
             ret (expr_result true_branch)) ;;
        ret (Some false_branch, result, false)
    | None =>
        ret (None, Some (builtin_type_void ext),
             expr_terminates true_branch)
    end ;;
  let '(false_branch, result, terminates) := r in
  cresult <- deref (expr_result cond) ;;
  expect (storage_is cresult TYPE_STORAGE_BOOL)
         "Expected if condition to be boolean" ;;;
  ret (mk_expression EXPR_IF result terminates
                     (E_if cond true_branch false_branch)).

(** The [while (alist)] loop of [check_expr_list]: the expressions built,
    and the result and [terminates] of the last one. *)
Definition check_list_items
    : list ast_expression -> M (list expression * option type * bool) :=
  fix loop (alist : list ast_expression) :=
    match alist with
    | [] => ret ([], None, false)
    | a :: rest =>
        lexpr <- check_expression a None ;;
        match rest with
        | [] => ret ([lexpr], expr_result lexpr, expr_terminates lexpr)
        | _ =>
            r <- loop rest ;;
            let '(exprs, result, terminates) := r in
            ret (lexpr :: exprs, result, terminates)
        end
    end.

Definition check_expr_list (alist : list ast_expression)
    (hint : option type) : M expression :=
  scope <- scope_push ;;
  scope_set_kind scope EXPR_LIST None ;;;
  r <- match alist with
       | [] => crash
       | _ => check_list_items alist
       end ;;
  let '(exprs, result, terminates) := r in
  scope_pop ;;;
  ret (mk_expression EXPR_LIST result terminates (E_list exprs scope)).

Definition check_expr_measure_len (avalue : ast_expression)
    : M expression :=
  value <- check_expression avalue None ;;
  vresult <- deref (expr_result value) ;;
  expect (storage_is vresult TYPE_STORAGE_ARRAY
          || storage_is vresult TYPE_STORAGE_SLICE
          || storage_is vresult TYPE_STORAGE_STRING)
         "len argument must be of an array, slice, or str type" ;;;
  expect (negb (type_size vresult =? SIZE_UNDEFINED)%Z)
         "Cannot take length of array type with undefined length" ;;;
  ret (mk_expression EXPR_MEASURE (Some (builtin_type_size ext)) false
                     (E_measure_len value)).

Definition check_expr_measure_size (atype : ast_type) : M expression :=
  c <- get_ctx ;;
  ret (mk_expression EXPR_MEASURE (Some (builtin_type_size ext)) false
         (E_measure_size (type_store_lookup_atype ext c atype))).

Definition check_expr_return (avalue : option ast_expression)
    (hint : option type) : M expression :=
  value <-
    match avalue with
    | Some avalue =>
        c <- get_ctx ;;
        fntype <- deref (ctx_current_fntype c) ;;
        fresult <- deref (func_result fntype) ;;
        rval <- check_expression avalue (Some fresult) ;;
        ok <- is_assignable (Some fresult) (expr_result rval) ;;
        expect ok
          "Return value is not assignable to function result type" ;;;
        let rval :=
          if negb (type_ptr_eqb (Some fresult) (expr_result rval))
          then lower_implicit_cast (Some fresult) rval
          else rval in
        ret (Some rval)
    | None => ret None
    end ;;
  ret (mk_expression EXPR_RETURN (Some (builtin_type_void ext)) true
                     (E_return value)).

(** A bound of [check_expr_slice]: an integer, cast to [size]. *)
Definition check_slice_operand (a : option ast_expression)
    : M (option expression) :=
  match a with
  | Some a =>
      e <- check_expression a None ;;
      eresult <- deref (expr_result e) ;;
      let itype := type_dealias ext eresult in
      expect (type_is_integer ext itype)
             "Cannot use non-integer %s type as slicing operand" ;;;
      ret (Some (lower_implicit_cast (Some (builtin_type_size ext)) e))
  | None => ret None
  end.

Definition check_expr_slice (aobject : ast_expression)
    (astart aend : option ast_expression) (hint : option type)
    : M expression :=
  object <- check_expression aobject None ;;
  oresult <- deref (expr_result object) ;;
  let atype := type_dereference oresult in
  expect (is_some atype)
         "Cannot dereference nullable pointer for slicing" ;;;
  expect (storage_is oresult TYPE_STORAGE_SLICE
          || storage_is oresult TYPE_STORAGE_ARRAY)
         "Cannot slice non-array, non-slice object" ;;;
  start <- check_slice_operand astart ;;
  end_ <- check_slice_operand aend ;;
  members <- deref (array_members oresult) ;;
  ret (mk_expression EXPR_SLICE
         (Some (type_store_lookup_slice ext members)) false
         (E_slice object start end_)).

(** The first loop of [check_expr_struct], for one field. *)
Definition check_struct_value (afield : ast_field_value) : M expression :=
  c_assert (negb (field_value_is_embedded afield)) ;;; (* TODO *)
  c <- get_ctx ;;
  check_expression (field_value_initializer afield)
    (type_store_lookup_atype ext c (field_value_type afield)).

(** The second loop of [check_expr_struct], for one field. *)
Definition check_struct_field (result : type)
    (fv : ast_field_value * expression) : M (struct_field * expression) :=
  let field := type_get_field ext result (field_value_name (fst fv)) in
  expect (is_some field) "No field by this name exists for this type" ;;;
  field <- deref field ;;
  ok <- is_assignable (Some (field_type field)) (expr_result (snd fv)) ;;
  expect ok "Cannot initialize struct field from value of this type" ;;;
  ret (field, lower_implicit_cast (Some (field_type field)) (snd fv)).

Definition struct_literal_type (afields : list ast_field_value) : ast_type :=
  mk_ast_type (mk_location "" 0 0) TYPE_STORAGE_STRUCT TYPE_CONST
    (AT_struct_union
       (map (fun f => (field_value_name f, field_value_type f)) afields)).

Definition check_expr_struct (autofill : bool)
    (type_name : option identifier) (afields : list ast_field_value)
    (hint : option type) : M expression :=
  c_assert (negb autofill) ;;; (* TODO *)
  c_assert (negb (is_some type_name)) ;;; (* TODO *)
  match afields with
  | [] => crash
  | _ =>
      values <- mapM check_struct_value afields ;;
      c <- get_ctx ;;
      let result :=
        type_store_lookup_atype ext c (struct_literal_type afields) in
      rtype <- deref result ;;
      fields <- mapM (check_struct_field rtype) (zip afields values) ;;
      ret (mk_expression EXPR_STRUCT result false (E_struct fields))
  end.

(** The inner loop of [check_expr_switch], for one option of a case. *)
Definition check_case_option (type_ : option type)
    (aopt : ast_expression) : M expression :=
  value <- check_expression aopt type_ ;;
  (* XXX: Should this be assignable instead? *)
  expect (type_ptr_eqb type_ (expr_result value))
         "Invalid type for switch case" ;;;
  c <- get_ctx ;;
  let r := eval_expr ext c value in
  expect (is_some r) "Unable to evaluate case at compile time" ;;;
  deref r.

(** The outer loop of [check_expr_switch]; [result] is [expr->result]
    so far, null until a case that does not terminate is met. *)
Definition check_switch_cases (type_ : option type)
    : list ast_switch_case -> option type ->
      M (list switch_case * option type) :=
  fix loop (acases : list ast_switch_case) (result : option type)
      {struct acases} :=
    match acases with
    | [] => ret ([], result)
    | acase :: rest =>
        options <- mapM (check_case_option type_) (case_options acase) ;;
        value <- check_expression (case_value acase) type_ ;;
        result <-
          (if expr_terminates value then ret result
           else
             match result with
             | None => ret (expr_result value)
             | Some _ =>
                 (* TODO: Form tagged union *)
                 c_assert (type_ptr_eqb result (expr_result value)) ;;;
                 ret result
             end) ;;
        r <- loop rest result ;;
        ret (mk_switch_case options value :: fst r, snd r)
    end.

Definition check_expr_switch (avalue : ast_expression)
    (acases : list ast_switch_case) (hint : option type) : M expression :=
  value <- check_expression avalue None ;;
  let type_ := expr_result value in
  (* TODO: Test for dupes, exhaustiveness *)
  r <- check_switch_cases type_ acases None ;;
  let '(cases, result) := r in
  match result with
  | None =>
      ret (mk_expression EXPR_SWITCH (Some (builtin_type_void ext)) true
                         (E_switch value cases))
  | Some _ =>
      ret (mk_expression EXPR_SWITCH result false (E_switch value cases))
  end.

Definition check_expr_unarithm (op : unarithm_operator)
    (aoperand : ast_expression) (hint : option type) : M expression :=
  operand <- check_expression aoperand None ;;
  oresult <- deref (expr_result operand) ;;
  result <-
    match op with
    | UN_LNOT =>
        expect (storage_is oresult TYPE_STORAGE_BOOL)
               "Cannot perform logical NOT (!) on non-boolean type" ;;;
        ret (Some (builtin_type_bool ext))
    | UN_BNOT =>
        expect (type_is_integer ext oresult)
               "Cannot perform binary NOT (~) on non-integer type" ;;;
        expect (negb (type_is_signed ext oresult))
               "Cannot perform binary NOT (~) on signed type" ;;;
        ret (expr_result operand)
    | UN_MINUS | UN_PLUS =>
        expect (type_is_numeric ext oresult)
               "Cannot perform operation on non-numeric type" ;;;
        expect (type_is_signed ext oresult)
               "Cannot perform operation on unsigned type" ;;;
        ret (expr_result operand)
    | UN_ADDRESS =>
        ret (Some (type_store_lookup_pointer ext oresult 0%N))
    | UN_DEREF =>
        expect (storage_is oresult TYPE_STORAGE_POINTER)
               "Cannot de-reference non-pointer type" ;;;
        pflags <- deref (pointer_flags oresult) ;;
        expect (negb (has_flag pflags PTR_NULLABLE))
               "Cannot dereference nullable pointer type" ;;;
        referent <- deref (pointer_referent oresult) ;;
        ret (Some referent)
    end ;;
  ret (mk_expression EXPR_UNARITHM result false (E_unarithm op operand)).

End Elaboration.

End Checker.

(** [check_expression]: the dispatch on the kind of the parsed node. *)
Fixpoint check_expression (ext : externals) (aexpr : ast_expression)
    (hint : option type) {struct aexpr} : M expression :=
  let rec := check_expression ext in
  match aexpr with
  | mk_ast_expression loc u =>
      match u with
      | A_access_ident ident => check_expr_access_ident ident
      | A_access_index array index =>
          check_expr_access_index ext rec array index
      | A_access_field _struct field =>
          check_expr_access_field ext rec _struct field
      | A_assert cond message =>
          check_expr_assert ext rec loc cond message hint
      | A_assign op object value indirect =>
          check_expr_assign ext rec op object value indirect hint
      | A_binarithm op lvalue rvalue =>
          check_expr_binarithm ext rec op lvalue rvalue hint
      | A_binding bindings => check_expr_binding ext rec bindings hint
      | A_control kind label => check_expr_control kind label hint
      | A_call lvalue args => check_expr_call ext rec lvalue args hint
      | A_cast kind type_ value => check_expr_cast ext rec kind type_ value hint
      | A_constant storage c => check_expr_constant ext storage c hint
      | A_constant_array items =>
          check_expr_array ext rec array_item_value array_item_expand
                           items hint
      | A_defer deferred => check_expr_defer ext rec deferred hint
      | A_for label _ bindings cond afterthought body =>
          check_expr_for ext rec label bindings cond afterthought body hint
      | A_if cond true_branch false_branch =>
          check_expr_if ext rec cond true_branch false_branch hint
      | A_list exprs => check_expr_list rec exprs hint
      | A_match => c_assert false ;;; crash (* TODO *)
      | A_measure_len value => check_expr_measure_len ext rec value
      | A_measure_size type_ => check_expr_measure_size ext type_
      | A_measure_offset => c_assert false ;;; crash (* TODO *)
      | A_return value => check_expr_return ext rec value hint
      | A_slice object start end_ =>
          check_expr_slice ext rec object start end_ hint
      | A_struct autofill type_name fields =>
          check_expr_struct ext rec autofill type_name fields hint
      | A_switch value cases => check_expr_switch ext rec value cases hint
      | A_unarithm op operand => check_expr_unarithm ext rec op operand hint
      end
  end.

(** ** Declarations *)

Record ast_function_decl : Type := mk_ast_function_decl {
  fn_ident : identifier;
  fn_symbol : option string;
  fn_flags : N;
  fn_prototype : ast_function_type;
  fn_body : option ast_expression
}.

Record ast_global_decl : Type := mk_ast_global_decl {
  gl_ident : identifier;
  gl_symbol : option string;
  gl_type : ast_type;
  gl_init : option ast_expression
}.

Record ast_type_decl : Type := mk_ast_type_decl {
  ty_ident : identifier;
  ty_type : ast_type
}.

Inductive ast_decl_union : Type :=
  | AST_DECL_FUNC (function : ast_function_decl)
  | AST_DECL_GLOBAL (global : ast_global_decl)
  | AST_DECL_TYPE (type_ : ast_type_decl)
  | AST_DECL_CONST (constant : ast_global_decl).

Record ast_decl : Type := mk_ast_decl {
  adecl_loc : location;
  adecl_exported : bool;
  adecl_u : ast_decl_union
}.

Inductive declaration_union : Type :=
  | DECL_FUNC (type_ : type) (body : option expression)
              (scope : option scope_ptr) (flags : N)
  | DECL_GLOBAL (type_ : option type) (value : expression)
  | DECL_TYPE (type_ : option type).

Record declaration : Type := mk_declaration {
  decl_ident : identifier;
  decl_symbol : option string;
  decl_exported : bool;
  decl_u : declaration_union
}.

(** [mkident]: the name of [in_], in the namespace of the unit if there
    is one. *)
Definition mkident (c : context) (in_ : identifier) : identifier :=
  match ctx_ns c with
  | Some ns => mk_identifier (ident_name in_) (Some ns)
  | None => in_
  end.

(** The identifier and symbol that [check_function] and [check_global]
    give a declaration. *)
Definition decl_names (c : context) (symbol : option string)
    (ident : identifier) : identifier * option string :=
  match symbol with
  | Some sym => (mk_identifier sym None, Some sym)
  | None => (mkident c ident, None)
  end.

Definition set_exported (b : bool) (d : declaration) : declaration :=
  mk_declaration (decl_ident d) (decl_symbol d) b (decl_u d).

(** [decl->func.scope = scope]. *)
Definition set_func_scope (p : scope_ptr) (d : declaration) : declaration :=
  match decl_u d with
  | DECL_FUNC t b _ f =>
      mk_declaration (decl_ident d) (decl_symbol d) (decl_exported d)
                     (DECL_FUNC t b (Some p) f)
  | _ => d
  end.

(** [decl->func.body = body]. *)
Definition set_func_body (e : expression) (d : declaration) : declaration :=
  match decl_u d with
  | DECL_FUNC t _ p f =>
      mk_declaration (decl_ident d) (decl_symbol d) (decl_exported d)
                     (DECL_FUNC t (Some e) p f)
  | _ => d
  end.

(** [decl->func.flags]. *)
Definition decl_func_flags (d : declaration) : N :=
  match decl_u d with
  | DECL_FUNC _ _ _ f => f
  | _ => 0%N
  end.

Section Declarations.

Context (ext : externals).

(** The [while (params)] loop of [check_function]. *)
Fixpoint check_function_params (v : variadism) (scope : scope_ptr)
    (params : list ast_function_parameters) : M unit :=
  match params with
  | [] => ret tt
  | p :: rest =>
      expect (is_some (param_name p)) "Function parameters must be named" ;;;
      name <- deref (param_name p) ;;
      let ident := mk_identifier name None in
      c <- get_ctx ;;
      let type_ := type_store_lookup_atype ext c (param_type p) in
      type_ <-
        (if (if variadism_eq_dec v VARIADISM_HARE then true else false)
            && list_is_nil rest
         then t <- deref type_ ;; ret (Some (type_store_lookup_slice ext t))
         else ret type_) ;;
      scope_insert (Some scope) O_BIND ident ident type_ None ;;;
      check_function_params v scope rest
  end.

Definition function_ast_type (proto : ast_function_type) : ast_type :=
  mk_ast_type (mk_location "" 0 0) TYPE_STORAGE_FUNCTION TYPE_CONST
              (AT_func proto).

Definition check_function (adecl : ast_decl) (afndecl : ast_function_decl)
    : M (option declaration) :=
  match fn_body afndecl with
  | None => ret None (* Prototype *)
  | Some abody =>
      c <- get_ctx ;;
      let fntype :=
        type_store_lookup_atype ext c
          (function_ast_type (fn_prototype afndecl)) in
      c_assert (is_some fntype) ;;; (* Invariant *)
      fntype <- deref fntype ;;
      modify_ctx (set_current_fntype (Some fntype)) ;;;
      v <- deref (func_variadism fntype) ;;
      expect (negb (if variadism_eq_dec v VARIADISM_C then true else false))
        "C-style variadism is not allowed for function declarations" ;;;
      (* [decl] comes zeroed from xcalloc *)
      let names := decl_names c (fn_symbol afndecl) (fn_ident afndecl) in
      let decl :=
        mk_declaration (fst names) (snd names) false
          (DECL_FUNC fntype None None (fn_flags afndecl)) in
      scope <- scope_push ;;
      let decl := set_func_scope scope decl in
      check_function_params v scope
        (proto_params (fn_prototype afndecl)) ;;;
      fresult <- deref (func_result fntype) ;;
      body <- check_expression ext abody (Some fresult) ;;
      ok <- (if expr_terminates body then ret true
             else is_assignable ext (Some fresult) (expr_result body)) ;;
      expect ok "Result value is not assignable to function result type" ;;;
      let body :=
        if negb (expr_terminates body)
           && negb (type_ptr_eqb (Some fresult) (expr_result body))
        then lower_implicit_cast (Some fresult) body
        else body in
      let decl := set_func_body body decl in
      (* TODO: Add function name to errors *)
      (if has_flag (decl_func_flags decl) FN_INIT
          || has_flag (decl_func_flags decl) FN_FINI
          || has_flag (decl_func_flags decl) FN_TEST
       then
         expect (type_ptr_eqb (Some fresult) (Some (builtin_type_void ext)))
                "%s function must return void" ;;;
         expect (negb (decl_exported decl))
                "%s function cannot be exported"
       else ret tt) ;;;
      scope_pop ;;;
      modify_ctx (set_current_fntype None) ;;;
      ret (Some decl)
  end.

Definition check_global (adecl : ast_decl) (agdecl : ast_global_decl)
    : M (option declaration) :=
  match gl_init agdecl with
  | None => ret None (* Forward declaration *)
  | Some ainit =>
      c <- get_ctx ;;
      let type_ := type_store_lookup_atype ext c (gl_type agdecl) in
      initializer <- check_expression ext ainit type_ ;;
      ok <- is_assignable ext type_ (expr_result initializer) ;;
      expect ok "Constant type is not assignable from initializer type" ;;;
      let initializer := lower_implicit_cast type_ initializer in
      c <- get_ctx ;;
      let r := eval_expr ext c initializer in
      expect (is_some r)
             "Unable to evaluate global initializer at compile time" ;;;
      value <- deref r ;;
      let names := decl_names c (gl_symbol agdecl) (gl_ident agdecl) in
      ret (Some (mk_declaration (fst names) (snd names) false
                   (DECL_GLOBAL type_ value)))
  end.

Definition check_type (adecl : ast_decl) (atdecl : ast_type_decl)
    : M (option declaration) :=
  c <- get_ctx ;;
  let type_ := type_store_lookup_atype ext c (ty_type atdecl) in
  ret (Some (mk_declaration (mkident c (ty_ident atdecl)) None false
               (DECL_TYPE type_))).

(** [check_declarations]: the declarations checked, in order. *)
Fixpoint check_declarations (adecls : list ast_decl)
    : M (list declaration) :=
  match adecls with
  | [] => ret []
  | adecl :: rest =>
      decl <-
        match adecl_u adecl with
        | AST_DECL_CONST _ => ret None (* Handled in scan *)
        | AST_DECL_FUNC f => check_function adecl f
        | AST_DECL_GLOBAL g => check_global adecl g
        | AST_DECL_TYPE t => check_type adecl t
        end ;;
      decls <- check_declarations rest ;;
      match decl with
      | Some decl => ret (set_exported (adecl_exported adecl) decl :: decls)
      | None => ret decls
      end
  end.

(** ** The scan pass *)

Definition scan_const (decl : ast_global_decl) : M unit :=
  c_assert (negb (is_some (gl_symbol decl))) ;;; (* Invariant *)
  c <- get_ctx ;;
  let type_ := type_store_lookup_atype ext c (gl_type decl) in
  ainit <- deref (gl_init decl) ;;
  initializer <- check_expression ext ainit type_ ;;
  ok <- is_assignable ext type_ (expr_result initializer) ;;
  expect ok "Constant type is not assignable from initializer type" ;;;
  let initializer := lower_implicit_cast type_ initializer in
  c <- get_ctx ;;
  let r := eval_expr ext c initializer in
  expect (is_some r)
         "Unable to evaluate constant initializer at compile time" ;;;
  value <- deref r ;;
  let ident := mkident c (gl_ident decl) in
  scope_insert (ctx_unit c) O_CONST ident (gl_ident decl) type_
               (Some value) ;;;
  ret tt.

Definition scan_function (decl : ast_function_decl) : M unit :=
  c <- get_ctx ;;
  let fntype :=
    type_store_lookup_atype ext c (function_ast_type (fn_prototype decl)) in
  c_assert (is_some fntype) ;;; (* TODO: Forward references *)
  let ident :=
    match fn_symbol decl with
    | Some sym => mk_identifier sym None
    | None => mkident c (fn_ident decl)
    end in
  scope_insert (ctx_unit c) O_DECL ident (fn_ident decl) fntype None ;;;
  ret tt.

Definition scan_global (decl : ast_global_decl) : M unit :=
  c <- get_ctx ;;
  let type_ := type_store_lookup_atype ext c (gl_type decl) in
  c_assert (is_some type_) ;;; (* TODO: Forward references *)
  let ident :=
    match gl_symbol decl with
    | Some sym => mk_identifier sym None
    | None => mkident c (gl_ident decl)
    end in
  scope_insert (ctx_unit c) O_DECL ident (gl_ident decl) type_ None ;;;
  ret tt.

(** The alias type that [scan_type] gives the values of an enum. *)
Definition enum_alias_ast_type (decl : ast_type_decl) : ast_type :=
  mk_ast_type (ast_type_loc (ty_type decl)) TYPE_STORAGE_ALIAS 0%N
              (AT_alias false (ty_ident decl)).

(** The short name [EnumName::Value] of an enum value, as the
    declaration spells the enum. *)
Definition enum_value_name (decl : ast_type_decl) (value : enum_value)
    : identifier :=
  mk_identifier (ev_name value)
    (Some (mk_identifier (ident_name (ty_ident decl))
                         (ident_ns (ty_ident decl)))).

(** The name of an enum value under the identifier [ident] that
    [mkident] made for the enum. *)
Definition enum_value_vident (ident : identifier) (value : enum_value)
    : identifier :=
  mk_identifier (ev_name value) (Some ident).

(** The body of the loop of [scan_type] over the values of an enum. *)
Definition scan_enum_value (decl : ast_type_decl) (ident : identifier)
    (value : enum_value) : M unit :=
  c <- get_ctx ;;
  let alias := type_store_lookup_atype ext c (enum_alias_ast_type decl) in
  a <- deref alias ;;
  let expr :=
    mk_expression EXPR_CONSTANT alias false
      (E_constant (if type_is_signed ext a then EC_ival (ev_ival value)
                   else EC_uval (ev_uval value))) in
  scope_insert (ctx_unit c) O_CONST (enum_value_name decl value)
               (enum_value_vident ident value) alias (Some expr) ;;;
  ret tt.

Fixpoint scan_enum_values (decl : ast_type_decl) (ident : identifier)
    (values : list enum_value) : M unit :=
  match values with
  | [] => ret tt
  | value :: rest =>
      scan_enum_value decl ident value ;;;
      scan_enum_values decl ident rest
  end.

Definition scan_type (decl : ast_type_decl) : M unit :=
  c <- get_ctx ;;
  let type_ := type_store_lookup_atype ext c (ty_type decl) in
  let ident := mkident c (ty_ident decl) in
  scope_insert (ctx_unit c) O_TYPE ident (ty_ident decl) type_ None ;;;
  t <- deref type_ ;;
  if storage_is t TYPE_STORAGE_ENUM then
    values <- deref (enum_values t) ;;
    scan_enum_values decl ident values
  else ret tt.

Fixpoint scan_declarations (decls : list ast_decl) : M unit :=
  match decls with
  | [] => ret tt
  | decl :: rest =>
      match adecl_u decl with
      | AST_DECL_CONST d => scan_const d
      | AST_DECL_FUNC d => scan_function d
      | AST_DECL_GLOBAL d => scan_global d
      | AST_DECL_TYPE d => scan_type d
      end ;;;
      scan_declarations rest
  end.

End Declarations.

(** ** The unit (ast.h, check.h) and the driver of the two passes *)

(** [struct ast_subunit]: check.c only looks whether there are imports. *)
Record ast_subunit : Type := mk_ast_subunit {
  su_imports : option N;
  su_decls : list ast_decl
}.

(** [struct ast_unit]: the subunits; the first one is part of the
    struct, so the list of a parsed unit is not empty. *)
Record ast_unit : Type := mk_ast_unit {
  aunit_subunits : list ast_subunit
}.

Definition set_ns (ns : option identifier) (c : context) : context :=
  mk_context ns (ctx_unit c) (ctx_scope c) (ctx_deferring c) (ctx_id c)
             (ctx_current_fntype c) (ctx_scopes c).
Definition set_unit (p : option scope_ptr) (c : context) : context :=
  mk_context (ctx_ns c) p (ctx_scope c) (ctx_deferring c) (ctx_id c)
             (ctx_current_fntype c) (ctx_scopes c).

Section Driver.

Context (ext : externals).

(** The first loop of [check]: every subunit is scanned in a scope of
    its own, which is kept for the second pass. *)
Fixpoint scan_subunits (sus : list ast_subunit) : M (list scope_ptr) :=
  match sus with
  | [] => ret []
  | su :: rest =>
      scope_push ;;;
      c_assert (negb (is_some (su_imports su))) ;;; (* TODO *)
      scan_declarations ext (su_decls su) ;;;
      scope <- scope_pop ;;
      scopes <- scan_subunits rest ;;
      ret (scope :: scopes)
  end.

(** The second loop of [check]: the declarations of every subunit are
    checked in the scope that the first pass made for it. *)
Fixpoint check_subunits (sus : list ast_subunit) (scopes : list scope_ptr)
    : M (list declaration) :=
  match sus with
  | [] => ret []
  | su :: rest =>
      match scopes with
      | [] => crash
      | scope :: srest =>
          modify_ctx (set_scope (Some scope)) ;;;
          decls <- check_declarations ext (su_decls su) ;;
          more <- check_subunits rest srest ;;
          ret ((decls ++ more)%list)
      end
  end.

(** [check(ctx, aunit, unit)]: [unit_ns] is [unit->ns], and the value
    returned is [unit->declarations]. *)
Definition check (aunit : ast_unit) (unit_ns : option identifier)
    : M (list declaration) :=
  modify_ctx (set_ns unit_ns) ;;;
  unit <- scope_push ;;
  modify_ctx (set_unit (Some unit)) ;;;
  match aunit_subunits aunit with
  | [] => crash
  | _ =>
      scopes <- scan_subunits (aunit_subunits aunit) ;;
      check_subunits (aunit_subunits aunit) scopes
  end.

End Driver.

(** ** A small type store, to run the checker on examples *)

Module Demo.

Definition builtin_size_of (s : type_storage) : option Z :=
  match s with
  | TYPE_STORAGE_VOID => Some 0
  | TYPE_STORAGE_BOOL | TYPE_STORAGE_CHAR | TYPE_STORAGE_I8
  | TYPE_STORAGE_U8 => Some 1
  | TYPE_STORAGE_I16 | TYPE_STORAGE_U16 => Some 2
  | TYPE_STORAGE_I32 | TYPE_STORAGE_U32 | TYPE_STORAGE_INT
  | TYPE_STORAGE_UINT | TYPE_STORAGE_RUNE | TYPE_STORAGE_F32 => Some 4
  | TYPE_STORAGE_I64 | TYPE_STORAGE_U64 | TYPE_STORAGE_SIZE
  | TYPE_STORAGE_UINTPTR | TYPE_STORAGE_F64 | TYPE_STORAGE_NULL => Some 8
  | TYPE_STORAGE_STRING => Some 24
  | _ => None
  end%Z.

Definition builtin (s : type_storage) (is_const : bool) : option type :=
  match builtin_size_of s with
  | Some z => Some (mk_type s (if is_const then TYPE_CONST else 0%N) z P_none)
  | None => None
  end.

Definition t_void : type := mk_type TYPE_STORAGE_VOID 0 0 P_none.
Definition t_bool : type := mk_type TYPE_STORAGE_BOOL 0 1 P_none.
Definition t_int : type := mk_type TYPE_STORAGE_INT 0 4 P_none.
Definition t_u8 : type := mk_type TYPE_STORAGE_U8 0 1 P_none.
Definition t_size : type := mk_type TYPE_STORAGE_SIZE 0 8 P_none.
Definition t_str : type := mk_type TYPE_STORAGE_STRING 0 24 P_none.
Definition t_const_str : type :=
  mk_type TYPE_STORAGE_STRING TYPE_CONST 24 P_none.

(** The enum [Color { Red, Green }]. *)
Definition t_color : type :=
  mk_type TYPE_STORAGE_ENUM 0 4
    (P_enum [mk_enum_value "Red" 0 0; mk_enum_value "Green" 1 1]).

Definition lookup_pointer (t : type) (f : N) : type :=
  mk_type TYPE_STORAGE_POINTER 0 8 (P_pointer t f).
Definition lookup_slice (t : type) : type :=
  mk_type TYPE_STORAGE_SLICE 0 24 (P_array t SIZE_UNDEFINED).
Definition lookup_array (t : type) (n : Z) : type :=
  mk_type TYPE_STORAGE_ARRAY 0
    (if (n =? SIZE_UNDEFINED)%Z then SIZE_UNDEFINED else (n * type_size t)%Z)
    (P_array t n).

Definition traverse {A B} (f : A -> option B) : list A -> option (list B) :=
  fix go (l : list A) :=
    match l with
    | [] => Some []
    | a :: rest =>
        match f a, go rest with
        | Some b, Some bs => Some (b :: bs)
        | _, _ => None
        end
    end.

(** Interning of a syntactic type: builtins by storage, function types
    from their prototype, struct types from their fields; the one enum
    of the examples stands behind every opaque enum payload, and an
    alias resolves to it. *)
Fixpoint lookup_atype (a : ast_type) : option type :=
  match a with
  | mk_ast_type _ s f p =>
      match p with
      | AT_none => builtin s (has_flag f TYPE_CONST)
      | AT_opaque _ =>
          match s with
          | TYPE_STORAGE_ENUM => Some t_color
          | _ => None
          end
      | AT_alias _ id =>
          Some (mk_type TYPE_STORAGE_ALIAS f 4 (P_alias id t_color))
      | AT_func (mk_ast_function_type r ps v) =>
          match lookup_atype r,
                traverse (fun q =>
                            match q with
                            | mk_ast_function_parameters _ _ t =>
                                lookup_atype t
                            end) ps with
          | Some rt, Some pts =>
              Some (mk_type TYPE_STORAGE_FUNCTION f 0 (P_func rt pts v))
          | _, _ => None
          end
      | AT_struct_union fs =>
          match traverse (fun q =>
                            match lookup_atype (snd q) with
                            | Some t => Some (fst q, t)
                            | None => None
                            end) fs with
          | Some fts =>
              Some (mk_type TYPE_STORAGE_STRUCT f
                      (fold_right Z.add 0%Z (map (fun q => type_size (snd q)) fts))
                      (P_struct_union fts))
          | None => None
          end
      end
  end.

Definition is_integer (t : type) : bool :=
  match type_storage_of t with
  | TYPE_STORAGE_I8 | TYPE_STORAGE_I16 | TYPE_STORAGE_I32
  | TYPE_STORAGE_I64 | TYPE_STORAGE_INT | TYPE_STORAGE_U8
  | TYPE_STORAGE_U16 | TYPE_STORAGE_U32 | TYPE_STORAGE_U64
  | TYPE_STORAGE_UINT | TYPE_STORAGE_SIZE | TYPE_STORAGE_UINTPTR
  | TYPE_STORAGE_CHAR => true
  | _ => false
  end.

Definition is_signed (t : type) : bool :=
  match type_storage_of t with
  | TYPE_STORAGE_I8 | TYPE_STORAGE_I16 | TYPE_STORAGE_I32
  | TYPE_STORAGE_I64 | TYPE_STORAGE_INT | TYPE_STORAGE_F32
  | TYPE_STORAGE_F64 => true
  | _ => false
  end.

Definition is_numeric (t : type) : bool :=
  is_integer t ||
  match type_storage_of t with
  | TYPE_STORAGE_F32 | TYPE_STORAGE_F64 => true
  | _ => false
  end.

Fixpoint dealias (t : type) : type :=
  match t with
  | mk_type _ _ _ (P_alias _ target) => dealias target
  | _ => t
  end.

(** Identity is assignable, and so is a type that differs in its flags
    only; integers go into wider integers of the same signedness. *)
Definition is_assignable (to from : type) : bool :=
  (if type_eq_dec to from then true else false)
  || (storage_eqb (type_storage_of to) (type_storage_of from)
      && (if type_payload_eq_dec (type_payload_of to) (type_payload_of from)
          then true else false))
  || (is_integer to && is_integer from
      && Bool.eqb (is_signed to) (is_signed from)
      && (type_size from <=? type_size to)%Z).

Definition is_castable (to from : type) : bool :=
  is_assignable to from || (is_numeric to && is_numeric from).

Definition get_field (t : type) (name : string) : option struct_field :=
  match type_payload_of t with
  | P_struct_union fs =>
      match List.find (fun q => String.eqb (fst q) name) fs with
      | Some q => Some (mk_struct_field (fst q) (snd q) 0)
      | None => None
      end
  | _ => None
  end.

Definition storage_index (s : type_storage) : Z :=
  match s with
  | TYPE_STORAGE_BOOL => 0 | TYPE_STORAGE_CHAR => 1 | TYPE_STORAGE_ENUM => 2
  | TYPE_STORAGE_F32 => 3 | TYPE_STORAGE_F64 => 4 | TYPE_STORAGE_I16 => 5
  | TYPE_STORAGE_I32 => 6 | TYPE_STORAGE_I64 => 7 | TYPE_STORAGE_I8 => 8
  | TYPE_STORAGE_INT => 9 | TYPE_STORAGE_NULL => 10
  | TYPE_STORAGE_RUNE => 11 | TYPE_STORAGE_SIZE => 12
  | TYPE_STORAGE_U16 => 13 | TYPE_STORAGE_U32 => 14
  | TYPE_STORAGE_U64 => 15 | TYPE_STORAGE_U8 => 16
  | TYPE_STORAGE_UINT => 17 | TYPE_STORAGE_UINTPTR => 18
  | TYPE_STORAGE_VOID => 19 | TYPE_STORAGE_ALIAS => 20
  | TYPE_STORAGE_ARRAY => 21 | TYPE_STORAGE_FUNCTION => 22
  | TYPE_STORAGE_POINTER => 23 | TYPE_STORAGE_SLICE => 24
  | TYPE_STORAGE_STRING => 25 | TYPE_STORAGE_STRUCT => 26
  | TYPE_STORAGE_TAGGED_UNION => 27 | TYPE_STORAGE_UNION => 28
  end%Z.

Definition id_of (t : type) : Z :=
  (storage_index (type_storage_of t) * 2 + Z.of_N (type_flags t))%Z.

(** Constants evaluate to themselves; a cast of a constant evaluates to
    the constant at the type of the cast; nothing else evaluates. *)
Definition eval (e : expression) : option expression :=
  match e with
  | mk_expression EXPR_CONSTANT _ _ (E_constant _) => Some e
  | mk_expression EXPR_CAST r _
      (E_cast C_CAST (mk_expression EXPR_CONSTANT _ t (E_constant c)) _) =>
      Some (mk_expression EXPR_CONSTANT r t (E_constant c))
  | _ => None
  end.

Definition store : externals :=
  mk_externals (fun _ => lookup_atype) lookup_pointer lookup_slice
    lookup_array dealias is_integer is_signed is_numeric is_assignable
    is_castable get_field id_of (fun _ => None) (fun _ => eval) builtin
    t_void t_bool t_size t_str t_const_str.

Definition here : location := mk_location "main.ha" 3 5.
Definition at_ (u : ast_expression_union) : ast_expression :=
  mk_ast_expression here u.

(** A context with the unit scope (0), a function scope (1) and, inside
    it, the scope of a [for] loop labelled [outer] (2), which is
    current. *)
Definition in_loop : context :=
  mk_context None (Some 0%nat) (Some 2%nat) false 0 None
    [ mk_scope EXPR_ACCESS None None [];
      mk_scope EXPR_ACCESS None (Some 0%nat) [];
      mk_scope EXPR_FOR (Some "outer") (Some 1%nat) [] ].

(** [break], [true], [if (true) break else break], and an [assert]
    without a condition and without a message. *)
Definition a_break : ast_expression := at_ (A_control CTRL_BREAK None).
Definition a_true : ast_expression :=
  at_ (A_constant TYPE_STORAGE_BOOL (AC_bval true)).
Definition a_if_break_else_break : ast_expression :=
  at_ (A_if a_true a_break (Some a_break)).
Definition a_assert : ast_expression := at_ (A_assert None None).

(** [for (true) { break; }]. *)
Definition a_for : ast_expression :=
  at_ (A_for None here None a_true None (at_ (A_list [a_break]))).

(** The loop scope again, now with a binding [a] of type
    [const [3]int]; and the expression [a[1u8]]. *)
Definition t_const_array : type :=
  mk_type TYPE_STORAGE_ARRAY TYPE_CONST 12 (P_array t_int 3).

Definition with_array : context :=
  mk_context None (Some 0%nat) (Some 2%nat) false 0 None
    [ mk_scope EXPR_ACCESS None None [];
      mk_scope EXPR_ACCESS None (Some 0%nat) [];
      mk_scope EXPR_FOR (Some "outer") (Some 1%nat)
        [ mk_scope_object O_BIND (mk_identifier "a" None)
            (mk_identifier "a" None) (Some t_const_array) None ] ].

Definition a_index : ast_expression :=
  at_ (A_access_index (at_ (A_access_ident (mk_identifier "a" None)))
                      (at_ (A_constant TYPE_STORAGE_U8 (AC_uval 1)))).

(** A context at top level: the unit scope (0) and the scope of a
    subunit (1), which is current. *)
Definition unit_ctx : context :=
  mk_context None (Some 0%nat) (Some 1%nat) false 0 None
    [ mk_scope EXPR_ACCESS None None [];
      mk_scope EXPR_ACCESS None (Some 0%nat) [] ].

Definition proto (result : type_storage) : ast_function_type :=
  mk_ast_function_type (mk_ast_type here result 0 AT_none) []
                       VARIADISM_NONE.

(** [export @test fn t() int;], a prototype. *)
Definition f_test_prototype : ast_function_decl :=
  mk_ast_function_decl (mk_identifier "t" None) None FN_TEST
                       (proto TYPE_STORAGE_INT) None.
Definition d_test_prototype : ast_decl :=
  mk_ast_decl here true (AST_DECL_FUNC f_test_prototype).

(** [@test fn t() void = return;]. *)
Definition f_test : ast_function_decl :=
  mk_ast_function_decl (mk_identifier "t" None) None FN_TEST
                       (proto TYPE_STORAGE_VOID) (Some (at_ (A_return None))).
Definition d_test : ast_decl :=
  mk_ast_decl here false (AST_DECL_FUNC f_test).

(** [export @init fn t() void = return;]. *)
Definition f_init_exported : ast_function_decl :=
  mk_ast_function_decl (mk_identifier "t" None) None FN_INIT
                       (proto TYPE_STORAGE_VOID) (Some (at_ (A_return None))).
Definition d_init_exported : ast_decl :=
  mk_ast_decl here true (AST_DECL_FUNC f_init_exported).

(** [switch (true) { case true => 1u8; case true => break; }]. *)
Definition a_switch : ast_expression :=
  at_ (A_switch a_true
         [ mk_ast_switch_case [a_true]
             (at_ (A_constant TYPE_STORAGE_U8 (AC_uval 1)));
           mk_ast_switch_case [a_true] a_break ]).

(** [switch (true) { case true => [1u8]; case true => break; }]: the
    body of the first case is an array literal, checked under the hint
    [bool] of the switch value, which has no member type. *)
Definition a_switch_array : ast_expression :=
  at_ (A_switch a_true
         [ mk_ast_switch_case [a_true]
             (at_ (A_constant_array
                     [ mk_ast_array_constant
                         (at_ (A_constant TYPE_STORAGE_U8 (AC_uval 1)))
                         false ]));
           mk_ast_switch_case [a_true] a_break ]).

(** [let x: size = 1u8;]. *)
Definition a_binding : ast_expression :=
  at_ (A_binding
         [ mk_ast_expression_binding "x"
             (Some (mk_ast_type here TYPE_STORAGE_SIZE 0 AT_none)) 0 false
             (at_ (A_constant TYPE_STORAGE_U8 (AC_uval 1))) ]).




End Demo.

(** ** More examples *)

Module Sample.

(** [f: fn(a: int, b: int...) void] in the unit scope, and the call
    [f(1, 2, 3)]. *)
Definition t_variadic : type :=
  mk_type TYPE_STORAGE_FUNCTION TYPE_CONST 0
    (P_func Demo.t_void [Demo.t_int; Demo.lookup_slice Demo.t_int]
            VARIADISM_HARE).

Definition with_fn : context :=
  mk_context None (Some 0%nat) (Some 1%nat) false 0 None
    [ mk_scope EXPR_ACCESS None None
        [ mk_scope_object O_DECL (mk_identifier "f" None)
            (mk_identifier "f" None) (Some t_variadic) None ];
      mk_scope EXPR_ACCESS None (Some 0%nat) [] ].

Definition int_ (n : Z) : ast_expression :=
  Demo.at_ (A_constant TYPE_STORAGE_INT (AC_ival n)).

Definition call_args : list ast_call_argument :=
  [ mk_ast_call_argument false (int_ 1);
    mk_ast_call_argument false (int_ 2);
    mk_ast_call_argument false (int_ 3) ].

Definition a_f : ast_expression :=
  Demo.at_ (A_access_ident (mk_identifier "f" None)).

Definition a_call : ast_expression := Demo.at_ (A_call a_f call_args).

(** [[1, 2]], to be checked under the hint [bool], which has no
    member type. *)
Definition array_items : list ast_array_constant :=
  [ mk_ast_array_constant (int_ 1) false;
    mk_ast_array_constant (int_ 2) false ].

(** [defer break]. *)
Definition a_defer : ast_expression := Demo.at_ (A_defer Demo.a_break).

(** [{ break; }]. *)
Definition a_block : ast_expression := Demo.at_ (A_list [Demo.a_break]).

(** [for :outer (true) break]. *)
Definition a_for_outer : ast_expression :=
  Demo.at_ (A_for (Some "outer") Demo.here None Demo.a_true None
                  Demo.a_break).

(** [let static x: size = 1u8;]. *)
Definition a_static : ast_expression :=
  Demo.at_ (A_binding
              [ mk_ast_expression_binding "x"
                  (Some (mk_ast_type Demo.here TYPE_STORAGE_SIZE 0 AT_none))
                  0 true
                  (Demo.at_ (A_constant TYPE_STORAGE_U8 (AC_uval 1))) ]).

(** The parent chain of the current scope of [Demo.in_loop]. *)
Definition in_loop_chain : list (scope_ptr * scope) :=
  [ (2%nat, mk_scope EXPR_FOR (Some "outer") (Some 1%nat) []);
    (1%nat, mk_scope EXPR_ACCESS None (Some 0%nat) []);
    (0%nat, mk_scope EXPR_ACCESS None None []) ].

(** The loop scope with two locals, [n: int] and [p: *int]. *)
Definition with_int : context :=
  mk_context None (Some 0%nat) (Some 2%nat) false 0 None
    [ mk_scope EXPR_ACCESS None None [];
      mk_scope EXPR_ACCESS None (Some 0%nat) [];
      mk_scope EXPR_FOR (Some "outer") (Some 1%nat)
        [ mk_scope_object O_BIND (mk_identifier "n" None)
            (mk_identifier "n" None) (Some Demo.t_int) None;
          mk_scope_object O_BIND (mk_identifier "p" None)
            (mk_identifier "p" None)
            (Some (Demo.lookup_pointer Demo.t_int 0)) None ] ].

(** [n], [p], [n = 2], [*p = 2], [1 + 2] and [-1]. *)
Definition a_n : ast_expression :=
  Demo.at_ (A_access_ident (mk_identifier "n" None)).
Definition a_p : ast_expression :=
  Demo.at_ (A_access_ident (mk_identifier "p" None)).
Definition a_assign : ast_expression :=
  Demo.at_ (A_assign None a_n (int_ 2) false).
Definition a_store : ast_expression :=
  Demo.at_ (A_assign None a_p (int_ 2) true).
Definition a_sum : ast_expression :=
  Demo.at_ (A_binarithm BIN_PLUS (int_ 1) (int_ 2)).
Definition a_neg : ast_expression :=
  Demo.at_ (A_unarithm UN_MINUS (int_ 1)).

(** [let static x: size = 1u8, static y: size = 2u8;]. *)
Definition static_bindings : list ast_expression_binding :=
  [ mk_ast_expression_binding "x"
      (Some (mk_ast_type Demo.here TYPE_STORAGE_SIZE 0 AT_none)) 0 true
      (Demo.at_ (A_constant TYPE_STORAGE_U8 (AC_uval 1)));
    mk_ast_expression_binding "y"
      (Some (mk_ast_type Demo.here TYPE_STORAGE_SIZE 0 AT_none)) 0 true
      (Demo.at_ (A_constant TYPE_STORAGE_U8 (AC_uval 2))) ].

(** [fn spin() void = for (true) { break; };], and a unit of one
    subunit that declares [t] and [spin]. *)
Definition f_spin : ast_function_decl :=
  mk_ast_function_decl (mk_identifier "spin" None) None 0
    (Demo.proto TYPE_STORAGE_VOID) (Some Demo.a_for).
Definition d_spin : ast_decl :=
  mk_ast_decl Demo.here false (AST_DECL_FUNC f_spin).
Definition a_unit : ast_unit :=
  mk_ast_unit [mk_ast_subunit None [Demo.d_test; d_spin]].

(** [1u8: size]. *)
Definition a_cast : ast_expression :=
  Demo.at_ (A_cast C_CAST
              (mk_ast_type Demo.here TYPE_STORAGE_SIZE 0 AT_none)
              (Demo.at_ (A_constant TYPE_STORAGE_U8 (AC_uval 1)))).

(** The context that [check] is given: nothing in it yet. *)
Definition empty_ctx : context :=
  mk_context None None None false 0 None [].

End Sample.

(** * The vocabulary of the properties *)

Local Open Scope list_scope.

Definition option_list {A} (o : option A) : list A :=
  match o with Some a => [a] | None => [] end.

(** The sub-expressions that the check of a node recurses into. *)
Definition ast_children (a : ast_expression) : list ast_expression :=
  match ast_union a with
  | A_access_ident _ => []
  | A_access_index a i => [a; i]
  | A_access_field s _ => [s]
  | A_assert c m => option_list c ++ option_list m
  | A_assign _ o v _ => [o; v]
  | A_binarithm _ l r => [l; r]
  | A_binding bs => map binding_initializer bs
  | A_control _ _ => []
  | A_call f args => f :: map call_arg_value args
  | A_cast _ _ v => [v]
  | A_constant _ _ => []
  | A_constant_array items => map array_item_value items
  | A_defer d => [d]
  | A_for _ _ b c a body => option_list b ++ [c] ++ option_list a ++ [body]
  | A_if c t f => [c; t] ++ option_list f
  | A_list es => es
  | A_match | A_measure_size _ | A_measure_offset => []
  | A_measure_len v => [v]
  | A_return v => option_list v
  | A_slice o s e => o :: option_list s ++ option_list e
  | A_struct _ _ fs => map field_value_initializer fs
  | A_switch v cases =>
      v :: flat_map (fun c => case_options c ++ [case_value c]) cases
  | A_unarithm _ o => [o]
  end.

(** ** Frames: what a successful check leaves of the scopes *)

(** The heap [h'] has every scope of [h], at the same address and under
    the same parent. *)
Definition heap_extends (h h' : list scope) : Prop :=
  (length h <= length h')%nat /\
  forall p s, h !! p = Some s ->
    exists s', h' !! p = Some s' /\ scope_parent s' = scope_parent s.

(** [descends h q p]: in the heap [h], the scope at [p] is a strict
    descendant of [q] (of the root, for [q = None]). *)
Inductive descends (h : list scope) (q : option scope_ptr)
    : scope_ptr -> Prop :=
  | descends_child p s :
      h !! p = Some s -> scope_parent s = q -> descends h q p
  | descends_step p s r :
      h !! p = Some s -> scope_parent s = Some r -> descends h q r ->
      descends h q p.

(** Parents are older than their children: [scope_push] gives a new
    scope the next free address. *)
Definition scopes_wf (h : list scope) : Prop :=
  forall p s q, h !! p = Some s -> scope_parent s = Some q -> (q < p)%nat.

(** A context over such a heap, whose current scope is allocated. *)
Definition ctx_wf (c : context) : Prop :=
  scopes_wf (ctx_scopes c) /\
  forall p, ctx_scope c = Some p -> (p < length (ctx_scopes c))%nat.

Definition frame (c c' : context) : Prop :=
  ctx_scope c' = ctx_scope c /\
  heap_extends (ctx_scopes c) (ctx_scopes c') /\
  (forall p, (length (ctx_scopes c) <= p < length (ctx_scopes c'))%nat ->
     descends (ctx_scopes c') (ctx_scope c) p) /\
  (ctx_wf c -> ctx_wf c').

Definition preserves {A} (m : M A) : Prop :=
  forall c a c', m c = Ok (a, c') -> frame c c'.

(** The state between a [scope_push] and its [scope_pop]: the current
    scope [n] is left for its parent. *)
Definition popped (c c' : context) : Prop :=
  exists n s,
    ctx_scope c = Some n /\ ctx_scopes c' !! n = Some s /\
    ctx_scope c' = scope_parent s /\
    heap_extends (ctx_scopes c) (ctx_scopes c') /\
    (forall p, (length (ctx_scopes c) <= p < length (ctx_scopes c'))%nat ->
       descends (ctx_scopes c') (Some n) p \/
       descends (ctx_scopes c') (scope_parent s) p) /\
    (ctx_wf c -> ctx_wf c').

Definition popping {A} (m : M A) : Prop :=
  forall c a c', m c = Ok (a, c') -> popped c c'.

Definition keeps (rec : ast_expression -> option type -> M expression)
    (a : ast_expression) : Prop :=
  forall hint, preserves (rec a hint).

(** ** Results of nodes that control can flow past *)

Definition nn (e : expression) : Prop :=
  expr_terminates e = false -> expr_result e <> None.

Definition obj_ok (o : scope_object) : Prop :=
  match obj_otype o with
  | O_CONST => forall v, obj_value o = Some v -> nn v
  | O_BIND | O_DECL => obj_type o <> None
  | O_TYPE => True
  end.

Definition good_heap (h : list scope) : Prop :=
  forall p s, h !! p = Some s -> Forall obj_ok (scope_objects s).

(** A context whose scopes hold typed objects only, and constants whose
    value has a result type. *)
Definition good (c : context) : Prop := good_heap (ctx_scopes c).

(** The storages of the constants that [check_expr_constant] lets
    through. *)
Definition constant_storage (s : type_storage) : bool :=
  match s with
  | TYPE_STORAGE_I8 | TYPE_STORAGE_I16 | TYPE_STORAGE_I32
  | TYPE_STORAGE_I64 | TYPE_STORAGE_INT | TYPE_STORAGE_U8
  | TYPE_STORAGE_U16 | TYPE_STORAGE_U32 | TYPE_STORAGE_U64
  | TYPE_STORAGE_UINT | TYPE_STORAGE_SIZE | TYPE_STORAGE_RUNE
  | TYPE_STORAGE_BOOL | TYPE_STORAGE_NULL | TYPE_STORAGE_VOID
  | TYPE_STORAGE_STRING => true
  | _ => false
  end.

(** The builtin table has a type for each of them. *)
Definition builtins_total (ext : externals) : Prop :=
  forall s, constant_storage s = true ->
    builtin_type_for_storage ext s false <> None.

Definition holds {A} (m : M A) (V : A -> Prop) : Prop :=
  forall c a c', good c -> m c = Ok (a, c') -> good c' /\ V a.

Definition sound (rec : ast_expression -> option type -> M expression)
    (a : ast_expression) : Prop :=
  forall hint, holds (rec a hint) nn.

(** ** Labels *)

(** [scope_chain h p l]: [l] is the parent chain of [p] in [h], the
    innermost scope first. *)
Inductive scope_chain (h : list scope)
    : option scope_ptr -> list (scope_ptr * scope) -> Prop :=
  | scope_chain_root : scope_chain h None []
  | scope_chain_cons p s l :
      h !! p = Some s -> scope_chain h (scope_parent s) l ->
      scope_chain h (Some p) ((p, s) :: l).

(** A scope that a [break] or [continue] with this label may target:
    one made for a [for], with that label if there is one. *)
Definition eligible (label : option string) (ps : scope_ptr * scope)
    : bool :=
  expr_type_eqb (scope_type (snd ps)) EXPR_FOR &&
  match label with
  | None => true
  | Some l =>
      match scope_label (snd ps) with
      | Some sl => String.eqb l sl
      | None => false
      end
  end.

(** ** Implicit casts *)

(** What is stored where a value [v] is implicitly converted to the type
    [to]: a cast node around [v] where the types differ, [v] itself
    where they agree. *)
Definition materialized (to : option type) (v stored : expression) : Prop :=
  (expr_result v <> to ->
   stored = mk_expression EXPR_CAST to (expr_terminates v)
                          (E_cast C_CAST v None))
  /\ (expr_result v = to -> stored = v).

(** ** Switch *)

Definition sc_options (k : switch_case) : list expression :=
  match k with mk_switch_case o _ => o end.
Definition sc_value (k : switch_case) : expression :=
  match k with mk_switch_case _ v => v end.

(** The stored option [o] of a case comes from a parsed option that was
    checked with the type [T] of the scrutinee as hint, has exactly the
    type [T], and evaluated to [o]. *)
Definition option_checked (ext : externals) (T : option type)
    (aopt : ast_expression) (o : expression) : Prop :=
  exists c1 v c2,
    check_expression ext aopt T c1 = Ok (v, c2)
    /\ expr_result v = T
    /\ eval_expr ext c2 v = Some o.

Definition case_checked (ext : externals) (T : option type)
    (acase : ast_switch_case) (k : switch_case) : Prop :=
  Forall2 (option_checked ext T) (case_options acase) (sc_options k)
  /\ exists c1 c2,
       check_expression ext (case_value acase) T c1 = Ok (sc_value k, c2).

(** A case whose body control can flow past. *)
Definition case_falls_through (k : switch_case) : bool :=
  negb (expr_terminates (sc_value k)).

(** ** The sites of implicit casts *)

Definition eb_object (b : expression_binding) : scope_object :=
  match b with mk_expression_binding o _ => o end.
Definition eb_initializer (b : expression_binding) : expression :=
  match b with mk_expression_binding _ i => i end.
Definition ac_value (a : array_constant) : expression :=
  match a with mk_array_constant v _ => v end.

(** [v] is what the check of [a] under the hint [hint] gave, at some
    point of the run. *)
Definition checked_value (ext : externals) (a : ast_expression)
    (hint : option type) (v : expression) : Prop :=
  exists c1 c2, check_expression ext a hint c1 = Ok (v, c2).



(** The stored items of an array literal against the element type
    [t]: each item is checked under the hint [t] and converted to [t];
    while no element type is known
    ([None]: no hint, or a hint without member type, and no item with a
    result type yet), the item is stored as it is and its result
    becomes the element type. *)
Inductive items_cast (ext : externals) {A : Type}
    (value : A -> ast_expression)
    : option type -> list A -> list array_constant -> Prop :=
  | items_cast_nil t : items_cast ext value t [] []
  | items_cast_typed t item rest v s srest :
      checked_value ext (value item) (Some t) v ->
      materialized (Some t) v (ac_value s) ->
      items_cast ext value (Some t) rest srest ->
      items_cast ext value (Some t) (item :: rest) (s :: srest)
  | items_cast_first item rest v s srest :
      checked_value ext (value item) None v ->
      ac_value s = v ->
      items_cast ext value (expr_result v) rest srest ->
      items_cast ext value None (item :: rest) (s :: srest).

(** The stored arguments of a call against the parameter types: each
    argument is converted to the type of its parameter.  With native
    variadism, an argument at the last parameter that is not spread
    ([...]) is packed with all that follow: they are the items of one
    array literal, each of them checked and converted as an item of a
    literal is, under the hint of an unsized array of the member type
    of the parameter; the literal is an array of that member type, and
    it is converted to the type of the parameter. *)
Inductive args_cast (ext : externals) (va : variadism)
    : list type -> list ast_call_argument -> list expression -> Prop :=
  | args_cast_nil : args_cast ext va [] [] []
  | args_cast_variadic param aarg arest members stored t s :
      va = VARIADISM_HARE ->
      call_arg_variadic aarg = false ->
      type_array_members ext param = Some members ->
      items_cast ext call_arg_value
        (hint_members ext
           (Some (type_store_lookup_array ext members SIZE_UNDEFINED)))
        (aarg :: arest) stored ->
      type_storage_of t = TYPE_STORAGE_ARRAY ->
      array_members t = Some members ->
      materialized (Some param)
        (mk_expression EXPR_CONSTANT (Some t) false
           (E_constant (EC_array stored))) s ->
      args_cast ext va [param] (aarg :: arest) [s]
  | args_cast_cons param prest aarg arest v s srest :
      (prest = [] -> va = VARIADISM_HARE ->
       call_arg_variadic aarg = true) ->
      checked_value ext (call_arg_value aarg) (Some param) v ->
      materialized (Some param) v s ->
      args_cast ext va prest arest srest ->
      args_cast ext va (param :: prest) (aarg :: arest) (s :: srest).


(** ** Enum values in the unit scope *)




(** ** The vocabulary of the further properties *)

(** ** The declarations that the check pass emits *)

(** Whether [check_declarations] emits a declaration for [d]. *)
Definition adecl_emits (d : ast_decl) : bool :=
  match adecl_u d with
  | AST_DECL_CONST _ => false
  | AST_DECL_FUNC f => is_some (fn_body f)
  | AST_DECL_GLOBAL g => is_some (gl_init g)
  | AST_DECL_TYPE _ => true
  end.

(** The checked declaration [d] stands for the parsed declaration [ad]. *)
Definition declared_by (ad : ast_decl) (d : declaration) : Prop :=
  decl_exported d = adecl_exported ad /\
  match adecl_u ad, decl_u d with
  | AST_DECL_FUNC f, DECL_FUNC _ (Some _) (Some _) flags =>
      flags = fn_flags f /\ decl_symbol d = fn_symbol f
  | AST_DECL_GLOBAL g, DECL_GLOBAL _ _ => decl_symbol d = gl_symbol g
  | AST_DECL_TYPE _, DECL_TYPE _ => decl_symbol d = None
  | _, _ => False
  end.

(** ** What a run leaves of the context *)

(** [s'] is the scope [s] with objects added at the end of its list. *)
Definition scope_grows (s s' : scope) : Prop :=
  scope_type s' = scope_type s /\ scope_label s' = scope_label s /\
  scope_parent s' = scope_parent s /\
  exists added, scope_objects s' = scope_objects s ++ added.

(** Every scope of [h] is still there in [h'], with objects added. *)
Definition heap_grows (h h' : list scope) : Prop :=
  (length h <= length h')%nat /\
  forall p s, h !! p = Some s -> exists s', h' !! p = Some s' /\ scope_grows s s'.

(** What a run leaves of the context it started in. *)
Definition steady (c c' : context) : Prop :=
  ctx_ns c' = ctx_ns c /\ ctx_unit c' = ctx_unit c /\
  ctx_deferring c' = ctx_deferring c /\
  ctx_current_fntype c' = ctx_current_fntype c /\
  heap_grows (ctx_scopes c) (ctx_scopes c').

(** Every run of [m] that returns leaves the context steady. *)
Definition steadily {A} (m : M A) : Prop :=
  forall c a c', m c = Ok (a, c') -> steady c c'.

(** So does every check of [a] by [rec]. *)
Definition calm (rec : ast_expression -> option type -> M expression)
    (a : ast_expression) : Prop :=
  forall hint, steadily (rec a hint).

(** ** The counter of the static names *)

(** The sum of [f] over a list, and over what an option holds. *)
Definition sum_with {A} (f : A -> nat) : list A -> nat :=
  fix go (l : list A) : nat :=
    match l with
    | [] => 0%nat
    | x :: rest => (f x + go rest)%nat
    end.

Definition opt_with {A} (f : A -> nat) (o : option A) : nat :=
  match o with Some x => f x | None => 0%nat end.

(** The number of [static] bindings in a tree: each one makes the
    check bump the counter once. *)
Fixpoint statics (a : ast_expression) : nat :=
  match a with
  | mk_ast_expression _ u =>
      match u with
      | A_access_ident _ | A_control _ _ | A_constant _ _ | A_match
      | A_measure_size _ | A_measure_offset => 0
      | A_access_index x y | A_assign _ x y _ | A_binarithm _ x y =>
          statics x + statics y
      | A_access_field x _ | A_cast _ _ x | A_defer x | A_measure_len x
      | A_unarithm _ x => statics x
      | A_assert c m => opt_with statics c + opt_with statics m
      | A_binding bs =>
          sum_with (fun b => statics (binding_initializer b)
                             + (if binding_is_static b then 1 else 0)) bs
      | A_call f args =>
          statics f + sum_with (fun x => statics (call_arg_value x)) args
      | A_constant_array items =>
          sum_with (fun x => statics (array_item_value x)) items
      | A_for _ _ b c a body =>
          opt_with statics b + statics c + opt_with statics a
          + statics body
      | A_if c t f => statics c + statics t + opt_with statics f
      | A_list es => sum_with statics es
      | A_return v => opt_with statics v
      | A_slice o s e =>
          statics o + opt_with statics s + opt_with statics e
      | A_struct _ _ fs =>
          sum_with (fun f => statics (field_value_initializer f)) fs
      | A_switch v cases =>
          statics v
          + sum_with (fun k => sum_with statics (case_options k)
                               + statics (case_value k)) cases
      end
  end%nat.

(** The counter after [k] times [++ctx->id], from [z] on. *)
Definition bumped (k : nat) (z : Z) : Z :=
  Nat.iter k (fun z => wrap_int (z + 1)) z.

(** Every run of [m] that returns has bumped the counter [k] times. *)
Definition adds (k : nat) {A} (m : M A) : Prop :=
  forall c a c', m c = Ok (a, c') -> ctx_id c' = bumped k (ctx_id c).

(** The scope carries the label [label]. *)
Definition carries (label : string) (ps : scope_ptr * scope) : bool :=
  label_matches label (scope_label (snd ps)).

(** ** Invariants and refusals *)

(** A run from a context that satisfies [Inv] ends, if it returns, in a
    context that satisfies it. *)
Definition maintains (Inv : context -> Prop) {A} (m : M A) : Prop :=
  forall c a c', Inv c -> m c = Ok (a, c') -> Inv c'.

(** No run from a context that satisfies [Inv] returns. *)
Definition rejects (Inv : context -> Prop) {A} (m : M A) : Prop :=
  forall c r, Inv c -> m c <> Ok r.

(** ** Nodes of the parsed tree *)

(** [within P a]: the tree [a] has a node that satisfies [P]. *)
Inductive within (P : ast_expression -> Prop) : ast_expression -> Prop :=
  | within_here a : P a -> within P a
  | within_child a b :
      In b (ast_children a) -> within P b -> within P a.

(** The node is a [defer]; the node is a [for]. *)
Definition is_defer (a : ast_expression) : Prop :=
  match ast_union a with A_defer _ => True | _ => False end.

Definition is_for (a : ast_expression) : Prop :=
  match ast_union a with A_for _ _ _ _ _ _ => True | _ => False end.

(** ** Deferred expressions *)

(** The context is inside the operand of a [defer]. *)
Definition deferring (c : context) : Prop := ctx_deferring c = true.

(** A [defer] whose operand holds another [defer]. *)
Definition nested_defer (a : ast_expression) : Prop :=
  match ast_union a with
  | A_defer d => within is_defer d
  | _ => False
  end.

(** The invariant that asks nothing. *)
Definition any_context (c : context) : Prop := True.

(** ** Loops around an expression *)

(** The scope was made for a [for]. *)
Definition is_for_scope (ps : scope_ptr * scope) : bool :=
  expr_type_eqb (scope_type (snd ps)) EXPR_FOR.

(** The labels of the [for] scopes of a parent chain, innermost first. *)
Definition for_labels (l : list (scope_ptr * scope)) : list (option string) :=
  map (fun ps => scope_label (snd ps)) (List.filter is_for_scope l).

(** The current scope of [c] lies in loops that carry the labels [ls],
    innermost first. *)
Definition in_loops (ls : list (option string)) (c : context) : Prop :=
  ctx_wf c /\
  exists l, scope_chain (ctx_scopes c) (ctx_scope c) l /\ for_labels l = ls.

(** [stray ls a]: inside loops labelled [ls], the tree [a] has a [break]
    or [continue] that no loop binds: one without a label outside every
    loop, or one whose label no enclosing loop carries. *)
Inductive stray : list (option string) -> ast_expression -> Prop :=
  | stray_unlabelled loc kind :
      stray [] (mk_ast_expression loc (A_control kind None))
  | stray_labelled ls loc kind label :
      ~ In (Some label) ls ->
      stray ls (mk_ast_expression loc (A_control kind (Some label)))
  | stray_child ls a b :
      ~ is_for a -> In b (ast_children a) -> stray ls b -> stray ls a
  | stray_for ls loc label label_loc bindings cond afterthought body b :
      In b (option_list bindings ++ [cond] ++ option_list afterthought
            ++ [body]) ->
      stray (label :: ls) b ->
      stray ls (mk_ast_expression loc
                  (A_for label label_loc bindings cond afterthought body)).

(** ** Declarations and the two passes *)

(** [steady], but for the function type that [check_function] sets and
    clears. *)
Definition settled (c c' : context) : Prop :=
  ctx_ns c' = ctx_ns c /\ ctx_unit c' = ctx_unit c /\
  ctx_deferring c' = ctx_deferring c /\
  heap_grows (ctx_scopes c) (ctx_scopes c').

(** Every run of [m] that returns leaves the context settled. *)
Definition settles {A} (m : M A) : Prop :=
  forall c a c', m c = Ok (a, c') -> settled c c'.

(** The expressions of a declaration that the check pass elaborates, and
    those that the scan pass elaborates. *)
Definition checked_exprs (d : ast_decl) : list ast_expression :=
  match adecl_u d with
  | AST_DECL_FUNC f => option_list (fn_body f)
  | AST_DECL_GLOBAL g => option_list (gl_init g)
  | _ => []
  end.

Definition scanned_exprs (d : ast_decl) : list ast_expression :=
  match adecl_u d with
  | AST_DECL_CONST k => option_list (gl_init k)
  | _ => []
  end.

(** [p] is the scope of a subunit: a child of the unit scope [u], with
    no loop around it. *)
Definition subunit_scope (h : list scope) (u : option scope_ptr)
    (p : scope_ptr) : Prop :=
  exists s l,
    h !! p = Some s /\ scope_parent s = u
    /\ scope_chain h (Some p) l /\ for_labels l = [].

(** ** Pointers that may be null *)

(** [t] is not a pointer type that admits null. *)
Definition not_nullable (t : type) : Prop :=
  forall referent pflags,
    type_storage_of t = TYPE_STORAGE_POINTER ->
    type_payload_of t = P_pointer referent pflags ->
    has_flag pflags PTR_NULLABLE = false.

(** The operand that the node [e], checked from [a], looks through: the
    array of an index or a slice, the object of a field access, the
    callee, the target of an assignment through a pointer, the operand
    of [*]. *)
Definition dereferenced (a : ast_expression) (e : expression)
    : option expression :=
  match ast_union a, expr_union e with
  | A_access_index _ _, E_access_index array _ => Some array
  | A_access_field _ _, E_access_field s _ => Some s
  | A_call _ _, E_call lvalue _ => Some lvalue
  | A_slice _ _ _, E_slice object _ _ => Some object
  | A_assign _ _ _ true, E_assign _ object _ _ => Some object
  | A_unarithm UN_DEREF _, E_unarithm _ operand => Some operand
  | _, _ => None
  end.

(** ** Bindings *)

(** The [static] bindings that the check of the binding [b] numbers:
    those of its initializer, then [b] itself if it is [static]. *)
Definition binding_statics (b : ast_expression_binding) : nat :=
  (statics (binding_initializer b)
   + (if binding_is_static b then 1 else 0))%nat.

(** The number that the binding [ab], the [i]-th of [abs], gets if it
    is [static], where [z] is the counter when the check of [abs]
    starts: the counter after the bindings before [ab] and after the
    initializer of [ab]. *)
Definition static_number (z : Z) (abs : list ast_expression_binding)
    (i : nat) (ab : ast_expression_binding) : Z :=
  bumped (sum_with binding_statics (take i abs)
          + statics (binding_initializer ab)) z.

(** The binding [b] made from [ab], with [n] the number it gets if it
    is [static]: the object answers to the name of the binding and has
    a sized type, which is the type of the stored initializer; a
    [static] binding is a declaration named [static.n], any other one a
    local named after itself. *)
Definition binds (n : Z) (ab : ast_expression_binding)
    (b : expression_binding) : Prop :=
  let o := eb_object b in
  obj_name o = mk_identifier (binding_name ab) None
  /\ (exists t,
        obj_type o = Some t
        /\ type_size t <> 0 /\ type_size t <> SIZE_UNDEFINED
        /\ expr_result (eb_initializer b) = Some t)
  /\ if binding_is_static ab then
       obj_otype o = O_DECL
       /\ obj_ident o = mk_identifier (static_name_text n) None
     else obj_otype o = O_BIND /\ obj_ident o = obj_name o.

(** What a unary operator asks of its operand, of type [t], and the
    type [r] of the result. *)
Definition unarithm_rule (ext : externals) (op : unarithm_operator)
    (t r : type) : Prop :=
  match op with
  | UN_LNOT =>
      type_storage_of t = TYPE_STORAGE_BOOL /\ r = builtin_type_bool ext
  | UN_BNOT =>
      type_is_integer ext t = true /\ type_is_signed ext t = false /\ r = t
  | UN_MINUS | UN_PLUS =>
      type_is_numeric ext t = true /\ type_is_signed ext t = true /\ r = t
  | UN_ADDRESS => r = type_store_lookup_pointer ext t 0%N
  | UN_DEREF =>
      type_storage_of t = TYPE_STORAGE_POINTER
      /\ exists pflags,
           type_payload_of t = P_pointer r pflags
           /\ has_flag pflags PTR_NULLABLE = false
  end.

(** ** What the scan pass registers *)

(** The name under which a function or a global is emitted: its symbol
    if it has one, its identifier in the namespace of the unit
    otherwise. *)
Definition emitted_ident (c : context) (symbol : option string)
    (ident : identifier) : identifier :=
  match symbol with
  | Some sym => mk_identifier sym None
  | None => mkident c ident
  end.

(** The object [o] is what the scan pass, started in [c], registers for
    the declaration [d]. *)
Definition registered (c : context) (d : ast_decl) (o : scope_object)
    : Prop :=
  match adecl_u d with
  | AST_DECL_CONST k =>
      obj_otype o = O_CONST
      /\ obj_ident o = mkident c (gl_ident k) /\ obj_name o = gl_ident k
      /\ is_some (obj_value o) = true
  | AST_DECL_FUNC f =>
      obj_otype o = O_DECL
      /\ obj_ident o = emitted_ident c (fn_symbol f) (fn_ident f)
      /\ obj_name o = fn_ident f
      /\ is_some (obj_type o) = true /\ obj_value o = None
  | AST_DECL_GLOBAL g =>
      obj_otype o = O_DECL
      /\ obj_ident o = emitted_ident c (gl_symbol g) (gl_ident g)
      /\ obj_name o = gl_ident g
      /\ is_some (obj_type o) = true /\ obj_value o = None
  | AST_DECL_TYPE t =>
      obj_otype o = O_TYPE
      /\ obj_ident o = mkident c (ty_ident t) /\ obj_name o = ty_ident t
      /\ is_some (obj_type o) = true /\ obj_value o = None
  end.

(** The scope at [p] holds the object [o]. *)
Definition holds_object (h : list scope) (p : scope_ptr) (o : scope_object)
    : Prop :=
  exists s, h !! p = Some s /\ In o (scope_objects s).

(** ** Casts *)

(** What a cast of kind [kind] to [sec] asks of the type [t] of its
    operand, and the type [r] of the result: a type assertion and a type
    test look for [sec], by its id, among the members of the tagged
    union that [t] stands for. *)
Definition cast_rule (ext : externals) (kind : cast_kind) (sec t r : type)
    : Prop :=
  type_is_castable ext sec t = true
  /\ match kind with
     | C_CAST => r = sec
     | C_ASSERTION | C_TEST =>
         type_storage_of (type_dealias ext t) = TYPE_STORAGE_TAGGED_UNION
         /\ (exists members m,
               tagged_members (type_dealias ext t) = Some members
               /\ In m members /\ type_id ext m = type_id ext sec)
         /\ r = match kind with
                | C_TEST => builtin_type_bool ext
                | _ => sec
                end
     end.

(** * Proofs *)

(** ** Induction on the parsed tree *)

Lemma ast_expression_children_ind (P : ast_expression -> Prop) :
  (forall a, Forall P (ast_children a) -> P a) -> forall a, P a.
Proof.
  intros H. fix IH 1. intros [loc u]. apply H. unfold ast_children; simpl.
  assert (O : forall o : option ast_expression, Forall P (option_list o)).
  { intros [x |]; simpl; [apply List.Forall_cons; [apply IH |] |];
      apply List.Forall_nil. }
  destruct u; simpl;
    repeat first
      [ apply List.Forall_nil
      | apply List.Forall_cons; [apply IH |]
      | apply O
      | apply Forall_app; split ].
  - induction bindings as [| b bs IHb]; simpl;
      [apply List.Forall_nil | apply List.Forall_cons; [apply IH | exact IHb]].
  - induction args as [| b bs IHb]; simpl;
      [apply List.Forall_nil | apply List.Forall_cons; [apply IH | exact IHb]].
  - induction items as [| b bs IHb]; simpl;
      [apply List.Forall_nil | apply List.Forall_cons; [apply IH | exact IHb]].
  - induction exprs as [| b bs IHb]; simpl;
      [apply List.Forall_nil | apply List.Forall_cons; [apply IH | exact IHb]].
  - induction fields as [| b bs IHb]; simpl;
      [apply List.Forall_nil | apply List.Forall_cons; [apply IH | exact IHb]].
  - induction cases as [| [opts v] cs IHc]; simpl; [apply List.Forall_nil |].
    apply Forall_app; split; [| exact IHc].
    apply Forall_app; split;
      [| apply List.Forall_cons; [apply IH | apply List.Forall_nil]].
    induction opts as [| o os IHo];
      [apply List.Forall_nil | apply List.Forall_cons; [apply IH | exact IHo]].
Qed.


(** ** Inversion of the monad *)

Lemma bind_ok {A B} (m : M A) (k : A -> M B) c b c' :
  bind m k c = Ok (b, c') ->
  exists a c1, m c = Ok (a, c1) /\ k a c1 = Ok (b, c').
Proof.
  unfold bind. destruct (m c) as [[a c1] | |]; try discriminate.
  intros H. exists a, c1. split; [reflexivity | exact H].
Qed.

Lemma heap_extends_refl h : heap_extends h h.
Proof. split; [lia | intros p s H; exists s; auto]. Qed.

Lemma heap_extends_trans h1 h2 h3 :
  heap_extends h1 h2 -> heap_extends h2 h3 -> heap_extends h1 h3.
Proof.
  intros [L1 P1] [L2 P2]. split; [lia |].
  intros p s H. destruct (P1 p s H) as (s' & H' & E').
  destruct (P2 p s' H') as (s'' & H'' & E''). exists s''. split; congruence.
Qed.

Lemma descends_extends h h' q p :
  heap_extends h h' -> descends h q p -> descends h' q p.
Proof.
  intros [_ E] D. induction D as [p s Hp Hq | p s r Hp Hr _ IH].
  - destruct (E p s Hp) as (s' & Hs' & Ep).
    apply descends_child with s'; [assumption | by rewrite Ep].
  - destruct (E p s Hp) as (s' & Hs' & Ep).
    apply descends_step with s' r; [assumption | by rewrite Ep | exact IH].
Qed.

Lemma descends_parent h n s q p :
  h !! n = Some s -> scope_parent s = q ->
  descends h (Some n) p -> descends h q p.
Proof.
  intros Hn Hq D. induction D as [p s' Hp Hs' | p s' r Hp Hr _ IH].
  - apply descends_step with s' n; [assumption .. |].
    apply descends_child with s; assumption.
  - apply descends_step with s' r; assumption.
Qed.

Lemma frame_refl c : frame c c.
Proof.
  split; [reflexivity |]. split; [apply heap_extends_refl |].
  split; [intros p Hp; lia | auto].
Qed.

Lemma frame_trans c1 c2 c3 : frame c1 c2 -> frame c2 c3 -> frame c1 c3.
Proof.
  intros (S1 & E1 & N1 & W1) (S2 & E2 & N2 & W2).
  split; [congruence |]. split; [eapply heap_extends_trans; eassumption |].
  split; [| auto].
  intros p Hp.
  destruct (Nat.lt_ge_cases p (length (ctx_scopes c2))) as [Hlt | Hge].
  - apply descends_extends with (ctx_scopes c2); [assumption |].
    apply N1. lia.
  - rewrite <- S1. apply N2. lia.
Qed.

Lemma frame_same_scopes c c' :
  ctx_scope c' = ctx_scope c -> ctx_scopes c' = ctx_scopes c -> frame c c'.
Proof.
  intros S H. split; [assumption |]. unfold ctx_wf. rewrite H, S.
  split; [apply heap_extends_refl |]. split; [intros p Hp; lia | auto].
Qed.

Lemma scopes_wf_insert h i s s' :
  scopes_wf h -> h !! i = Some s -> scope_parent s' = scope_parent s ->
  scopes_wf (<[i := s']> h).
Proof.
  intros W Hi Hp p t q Ht Hq. destruct (decide (i = p)) as [-> | Hne].
  - rewrite list_lookup_insert_eq in Ht
      by (eapply lookup_lt_Some; eassumption).
    injection Ht as <-. apply (W p s q Hi). congruence.
  - rewrite list_lookup_insert_ne in Ht by assumption.
    apply (W p t q Ht Hq).
Qed.

Lemma heap_extends_insert h i s s' :
  h !! i = Some s -> scope_parent s' = scope_parent s ->
  heap_extends h (<[i := s']> h).
Proof.
  intros Hi Hp. split; [rewrite length_insert; lia |].
  intros p t Ht. destruct (decide (i = p)) as [-> | Hne].
  - exists s'. split; [| congruence].
    apply list_lookup_insert_eq. eapply lookup_lt_Some; eassumption.
  - exists t. split; [| reflexivity]. rewrite list_lookup_insert_ne; assumption.
Qed.

Lemma frame_update c i s s' :
  ctx_scopes c !! i = Some s -> scope_parent s' = scope_parent s ->
  frame c (set_scopes (<[i := s']> (ctx_scopes c)) c).
Proof.
  intros Hi Hp. split; [reflexivity |].
  split; [eapply heap_extends_insert; eassumption |].
  simpl. rewrite length_insert. split; [intros p Hlt; lia |].
  intros [W V]. split; simpl.
  - eapply scopes_wf_insert; eassumption.
  - rewrite length_insert. exact V.
Qed.

Lemma preserves_ret {A} (a : A) : preserves (ret a).
Proof. intros c b c' H. inversion H; subst. apply frame_refl. Qed.

Lemma preserves_bind {A B} (m : M A) (k : A -> M B) :
  preserves m -> (forall a, preserves (k a)) -> preserves (bind m k).
Proof.
  intros Hm Hk c b c' H. apply bind_ok in H. destruct H as (a & c1 & E1 & E2).
  eapply frame_trans; [eapply Hm | eapply Hk]; eassumption.
Qed.

Lemma preserves_crash {A} : preserves (@crash A).
Proof. intros c a c' H. discriminate. Qed.

Lemma preserves_expect b msg : preserves (expect b msg).
Proof.
  intros c a c' H. unfold expect in H. destruct b; inversion H; subst.
  apply frame_refl.
Qed.

Lemma preserves_c_assert b : preserves (c_assert b).
Proof.
  intros c a c' H. unfold c_assert in H. destruct b; inversion H; subst.
  apply frame_refl.
Qed.

Lemma preserves_deref {A} (o : option A) : preserves (deref o).
Proof.
  intros c a c' H. unfold deref in H. destruct o; inversion H; subst.
  apply frame_refl.
Qed.

Lemma preserves_get_ctx : preserves get_ctx.
Proof. intros c a c' H. inversion H; subst. apply frame_refl. Qed.

Lemma preserves_modify_ctx f :
  (forall c, ctx_scope (f c) = ctx_scope c) ->
  (forall c, ctx_scopes (f c) = ctx_scopes c) ->
  preserves (modify_ctx f).
Proof.
  intros Hs Hh c a c' H. inversion H; subst. apply frame_same_scopes; auto.
Qed.

Lemma preserves_scope_insert p k i n t v :
  preserves (scope_insert p k i n t v).
Proof.
  intros c a c' H. unfold scope_insert in H.
  destruct p as [j |]; [| discriminate].
  destruct (ctx_scopes c !! j) as [s |] eqn:Hj; [| discriminate].
  inversion H; subst. eapply frame_update; [eassumption | reflexivity].
Qed.

Lemma preserves_scope_set_kind p t l : preserves (scope_set_kind p t l).
Proof.
  intros c a c' H. unfold scope_set_kind in H.
  destruct (ctx_scopes c !! p) as [s |] eqn:Hj; [| discriminate].
  inversion H; subst. eapply frame_update; [eassumption | reflexivity].
Qed.

Lemma preserves_mapM {A B} (f : A -> M B) l :
  Forall (fun a => preserves (f a)) l -> preserves (mapM f l).
Proof.
  induction 1 as [| a l Ha _ IH]; simpl.
  - apply preserves_ret.
  - apply preserves_bind; [exact Ha |]. intros b.
    apply preserves_bind; [exact IH |]. intros bs. apply preserves_ret.
Qed.

Lemma popping_bind {A B} (m : M A) (k : A -> M B) :
  preserves m -> (forall a, popping (k a)) -> popping (bind m k).
Proof.
  intros Hm Hk c b c' H. apply bind_ok in H. destruct H as (a & c1 & E1 & E2).
  destruct (Hm _ _ _ E1) as (S1 & E & N1 & W1).
  destruct (Hk _ _ _ _ E2) as (n & s & Hn & Hs & Hp & E' & N2 & W2).
  exists n, s. split; [by rewrite <- S1 |]. split; [assumption |].
  split; [assumption |].
  split; [eapply heap_extends_trans; eassumption |].
  split; [| auto].
  intros p Hlt.
  destruct (Nat.lt_ge_cases p (length (ctx_scopes c1))) as [Hlt' | Hge].
  - left. apply descends_extends with (ctx_scopes c1); [assumption |].
    rewrite <- Hn, S1. apply N1. lia.
  - apply N2. lia.
Qed.

Lemma popping_pop {B} (k : scope_ptr -> M B) :
  (forall p, preserves (k p)) -> popping (bind scope_pop k).
Proof.
  intros Hk c b c' H. apply bind_ok in H. destruct H as (a & c1 & E1 & E2).
  unfold scope_pop in E1.
  destruct (ctx_scope c) as [n |] eqn:Hn; [| discriminate].
  destruct (ctx_scopes c !! n) as [s |] eqn:Hs; [| discriminate].
  inversion E1; subst a c1; clear E1.
  destruct (Hk _ _ _ _ E2) as (S & E & N & W). simpl in S, E, N.
  destruct (proj2 E n s Hs) as (s' & Hs' & Ep).
  exists n, s'. split; [assumption |]. split; [assumption |].
  split; [by rewrite Ep |]. split; [assumption |].
  split; [intros p Hlt; right; rewrite Ep; apply N, Hlt |].
  intros [Wh Wv]. apply W. split; simpl; [exact Wh |].
  intros q Hq. specialize (Wh n s q Hs Hq).
  apply lookup_lt_Some in Hs. lia.
Qed.

Lemma preserves_push {B} (k : scope_ptr -> M B) :
  (forall p, popping (k p)) -> preserves (bind scope_push k).
Proof.
  intros Hk c b c' H. apply bind_ok in H. destruct H as (a & c1 & E1 & E2).
  unfold scope_push in E1. inversion E1; subst a c1; clear E1.
  destruct (Hk _ _ _ _ E2) as (n & s & Hn & Hs & Hp & E & N & W).
  simpl in Hn, E, N. inversion Hn; subst n; clear Hn.
  set (s0 := mk_scope EXPR_ACCESS None (ctx_scope c) []) in *.
  assert (H0 : (ctx_scopes c ++ [s0]) !! length (ctx_scopes c) = Some s0).
  { rewrite lookup_app_r by lia. by rewrite Nat.sub_diag. }
  destruct (proj2 E _ _ H0) as (s' & Hs' & Ep).
  assert (s' = s) by congruence. subst s'. simpl in Ep.
  split; [by rewrite Hp, Ep |]. split.
  - eapply heap_extends_trans; [| exact E].
    split; [rewrite length_app; simpl; lia |].
    intros p t Ht. exists t. split; [| reflexivity].
    rewrite lookup_app_l; [assumption |]. eapply lookup_lt_Some; eassumption.
  - split.
    + intros p Hlt.
      destruct (decide (p = length (ctx_scopes c))) as [-> | Hne].
      * apply descends_child with s; assumption.
      * rewrite <- Ep.
        destruct (N p) as [D | D];
          [rewrite length_app; simpl; lia | | exact D].
        eapply descends_parent; [exact Hs | reflexivity | exact D].
    + intros [Wh Wv]. apply W. split; simpl.
      * intros p t q Ht Hq. apply lookup_app_Some in Ht.
        destruct Ht as [Ht | [Hge Ht]]; [exact (Wh p t q Ht Hq) |].
        destruct (p - length (ctx_scopes c))%nat eqn:Hd;
          simpl in Ht; [| discriminate].
        injection Ht as <-. simpl in Hq. specialize (Wv q Hq). lia.
      * intros p Hq. injection Hq as <-. rewrite length_app. simpl. lia.
Qed.

Ltac pres_step :=
  first
    [ solve [eauto]
    | apply preserves_ret | apply preserves_crash | apply preserves_expect
    | apply preserves_c_assert | apply preserves_deref
    | apply preserves_get_ctx
    | apply preserves_scope_insert | apply preserves_scope_set_kind
    | apply preserves_modify_ctx; [intros []; reflexivity ..]
    | apply preserves_bind; [| intros ?]
    | match goal with
      | |- preserves (match ?x with _ => _ end) => destruct x
      end ].

Ltac pres := repeat pres_step.

Ltac pop_step :=
  first
    [ apply popping_pop; intros ?; pres
    | apply popping_bind; [pres | intros ?]
    | match goal with
      | |- popping (match ?x with _ => _ end) => destruct x
      end ].

Section FrameOfElaborations.

Context (ext : externals).
Variable rec : ast_expression -> option type -> M expression.

Local Abbreviation keeps := (keeps rec).

Lemma is_assignable_preserves to from :
  preserves (is_assignable ext to from).
Proof. unfold is_assignable. pres. Qed.

Hint Resolve is_assignable_preserves : core.

Lemma check_expr_access_ident_preserves ident :
  preserves (check_expr_access_ident ident).
Proof. unfold check_expr_access_ident. pres. Qed.

Lemma check_expr_access_index_preserves a i :
  keeps a -> keeps i -> preserves (check_expr_access_index ext rec a i).
Proof. unfold keeps, check_expr_access_index. intros. pres. Qed.

Lemma check_expr_access_field_preserves a f :
  keeps a -> preserves (check_expr_access_field ext rec a f).
Proof. unfold keeps, check_expr_access_field. intros. pres. Qed.

Lemma check_expr_assert_preserves loc c m hint :
  Forall keeps (option_list c) -> Forall keeps (option_list m) ->
  preserves (check_expr_assert ext rec loc c m hint).
Proof.
  unfold keeps, check_expr_assert. intros Hc Hm.
  destruct c, m; simpl in *; inversion_clear Hc; inversion_clear Hm; pres.
Qed.

Lemma check_expr_assign_preserves op o v ind hint :
  keeps o -> keeps v -> preserves (check_expr_assign ext rec op o v ind hint).
Proof. unfold keeps, check_expr_assign. intros. pres. Qed.

Lemma check_expr_binarithm_preserves op l r hint :
  keeps l -> keeps r -> preserves (check_expr_binarithm ext rec op l r hint).
Proof. unfold keeps, check_expr_binarithm. intros. pres. Qed.

Lemma check_one_binding_preserves b :
  keeps (binding_initializer b) -> preserves (check_one_binding ext rec b).
Proof. unfold keeps, check_one_binding. intros. pres. Qed.

Lemma check_expr_binding_preserves bs hint :
  Forall keeps (map binding_initializer bs) ->
  preserves (check_expr_binding ext rec bs hint).
Proof.
  unfold check_expr_binding. intros H. destruct bs as [| b bs]; [pres |].
  apply preserves_bind; [| intros; pres].
  apply preserves_mapM. rewrite List.Forall_map in H.
  eapply Forall_impl; [exact H |]. intros x Hx.
  apply check_one_binding_preserves, Hx.
Qed.

Lemma check_array_items_preserves {A} (value : A -> ast_expression)
    (expand : A -> bool) items :
  Forall keeps (map value items) ->
  forall t, preserves (check_array_items ext rec value expand items t).
Proof.
  unfold keeps. induction items as [| item rest IH]; intros H t; simpl.
  - pres.
  - inversion_clear H. specialize (IH ltac:(assumption)). pres.
Qed.

Lemma check_expr_array_preserves {A} (value : A -> ast_expression)
    (expand : A -> bool) items hint :
  Forall keeps (map value items) ->
  preserves (check_expr_array ext rec value expand items hint).
Proof.
  intros H. unfold check_expr_array.
  pose proof (check_array_items_preserves value expand items H). pres.
Qed.

Lemma lower_vaargs_preserves aargs t :
  Forall keeps (map call_arg_value aargs) ->
  preserves (lower_vaargs ext rec aargs t).
Proof.
  intros H. unfold lower_vaargs.
  pose proof (check_expr_array_preserves call_arg_value (fun _ => false)
                aargs (Some (type_store_lookup_array ext t SIZE_UNDEFINED)) H).
  pres.
Qed.

Lemma check_call_args_preserves v aargs :
  Forall keeps (map call_arg_value aargs) ->
  forall params, preserves (check_call_args ext rec v params aargs).
Proof.
  induction aargs as [| aarg arest IH]; intros H params; simpl.
  - pres.
  - pose proof (lower_vaargs_preserves (aarg :: arest)) as Hv.
    specialize (fun t => Hv t H).
    inversion_clear H. specialize (IH ltac:(assumption)).
    unfold keeps in *. pres.
Qed.

Lemma check_expr_call_preserves f aargs hint :
  keeps f -> Forall keeps (map call_arg_value aargs) ->
  preserves (check_expr_call ext rec f aargs hint).
Proof.
  intros Hf H. unfold check_expr_call.
  pose proof (check_call_args_preserves) as Ha.
  specialize (fun v => Ha v aargs H). unfold keeps in *. pres.
Qed.

Lemma check_expr_cast_preserves kind t v hint :
  keeps v -> preserves (check_expr_cast ext rec kind t v hint).
Proof. unfold keeps, check_expr_cast. intros. pres. Qed.

Lemma check_expr_constant_preserves s c hint :
  preserves (check_expr_constant ext s c hint).
Proof. unfold check_expr_constant. pres. Qed.

Lemma check_expr_defer_preserves d hint :
  keeps d -> preserves (check_expr_defer ext rec d hint).
Proof. unfold keeps, check_expr_defer. intros. pres. Qed.

Lemma check_expr_control_preserves kind label hint :
  preserves (check_expr_control kind label hint).
Proof. unfold check_expr_control. pres. Qed.

Lemma check_optional_preserves a hint :
  Forall keeps (option_list a) -> preserves (check_optional rec a hint).
Proof.
  unfold keeps, check_optional. intros H.
  destruct a; simpl in H; [inversion_clear H |]; pres.
Qed.

Lemma check_expr_for_preserves label b c a body hint :
  Forall keeps (option_list b) -> keeps c -> Forall keeps (option_list a) ->
  keeps body -> preserves (check_expr_for ext rec label b c a body hint).
Proof.
  intros Hb Hc Ha Hbody. unfold check_expr_for.
  pose proof (fun h => check_optional_preserves b h Hb).
  pose proof (fun h => check_optional_preserves a h Ha).
  unfold keeps in *.
  apply preserves_push; intros p. repeat pop_step.
Qed.

Lemma check_expr_if_preserves c t f hint :
  keeps c -> keeps t -> Forall keeps (option_list f) ->
  preserves (check_expr_if ext rec c t f hint).
Proof.
  unfold keeps, check_expr_if. intros Hc Ht Hf.
  destruct f; simpl in Hf; [inversion_clear Hf |]; pres.
Qed.

Lemma check_list_items_preserves alist :
  Forall keeps alist -> preserves (check_list_items rec alist).
Proof.
  unfold keeps. induction 1 as [| a rest Ha _ IH]; simpl; pres.
Qed.

Lemma check_expr_list_preserves alist hint :
  Forall keeps alist -> preserves (check_expr_list rec alist hint).
Proof.
  intros H. unfold check_expr_list.
  pose proof (check_list_items_preserves alist H).
  apply preserves_push; intros p. repeat pop_step.
Qed.

Lemma check_expr_measure_len_preserves v :
  keeps v -> preserves (check_expr_measure_len ext rec v).
Proof. unfold keeps, check_expr_measure_len. intros. pres. Qed.

Lemma check_expr_measure_size_preserves t :
  preserves (check_expr_measure_size ext t).
Proof. unfold check_expr_measure_size. pres. Qed.

Lemma check_expr_return_preserves v hint :
  Forall keeps (option_list v) -> preserves (check_expr_return ext rec v hint).
Proof.
  unfold keeps, check_expr_return. intros H.
  destruct v; simpl in H; [inversion_clear H |]; pres.
Qed.

Lemma check_slice_operand_preserves a :
  Forall keeps (option_list a) -> preserves (check_slice_operand ext rec a).
Proof.
  unfold keeps, check_slice_operand. intros H.
  destruct a; simpl in H; [inversion_clear H |]; pres.
Qed.

Lemma check_expr_slice_preserves o s e hint :
  keeps o -> Forall keeps (option_list s) -> Forall keeps (option_list e) ->
  preserves (check_expr_slice ext rec o s e hint).
Proof.
  intros Ho Hs He. unfold check_expr_slice.
  pose proof (check_slice_operand_preserves s Hs).
  pose proof (check_slice_operand_preserves e He).
  unfold keeps in *. pres.
Qed.

Lemma check_struct_value_preserves f :
  keeps (field_value_initializer f) -> preserves (check_struct_value ext rec f).
Proof. unfold keeps, check_struct_value. intros. pres. Qed.

Lemma check_struct_field_preserves t fv :
  preserves (check_struct_field ext t fv).
Proof. unfold check_struct_field. pres. Qed.

Lemma check_expr_struct_preserves autofill name fs hint :
  Forall keeps (map field_value_initializer fs) ->
  preserves (check_expr_struct ext rec autofill name fs hint).
Proof.
  intros H. unfold check_expr_struct. rewrite List.Forall_map in H.
  assert (H1 : preserves (mapM (check_struct_value ext rec) fs)).
  { apply preserves_mapM. eapply Forall_impl; [exact H |].
    intros x Hx. apply check_struct_value_preserves, Hx. }
  assert (H2 : forall t l, preserves (mapM (check_struct_field ext t) l)).
  { intros t l. apply preserves_mapM. apply Forall_forall.
    intros x _. apply check_struct_field_preserves. }
  destruct fs; pres.
Qed.

Lemma check_case_option_preserves t a :
  keeps a -> preserves (check_case_option ext rec t a).
Proof. unfold keeps, check_case_option. intros. pres. Qed.

Lemma check_switch_cases_preserves t acases :
  Forall keeps
    (flat_map (fun c => case_options c ++ [case_value c]) acases) ->
  forall r, preserves (check_switch_cases ext rec t acases r).
Proof.
  induction acases as [| acase rest IH]; intros H r; simpl.
  - pres.
  - simpl in H. apply Forall_app in H. destruct H as [H Hrest].
    apply Forall_app in H. destruct H as [Ho Hv]. inversion_clear Hv.
    specialize (IH Hrest).
    assert (preserves (mapM (check_case_option ext rec t)
                            (case_options acase))).
    { apply preserves_mapM. eapply Forall_impl; [exact Ho |].
      intros x Hx. apply check_case_option_preserves, Hx. }
    unfold keeps in *. pres.
Qed.

Lemma check_expr_switch_preserves v acases hint :
  keeps v ->
  Forall keeps
    (flat_map (fun c => case_options c ++ [case_value c]) acases) ->
  preserves (check_expr_switch ext rec v acases hint).
Proof.
  intros Hv H. unfold check_expr_switch.
  pose proof (fun t => check_switch_cases_preserves t acases H).
  unfold keeps in *. pres.
Qed.

Lemma check_expr_unarithm_preserves op o hint :
  keeps o -> preserves (check_expr_unarithm ext rec op o hint).
Proof. unfold keeps, check_expr_unarithm. intros. pres. Qed.

End FrameOfElaborations.

Lemma check_expression_preserves ext a :
  forall hint, preserves (check_expression ext a hint).
Proof.
  induction a as [[loc u] IH] using ast_expression_children_ind.
  change (Forall (keeps (check_expression ext))
                 (ast_children (mk_ast_expression loc u))) in IH.
  intros hint. unfold ast_children in IH.
  destruct u; simpl in IH |- *;
    repeat match goal with
      | H : Forall _ (_ :: _) |- _ => inversion_clear H
      | H : Forall _ (_ ++ _) |- _ => apply Forall_app in H; destruct H
      end.
  - apply check_expr_access_ident_preserves.
  - apply check_expr_access_index_preserves; assumption.
  - apply check_expr_access_field_preserves; assumption.
  - apply check_expr_assert_preserves; assumption.
  - apply check_expr_assign_preserves; assumption.
  - apply check_expr_binarithm_preserves; assumption.
  - apply check_expr_binding_preserves; assumption.
  - apply check_expr_control_preserves.
  - apply check_expr_call_preserves; assumption.
  - apply check_expr_cast_preserves; assumption.
  - apply check_expr_constant_preserves.
  - apply check_expr_array_preserves; assumption.
  - apply check_expr_defer_preserves; assumption.
  - apply check_expr_for_preserves; assumption.
  - apply check_expr_if_preserves; assumption.
  - apply check_expr_list_preserves; assumption.
  - pres.
  - apply check_expr_measure_len_preserves; assumption.
  - apply check_expr_measure_size_preserves.
  - pres.
  - apply check_expr_return_preserves; assumption.
  - apply check_expr_slice_preserves; assumption.
  - apply check_expr_struct_preserves; assumption.
  - apply check_expr_switch_preserves; assumption.
  - apply check_expr_unarithm_preserves; assumption.
Qed.

(** ** Results: inversion and the invariant of typed scopes *)

Lemma ret_ok {A} (a b : A) c c' : ret a c = Ok (b, c') -> b = a /\ c' = c.
Proof. intros H; inversion H; auto. Qed.

Lemma expect_ok b msg c u c' :
  expect b msg c = Ok (u, c') -> b = true /\ c' = c.
Proof. unfold expect. destruct b; intros H; inversion H; auto. Qed.

Lemma c_assert_ok b c u c' : c_assert b c = Ok (u, c') -> b = true /\ c' = c.
Proof. unfold c_assert. destruct b; intros H; inversion H; auto. Qed.

Lemma deref_ok {A} (o : option A) c a c' :
  deref o c = Ok (a, c') -> o = Some a /\ c' = c.
Proof. unfold deref. destruct o; intros H; inversion H; auto. Qed.

Lemma get_ctx_ok c a c' : get_ctx c = Ok (a, c') -> a = c /\ c' = c.
Proof. intros H; inversion H; auto. Qed.

Lemma modify_ctx_ok f c u c' : modify_ctx f c = Ok (u, c') -> c' = f c.
Proof. intros H; inversion H; auto. Qed.

(** Inversion of a successful run, one step at a time. *)
Ltac minv H :=
  lazymatch type of H with
  | bind _ _ _ = Ok _ =>
      let a := fresh "a" in
      let c := fresh "c" in
      let E := fresh "E" in
      apply bind_ok in H; destruct H as (a & c & E & H); minv E; minv H
  | ret _ _ = Ok _ =>
      apply ret_ok in H; destruct H; simplify_eq
  | expect _ _ _ = Ok _ =>
      apply expect_ok in H; destruct H; try discriminate; subst
  | c_assert _ _ = Ok _ =>
      apply c_assert_ok in H; destruct H; try discriminate; subst
  | deref _ _ = Ok _ =>
      apply deref_ok in H; destruct H; simplify_eq
  | get_ctx _ = Ok _ =>
      apply get_ctx_ok in H; destruct H; subst
  | modify_ctx _ _ = Ok _ =>
      apply modify_ctx_ok in H; subst
  | crash _ = Ok _ => discriminate H
  | is_assignable _ _ _ _ = Ok _ => unfold is_assignable in H; minv H
  | check_optional _ _ _ _ = Ok _ => unfold check_optional in H; minv H
  | check_slice_operand _ _ _ _ = Ok _ =>
      unfold check_slice_operand in H; minv H
  | (match ?x with _ => _ end) _ = Ok _ =>
      destruct x eqn:?; try discriminate H; minv H
  | _ => idtac
  end.

Lemma good_same_scopes c c' :
  ctx_scopes c' = ctx_scopes c -> good c -> good c'.
Proof. unfold good. intros ->. auto. Qed.

Lemma good_heap_insert h i s s' :
  good_heap h -> h !! i = Some s -> Forall obj_ok (scope_objects s') ->
  good_heap (<[i := s']> h).
Proof.
  intros G Hi Hs' p t Ht. destruct (decide (i = p)) as [-> | Hne].
  - rewrite list_lookup_insert_eq in Ht by (eapply lookup_lt_Some; eassumption).
    inversion Ht; subst; assumption.
  - rewrite list_lookup_insert_ne in Ht by assumption. eapply G; eassumption.
Qed.

Lemma scope_insert_good p k i n t v c o c' :
  good c -> obj_ok (mk_scope_object k i n t v) ->
  scope_insert p k i n t v c = Ok (o, c') ->
  good c' /\ o = mk_scope_object k i n t v.
Proof.
  intros G Ho H. unfold scope_insert in H.
  destruct p as [j |]; [| discriminate].
  destruct (ctx_scopes c !! j) as [s |] eqn:Hj; [| discriminate].
  inversion H; subst. split; [| reflexivity].
  unfold good; simpl. eapply good_heap_insert; [exact G | exact Hj |].
  simpl. apply Forall_app; split; [eapply G; eassumption |].
  constructor; [exact Ho | constructor].
Qed.

Lemma scope_set_kind_good p t l c u c' :
  good c -> scope_set_kind p t l c = Ok (u, c') -> good c'.
Proof.
  intros G H. unfold scope_set_kind in H.
  destruct (ctx_scopes c !! p) as [s |] eqn:Hj; [| discriminate].
  inversion H; subst. unfold good; simpl.
  eapply good_heap_insert; [exact G | exact Hj |]. simpl.
  eapply G; eassumption.
Qed.

Lemma scope_push_good c p c' : good c -> scope_push c = Ok (p, c') -> good c'.
Proof.
  intros G H. unfold scope_push in H. inversion H; subst.
  unfold good; simpl. intros q s Hq.
  apply lookup_app_Some in Hq. destruct Hq as [Hq | [_ Hq]].
  - eapply G; eassumption.
  - destruct (q - length (ctx_scopes c))%nat; simpl in Hq; [| discriminate].
    inversion Hq; subst; simpl. constructor.
Qed.

Lemma scope_pop_good c p c' : good c -> scope_pop c = Ok (p, c') -> good c'.
Proof.
  intros G H. unfold scope_pop in H.
  destruct (ctx_scope c); [| discriminate].
  destruct (ctx_scopes c !! _); [| discriminate].
  inversion H; subst. exact G.
Qed.

Lemma scope_lookup_from_good fuel h p ident o :
  good_heap h -> scope_lookup_from fuel h p ident = Some o -> obj_ok o.
Proof.
  intros G. revert p. induction fuel as [| fuel IH]; intros p H; simpl in H.
  - discriminate.
  - destruct p as [i |]; [| discriminate].
    destruct (h !! i) as [s |] eqn:Hi; [| discriminate].
    destruct (find (object_matches ident) (scope_objects s)) as [o' |] eqn:F.
    + inversion H; subst. apply find_some in F. destruct F as [F _].
      specialize (G i s Hi). rewrite List.Forall_forall in G. apply G, F.
    + eapply IH, H.
Qed.

Lemma holds_mapM {A B} (f : A -> M B) (V : B -> Prop) l :
  Forall (fun a => holds (f a) V) l -> holds (mapM f l) (Forall V).
Proof.
  induction 1 as [| a l Ha _ IH]; simpl; intros c r c' G H.
  - minv H. split; [assumption | constructor].
  - minv H. destruct (Ha _ _ _ G E) as [G1 V1].
    destruct (IH _ _ _ G1 E0) as [G2 V2]. split; [assumption |].
    constructor; assumption.
Qed.

Ltac good_step sound_unfold :=
  match goal with
  | G : good ?c0, E : scope_push ?c0 = Ok _ |- _ =>
      pose proof (scope_push_good _ _ _ G E); clear E
  | G : good ?c0, E : scope_pop ?c0 = Ok _ |- _ =>
      pose proof (scope_pop_good _ _ _ G E); clear E
  | G : good ?c0, E : scope_set_kind _ _ _ ?c0 = Ok _ |- _ =>
      pose proof (scope_set_kind_good _ _ _ _ _ _ G E); clear E
  | G : good ?c0, E : scope_insert _ _ _ _ _ _ ?c0 = Ok _ |- _ =>
      apply (scope_insert_good _ _ _ _ _ _ _ _ _ G) in E;
        [destruct E; subst | unfold obj_ok; simpl; congruence]
  | G : good ?c0, E : ?m ?c0 = Ok (?x, ?c1),
    IH : forall c a c', good c -> ?m c = Ok (a, c') -> _ |- _ =>
      let G1 := fresh "G" in
      let N := fresh "N" in
      destruct (IH c0 x c1 G E) as [G1 N]; clear E
  | G : good ?c0, E : ?f ?h ?c0 = Ok (?x, ?c1),
    IH : forall hint c a c', good c -> ?f hint c = Ok (a, c') -> _ |- _ =>
      let G1 := fresh "G" in
      let N := fresh "N" in
      destruct (IH h c0 x c1 G E) as [G1 N]; clear E
  | G : good ?c0, E : context [set_id ?n ?c0] |- _ =>
      lazymatch goal with
      | _ : good (set_id n c0) |- _ => fail
      | _ => pose proof (good_same_scopes c0 (set_id n c0) eq_refl G)
      end
  | G : good ?c0, E : context [set_deferring ?n ?c0] |- _ =>
      lazymatch goal with
      | _ : good (set_deferring n c0) |- _ => fail
      | _ => pose proof (good_same_scopes c0 (set_deferring n c0) eq_refl G)
      end
  | G : good ?c0, E : context [set_current_fntype ?n ?c0] |- _ =>
      lazymatch goal with
      | _ : good (set_current_fntype n c0) |- _ => fail
      | _ =>
          pose proof (good_same_scopes c0 (set_current_fntype n c0) eq_refl G)
      end
  | G : good ?c0 |- good (set_deferring _ ?c0) =>
      exact (good_same_scopes c0 _ eq_refl G)
  | G : good ?c0 |- good (set_id _ ?c0) =>
      exact (good_same_scopes c0 _ eq_refl G)
  | G : good ?c0 |- good (set_current_fntype _ ?c0) =>
      exact (good_same_scopes c0 _ eq_refl G)
  end.

Section ResultsOfElaborations.

Context (ext : externals).
Hypothesis builtins : builtins_total ext.
Variable rec : ast_expression -> option type -> M expression.

Local Abbreviation sound := (sound rec).

Ltac start :=
  intros; unfold sound in *; unfold holds in *;
  let G := fresh "G" in
  let H := fresh "Hrun" in
  intros ? ? ? G H.

Ltac finish :=
  repeat good_step idtac;
  split; [first [assumption | repeat good_step idtac] |];
  unfold nn in *; simpl in *; try congruence; auto.

Lemma is_assignable_holds to from :
  holds (is_assignable ext to from) (fun _ => True).
Proof.
  start. unfold is_assignable in Hrun. minv Hrun. auto.
Qed.

Lemma check_expr_access_ident_holds ident :
  holds (check_expr_access_ident ident) nn.
Proof.
  start. unfold check_expr_access_ident in Hrun. minv Hrun.
  all: match goal with
       | G : good ?c, L : scope_lookup _ _ _ = Some ?o |- _ =>
           pose proof (scope_lookup_from_good _ _ _ _ _ G L) as Ho;
           unfold obj_ok in Ho
       end.
  all: match goal with
       | E : obj_otype _ = _ |- _ => rewrite E in Ho
       end.
  - finish.
  - split; [assumption |]. apply Ho; assumption.
  - finish.
Qed.

Lemma check_expr_access_index_holds a i :
  sound a -> sound i -> holds (check_expr_access_index ext rec a i) nn.
Proof. start. unfold check_expr_access_index in Hrun. minv Hrun. finish. Qed.

Lemma check_expr_access_field_holds a f :
  sound a -> holds (check_expr_access_field ext rec a f) nn.
Proof. start. unfold check_expr_access_field in Hrun. minv Hrun. finish. Qed.

Lemma check_expr_assert_holds loc c m hint :
  Forall sound (option_list c) -> Forall sound (option_list m) ->
  holds (check_expr_assert ext rec loc c m hint) nn.
Proof.
  intros Hc Hm. destruct c, m; simpl in *; inversion_clear Hc;
    inversion_clear Hm; start; unfold check_expr_assert in Hrun;
    minv Hrun; finish.
Qed.

Lemma check_expr_assign_holds op o v ind hint :
  sound o -> sound v -> holds (check_expr_assign ext rec op o v ind hint) nn.
Proof. start. unfold check_expr_assign in Hrun. minv Hrun; finish. Qed.

Lemma check_expr_binarithm_holds op l r hint :
  sound l -> sound r -> holds (check_expr_binarithm ext rec op l r hint) nn.
Proof.
  start. unfold check_expr_binarithm in Hrun. minv Hrun.
  destruct (binarithm_is_numeric op); finish.
Qed.

Lemma check_one_binding_holds b :
  sound (binding_initializer b) ->
  holds (check_one_binding ext rec b) (fun _ => True).
Proof.
  start. unfold check_one_binding in Hrun. minv Hrun;
    repeat good_step idtac; auto.
Qed.

Lemma check_expr_binding_holds bs hint :
  Forall sound (map binding_initializer bs) ->
  holds (check_expr_binding ext rec bs hint) nn.
Proof.
  intros H. rewrite List.Forall_map in H.
  assert (Hm : holds (mapM (check_one_binding ext rec) bs)
                     (Forall (fun _ => True))).
  { apply holds_mapM. eapply Forall_impl; [exact H |].
    intros x Hx. apply check_one_binding_holds, Hx. }
  start. unfold check_expr_binding in Hrun. minv Hrun. finish.
Qed.

Lemma check_array_items_holds {A} (value : A -> ast_expression)
    (expand : A -> bool) items :
  Forall sound (map value items) ->
  forall t, holds (check_array_items ext rec value expand items t)
                  (fun _ => True).
Proof.
  induction items as [| item rest IH]; intros H t.
  - start. simpl in Hrun. minv Hrun. auto.
  - inversion_clear H. specialize (IH ltac:(assumption)).
    start. simpl in Hrun. minv Hrun; repeat good_step idtac; auto.
Qed.

Lemma check_expr_array_holds {A} (value : A -> ast_expression)
    (expand : A -> bool) items hint :
  Forall sound (map value items) ->
  holds (check_expr_array ext rec value expand items hint) nn.
Proof.
  intros H. pose proof (check_array_items_holds value expand items H).
  start. unfold check_expr_array in Hrun. minv Hrun; finish.
Qed.

Lemma lower_vaargs_holds aargs t :
  Forall sound (map call_arg_value aargs) ->
  holds (lower_vaargs ext rec aargs t) nn.
Proof.
  intros H.
  pose proof (fun h => check_expr_array_holds call_arg_value (fun _ => false)
                         aargs h H).
  start. unfold lower_vaargs in Hrun. minv Hrun. finish.
Qed.

Lemma check_call_args_holds v aargs :
  Forall sound (map call_arg_value aargs) ->
  forall params, holds (check_call_args ext rec v params aargs)
                       (fun _ => True).
Proof.
  induction aargs as [| aarg arest IH]; intros H params.
  - start. simpl in Hrun. minv Hrun. auto.
  - pose proof (fun t => lower_vaargs_holds (aarg :: arest) t H) as Hv.
    inversion_clear H. specialize (IH ltac:(assumption)).
    start. simpl in Hrun. minv Hrun; repeat good_step idtac; auto.
    match goal with
    | G : good ?c0, E : check_call_args _ _ _ _ _ ?c0 = Ok _ |- _ =>
        destruct (IH _ _ _ _ G E)
    end.
    auto.
Qed.

Lemma check_expr_call_holds f aargs hint :
  sound f -> Forall sound (map call_arg_value aargs) ->
  holds (check_expr_call ext rec f aargs hint) nn.
Proof.
  intros Hf H.
  pose proof (fun v p => check_call_args_holds v aargs H p) as Ha.
  start. unfold check_expr_call in Hrun. minv Hrun.
  repeat good_step idtac.
  destruct (Ha _ _ _ _ _ ltac:(eassumption) ltac:(eassumption)).
  finish.
Qed.

Lemma check_expr_cast_holds kind t v hint :
  sound v -> holds (check_expr_cast ext rec kind t v hint) nn.
Proof. start. unfold check_expr_cast in Hrun. minv Hrun; finish. Qed.

Lemma check_expr_constant_holds s c hint :
  holds (check_expr_constant ext s c hint) nn.
Proof.
  start. unfold check_expr_constant in Hrun. minv Hrun;
    (split; [assumption |]); intros _; simpl; apply builtins; reflexivity.
Qed.

Lemma check_expr_defer_holds d hint :
  sound d -> holds (check_expr_defer ext rec d hint) nn.
Proof. start. unfold check_expr_defer in Hrun. minv Hrun. finish. Qed.

Lemma check_expr_control_holds kind label hint :
  holds (check_expr_control kind label hint) nn.
Proof. start. unfold check_expr_control in Hrun. minv Hrun. finish. Qed.

Lemma check_expr_for_holds label b c a body hint :
  Forall sound (option_list b) -> sound c -> Forall sound (option_list a) ->
  sound body -> holds (check_expr_for ext rec label b c a body hint) nn.
Proof.
  intros Hb Hc Ha Hbody.
  destruct b, a; simpl in *; inversion_clear Hb; inversion_clear Ha;
    start; unfold check_expr_for in Hrun; minv Hrun; finish.
Qed.

Lemma check_expr_if_holds c t f hint :
  sound c -> sound t -> Forall sound (option_list f) ->
  holds (check_expr_if ext rec c t f hint) nn.
Proof.
  intros Hc Ht Hf. destruct f; simpl in Hf; [inversion_clear Hf |];
    start; unfold check_expr_if in Hrun; minv Hrun; finish.
Qed.

Lemma check_list_items_holds alist :
  Forall sound alist -> alist <> [] ->
  holds (check_list_items rec alist)
        (fun r => snd r = false -> snd (fst r) <> None).
Proof.
  induction 1 as [| a rest Ha Hrest IH]; intros Hne; [congruence |].
  start. simpl in Hrun. minv Hrun.
  - finish.
  - repeat good_step idtac.
    destruct (IH ltac:(discriminate) _ _ _ ltac:(eassumption)
                 ltac:(eassumption)) as [G2 N2].
    split; [assumption |]. exact N2.
Qed.

Lemma check_expr_list_holds alist hint :
  Forall sound alist -> holds (check_expr_list rec alist hint) nn.
Proof.
  intros H. pose proof (check_list_items_holds alist H) as Hl.
  start. unfold check_expr_list in Hrun. minv Hrun.
  repeat good_step idtac.
  destruct (Hl ltac:(discriminate) _ _ _ ltac:(eassumption)
               ltac:(eassumption)) as [G2 N2].
  finish.
Qed.

Lemma check_expr_measure_len_holds v :
  sound v -> holds (check_expr_measure_len ext rec v) nn.
Proof. start. unfold check_expr_measure_len in Hrun. minv Hrun. finish. Qed.

Lemma check_expr_measure_size_holds t :
  holds (check_expr_measure_size ext t) nn.
Proof. start. unfold check_expr_measure_size in Hrun. minv Hrun. finish. Qed.

Lemma check_expr_return_holds v hint :
  Forall sound (option_list v) -> holds (check_expr_return ext rec v hint) nn.
Proof.
  intros H. destruct v; simpl in H; [inversion_clear H |];
    start; unfold check_expr_return in Hrun; minv Hrun; finish.
Qed.

Lemma check_expr_slice_holds o s e hint :
  sound o -> Forall sound (option_list s) -> Forall sound (option_list e) ->
  holds (check_expr_slice ext rec o s e hint) nn.
Proof.
  intros Ho Hs He.
  destruct s, e; simpl in *; inversion_clear Hs; inversion_clear He;
    start; unfold check_expr_slice in Hrun; minv Hrun; finish.
Qed.

Lemma check_struct_value_holds f :
  sound (field_value_initializer f) ->
  holds (check_struct_value ext rec f) (fun _ => True).
Proof.
  start. unfold check_struct_value in Hrun. minv Hrun.
  repeat good_step idtac. auto.
Qed.

Lemma check_struct_field_holds t fv :
  holds (check_struct_field ext t fv) (fun _ => True).
Proof. start. unfold check_struct_field in Hrun. minv Hrun. auto. Qed.

Lemma check_expr_struct_holds autofill name fs hint :
  Forall sound (map field_value_initializer fs) ->
  holds (check_expr_struct ext rec autofill name fs hint) nn.
Proof.
  intros H. rewrite List.Forall_map in H.
  assert (H1 : holds (mapM (check_struct_value ext rec) fs)
                     (Forall (fun _ => True))).
  { apply holds_mapM. eapply Forall_impl; [exact H |].
    intros x Hx. apply check_struct_value_holds, Hx. }
  assert (H2 : forall t l, holds (mapM (check_struct_field ext t) l)
                                 (Forall (fun _ => True))).
  { intros t l. apply holds_mapM. apply Forall_forall.
    intros x _. apply check_struct_field_holds. }
  start. unfold check_expr_struct in Hrun. minv Hrun.
  repeat good_step idtac.
  destruct (H2 _ _ _ _ _ ltac:(eassumption) ltac:(eassumption)).
  finish.
Qed.

Lemma check_case_option_holds t a :
  sound a -> holds (check_case_option ext rec t a) (fun _ => True).
Proof.
  start. unfold check_case_option in Hrun. minv Hrun.
  repeat good_step idtac. auto.
Qed.

Lemma check_switch_cases_holds t acases :
  Forall sound
    (flat_map (fun c => case_options c ++ [case_value c]) acases) ->
  forall r, holds (check_switch_cases ext rec t acases r) (fun _ => True).
Proof.
  induction acases as [| acase rest IH]; intros H r.
  - start. simpl in Hrun. minv Hrun. auto.
  - simpl in H. apply Forall_app in H. destruct H as [H Hrest].
    apply Forall_app in H. destruct H as [Ho Hv]. inversion_clear Hv.
    specialize (IH Hrest).
    assert (Hm : holds (mapM (check_case_option ext rec t)
                             (case_options acase))
                       (Forall (fun _ => True))).
    { apply holds_mapM. eapply Forall_impl; [exact Ho |].
      intros x Hx. apply check_case_option_holds, Hx. }
    start. simpl in Hrun. minv Hrun; repeat good_step idtac; auto.
Qed.

Lemma check_expr_switch_holds v acases hint :
  sound v ->
  Forall sound
    (flat_map (fun c => case_options c ++ [case_value c]) acases) ->
  holds (check_expr_switch ext rec v acases hint) nn.
Proof.
  intros Hv H.
  pose proof (fun t r => check_switch_cases_holds t acases H r) as Hc.
  start. unfold check_expr_switch in Hrun. minv Hrun;
    repeat good_step idtac;
    destruct (Hc _ _ _ _ _ ltac:(eassumption) ltac:(eassumption));
    finish.
Qed.

Lemma check_expr_unarithm_holds op o hint :
  sound o -> holds (check_expr_unarithm ext rec op o hint) nn.
Proof. start. unfold check_expr_unarithm in Hrun. minv Hrun; finish. Qed.

End ResultsOfElaborations.

Lemma check_expression_holds ext a :
  builtins_total ext -> forall hint, holds (check_expression ext a hint) nn.
Proof.
  intros Hb.
  induction a as [[loc u] IH] using ast_expression_children_ind.
  change (Forall (sound (check_expression ext))
                 (ast_children (mk_ast_expression loc u))) in IH.
  intros hint. unfold ast_children in IH.
  destruct u; simpl in IH |- *;
    repeat match goal with
      | H : Forall _ (_ :: _) |- _ => inversion_clear H
      | H : Forall _ (_ ++ _) |- _ => apply Forall_app in H; destruct H
      end.
  - apply check_expr_access_ident_holds.
  - apply check_expr_access_index_holds; assumption.
  - apply check_expr_access_field_holds; assumption.
  - apply check_expr_assert_holds; assumption.
  - apply check_expr_assign_holds; assumption.
  - apply check_expr_binarithm_holds; assumption.
  - apply check_expr_binding_holds; assumption.
  - apply check_expr_control_holds.
  - apply check_expr_call_holds; assumption.
  - apply check_expr_cast_holds; assumption.
  - apply check_expr_constant_holds; assumption.
  - apply check_expr_array_holds; assumption.
  - apply check_expr_defer_holds; assumption.
  - apply check_expr_for_holds; assumption.
  - apply check_expr_if_holds; assumption.
  - apply check_expr_list_holds; assumption.
  - intros c e c' G H. minv H.
  - apply check_expr_measure_len_holds; assumption.
  - apply check_expr_measure_size_holds.
  - intros c e c' G H. minv H.
  - apply check_expr_return_holds; assumption.
  - apply check_expr_slice_holds; assumption.
  - apply check_expr_struct_holds; assumption.
  - apply check_expr_switch_holds; assumption.
  - apply check_expr_unarithm_holds; assumption.
Qed.

(** * The properties of the specification *)

(** ** Totality of annotation *)

(** C1, at a [break] or [continue] inside a loop: the check succeeds, the
    node is marked as terminating, and its result type is left null.
    [check_expr_control] never writes [expr->result], unlike
    [check_expr_return], which sets it to [void]. *)
Theorem check_expr_control_leaves_result_null :
  forall (ext : externals) (kind : control_kind),
    check_expression ext (Demo.at_ (A_control kind None)) None Demo.in_loop
    = Ok (mk_expression (control_expr_type kind) None true (E_control None),
          Demo.in_loop).
Proof. intros ext kind. reflexivity. Qed.

(** ** Termination monotonicity *)

(** C2, at [if (true) break else break]: both branches terminate, the
    check succeeds, and the [if] node has [terminates = false].  The
    branch of [check_expr_if] for two terminating branches sets the
    result to [void] and forgets [expr->terminates]. *)
Theorem check_expr_if_both_terminate_not_terminating :
  exists cond true_branch false_branch,
    check_expression Demo.store Demo.a_if_break_else_break None Demo.in_loop
    = Ok (mk_expression EXPR_IF (Some Demo.t_void) false
            (E_if cond true_branch (Some false_branch)),
          Demo.in_loop)
    /\ expr_terminates true_branch = true
    /\ expr_terminates false_branch = true.
Proof.
  do 3 eexists. split; [vm_compute; reflexivity |]. split; reflexivity.
Qed.

(** The other paths, for every run: a control or return node
    terminates; an [if] without [else] terminates as its branch does; a
    list terminates as its last expression does; an [if] with [else]
    never terminates, whatever its branches do. *)
Section TerminationOfElaborations.

Variable ext : externals.
Variable rec : ast_expression -> option type -> M expression.

Lemma check_expr_control_terminates kind label hint c e c' :
  check_expr_control kind label hint c = Ok (e, c') ->
  expr_terminates e = true /\ expr_result e = None.
Proof.
  intros H. unfold check_expr_control in H. minv H. split; reflexivity.
Qed.

Lemma check_expr_return_terminates avalue hint c e c' :
  check_expr_return ext rec avalue hint c = Ok (e, c') ->
  expr_terminates e = true /\ expr_result e = Some (builtin_type_void ext).
Proof.
  intros H. unfold check_expr_return in H.
  apply bind_ok in H. destruct H as (v & c1 & _ & H). minv H.
  split; reflexivity.
Qed.

Lemma check_expr_if_else_not_terminating acond atrue afalse hint c e c' :
  check_expr_if ext rec acond atrue (Some afalse) hint c = Ok (e, c') ->
  expr_terminates e = false.
Proof.
  intros H. unfold check_expr_if in H.
  apply bind_ok in H. destruct H as (cond & c1 & _ & H).
  apply bind_ok in H. destruct H as (tb & c2 & _ & H).
  apply bind_ok in H. destruct H as (r & c3 & E & H).
  apply bind_ok in E. destruct E as (fb & c4 & _ & E).
  apply bind_ok in E. destruct E as (result & c5 & _ & E).
  apply ret_ok in E. destruct E as [-> _].
  minv H. reflexivity.
Qed.

Lemma check_expr_if_alone_terminates acond atrue hint c e c' :
  check_expr_if ext rec acond atrue None hint c = Ok (e, c') ->
  exists cond true_branch,
    expr_union e = E_if cond true_branch None
    /\ expr_terminates e = expr_terminates true_branch.
Proof.
  intros H. unfold check_expr_if in H.
  apply bind_ok in H. destruct H as (cond & c1 & _ & H).
  apply bind_ok in H. destruct H as (tb & c2 & _ & H).
  apply bind_ok in H. destruct H as (r & c3 & E & H).
  apply ret_ok in E. destruct E as [-> _].
  minv H. exists cond, tb. split; reflexivity.
Qed.

Lemma check_list_items_last alist c exprs result terminates c' :
  check_list_items rec alist c = Ok (exprs, result, terminates, c') ->
  alist <> [] ->
  exists l, List.last (map Some exprs) None = Some l
    /\ terminates = expr_terminates l /\ result = expr_result l.
Proof.
  revert c exprs result terminates c'.
  induction alist as [| a rest IH]; intros c exprs result terminates c' H Hne;
    [congruence |].
  simpl in H. apply bind_ok in H. destruct H as (lexpr & c1 & _ & H).
  destruct rest as [| b rest].
  - apply ret_ok in H. destruct H as [H _]. injection H as -> -> ->.
    exists lexpr. repeat split; reflexivity.
  - apply bind_ok in H. destruct H as ([[exprs' result'] terminates'] & c2 & E & H).
    apply ret_ok in H. destruct H as [H _]. injection H as -> -> ->.
    destruct (IH _ _ _ _ _ E ltac:(discriminate)) as (l & L & T & R).
    exists l. destruct exprs' as [| x xs]; [discriminate L |].
    repeat split; assumption.
Qed.

Lemma check_expr_list_terminates alist hint c e c' :
  check_expr_list rec alist hint c = Ok (e, c') ->
  exists exprs scope l,
    expr_union e = E_list exprs scope
    /\ List.last (map Some exprs) None = Some l
    /\ expr_terminates e = expr_terminates l
    /\ expr_result e = expr_result l.
Proof.
  intros H. unfold check_expr_list in H.
  apply bind_ok in H. destruct H as (p & c1 & _ & H).
  apply bind_ok in H. destruct H as (u & c2 & _ & H).
  apply bind_ok in H. destruct H as ([[exprs result] terminates] & c3 & E & H).
  minv H.
  destruct alist as [| a0 rest]; [discriminate E |].
  destruct (check_list_items_last _ _ _ _ _ _ E ltac:(discriminate))
    as (l & L & T & R).
  exists exprs, p, l. repeat split; assumption.
Qed.

End TerminationOfElaborations.

(** ** The message of an assertion *)

(** What [check_expr_assert] stores, at any location: the length of the
    whole text, and a buffer whose first [n] bytes are the text without
    its last character, followed by a zero byte. *)
Lemma assert_message_buffer_truncated (loc : location) :
  let text := list_ascii_of_string (assertion_failed_text loc) in
  let '(s, n) := assert_message_buffer loc in
  n = Z.of_nat (length text)
  /\ take (length text) s = take (length text - 1) text ++ [Ascii.zero].
Proof.
  unfold assert_message_buffer. cbv zeta.
  set (text := list_ascii_of_string (assertion_failed_text loc)).
  assert (L : String.length (assertion_failed_text loc) = length text).
  { unfold text. generalize (assertion_failed_text loc).
    induction s as [| a s IH]; simpl; congruence. }
  rewrite L. split; [reflexivity |].
  assert (P : (1 <= length text)%nat).
  { unfold text, assertion_failed_text. simpl. lia. }
  unfold snprintf.
  destruct (Z.leb_spec (Z.of_nat (length text)) 0) as [Hle | _]; [lia |].
  fold text.
  replace (Z.to_nat (Z.of_nat (length text) - 1)) with (length text - 1)%nat
    by lia.
  set (written := take (length text - 1) text).
  assert (W : length written = (length text - 1)%nat).
  { unfold written. rewrite length_take. lia. }
  change (written ++ [Ascii.zero] ++ ?r)
    with (written ++ ([Ascii.zero] ++ r)).
  rewrite app_assoc. rewrite take_app_length'; [reflexivity |].
  rewrite length_app, W. simpl. lia.
Qed.

(** C9, at an [assert] without message at [main.ha:3:5]: the stored
    length is that of ["Assertion failed: main.ha:3:5"], and the stored
    bytes are ["Assertion failed: main.ha:3:"] followed by a zero byte:
    the column lost its last digit.  [snprintf] is given the size [n]
    where the buffer has [n + 1] bytes. *)
Theorem check_expr_assert_message_truncated :
  exists s,
    check_expression Demo.store Demo.a_assert None Demo.in_loop
    = Ok (mk_expression EXPR_ASSERT (Some Demo.t_void) true
            (E_assert None
               (mk_expression EXPR_CONSTANT (Some Demo.t_const_str) false
                  (E_constant (EC_string s 29)))),
          Demo.in_loop)
    /\ String.length (assertion_failed_text Demo.here) = 29%nat
    /\ assertion_failed_text Demo.here = "Assertion failed: main.ha:3:5"
    /\ string_of_list_ascii (take 29 s)
       = String.append "Assertion failed: main.ha:3:" (String Ascii.zero "").
Proof.
  eexists. split; [vm_compute; reflexivity |].
  repeat split; vm_compute; reflexivity.
Qed.

(** ** Label resolution *)

Lemma eligible_spec label p s :
  eligible label (p, s) = true <->
  scope_type s = EXPR_FOR /\
  (label = None \/ exists l, label = Some l /\ scope_label s = Some l).
Proof.
  unfold eligible, expr_type_eqb; simpl.
  destruct (expr_type_eq_dec (scope_type s) EXPR_FOR) as [E | E]; simpl.
  - destruct label as [l |].
    + destruct (scope_label s) as [sl |].
      * rewrite String.eqb_eq. split.
        -- intros ->. split; [assumption |]. right. eauto.
        -- intros [_ [H | (l' & H1 & H2)]]; congruence.
      * split; [discriminate |].
        intros [_ [H | (l' & H1 & H2)]]; congruence.
    + split; auto.
  - split; [discriminate | intros [H _]; contradiction].
Qed.

Lemma control_walk_chain h label :
  scopes_wf h ->
  forall p l, scope_chain h p l ->
  forall fuel,
    match p with Some i => (i < fuel)%nat | None => True end ->
    control_walk fuel h p label
    = Some (option_map fst (find (eligible label) l)).
Proof.
  intros W p l C.
  induction C as [| p s l Hp C IH]; intros fuel Hf.
  - destruct fuel; reflexivity.
  - destruct fuel as [| fuel]; [lia |]. simpl. rewrite Hp.
    assert (Hnext : match scope_parent s with
                    | Some i => (i < fuel)%nat
                    | None => True
                    end).
    { destruct (scope_parent s) as [q |] eqn:Hq; [| exact I].
      specialize (W p s q Hp Hq). lia. }
    unfold eligible at 1; simpl.
    destruct (expr_type_eqb (scope_type s) EXPR_FOR); simpl.
    + destruct label as [lbl |]; [| reflexivity].
      unfold label_matches.
      destruct (scope_label s) as [sl |].
      * destruct (String.eqb lbl sl); [reflexivity | apply IH, Hnext].
      * apply IH, Hnext.
    + apply IH, Hnext.
Qed.

(** The two hypotheses of the next theorem are invariants of the
    checker: every elaboration keeps the heap ordered and the current
    scope allocated, and in such a context the current scope has a
    parent chain. *)
Lemma check_expression_keeps_ctx_wf ext a hint c e c' :
  check_expression ext a hint c = Ok (e, c') -> ctx_wf c -> ctx_wf c'.
Proof.
  intros H. destruct (check_expression_preserves ext a hint c e c' H)
    as (_ & _ & _ & W). exact W.
Qed.

Lemma scope_chain_below (h : list scope) :
  scopes_wf h ->
  forall n p, (p < n)%nat -> (p < length h)%nat ->
    exists l, scope_chain h (Some p) l.
Proof.
  intros W n. induction n as [| n IH]; intros p Hn Hp; [lia |].
  destruct (lookup_lt_is_Some_2 h p Hp) as [s Hs].
  destruct (scope_parent s) as [q |] eqn:Hq.
  - pose proof (W p s q Hs Hq) as Hlt.
    destruct (IH q) as [l Hl]; [lia .. |].
    exists ((p, s) :: l). apply scope_chain_cons with (1 := Hs).
    rewrite Hq. exact Hl.
  - exists [(p, s)]. apply scope_chain_cons with (1 := Hs).
    rewrite Hq. apply scope_chain_root.
Qed.

Lemma scope_chain_exists (c : context) :
  ctx_wf c -> exists l, scope_chain (ctx_scopes c) (ctx_scope c) l.
Proof.
  intros [W V]. destruct (ctx_scope c) as [p |].
  - apply (scope_chain_below _ W (S p) p); [lia | apply V; reflexivity].
  - exists []. apply scope_chain_root.
Qed.

(** C6.  In a heap where parents are older than their children, let [l]
    be the parent chain of the current scope, innermost first.  The walk
    of [check_expr_control] stops at the first scope of [l] that was
    made for a [for] and, when there is a label, carries that label: the
    innermost [for] scope for an unlabelled control, the nearest
    ancestor [for] scope with the label for a labelled one.  The check
    succeeds when there is such a scope, and ends with the diagnostic
    "Unknown label" when there is none. *)
Theorem check_expr_control_resolves_label
    (c : context) (kind : control_kind) (label : option string)
    (hint : option type) (l : list (scope_ptr * scope)) :
  scopes_wf (ctx_scopes c) ->
  scope_chain (ctx_scopes c) (ctx_scope c) l ->
  control_walk (length (ctx_scopes c)) (ctx_scopes c) (ctx_scope c) label
  = Some (option_map fst (find (eligible label) l))
  /\ check_expr_control kind label hint c
     = match find (eligible label) l with
       | Some _ =>
           Ok (mk_expression (control_expr_type kind) None true
                             (E_control label), c)
       | None => Abort "Unknown label %s"
       end.
Proof.
  intros W C.
  assert (E : control_walk (length (ctx_scopes c)) (ctx_scopes c)
                           (ctx_scope c) label
              = Some (option_map fst (find (eligible label) l))).
  { apply control_walk_chain; [assumption .. |].
    inversion C as [| p s l' Hp _]; [exact I |].
    eapply lookup_lt_Some; eassumption. }
  split; [exact E |].
  unfold check_expr_control, bind, get_ctx. rewrite E. simpl.
  destruct (find (eligible label) l); reflexivity.
Qed.

Lemma check_expr_control_resolves_label_witness :
  control_walk 3 (ctx_scopes Demo.in_loop) (Some 2%nat) (Some "outer")
  = Some (Some 2%nat)
  /\ check_expr_control CTRL_BREAK (Some "outer") None Demo.in_loop
     = Ok (mk_expression EXPR_BREAK None true (E_control (Some "outer")),
           Demo.in_loop).
Proof.
  apply (check_expr_control_resolves_label Demo.in_loop CTRL_BREAK
           (Some "outer") None
           [(2%nat, mk_scope EXPR_FOR (Some "outer") (Some 1%nat) []);
            (1%nat, mk_scope EXPR_ACCESS None (Some 0%nat) []);
            (0%nat, mk_scope EXPR_ACCESS None None [])]).
  - intros p s q Hp Hq.
    destruct p as [| [| [| p]]]; simpl in Hp; inversion Hp; subst;
      simpl in Hq; inversion Hq; lia.
  - repeat (apply scope_chain_cons; [reflexivity |]); apply scope_chain_root.
Defined.

(** ** Scope discipline of the check *)

(** C10.  A successful [check_expression] leaves the current-scope
    pointer of the context as it found it.  Every scope that was there
    on entry is still there, under the same parent, and every scope
    created on the way is a strict descendant of the scope that was
    current on entry: what [check_expr_for] and [check_expr_list] push,
    they pop. *)
Theorem check_expression_restores_scope
    (ext : externals) (a : ast_expression) (hint : option type)
    (c : context) (e : expression) (c' : context) :
  check_expression ext a hint c = Ok (e, c') ->
  ctx_scope c' = ctx_scope c
  /\ (forall p s, ctx_scopes c !! p = Some s ->
        exists s', ctx_scopes c' !! p = Some s'
                   /\ scope_parent s' = scope_parent s)
  /\ (forall p,
        (length (ctx_scopes c) <= p < length (ctx_scopes c'))%nat ->
        descends (ctx_scopes c') (ctx_scope c) p).
Proof.
  intros H. destruct (check_expression_preserves ext a hint c e c' H)
    as (S & [_ E] & N & _).
  split; [exact S |]. split; [exact E | exact N].
Qed.

Lemma check_expression_restores_scope_witness :
  exists e c',
    check_expression Demo.store Demo.a_for None Demo.in_loop = Ok (e, c')
    /\ length (ctx_scopes c') = 5%nat
    /\ (ctx_scope c' = ctx_scope Demo.in_loop
        /\ (forall p s, ctx_scopes Demo.in_loop !! p = Some s ->
              exists s', ctx_scopes c' !! p = Some s'
                         /\ scope_parent s' = scope_parent s)
        /\ (forall p,
              (length (ctx_scopes Demo.in_loop) <= p
               < length (ctx_scopes c'))%nat ->
              descends (ctx_scopes c') (ctx_scope Demo.in_loop) p)).
Proof.
  eexists. eexists. split; [vm_compute; reflexivity |].
  split; [reflexivity |].
  eapply (check_expression_restores_scope Demo.store Demo.a_for None
            Demo.in_loop).
  vm_compute. reflexivity.
Defined.

(** ** Implicit casts and indexing *)

Lemma type_ptr_eqb_eq a b : type_ptr_eqb a b = true <-> a = b.
Proof.
  unfold type_ptr_eqb. destruct a as [x |], b as [y |];
    try (split; [discriminate | congruence]); [| tauto].
  destruct (type_eq_dec x y); split; congruence.
Qed.

Lemma lower_implicit_cast_materialized to v :
  materialized to v (lower_implicit_cast to v).
Proof.
  unfold materialized, lower_implicit_cast.
  destruct (type_ptr_eqb to (expr_result v)) eqn:E.
  - apply type_ptr_eqb_eq in E. split; congruence.
  - split; [reflexivity |]. intros H. symmetry in H.
    apply type_ptr_eqb_eq in H. congruence.
Qed.

Lemma storage_is_eq t s : storage_is t s = true <-> type_storage_of t = s.
Proof.
  unfold storage_is, storage_eqb.
  destruct (type_storage_eq_dec (type_storage_of t) s); split;
    congruence.
Qed.

Lemma has_flag_lor_l x y flag :
  has_flag x flag = true -> has_flag (N.lor x y) flag = true.
Proof.
  unfold has_flag. rewrite !negb_true_iff, !N.eqb_neq.
  intros H E. apply H. rewrite N.land_lor_distr_l in E.
  apply N.lor_eq_0_iff in E. tauto.
Qed.

Lemma has_flag_lor_r x y flag :
  has_flag y flag = true -> has_flag (N.lor x y) flag = true.
Proof. rewrite N.lor_comm. apply has_flag_lor_l. Qed.

(** C7.  When an index access checks, the array expression and the
    index expression were checked without hint; the index has an
    integer type, and is stored behind an implicit cast to [size]
    (unless its type is [size] already); the result of the node is the
    element type of the (dereferenced) array type, with the flags of the
    array type added to its own.  So the element of a [const] array is
    [const]. *)
Theorem check_expr_access_index_result
    (ext : externals) (loc : location) (aarray aindex : ast_expression)
    (hint : option type) (c : context) (e : expression) (c' : context) :
  check_expression ext (mk_ast_expression loc (A_access_index aarray aindex))
                   hint c = Ok (e, c') ->
  exists array index stored c1 aresult atype iresult members r,
    check_expression ext aarray None c = Ok (array, c1)
    /\ check_expression ext aindex None c1 = Ok (index, c')
    /\ expr_result array = Some aresult
    /\ type_dereference aresult = Some atype
    /\ (type_storage_of atype = TYPE_STORAGE_ARRAY
        \/ type_storage_of atype = TYPE_STORAGE_SLICE)
    /\ array_members atype = Some members
    /\ expr_result index = Some iresult
    /\ type_is_integer ext (type_dealias ext iresult) = true
    /\ expr_union e = E_access_index array stored
    /\ materialized (Some (builtin_type_size ext)) index stored
    /\ expr_result e = Some r
    /\ type_storage_of r = type_storage_of members
    /\ type_size r = type_size members
    /\ type_payload_of r = type_payload_of members
    /\ type_flags r = N.lor (type_flags members) (type_flags atype)
    /\ (forall flag, has_flag (type_flags atype) flag = true ->
                     has_flag (type_flags r) flag = true)
    /\ (has_flag (type_flags atype) TYPE_CONST = true ->
        has_flag (type_flags r) TYPE_CONST = true).
Proof.
  intros H. simpl in H. unfold check_expr_access_index in H. minv H.
  match goal with
  | Hs : _ || _ = true |- _ =>
      apply orb_true_iff in Hs; rewrite !storage_is_eq in Hs
  end.
  match goal with
  | Hd : type_dereference _ = Some ?t, Hm : array_members ?t = Some ?m |- _ =>
      set (r := type_store_lookup_with_flags m
                  (N.lor (type_flags t) (type_flags m)));
      assert (F : type_flags r = N.lor (type_flags m) (type_flags t))
        by (unfold r; destruct m as [s0 f0 z0 p0]; simpl;
            rewrite (N.lor_comm _ f0), N.lor_assoc, N.lor_diag;
            reflexivity);
      assert (S0 : type_storage_of r = type_storage_of m)
        by (unfold r; destruct m; reflexivity);
      assert (S1 : type_size r = type_size m)
        by (unfold r; destruct m; reflexivity);
      assert (S2 : type_payload_of r = type_payload_of m)
        by (unfold r; destruct m; reflexivity)
  end.
  do 9 eexists.
  repeat match goal with |- _ /\ _ => split end;
    try eassumption; try reflexivity;
    try apply lower_implicit_cast_materialized.
  - intros flag Hf. rewrite F. apply has_flag_lor_r, Hf.
  - intros Hf. rewrite F. apply has_flag_lor_r, Hf.
Qed.

Lemma check_expr_access_index_result_witness :
  exists e c',
    check_expression Demo.store Demo.a_index None Demo.with_array
    = Ok (e, c')
    /\ expr_result e
       = Some (mk_type TYPE_STORAGE_INT TYPE_CONST 4 P_none)
    /\ exists array index stored c1 aresult atype iresult members r,
         check_expression Demo.store
           (Demo.at_ (A_access_ident (mk_identifier "a" None))) None
           Demo.with_array = Ok (array, c1)
         /\ check_expression Demo.store
              (Demo.at_ (A_constant TYPE_STORAGE_U8 (AC_uval 1))) None c1
            = Ok (index, c')
         /\ expr_result array = Some aresult
         /\ type_dereference aresult = Some atype
         /\ (type_storage_of atype = TYPE_STORAGE_ARRAY
             \/ type_storage_of atype = TYPE_STORAGE_SLICE)
         /\ array_members atype = Some members
         /\ expr_result index = Some iresult
         /\ type_is_integer Demo.store (type_dealias Demo.store iresult)
            = true
         /\ expr_union e = E_access_index array stored
         /\ materialized (Some (builtin_type_size Demo.store)) index stored
         /\ expr_result e = Some r
         /\ type_storage_of r = type_storage_of members
         /\ type_size r = type_size members
         /\ type_payload_of r = type_payload_of members
         /\ type_flags r = N.lor (type_flags members) (type_flags atype)
         /\ (forall flag, has_flag (type_flags atype) flag = true ->
                          has_flag (type_flags r) flag = true)
         /\ (has_flag (type_flags atype) TYPE_CONST = true ->
             has_flag (type_flags r) TYPE_CONST = true).
Proof.
  eexists. eexists. split; [vm_compute; reflexivity |].
  split; [reflexivity |].
  apply (check_expr_access_index_result Demo.store Demo.here _ _ None
           Demo.with_array).
  vm_compute. reflexivity.
Defined.

(** ** Functions flagged [@init], [@fini] or [@test] *)

(** C3 as stated does not hold: a flagged prototype (a declaration
    without body) that returns [int] and is exported passes
    [check_declarations]; [check_function] returns early for it. *)
Lemma check_declarations_flagged_prototype_passes :
  has_flag (fn_flags Demo.f_test_prototype) FN_TEST = true
  /\ adecl_exported Demo.d_test_prototype = true
  /\ type_store_lookup_atype Demo.store Demo.unit_ctx
       (function_ast_type (fn_prototype Demo.f_test_prototype))
     = Some (mk_type TYPE_STORAGE_FUNCTION TYPE_CONST 0
               (P_func Demo.t_int [] VARIADISM_NONE))
  /\ Demo.t_int <> builtin_type_void Demo.store
  /\ check_declarations Demo.store [Demo.d_test_prototype] Demo.unit_ctx
     = Ok ([], Demo.unit_ctx).
Proof. repeat split; try reflexivity. discriminate. Qed.

(** The other half of the sentence: [check_function] tests
    [decl->exported] on the declaration it has just allocated, before
    [check_declarations] copies the flag of the parsed declaration into
    it.  An exported [@init] function with a body passes, and comes out
    exported. *)
Lemma check_declarations_exported_init_passes :
  exists d c',
    check_declarations Demo.store [Demo.d_init_exported] Demo.unit_ctx
    = Ok ([d], c')
    /\ decl_exported d = true
    /\ has_flag (decl_func_flags d) FN_INIT = true.
Proof.
  do 2 eexists. split; [vm_compute; reflexivity |]. split; reflexivity.
Qed.

(** C3, amended: a flagged function declaration that has a body checks
    only if the result type of its function type is [void]. *)
Theorem check_function_flagged_returns_void
    (ext : externals) (adecl : ast_decl) (f : ast_function_decl)
    (body : ast_expression) (c : context) (od : option declaration)
    (c' : context) :
  fn_body f = Some body ->
  has_flag (fn_flags f) FN_INIT || has_flag (fn_flags f) FN_FINI
    || has_flag (fn_flags f) FN_TEST = true ->
  check_function ext adecl f c = Ok (od, c') ->
  exists fntype,
    type_store_lookup_atype ext c (function_ast_type (fn_prototype f))
    = Some fntype
    /\ func_result fntype = Some (builtin_type_void ext).
Proof.
  intros Hb Hf H. unfold check_function in H. rewrite Hb in H.
  minv H.
  all: try match goal with
           | Hx : _ || _ || _ = false |- _ =>
               unfold decl_func_flags, set_func_body, set_func_scope in Hx;
               cbn [decl_u decl_ident decl_symbol decl_exported] in Hx;
               congruence
           end.
  all: match goal with
       | Hv : type_ptr_eqb (Some ?r) (Some _) = true |- _ =>
           apply type_ptr_eqb_eq in Hv; injection Hv as Hv
       end.
  all: eexists; split; [eassumption | congruence].
Qed.

Lemma check_function_flagged_returns_void_witness :
  exists od c',
    check_function Demo.store Demo.d_test Demo.f_test Demo.unit_ctx
    = Ok (od, c')
    /\ exists fntype,
         type_store_lookup_atype Demo.store Demo.unit_ctx
           (function_ast_type (fn_prototype Demo.f_test))
         = Some fntype
         /\ func_result fntype = Some (builtin_type_void Demo.store).
Proof.
  do 2 eexists. split; [vm_compute; reflexivity |].
  eapply (check_function_flagged_returns_void Demo.store Demo.d_test
            Demo.f_test (Demo.at_ (A_return None)) Demo.unit_ctx).
  - reflexivity.
  - reflexivity.
  - vm_compute. reflexivity.
Defined.

(** ** Switch *)

Lemma mapM_inv {A B} (f : A -> M B) (l : list A) c bs c' :
  mapM f l c = Ok (bs, c') ->
  Forall2 (fun a b => exists c1 c2, f a c1 = Ok (b, c2)) l bs.
Proof.
  revert c bs. induction l as [| a l IH]; intros c bs H; simpl in H.
  - minv H. constructor.
  - minv H. constructor; [eauto | eapply IH; eassumption].
Qed.

Lemma check_case_option_inv ext T aopt c o c' :
  check_case_option ext (check_expression ext) T aopt c = Ok (o, c') ->
  option_checked ext T aopt o.
Proof.
  intros H. unfold check_case_option in H. minv H.
  match goal with
  | Hv : type_ptr_eqb _ _ = true |- _ => apply type_ptr_eqb_eq in Hv
  end.
  do 3 eexists. split; [eassumption |]. split; [congruence | eassumption].
Qed.

Lemma builtins_total_demo : builtins_total Demo.store.
Proof. intros s H. destruct s; try discriminate H; discriminate. Qed.

Lemma good_demo_in_loop : good Demo.in_loop.
Proof.
  intros p s H. destruct p as [| [| [| p]]]; simpl in H; inversion H;
    constructor.
Qed.

(** The loop over the cases.  [r] is [expr->result] on entry, [r'] on
    exit: once set it stays, and every later case that falls through
    has it as result; while it is null, the first case that falls
    through sets it. *)
Lemma check_switch_cases_inv ext T :
  builtins_total ext ->
  forall acases r c cases r' c',
    good c ->
    check_switch_cases ext (check_expression ext) T acases r c
    = Ok ((cases, r'), c') ->
    good c'
    /\ Forall2 (case_checked ext T) acases cases
    /\ match r with
       | Some _ =>
           r' = r
           /\ Forall (fun k => case_falls_through k = true ->
                               expr_result (sc_value k) = r) cases
       | None =>
           match find case_falls_through cases with
           | Some k =>
               r' = expr_result (sc_value k) /\ r' <> None
               /\ Forall (fun k' => case_falls_through k' = true ->
                                    expr_result (sc_value k') = r') cases
           | None => r' = None
           end
       end.
Proof.
  intros Hb. induction acases as [| acase rest IH];
    intros r c cases r' c' G H; simpl in H.
  - minv H. split; [assumption |]. split; [constructor |].
    destruct r; simpl; auto.
  - apply bind_ok in H. destruct H as (options & c1 & Ho & H).
    apply bind_ok in H. destruct H as (value & c2 & Hv & H).
    apply bind_ok in H. destruct H as (r1 & c3 & Hr & H).
    apply bind_ok in H. destruct H as ([cases0 r0] & c4 & Hrest & H).
    apply ret_ok in H. destruct H as [H ->]. inversion H; subst; clear H.
    assert (G1 : good c1).
    { eapply (holds_mapM (check_case_option ext (check_expression ext) T)
                (fun _ => True)); [| exact G | exact Ho].
      apply Forall_forall. intros x _.
      apply check_case_option_holds. intros h.
      apply check_expression_holds, Hb. }
    destruct (check_expression_holds ext (case_value acase) Hb T c1 value c2
                G1 Hv) as [G2 N].
    assert (Hk : case_checked ext T acase (mk_switch_case options value)).
    { split; simpl; [| eauto].
      apply mapM_inv in Ho. eapply Forall2_impl; [exact Ho |].
      intros a b (k1 & k2 & Hab). eapply check_case_option_inv, Hab. }
    set (k0 := mk_switch_case options value) in *.
    assert (Hff : case_falls_through k0 = negb (expr_terminates value))
      by reflexivity.
    destruct (expr_terminates value) eqn:Ht; simpl in Hff, Hr.
    + (* the case terminates: [expr->result] is left alone *)
      minv Hr.
      destruct (IH _ _ _ _ _ G2 Hrest) as (G4 & F & R).
      split; [assumption |]. split; [constructor; assumption |].
      simpl find. rewrite Hff. clear IH.
      destruct r as [t |].
      * destruct R as [-> R]. split; [reflexivity |].
        constructor; [rewrite Hff; discriminate | exact R].
      * revert R. destruct (find case_falls_through cases0) as [k |];
          intros R; [| exact R].
        destruct R as (E & Hn & R). repeat split; try assumption.
        constructor; [rewrite Hff; discriminate | exact R].
    + (* the case falls through *)
      specialize (N Ht).
      destruct r as [t |].
      * minv Hr.
        match goal with
        | Hv : type_ptr_eqb _ _ = true |- _ => apply type_ptr_eqb_eq in Hv
        end.
        destruct (IH _ _ _ _ _ G2 Hrest) as (G4 & F & -> & R).
        split; [assumption |]. split; [constructor; assumption |].
        split; [reflexivity |]. constructor; [intros _; simpl; congruence |].
        exact R.
      * minv Hr.
        destruct (expr_result value) as [t |] eqn:Er; [| congruence].
        destruct (IH _ _ _ _ _ G2 Hrest) as (G4 & F & -> & R).
        split; [assumption |]. split; [constructor; assumption |].
        simpl find. rewrite Hff.
        split; [simpl; congruence |]. split; [discriminate |].
        constructor; [intros _; simpl; congruence | exact R].
Qed.

(** C8.  When a switch over a scrutinee of type [T] checks (in a
    context whose scope objects are typed, with a builtin table that
    has the types of the constants): every stored option of every case
    is the evaluation of an option that was checked with hint [T] and
    has exactly the type [T]; the result of the node is the result of
    the first case whose body does not terminate, and every case whose
    body does not terminate has that result; when every body
    terminates, the result is [void] and the node terminates. *)
Theorem check_expr_switch_result
    (ext : externals) (loc : location) (avalue : ast_expression)
    (acases : list ast_switch_case) (hint : option type)
    (c : context) (e : expression) (c' : context) :
  builtins_total ext ->
  good c ->
  check_expression ext (mk_ast_expression loc (A_switch avalue acases))
                   hint c = Ok (e, c') ->
  exists value cases c1,
    check_expression ext avalue None c = Ok (value, c1)
    /\ expr_union e = E_switch value cases
    /\ Forall2 (case_checked ext (expr_result value)) acases cases
    /\ match find case_falls_through cases with
       | Some k =>
           expr_result e = expr_result (sc_value k)
           /\ expr_terminates e = false
           /\ Forall (fun k' => case_falls_through k' = true ->
                        expr_result (sc_value k')
                        = expr_result (sc_value k)) cases
       | None =>
           expr_result e = Some (builtin_type_void ext)
           /\ expr_terminates e = true
       end.
Proof.
  intros Hb G H. simpl in H. unfold check_expr_switch in H.
  apply bind_ok in H. destruct H as (value & c1 & Hv & H).
  apply bind_ok in H. destruct H as ([cases r'] & c2 & Hc & H).
  destruct (check_expression_holds ext avalue Hb None c value c1 G Hv)
    as [G1 _].
  destruct (check_switch_cases_inv ext (expr_result value) Hb _ _ _ _ _ _
              G1 Hc) as (G2 & F & R).
  simpl in R. exists value, cases, c1.
  split; [assumption |].
  destruct (find case_falls_through cases) as [k |].
  - destruct R as (E & Hn & R).
    destruct r' as [t |]; [| congruence].
    minv H. simpl. rewrite <- E. auto.
  - subst r'. minv H. simpl. auto.
Qed.

Lemma check_expr_switch_result_witness :
  exists e c',
    check_expression Demo.store Demo.a_switch None Demo.in_loop = Ok (e, c')
    /\ expr_result e = Some Demo.t_u8
    /\ exists value cases c1,
         check_expression Demo.store Demo.a_true None Demo.in_loop
         = Ok (value, c1)
         /\ expr_union e = E_switch value cases
         /\ Forall2 (case_checked Demo.store (expr_result value))
              [ mk_ast_switch_case [Demo.a_true]
                  (Demo.at_ (A_constant TYPE_STORAGE_U8 (AC_uval 1)));
                mk_ast_switch_case [Demo.a_true] Demo.a_break ] cases
         /\ match find case_falls_through cases with
            | Some k =>
                expr_result e = expr_result (sc_value k)
                /\ expr_terminates e = false
                /\ Forall (fun k' => case_falls_through k' = true ->
                             expr_result (sc_value k')
                             = expr_result (sc_value k)) cases
            | None =>
                expr_result e = Some (builtin_type_void Demo.store)
                /\ expr_terminates e = true
            end.
Proof.
  eexists. eexists. split; [vm_compute; reflexivity |].
  split; [reflexivity |].
  eapply (check_expr_switch_result Demo.store Demo.here Demo.a_true _ None
            Demo.in_loop).
  - exact builtins_total_demo.
  - exact good_demo_in_loop.
  - vm_compute. reflexivity.
Defined.

(** A case whose body is an array literal: the literal is typed from its
    first item, and the switch has the type of that case. *)
Lemma check_expr_switch_array_case :
  exists e c',
    check_expression Demo.store Demo.a_switch_array None Demo.in_loop
    = Ok (e, c')
    /\ expr_result e = Some (Demo.lookup_array Demo.t_u8 1)
    /\ expr_terminates e = false.
Proof.
  eexists. eexists. split; [vm_compute; reflexivity |].
  split; reflexivity.
Qed.

(** ** Implicit-cast materialization *)

Lemma scope_insert_ok p k i n t v c o c' :
  scope_insert p k i n t v c = Ok (o, c') -> o = mk_scope_object k i n t v.
Proof.
  unfold scope_insert. destruct p as [j |]; [| discriminate].
  destruct (ctx_scopes c !! j); [| discriminate].
  intros H. inversion H. reflexivity.
Qed.


Lemma check_array_items_cast ext {A} (value : A -> ast_expression)
    (expand : A -> bool) items :
  forall t c r c',
    check_array_items ext (check_expression ext) value expand items t c
    = Ok (r, c') ->
    items_cast ext value t items (fst (fst (fst r))).
Proof.
  induction items as [| item rest IH]; intros t c r c' H; simpl in H.
  - minv H. constructor.
  - apply bind_ok in H. destruct H as (v & c1 & Hv & H).
    apply bind_ok in H. destruct H as ([cur ty] & c2 & Hc & H).
    apply bind_ok in H. destruct H as (u & c3 & _ & H).
    apply bind_ok in H. destruct H as ([[[curs ty'] ex] len] & c4 & Hr & H).
    apply ret_ok in H. destruct H as [-> _]. simpl.
    specialize (IH _ _ _ _ Hr). simpl in IH.
    assert (Cv : checked_value ext (value item) t v) by (do 2 eexists; eauto).
    destruct t as [t |]; minv Hc.
    + apply items_cast_typed with v; [assumption | | assumption].
      simpl. apply lower_implicit_cast_materialized.
    + apply items_cast_first with v; [assumption | reflexivity | assumption].
Qed.

Lemma items_cast_mark_expand ext {A} (value : A -> ast_expression) t
    items curs :
  items_cast ext value t items curs ->
  items_cast ext value t items (mark_expand curs).
Proof.
  intros H. destruct H as [t | t item rest v [sv se] srest Hv Hm Hr
                            | item rest v [sv se] srest Hv Hm Hr]; simpl.
  - constructor.
  - apply items_cast_typed with v; assumption.
  - apply items_cast_first with v; assumption.
Qed.

Lemma check_expr_array_cast ext {A} (value : A -> ast_expression)
    (expand : A -> bool) items hint c e c' :
  check_expr_array ext (check_expression ext) value expand items hint c
  = Ok (e, c') ->
  exists stored t n,
    e = mk_expression EXPR_CONSTANT
          (Some (type_store_lookup_array ext t n)) false
          (E_constant (EC_array stored))
    /\ items_cast ext value (hint_members ext hint) items stored.
Proof.
  intros H. unfold check_expr_array in H.
  apply bind_ok in H. destruct H as ([[[curs ty] ex] len] & c2 & Hr & H).
  apply check_array_items_cast in Hr. simpl in Hr.
  minv H; do 3 eexists; (split; [reflexivity |]);
    try apply items_cast_mark_expand; assumption.
Qed.

Lemma check_call_args_cast ext va aargs :
  forall params c args c',
    check_call_args ext (check_expression ext) va params aargs c
    = Ok (args, c') ->
    args_cast ext va params aargs args.
Proof.
  induction aargs as [| aarg arest IH]; intros params c args c' H;
    simpl in H.
  - minv H. destruct params; [constructor | discriminate].
  - destruct params as [| param prest]; [minv H |].
    destruct (list_is_nil prest
              && (if variadism_eq_dec va VARIADISM_HARE then true else false)
              && negb (call_arg_variadic aarg)) eqn:Hvar.
    + apply andb_prop in Hvar. destruct Hvar as [Hvar Hsp].
      apply negb_true_iff in Hsp.
      apply andb_prop in Hvar. destruct Hvar as [Hnil Hva].
      destruct prest; [| discriminate].
      destruct (variadism_eq_dec va VARIADISM_HARE); [| discriminate].
      apply bind_ok in H. destruct H as (members & c1 & Hm & H).
      apply bind_ok in H. destruct H as (v & c2 & Hv & H).
      apply deref_ok in Hm. destruct Hm as [Hm ->].
      apply ret_ok in H. destruct H as [-> ->].
      unfold lower_vaargs in Hv.
      apply bind_ok in Hv. destruct Hv as (lit & c3 & Hl & Hv).
      apply bind_ok in Hv. destruct Hv as (t & c4 & Ht & Hv).
      apply deref_ok in Ht. destruct Ht as [Ht ->].
      apply bind_ok in Hv. destruct Hv as (u1 & c4 & Hs & Hv).
      apply c_assert_ok in Hs. destruct Hs as [Hs ->].
      apply bind_ok in Hv. destruct Hv as (m & c4 & Hmm & Hv).
      apply deref_ok in Hmm. destruct Hmm as [Hmm ->].
      apply bind_ok in Hv. destruct Hv as (u2 & c4 & He & Hv).
      apply expect_ok in He. destruct He as [He ->].
      apply ret_ok in Hv. destruct Hv as [-> ->].
      apply type_ptr_eqb_eq in He. injection He as ->.
      apply check_expr_array_cast in Hl.
      destruct Hl as (stored & t' & n & -> & Hi).
      simpl in Ht. injection Ht as <-.
      apply args_cast_variadic with members stored
                                    (type_store_lookup_array ext t' n);
        [ assumption | exact Hsp | exact Hm | exact Hi
        | apply storage_is_eq; exact Hs | exact Hmm
        | apply lower_implicit_cast_materialized ].
    + apply bind_ok in H. destruct H as (v & c1 & Hv & H).
      apply bind_ok in H. destruct H as (ok & c2 & _ & H).
      apply bind_ok in H. destruct H as (u & c3 & _ & H).
      apply bind_ok in H. destruct H as (rest & c4 & Hr & H).
      minv H.
      apply args_cast_cons with v;
        [ intros -> ->; simpl in Hvar;
          destruct (variadism_eq_dec VARIADISM_HARE VARIADISM_HARE);
            [| congruence];
          simpl in Hvar; apply negb_false_iff in Hvar; exact Hvar
        | do 2 eexists; eassumption
        | apply lower_implicit_cast_materialized
        | eapply IH; eassumption].
Qed.



(** ** Array literals made of call arguments *)

Lemma check_array_items_of_args ext rec (aargs : list ast_call_argument) :
  forall t c,
    check_array_items ext rec array_item_value array_item_expand
      (map (fun a => mk_ast_array_constant (call_arg_value a) false) aargs)
      t c
    = check_array_items ext rec call_arg_value (fun _ => false) aargs t c.
Proof.
  induction aargs as [| a rest IH]; intros t c; [reflexivity |].
  simpl. unfold bind.
  destruct (rec (call_arg_value a) t c) as [[v c1] | |]; try reflexivity.
  match goal with
  | |- match ?m with _ => _ end = _ => destruct m as [[cur c2] | |]
  end; try reflexivity.
  simpl. rewrite IH. reflexivity.
Qed.

(** [lower_vaargs] checks the array literal it builds by calling
    [check_expression] on it; that is the elaboration of the literal
    made of the arguments. *)
Lemma check_expression_vaargs_literal ext loc aargs hint c :
  check_expression ext
    (mk_ast_expression loc
       (A_constant_array
          (map (fun a => mk_ast_array_constant (call_arg_value a) false)
               aargs)))
    hint c
  = check_expr_array ext (check_expression ext) call_arg_value
      (fun _ => false) aargs hint c.
Proof.
  simpl. unfold check_expr_array, bind.
  rewrite check_array_items_of_args. reflexivity.
Qed.

(** ** Enum duals *)










(** * Further properties of the checker *)

(** ** Implicit casts and calls *)

Lemma lower_implicit_cast_result to e :
  expr_result (lower_implicit_cast to e) = to.
Proof.
  unfold lower_implicit_cast.
  destruct (type_ptr_eqb to (expr_result e)) eqn:E; [| reflexivity].
  apply type_ptr_eqb_eq in E. congruence.
Qed.

Lemma type_ptr_eqb_refl a : type_ptr_eqb a a = true.
Proof. apply type_ptr_eqb_eq. reflexivity. Qed.

(** X1.  [lower_implicit_cast to e] has the result type [to] and the
    [terminates] flag of [e], and lowering to [to] once more changes
    nothing: no cast is put around a cast to the same type. *)
Theorem lower_implicit_cast_idempotent (to : option type) (e : expression) :
  expr_result (lower_implicit_cast to e) = to
  /\ expr_terminates (lower_implicit_cast to e) = expr_terminates e
  /\ lower_implicit_cast to (lower_implicit_cast to e)
     = lower_implicit_cast to e.
Proof.
  split; [apply lower_implicit_cast_result |].
  unfold lower_implicit_cast.
  destruct (type_ptr_eqb to (expr_result e)) eqn:E.
  - rewrite E. split; reflexivity.
  - simpl. rewrite type_ptr_eqb_refl. split; reflexivity.
Qed.

Lemma check_call_args_shape ext rec v aargs :
  forall params c args c',
    check_call_args ext rec v params aargs c = Ok (args, c') ->
    Forall2 (fun p s => expr_result s = Some p) params args
    /\ (length params <= length aargs)%nat
    /\ (v <> VARIADISM_HARE -> length aargs = length params).
Proof.
  induction aargs as [| aarg arest IH]; intros params c args c' H; simpl in H.
  - minv H. destruct params; [| discriminate].
    repeat split; [constructor | reflexivity].
  - destruct params as [| param prest]; [minv H |].
    destruct (list_is_nil prest
              && (if variadism_eq_dec v VARIADISM_HARE then true else false)
              && negb (call_arg_variadic aarg)) eqn:D.
    + minv H.
      apply andb_true_iff in D. destruct D as [D _].
      apply andb_true_iff in D. destruct D as [Dn Dv].
      destruct prest; [| discriminate].
      destruct (variadism_eq_dec v VARIADISM_HARE); [| discriminate].
      repeat split.
      * constructor; [apply lower_implicit_cast_result | constructor].
      * simpl. lia.
      * intros N. contradiction.
    + minv H.
      destruct (IH _ _ _ _ ltac:(eassumption)) as (F & L & N).
      repeat split.
      * constructor; [apply lower_implicit_cast_result | exact F].
      * simpl. lia.
      * intros Hv. simpl. rewrite (N Hv). reflexivity.
Qed.

(** X2.  When a call checks, the type of the callee dereferences to a
    function type, the node has the result type of that function, and the
    stored arguments are one per parameter, each of the type of its
    parameter; the arguments written are at least as many as the parameters,
    and as many unless the function is variadic in the way of Hare.  Every
    stored argument is the checked argument converted to the type of its
    parameter; an argument at the last parameter of a variadic function that
    is not spread is packed with all that follow, as the items of one array
    literal, which is converted to the type of the parameter ([args_cast]). *)
Theorem check_expr_call_arguments
    (ext : externals) (loc : location) (alvalue : ast_expression)
    (aargs : list ast_call_argument) (hint : option type)
    (c : context) (e : expression) (c' : context) :
  check_expression ext (mk_ast_expression loc (A_call alvalue aargs)) hint c
  = Ok (e, c') ->
  exists lvalue args lresult fntype result params v,
    expr_union e = E_call lvalue args
    /\ expr_result lvalue = Some lresult
    /\ type_dereference lresult = Some fntype
    /\ type_storage_of fntype = TYPE_STORAGE_FUNCTION
    /\ type_payload_of fntype = P_func result params v
    /\ expr_result e = Some result
    /\ Forall2 (fun p s => expr_result s = Some p) params args
    /\ (length params <= length aargs)%nat
    /\ (v <> VARIADISM_HARE -> length aargs = length params)
    /\ args_cast ext v params aargs args.
Proof.
  intros H. simpl in H. unfold check_expr_call in H. minv H.
  match goal with
  | E : check_call_args _ _ _ _ _ _ = Ok _ |- _ =>
      pose proof (check_call_args_cast _ _ _ _ _ _ _ E) as K;
      apply check_call_args_shape in E; destruct E as (F & L & N)
  end.
  match goal with
  | E : storage_is _ _ = true |- _ => apply storage_is_eq in E
  end.
  match goal with
  | R : func_result ?t = Some ?r, P : func_params ?t = Some ?ps,
    V : func_variadism ?t = Some ?v |- _ =>
      assert (Hp : type_payload_of t = P_func r ps v)
        by (unfold func_result, func_params, func_variadism in *;
            destruct (type_payload_of t); congruence)
  end.
  do 7 eexists.
  repeat match goal with |- _ /\ _ => split end;
    try eassumption; reflexivity.
Qed.

Lemma check_expr_call_arguments_witness :
  exists e c',
    check_expression Demo.store Sample.a_call None Sample.with_fn = Ok (e, c')
    /\ exists lvalue args lresult fntype result params v,
         expr_union e = E_call lvalue args
         /\ expr_result lvalue = Some lresult
         /\ type_dereference lresult = Some fntype
         /\ type_storage_of fntype = TYPE_STORAGE_FUNCTION
         /\ type_payload_of fntype = P_func result params v
         /\ expr_result e = Some result
         /\ Forall2 (fun p s => expr_result s = Some p) params args
         /\ (length params <= length Sample.call_args)%nat
         /\ (v <> VARIADISM_HARE ->
             length Sample.call_args = length params)
         /\ args_cast Demo.store v params Sample.call_args args.
Proof.
  do 2 eexists. split; [vm_compute; reflexivity |].
  eapply (check_expr_call_arguments Demo.store Demo.here Sample.a_f
            Sample.call_args None Sample.with_fn).
  vm_compute. reflexivity.
Defined.

(** ** Array literals *)

Lemma check_array_items_count ext rec {A} (value : A -> ast_expression)
    (expand : A -> bool) (items : list A) :
  forall t c curs ty expandable len c',
    check_array_items ext rec value expand items t c
    = Ok (curs, ty, expandable, len, c') ->
    length curs = length items
    /\ len = Z.of_nat (length items)
    /\ expandable = existsb expand items
    /\ (forall i item, items !! i = Some item -> expand item = true ->
          S i = length items)
    /\ (forall m, t = Some m ->
          ty = Some m
          /\ Forall (fun s => expr_result (ac_value s) = Some m) curs).
Proof.
  induction items as [| item rest IH];
    intros t c curs ty expandable len c' H; simpl in H.
  - minv H. split; [reflexivity |]. split; [reflexivity |].
    split; [reflexivity |]. split.
    + intros i item Hi. rewrite lookup_nil in Hi. discriminate.
    + intros m ->. split; [reflexivity | constructor].
  - apply bind_ok in H. destruct H as (v & c1 & Hv & H).
    apply bind_ok in H. destruct H as (cur & c2 & Hc & H).
    apply bind_ok in H. destruct H as (u & c3 & Hu & H).
    apply bind_ok in H.
    destruct H as ([[[curs' ty'] expandable'] len'] & c4 & Hr & H).
    apply ret_ok in H. destruct H as [H _]. injection H as -> -> -> ->.
    destruct (IH _ _ _ _ _ _ _ Hr) as (L & N & X & Last & T).
    split; [simpl; rewrite L; reflexivity |].
    split; [rewrite N; simpl length; lia |].
    split; [simpl; rewrite X; reflexivity |].
    split.
    + intros i it Hi He. destruct i as [| i]; simpl in Hi.
      * injection Hi as ->. rewrite He in Hu. minv Hu.
        destruct rest; [reflexivity | discriminate].
      * simpl. f_equal. eapply Last; eassumption.
    + intros m ->. minv Hc. simpl in *.
      destruct (T _ eq_refl) as [Tm F].
      split; [exact Tm |].
      constructor; [apply lower_implicit_cast_result | exact F].
Qed.

Lemma mark_expand_length items : length (mark_expand items) = length items.
Proof. destruct items as [| [v e] rest]; reflexivity. Qed.

Lemma check_array_items_untyped ext rec {A} (value : A -> ast_expression)
    (expand : A -> bool) (items : list A) :
  forall c curs ty expandable len c' t,
    check_array_items ext rec value expand items None c
    = Ok (curs, ty, expandable, len, c') ->
    ty = Some t ->
    exists pre it post,
      map ac_value curs = pre ++ it :: post
      /\ Forall (fun v => expr_result v = None) pre
      /\ expr_result it = Some t
      /\ Forall (fun v => expr_result v = Some t) post.
Proof.
  induction items as [| item rest IH];
    intros c curs ty expandable len c' t H Hty; simpl in H.
  - apply ret_ok in H. destruct H as [H _]. congruence.
  - apply bind_ok in H. destruct H as (v & c1 & Hv & H).
    apply bind_ok in H. destruct H as (cur & c2 & Hc & H).
    apply ret_ok in Hc. destruct Hc as [-> ->].
    apply bind_ok in H. destruct H as (u & c3 & Hu & H).
    apply bind_ok in H.
    destruct H as ([[[curs' ty'] expandable'] len'] & c4 & Hr & H).
    apply ret_ok in H. destruct H as [H _]. injection H as -> -> -> ->.
    simpl in Hr. simpl.
    destruct (expr_result v) as [m |] eqn:Rv.
    + destruct (check_array_items_count _ _ _ _ _ _ _ _ _ _ _ _ Hr)
        as (_ & _ & _ & _ & T).
      destruct (T m eq_refl) as [Tm F].
      assert (m = t) as -> by congruence.
      exists [], v, (map ac_value curs'). split; [reflexivity |].
      split; [constructor |]. split; [exact Rv |].
      apply Forall_map. exact F.
    + destruct (IH _ _ _ _ _ _ _ Hr Hty) as (pre & it & post & E & P & I & Q).
      exists (v :: pre), it, post. split; [simpl; rewrite E; reflexivity |].
      split; [constructor; assumption |]. split; assumption.
Qed.

Lemma mark_expand_values items :
  map ac_value (mark_expand items) = map ac_value items.
Proof. destruct items as [| [v e] rest]; reflexivity. Qed.

(** X3.  When an array literal checks, it stores as many items as were
    written, and only the last one may expand.  Without expansion the length
    of the array type is the number of items; with expansion the hint is an
    array type of defined length, not less than the number of items, and the
    literal has that length.  Under a hint with a member type, that is the
    element type and every stored item has it; without hint, or under a hint
    without member type, the element type is the result type of the first
    item that has one, the items before it have none, and the items after it
    have that type. *)
Theorem check_expr_array_length
    (ext : externals) (loc : location) (items : list ast_array_constant)
    (hint : option type) (c : context) (e : expression) (c' : context) :
  check_expression ext (mk_ast_expression loc (A_constant_array items)) hint c
  = Ok (e, c') ->
  exists stored t n,
    e = mk_expression EXPR_CONSTANT (Some (type_store_lookup_array ext t n))
                      false (E_constant (EC_array stored))
    /\ length stored = length items
    /\ (forall i item, items !! i = Some item ->
          array_item_expand item = true -> S i = length items)
    /\ (existsb array_item_expand items = false ->
        n = Z.of_nat (length items))
    /\ (existsb array_item_expand items = true ->
        exists h,
          hint = Some h /\ type_storage_of h = TYPE_STORAGE_ARRAY
          /\ array_length h = Some n /\ n <> SIZE_UNDEFINED
          /\ (Z.of_nat (length items) <= n)%Z)
    /\ match hint_members ext hint with
       | Some m =>
           t = m
           /\ Forall (fun v => expr_result v = Some m)
                     (map ac_value stored)
       | None =>
           exists pre it post,
             map ac_value stored = pre ++ it :: post
             /\ Forall (fun v => expr_result v = None) pre
             /\ expr_result it = Some t
             /\ Forall (fun v => expr_result v = Some t) post
       end.
Proof.
  intros H. simpl in H. unfold check_expr_array in H.
  fold (hint_members ext hint) in H.
  apply bind_ok in H.
  destruct H as ([[[curs ty] expandable] len] & c2 & Hr & H).
  destruct (check_array_items_count _ _ _ _ _ _ _ _ _ _ _ _ Hr)
    as (L & N & X & Last & T).
  assert (Hm : forall t, ty = Some t ->
                 match hint_members ext hint with
                 | Some m =>
                     t = m
                     /\ Forall (fun v => expr_result v = Some m)
                               (map ac_value curs)
                 | None =>
                     exists pre it post,
                       map ac_value curs = pre ++ it :: post
                       /\ Forall (fun v => expr_result v = None) pre
                       /\ expr_result it = Some t
                       /\ Forall (fun v => expr_result v = Some t) post
                 end).
  { intros t Et. destruct (hint_members ext hint) as [m |].
    - destruct (T m eq_refl) as [Tm F]. split; [congruence |].
      apply Forall_map. exact F.
    - eapply check_array_items_untyped; eassumption. }
  clear T Hr.
  destruct expandable.
  - minv H.
    match goal with
    | E : _ && _ = true |- _ =>
        apply andb_true_iff in E; destruct E as [E1 E2];
        apply negb_true_iff, Z.eqb_neq in E1; apply Z.leb_le in E2
    end.
    match goal with
    | E : storage_is _ _ = true |- _ => apply storage_is_eq in E
    end.
    do 3 eexists. split; [reflexivity |].
    split; [rewrite mark_expand_length; exact L |].
    split; [exact Last |].
    split; [intros F; congruence |].
    split.
    + intros _. eexists.
      repeat split; try eassumption; try reflexivity; lia.
    + rewrite mark_expand_values. apply Hm. reflexivity.
  - minv H. do 3 eexists. split; [reflexivity |].
    split; [exact L |]. split; [exact Last |].
    split; [intros _; reflexivity |].
    split; [intros F; congruence |].
    apply Hm. reflexivity.
Qed.

(** ** The declarations of the check pass *)

Lemma decl_names_symbol c symbol ident :
  snd (decl_names c symbol ident) = symbol.
Proof. destruct symbol; reflexivity. Qed.

Lemma check_function_params_preserves ext v scope params :
  preserves (check_function_params ext v scope params).
Proof. induction params as [| p rest IH]; simpl; pres. Qed.

Lemma check_function_preserves ext adecl f :
  preserves (check_function ext adecl f).
Proof.
  unfold check_function. destruct (fn_body f) as [abody |]; [| pres].
  pose proof (check_function_params_preserves ext) as Hp.
  pose proof (check_expression_preserves ext abody) as Hb.
  pose proof (is_assignable_preserves ext) as Ha.
  cbv zeta.
  do 6 (apply preserves_bind; [pres | intros ?]).
  apply preserves_push; intros p. repeat pop_step.
Qed.

Lemma check_global_preserves ext adecl g :
  preserves (check_global ext adecl g).
Proof.
  unfold check_global. destruct (gl_init g) as [ainit |]; [| pres].
  pose proof (check_expression_preserves ext ainit) as Hb.
  pose proof (is_assignable_preserves ext) as Ha.
  pres.
Qed.

Lemma check_type_preserves ext adecl t : preserves (check_type ext adecl t).
Proof. unfold check_type. pres. Qed.

Lemma check_declarations_preserves ext adecls :
  preserves (check_declarations ext adecls).
Proof.
  induction adecls as [| adecl rest IH]; simpl; [pres |].
  pose proof (check_function_preserves ext adecl).
  pose proof (check_global_preserves ext adecl).
  pose proof (check_type_preserves ext adecl).
  pres.
Qed.

Lemma check_function_emits ext adecl f c od c' :
  check_function ext adecl f c = Ok (od, c') ->
  match od with
  | None => fn_body f = None
  | Some d =>
      is_some (fn_body f) = true /\ decl_symbol d = fn_symbol f
      /\ decl_exported d = false
      /\ exists t b p, decl_u d = DECL_FUNC t (Some b) (Some p) (fn_flags f)
  end.
Proof.
  intros H. unfold check_function in H.
  destruct (fn_body f) as [abody |]; [| minv H; reflexivity].
  minv H.
  all: unfold set_func_body, set_func_scope; simpl;
    rewrite decl_names_symbol;
    repeat split; do 3 eexists; reflexivity.
Qed.

Lemma check_global_emits ext adecl g c od c' :
  check_global ext adecl g c = Ok (od, c') ->
  match od with
  | None => gl_init g = None
  | Some d =>
      is_some (gl_init g) = true /\ decl_symbol d = gl_symbol g
      /\ decl_exported d = false
      /\ exists t v, decl_u d = DECL_GLOBAL t v
  end.
Proof.
  intros H. unfold check_global in H.
  destruct (gl_init g) as [ainit |]; [| minv H; reflexivity].
  minv H. simpl. rewrite decl_names_symbol.
  repeat split; do 2 eexists; reflexivity.
Qed.

Lemma check_declarations_declared ext adecls :
  forall c decls c',
    check_declarations ext adecls c = Ok (decls, c') ->
    Forall2 declared_by (List.filter adecl_emits adecls) decls.
Proof.
  induction adecls as [| adecl rest IH]; intros c decls c' H; simpl in H.
  - minv H. constructor.
  - apply bind_ok in H. destruct H as (od & c1 & Hd & H).
    apply bind_ok in H. destruct H as (ds & c2 & Hr & H).
    specialize (IH _ _ _ Hr). simpl List.filter.
    assert (D : match od with
                | Some d => adecl_emits adecl = true /\
                            declared_by adecl
                              (set_exported (adecl_exported adecl) d)
                | None => adecl_emits adecl = false
                end).
    { unfold adecl_emits, declared_by.
      destruct (adecl_u adecl) as [f | g | t | k].
      - apply check_function_emits in Hd. destruct od as [d |].
        + destruct Hd as (B & S & X & tb & b & p & Ud).
          simpl. rewrite Ud. auto.
        + rewrite Hd. reflexivity.
      - apply check_global_emits in Hd. destruct od as [d |].
        + destruct Hd as (B & S & X & tb & v & Ud).
          simpl. rewrite Ud. auto.
        + rewrite Hd. reflexivity.
      - unfold check_type in Hd. minv Hd. simpl. auto.
      - minv Hd. reflexivity. }
    destruct od as [d |].
    + destruct D as [-> D]. minv H. constructor; assumption.
    + rewrite D. minv H. exact IH.
Qed.

(** X4.  [check_declarations] emits, in the order of the source, one
    declaration for every function with a body, every global with an
    initializer and every type, and nothing for a constant, a prototype or a
    global without initializer; each one carries the [exported] flag, the
    symbol and the function flags of what it stands for, and the current
    scope is left as it was. *)
Theorem check_declarations_emits
    (ext : externals) (adecls : list ast_decl) (c : context)
    (decls : list declaration) (c' : context) :
  check_declarations ext adecls c = Ok (decls, c') ->
  Forall2 declared_by (List.filter adecl_emits adecls) decls
  /\ length decls = length (List.filter adecl_emits adecls)
  /\ ctx_scope c' = ctx_scope c.
Proof.
  intros H.
  pose proof (check_declarations_declared ext adecls c decls c' H) as D.
  split; [exact D |]. split.
  - symmetry. eapply Forall2_length, D.
  - exact (proj1 (check_declarations_preserves ext adecls c decls c' H)).
Qed.

(** X5.  When a function with a body checks, there is a declaration: its
    type is what the type store gives for the prototype, which is not
    variadic in the way of C; its scope is a new one; its body terminates or
    has the result type of the function.  On return the current scope is the
    one found on entry, and [current_fntype] is null. *)
Theorem check_function_declaration
    (ext : externals) (adecl : ast_decl) (f : ast_function_decl)
    (abody : ast_expression) (c : context) (od : option declaration)
    (c' : context) :
  fn_body f = Some abody ->
  check_function ext adecl f c = Ok (od, c') ->
  exists d fntype fresult v body,
    od = Some d
    /\ type_store_lookup_atype ext c (function_ast_type (fn_prototype f))
       = Some fntype
    /\ func_result fntype = Some fresult
    /\ func_variadism fntype = Some v /\ v <> VARIADISM_C
    /\ decl_u d = DECL_FUNC fntype (Some body)
                    (Some (length (ctx_scopes c))) (fn_flags f)
    /\ (expr_terminates body = true \/ expr_result body = Some fresult)
    /\ ctx_scope c' = ctx_scope c
    /\ ctx_current_fntype c' = None.
Proof.
  intros Hb H.
  pose proof (proj1 (check_function_preserves ext adecl f c od c' H)) as Hs.
  unfold check_function in H. rewrite Hb in H.
  apply bind_ok in H. destruct H as (c0 & c1 & E & H). minv E.
  apply bind_ok in H. destruct H as (u1 & c1 & E & H). minv E.
  apply bind_ok in H. destruct H as (fntype & c1 & E & H). minv E.
  apply bind_ok in H. destruct H as (u2 & c1 & E & H). minv E.
  apply bind_ok in H. destruct H as (v & c1 & E & H). minv E.
  apply bind_ok in H. destruct H as (u3 & c1 & E & H). minv E.
  apply bind_ok in H. destruct H as (p & c1 & E & H).
  unfold scope_push in E. injection E as <- <-. cbv zeta in H.
  apply bind_ok in H. destruct H as (u4 & c2 & _ & H).
  apply bind_ok in H. destruct H as (fresult & c3 & E & H). minv E.
  apply bind_ok in H. destruct H as (body & c3 & _ & H).
  apply bind_ok in H. destruct H as (ok & c4 & Ho & H).
  apply bind_ok in H. destruct H as (u5 & c5 & E & H). minv E.
  apply bind_ok in H. destruct H as (u6 & c5 & _ & H).
  apply bind_ok in H. destruct H as (u7 & c6 & _ & H).
  apply bind_ok in H. destruct H as (u8 & c7 & E & H). minv E. minv H.
  do 5 eexists. split; [reflexivity |].
  split; [eassumption |]. split; [eassumption |]. split; [eassumption |].
  split.
  { match goal with
    | N : negb _ = true |- _ =>
        apply negb_true_iff in N;
        destruct (variadism_eq_dec v VARIADISM_C); [discriminate | assumption]
    end. }
  split; [reflexivity |].
  split; [| split; [exact Hs | reflexivity]].
  destruct (expr_terminates body) eqn:T; cbn [negb andb]; [left; exact T |].
  right. destruct (type_ptr_eqb (Some fresult) (expr_result body)) eqn:Q;
    cbn [negb].
  - apply type_ptr_eqb_eq in Q. congruence.
  - apply lower_implicit_cast_result.
Qed.

(** ** Steadiness: what a run leaves of the context *)

Lemma scope_grows_refl s : scope_grows s s.
Proof. repeat split. exists []. symmetry. apply app_nil_r. Qed.

Lemma scope_grows_trans s1 s2 s3 :
  scope_grows s1 s2 -> scope_grows s2 s3 -> scope_grows s1 s3.
Proof.
  intros (T1 & L1 & P1 & a1 & O1) (T2 & L2 & P2 & a2 & O2).
  repeat split; try congruence.
  exists (a1 ++ a2). rewrite O2, O1, app_assoc. reflexivity.
Qed.

Lemma heap_grows_refl h : heap_grows h h.
Proof.
  split; [lia |]. intros p s H. exists s. split; [exact H |].
  apply scope_grows_refl.
Qed.

Lemma heap_grows_trans h1 h2 h3 :
  heap_grows h1 h2 -> heap_grows h2 h3 -> heap_grows h1 h3.
Proof.
  intros [L1 G1] [L2 G2]. split; [lia |]. intros p s H.
  destruct (G1 p s H) as (s2 & H2 & S2).
  destruct (G2 p s2 H2) as (s3 & H3 & S3).
  exists s3. split; [exact H3 |]. eapply scope_grows_trans; eassumption.
Qed.

Lemma steady_refl c : steady c c.
Proof. repeat split; try lia; apply heap_grows_refl. Qed.

Lemma steady_trans c1 c2 c3 : steady c1 c2 -> steady c2 c3 -> steady c1 c3.
Proof.
  intros (N1 & U1 & D1 & F1 & H1) (N2 & U2 & D2 & F2 & H2).
  repeat split; try congruence; try lia.
  - apply (heap_grows_trans _ _ _ H1 H2).
  - apply (heap_grows_trans _ _ _ H1 H2).
Qed.

Lemma steady_scopes c h :
  heap_grows (ctx_scopes c) h -> steady c (set_scopes h c).
Proof. intros H. repeat split; simpl; try lia; apply H. Qed.

Lemma heap_grows_insert h i s s' :
  h !! i = Some s -> scope_grows s s' -> heap_grows h (<[i := s']> h).
Proof.
  intros Hi Hg. split; [rewrite length_insert; lia |].
  intros p t Hp. destruct (decide (i = p)) as [-> | Hne].
  - rewrite list_lookup_insert_eq by (eapply lookup_lt_Some; eassumption).
    exists s'. split; [reflexivity |]. congruence.
  - rewrite list_lookup_insert_ne by assumption.
    exists t. split; [exact Hp | apply scope_grows_refl].
Qed.

Lemma heap_grows_app h l : heap_grows h (h ++ l).
Proof.
  split; [rewrite length_app; lia |]. intros p s H.
  exists s. split; [apply lookup_app_l_Some, H | apply scope_grows_refl].
Qed.

Lemma steadily_ret {A} (a : A) : steadily (ret a).
Proof. intros c b c' H. inversion H; subst. apply steady_refl. Qed.

Lemma steadily_bind {A B} (m : M A) (k : A -> M B) :
  steadily m -> (forall a, steadily (k a)) -> steadily (bind m k).
Proof.
  intros Hm Hk c b c' H. apply bind_ok in H. destruct H as (a & c1 & E1 & E2).
  eapply steady_trans; [eapply Hm | eapply Hk]; eassumption.
Qed.

Lemma steadily_crash {A} : steadily (@crash A).
Proof. intros c a c' H. discriminate. Qed.

Lemma steadily_expect b msg : steadily (expect b msg).
Proof.
  intros c a c' H. apply expect_ok in H. destruct H as [_ ->].
  apply steady_refl.
Qed.

Lemma steadily_c_assert b : steadily (c_assert b).
Proof.
  intros c a c' H. apply c_assert_ok in H. destruct H as [_ ->].
  apply steady_refl.
Qed.

Lemma steadily_deref {A} (o : option A) : steadily (deref o).
Proof.
  intros c a c' H. apply deref_ok in H. destruct H as [_ ->].
  apply steady_refl.
Qed.

Lemma steadily_get_ctx : steadily get_ctx.
Proof. intros c a c' H. inversion H; subst. apply steady_refl. Qed.

Lemma steadily_scope_insert p k i n t v :
  steadily (scope_insert p k i n t v).
Proof.
  intros c a c' H. unfold scope_insert in H.
  destruct p as [j |]; [| discriminate].
  destruct (ctx_scopes c !! j) as [s |] eqn:Hj; [| discriminate].
  inversion H; subst. apply steady_scopes.
  eapply heap_grows_insert; [exact Hj |].
  repeat split. eexists. reflexivity.
Qed.

Lemma steadily_scope_push : steadily scope_push.
Proof.
  intros c a c' H. unfold scope_push in H. inversion H; subst.
  repeat split; simpl; try lia; apply heap_grows_app.
Qed.

Lemma steadily_scope_pop : steadily scope_pop.
Proof.
  intros c a c' H. unfold scope_pop in H.
  destruct (ctx_scope c); [| discriminate].
  destruct (ctx_scopes c !! _); [| discriminate].
  inversion H; subst. repeat split; simpl; try lia; apply heap_grows_refl.
Qed.

(** A fresh scope receives its kind and label before anything else
    happens to it: the scopes that were there stay as they are. *)
Lemma steadily_push_kind {B} t l (k : scope_ptr -> M B) :
  (forall p, steadily (k p)) ->
  steadily (bind scope_push
              (fun p => bind (scope_set_kind p t l) (fun _ => k p))).
Proof.
  intros Hk c b c' H. apply bind_ok in H. destruct H as (p & c1 & E1 & H).
  apply bind_ok in H. destruct H as (u & c2 & E2 & H).
  eapply steady_trans; [| eapply Hk; exact H].
  unfold scope_push in E1. injection E1 as <- <-.
  unfold scope_set_kind in E2. simpl in E2.
  destruct ((ctx_scopes c ++ _) !! length (ctx_scopes c)) as [s |];
    [| discriminate].
  injection E2 as _ <-.
  repeat split; simpl; try lia.
  - rewrite length_insert, length_app. lia.
  - intros q t0 Hq. exists t0. split; [| apply scope_grows_refl].
    rewrite list_lookup_insert_ne
      by (apply lookup_lt_Some in Hq; lia).
    apply lookup_app_l_Some, Hq.
Qed.

Lemma steadily_mapM {A B} (f : A -> M B) l :
  Forall (fun a => steadily (f a)) l -> steadily (mapM f l).
Proof.
  induction 1 as [| a l Ha _ IH]; simpl.
  - apply steadily_ret.
  - apply steadily_bind; [exact Ha |]. intros b.
    apply steadily_bind; [exact IH |]. intros bs. apply steadily_ret.
Qed.

Ltac stdy_step :=
  first
    [ solve [eauto]
    | apply steadily_ret | apply steadily_crash | apply steadily_expect
    | apply steadily_c_assert | apply steadily_deref
    | apply steadily_get_ctx
    | apply steadily_scope_insert | apply steadily_scope_pop
    | apply steadily_push_kind; intros ?
    | apply steadily_scope_push
    | apply steadily_bind; [| intros ?]
    | match goal with
      | |- steadily (match ?x with _ => _ end) => destruct x
      end ].

Ltac stdy := repeat stdy_step.

Section SteadinessOfElaborations.

Context (ext : externals).
Variable rec : ast_expression -> option type -> M expression.

Local Abbreviation calm := (calm rec).

Lemma is_assignable_steadily to from :
  steadily (is_assignable ext to from).
Proof. unfold is_assignable. stdy. Qed.

Hint Resolve is_assignable_steadily : core.

Lemma check_expr_access_ident_steadily ident :
  steadily (check_expr_access_ident ident).
Proof. unfold check_expr_access_ident. stdy. Qed.

Lemma check_expr_access_index_steadily a i :
  calm a -> calm i -> steadily (check_expr_access_index ext rec a i).
Proof. unfold calm, check_expr_access_index. intros. stdy. Qed.

Lemma check_expr_access_field_steadily a f :
  calm a -> steadily (check_expr_access_field ext rec a f).
Proof. unfold calm, check_expr_access_field. intros. stdy. Qed.

Lemma check_expr_assert_steadily loc c m hint :
  Forall calm (option_list c) -> Forall calm (option_list m) ->
  steadily (check_expr_assert ext rec loc c m hint).
Proof.
  unfold calm, check_expr_assert. intros Hc Hm.
  destruct c, m; simpl in *; inversion_clear Hc; inversion_clear Hm; stdy.
Qed.

Lemma check_expr_assign_steadily op o v ind hint :
  calm o -> calm v -> steadily (check_expr_assign ext rec op o v ind hint).
Proof. unfold calm, check_expr_assign. intros. stdy. Qed.

Lemma check_expr_binarithm_steadily op l r hint :
  calm l -> calm r -> steadily (check_expr_binarithm ext rec op l r hint).
Proof. unfold calm, check_expr_binarithm. intros. stdy. Qed.

Lemma steadily_with_ctx {B} (k : context -> M B) :
  (forall c0 b c', k c0 c0 = Ok (b, c') -> steady c0 c') ->
  steadily (bind get_ctx k).
Proof.
  intros Hk c b c' H. apply bind_ok in H. destruct H as (c0 & c1 & E & H).
  minv E. eapply Hk, H.
Qed.

Lemma steady_set_id c n : steady c (set_id n c).
Proof. repeat split; simpl; apply heap_grows_refl. Qed.

Lemma check_one_binding_steadily b :
  calm (binding_initializer b) -> steadily (check_one_binding ext rec b).
Proof.
  unfold calm, check_one_binding. intros Hi.
  do 7 (apply steadily_bind; [stdy | intros ?]).
  apply steadily_with_ctx. intros c0 r c' H.
  destruct (negb (binding_is_static b)); minv H.
  - eapply steadily_scope_insert; eassumption.
  - eapply steady_trans; [| eapply steadily_scope_insert; eassumption].
    apply steady_set_id.
Qed.

Lemma check_expr_binding_steadily bs hint :
  Forall calm (map binding_initializer bs) ->
  steadily (check_expr_binding ext rec bs hint).
Proof.
  unfold check_expr_binding. intros H. destruct bs as [| b bs]; [stdy |].
  apply steadily_bind; [| intros; stdy].
  apply steadily_mapM. rewrite List.Forall_map in H.
  eapply Forall_impl; [exact H |]. intros x Hx.
  apply check_one_binding_steadily, Hx.
Qed.

Lemma check_array_items_steadily {A} (value : A -> ast_expression)
    (expand : A -> bool) items :
  Forall calm (map value items) ->
  forall t, steadily (check_array_items ext rec value expand items t).
Proof.
  unfold calm. induction items as [| item rest IH]; intros H t; simpl.
  - stdy.
  - inversion_clear H. specialize (IH ltac:(assumption)). stdy.
Qed.

Lemma check_expr_array_steadily {A} (value : A -> ast_expression)
    (expand : A -> bool) items hint :
  Forall calm (map value items) ->
  steadily (check_expr_array ext rec value expand items hint).
Proof.
  intros H. unfold check_expr_array.
  pose proof (check_array_items_steadily value expand items H). stdy.
Qed.

Lemma lower_vaargs_steadily aargs t :
  Forall calm (map call_arg_value aargs) ->
  steadily (lower_vaargs ext rec aargs t).
Proof.
  intros H. unfold lower_vaargs.
  pose proof (check_expr_array_steadily call_arg_value (fun _ => false)
                aargs (Some (type_store_lookup_array ext t SIZE_UNDEFINED)) H).
  stdy.
Qed.

Lemma check_call_args_steadily v aargs :
  Forall calm (map call_arg_value aargs) ->
  forall params, steadily (check_call_args ext rec v params aargs).
Proof.
  induction aargs as [| aarg arest IH]; intros H params; simpl.
  - stdy.
  - pose proof (lower_vaargs_steadily (aarg :: arest)) as Hv.
    specialize (fun t => Hv t H).
    inversion_clear H. specialize (IH ltac:(assumption)).
    unfold calm in *. stdy.
Qed.

Lemma check_expr_call_steadily f aargs hint :
  calm f -> Forall calm (map call_arg_value aargs) ->
  steadily (check_expr_call ext rec f aargs hint).
Proof.
  intros Hf H. unfold check_expr_call.
  pose proof (check_call_args_steadily) as Ha.
  specialize (fun v => Ha v aargs H). unfold calm in *. stdy.
Qed.

Lemma check_expr_cast_steadily kind t v hint :
  calm v -> steadily (check_expr_cast ext rec kind t v hint).
Proof. unfold calm, check_expr_cast. intros. stdy. Qed.

Lemma check_expr_constant_steadily s c hint :
  steadily (check_expr_constant ext s c hint).
Proof. unfold check_expr_constant. stdy. Qed.

Lemma check_expr_defer_steadily d hint :
  calm d -> steadily (check_expr_defer ext rec d hint).
Proof.
  unfold calm, check_expr_defer. intros Hd c e c' H. minv H.
  match goal with
  | E : rec _ _ _ = Ok _ |- _ => apply Hd in E; rename E into S
  end.
  destruct S as (N & U & D & F & G). simpl in *.
  match goal with
  | E : negb (ctx_deferring _) = true |- _ => apply negb_true_iff in E
  end.
  repeat split; simpl; try assumption; try congruence; apply G.
Qed.

Lemma check_expr_control_steadily kind label hint :
  steadily (check_expr_control kind label hint).
Proof. unfold check_expr_control. stdy. Qed.

Lemma check_optional_steadily a hint :
  Forall calm (option_list a) -> steadily (check_optional rec a hint).
Proof.
  unfold calm, check_optional. intros H.
  destruct a; simpl in H; [inversion_clear H |]; stdy.
Qed.

Lemma check_expr_for_steadily label b c a body hint :
  Forall calm (option_list b) -> calm c -> Forall calm (option_list a) ->
  calm body -> steadily (check_expr_for ext rec label b c a body hint).
Proof.
  intros Hb Hc Ha Hbody. unfold check_expr_for.
  pose proof (fun h => check_optional_steadily b h Hb).
  pose proof (fun h => check_optional_steadily a h Ha).
  unfold calm in *.
  stdy.
Qed.

Lemma check_expr_if_steadily c t f hint :
  calm c -> calm t -> Forall calm (option_list f) ->
  steadily (check_expr_if ext rec c t f hint).
Proof.
  unfold calm, check_expr_if. intros Hc Ht Hf.
  destruct f; simpl in Hf; [inversion_clear Hf |]; stdy.
Qed.

Lemma check_list_items_steadily alist :
  Forall calm alist -> steadily (check_list_items rec alist).
Proof.
  unfold calm. induction 1 as [| a rest Ha _ IH]; simpl; stdy.
Qed.

Lemma check_expr_list_steadily alist hint :
  Forall calm alist -> steadily (check_expr_list rec alist hint).
Proof.
  intros H. unfold check_expr_list.
  pose proof (check_list_items_steadily alist H).
  stdy.
Qed.

Lemma check_expr_measure_len_steadily v :
  calm v -> steadily (check_expr_measure_len ext rec v).
Proof. unfold calm, check_expr_measure_len. intros. stdy. Qed.

Lemma check_expr_measure_size_steadily t :
  steadily (check_expr_measure_size ext t).
Proof. unfold check_expr_measure_size. stdy. Qed.

Lemma check_expr_return_steadily v hint :
  Forall calm (option_list v) -> steadily (check_expr_return ext rec v hint).
Proof.
  unfold calm, check_expr_return. intros H.
  destruct v; simpl in H; [inversion_clear H |]; stdy.
Qed.

Lemma check_slice_operand_steadily a :
  Forall calm (option_list a) -> steadily (check_slice_operand ext rec a).
Proof.
  unfold calm, check_slice_operand. intros H.
  destruct a; simpl in H; [inversion_clear H |]; stdy.
Qed.

Lemma check_expr_slice_steadily o s e hint :
  calm o -> Forall calm (option_list s) -> Forall calm (option_list e) ->
  steadily (check_expr_slice ext rec o s e hint).
Proof.
  intros Ho Hs He. unfold check_expr_slice.
  pose proof (check_slice_operand_steadily s Hs).
  pose proof (check_slice_operand_steadily e He).
  unfold calm in *. stdy.
Qed.

Lemma check_struct_value_steadily f :
  calm (field_value_initializer f) -> steadily (check_struct_value ext rec f).
Proof. unfold calm, check_struct_value. intros. stdy. Qed.

Lemma check_struct_field_steadily t fv :
  steadily (check_struct_field ext t fv).
Proof. unfold check_struct_field. stdy. Qed.

Lemma check_expr_struct_steadily autofill name fs hint :
  Forall calm (map field_value_initializer fs) ->
  steadily (check_expr_struct ext rec autofill name fs hint).
Proof.
  intros H. unfold check_expr_struct. rewrite List.Forall_map in H.
  assert (H1 : steadily (mapM (check_struct_value ext rec) fs)).
  { apply steadily_mapM. eapply Forall_impl; [exact H |].
    intros x Hx. apply check_struct_value_steadily, Hx. }
  assert (H2 : forall t l, steadily (mapM (check_struct_field ext t) l)).
  { intros t l. apply steadily_mapM. apply Forall_forall.
    intros x _. apply check_struct_field_steadily. }
  destruct fs; stdy.
Qed.

Lemma check_case_option_steadily t a :
  calm a -> steadily (check_case_option ext rec t a).
Proof. unfold calm, check_case_option. intros. stdy. Qed.

Lemma check_switch_cases_steadily t acases :
  Forall calm
    (flat_map (fun c => case_options c ++ [case_value c]) acases) ->
  forall r, steadily (check_switch_cases ext rec t acases r).
Proof.
  induction acases as [| acase rest IH]; intros H r; simpl.
  - stdy.
  - simpl in H. apply Forall_app in H. destruct H as [H Hrest].
    apply Forall_app in H. destruct H as [Ho Hv]. inversion_clear Hv.
    specialize (IH Hrest).
    assert (steadily (mapM (check_case_option ext rec t)
                            (case_options acase))).
    { apply steadily_mapM. eapply Forall_impl; [exact Ho |].
      intros x Hx. apply check_case_option_steadily, Hx. }
    unfold calm in *. stdy.
Qed.

Lemma check_expr_switch_steadily v acases hint :
  calm v ->
  Forall calm
    (flat_map (fun c => case_options c ++ [case_value c]) acases) ->
  steadily (check_expr_switch ext rec v acases hint).
Proof.
  intros Hv H. unfold check_expr_switch.
  pose proof (fun t => check_switch_cases_steadily t acases H).
  unfold calm in *. stdy.
Qed.

Lemma check_expr_unarithm_steadily op o hint :
  calm o -> steadily (check_expr_unarithm ext rec op o hint).
Proof. unfold calm, check_expr_unarithm. intros. stdy. Qed.

End SteadinessOfElaborations.

Lemma check_expression_steadily ext a :
  forall hint, steadily (check_expression ext a hint).
Proof.
  induction a as [[loc u] IH] using ast_expression_children_ind.
  change (Forall (calm (check_expression ext))
                 (ast_children (mk_ast_expression loc u))) in IH.
  intros hint. unfold ast_children in IH.
  destruct u; simpl in IH |- *;
    repeat match goal with
      | H : Forall _ (_ :: _) |- _ => inversion_clear H
      | H : Forall _ (_ ++ _) |- _ => apply Forall_app in H; destruct H
      end.
  - apply check_expr_access_ident_steadily.
  - apply check_expr_access_index_steadily; assumption.
  - apply check_expr_access_field_steadily; assumption.
  - apply check_expr_assert_steadily; assumption.
  - apply check_expr_assign_steadily; assumption.
  - apply check_expr_binarithm_steadily; assumption.
  - apply check_expr_binding_steadily; assumption.
  - apply check_expr_control_steadily.
  - apply check_expr_call_steadily; assumption.
  - apply check_expr_cast_steadily; assumption.
  - apply check_expr_constant_steadily.
  - apply check_expr_array_steadily; assumption.
  - apply check_expr_defer_steadily; assumption.
  - apply check_expr_for_steadily; assumption.
  - apply check_expr_if_steadily; assumption.
  - apply check_expr_list_steadily; assumption.
  - stdy.
  - apply check_expr_measure_len_steadily; assumption.
  - apply check_expr_measure_size_steadily.
  - stdy.
  - apply check_expr_return_steadily; assumption.
  - apply check_expr_slice_steadily; assumption.
  - apply check_expr_struct_steadily; assumption.
  - apply check_expr_switch_steadily; assumption.
  - apply check_expr_unarithm_steadily; assumption.
Qed.

(** ** The counter: one bump for each static binding *)

Lemma bumped_bumped a b z : bumped a (bumped b z) = bumped (b + a) z.
Proof.
  unfold bumped. rewrite Nat.add_comm. symmetry. apply Nat.iter_add.
Qed.

Lemma adds_run {A} (m : M A) c a c' k :
  m c = Ok (a, c') -> adds k m -> ctx_id c' = bumped k (ctx_id c).
Proof. intros H Hm. exact (Hm c a c' H). Qed.

Lemma scope_insert_adds p k i n t v : adds 0 (scope_insert p k i n t v).
Proof.
  intros c o c' H. unfold scope_insert in H.
  destruct p as [j |]; [| discriminate].
  destruct (ctx_scopes c !! j); [| discriminate].
  inversion H. reflexivity.
Qed.

Lemma scope_push_adds : adds 0 scope_push.
Proof. intros c p c' H. inversion H. reflexivity. Qed.

Lemma scope_pop_adds : adds 0 scope_pop.
Proof.
  intros c p c' H. unfold scope_pop in H.
  destruct (ctx_scope c) as [q |]; [| discriminate].
  destruct (ctx_scopes c !! q); [| discriminate].
  inversion H. reflexivity.
Qed.

Lemma scope_set_kind_adds p t l : adds 0 (scope_set_kind p t l).
Proof.
  intros c u c' H. unfold scope_set_kind in H.
  destruct (ctx_scopes c !! p); [| discriminate].
  inversion H. reflexivity.
Qed.

Create HintDb adds.
#[export] Hint Resolve scope_insert_adds scope_push_adds scope_pop_adds
  scope_set_kind_adds : adds.

(** The steps of a run in terms of the counter, and their sum. *)
Ltac ids :=
  repeat match goal with
         | H : ?m ?c1 = Ok (_, ?c2) |- _ =>
             eapply adds_run in H; [| solve [eauto with adds]]
         end.

Lemma bumped_once z : wrap_int (z + 1) = bumped 1 z.
Proof. reflexivity. Qed.

Ltac chain :=
  simpl ctx_id in *;
  repeat match goal with
         | E : ctx_id ?x = bumped _ _ |- context [ctx_id ?x] =>
             rewrite E; clear E
         end;
  rewrite ?bumped_once, ?bumped_bumped;
  first [reflexivity | f_equal; simpl; lia].

Ltac count H := minv H; ids; chain.

Lemma adds_mapM {A B} (f : A -> M B) (k : A -> nat) l :
  Forall (fun x => adds (k x) (f x)) l -> adds (sum_with k l) (mapM f l).
Proof.
  induction 1 as [| x l Hx _ IH]; intros c r c' H; simpl in H.
  - count H.
  - count H.
Qed.

Lemma adds_mapM_pure {A B} (f : A -> M B) l :
  (forall x, adds 0 (f x)) -> adds 0 (mapM f l).
Proof.
  intros Hf. induction l as [| x l IH]; intros c r c' H; simpl in H.
  - count H.
  - pose proof (Hf x). count H.
Qed.

Section CounterOfElaborations.

Context (ext : externals).
Variable rec : ast_expression -> option type -> M expression.

Local Abbreviation counted a := (forall hint, adds (statics a) (rec a hint)).

Lemma check_expr_access_ident_adds ident :
  adds 0 (check_expr_access_ident ident).
Proof. intros c e c' H. unfold check_expr_access_ident in H. count H. Qed.

Lemma check_expr_access_index_adds a i :
  counted a -> counted i ->
  adds (statics a + statics i) (check_expr_access_index ext rec a i).
Proof.
  intros Ha Hi c e c' H. unfold check_expr_access_index in H. count H.
Qed.

Lemma check_expr_access_field_adds a f :
  counted a -> adds (statics a) (check_expr_access_field ext rec a f).
Proof.
  intros Ha c e c' H. unfold check_expr_access_field in H. count H.
Qed.

Lemma check_expr_assert_adds loc ac am hint :
  Forall (fun a => counted a) (option_list ac) ->
  Forall (fun a => counted a) (option_list am) ->
  adds (opt_with statics ac + opt_with statics am)
       (check_expr_assert ext rec loc ac am hint).
Proof.
  intros Hc Hm c e c' H. unfold check_expr_assert in H.
  destruct ac, am; simpl in *; inversion_clear Hc; inversion_clear Hm;
    count H.
Qed.

Lemma check_expr_assign_adds op o v ind hint :
  counted o -> counted v ->
  adds (statics o + statics v) (check_expr_assign ext rec op o v ind hint).
Proof.
  intros Ho Hv c e c' H. unfold check_expr_assign in H. count H.
Qed.

Lemma check_expr_binarithm_adds op l r hint :
  counted l -> counted r ->
  adds (statics l + statics r) (check_expr_binarithm ext rec op l r hint).
Proof.
  intros Hl Hr c e c' H. unfold check_expr_binarithm in H. count H.
Qed.

Lemma check_one_binding_adds b :
  counted (binding_initializer b) ->
  adds (statics (binding_initializer b)
        + (if binding_is_static b then 1 else 0))
       (check_one_binding ext rec b).
Proof.
  intros Hi c e c' H. unfold check_one_binding in H.
  destruct (binding_is_static b); simpl in H; count H.
Qed.

Lemma check_expr_binding_adds bs hint :
  Forall (fun a => counted a) (map binding_initializer bs) ->
  adds (sum_with (fun b => (statics (binding_initializer b)
                            + (if binding_is_static b then 1 else 0))%nat)
                 bs)
       (check_expr_binding ext rec bs hint).
Proof.
  intros Hb c e c' H. unfold check_expr_binding in H.
  rewrite List.Forall_map in Hb.
  assert (adds (sum_with (fun b => (statics (binding_initializer b)
                            + (if binding_is_static b then 1 else 0))%nat)
                 bs)
               (mapM (check_one_binding ext rec) bs)).
  { apply adds_mapM. eapply Forall_impl; [exact Hb |].
    intros x Hx. apply check_one_binding_adds, Hx. }
  destruct bs; [discriminate H |]. count H.
Qed.

Lemma check_array_items_adds {A} (value : A -> ast_expression)
    (expand : A -> bool) items :
  Forall (fun a => counted a) (map value items) ->
  forall t,
    adds (sum_with (fun x => statics (value x)) items)
         (check_array_items ext rec value expand items t).
Proof.
  induction items as [| item rest IH]; intros Hf t c r c' H; simpl in H.
  - count H.
  - inversion_clear Hf. specialize (IH ltac:(assumption)).
    apply bind_ok in H. destruct H as (v & c1 & Hv & H).
    apply bind_ok in H. destruct H as (cur & c2 & Hc & H).
    apply bind_ok in H. destruct H as (u & c3 & Hu & H).
    apply bind_ok in H. destruct H as (r' & c4 & Hr & H).
    assert (c2 = c1) as -> by (destruct t; minv Hc; reflexivity).
    assert (c3 = c1) as -> by (destruct (expand item); minv Hu; reflexivity).
    assert (c' = c4) as ->
        by (destruct r' as [[[? ?] ?] ?]; minv H; reflexivity).
    clear Hc Hu H. ids. chain.
Qed.

Lemma check_expr_array_adds {A} (value : A -> ast_expression)
    (expand : A -> bool) items hint :
  Forall (fun a => counted a) (map value items) ->
  adds (sum_with (fun x => statics (value x)) items)
       (check_expr_array ext rec value expand items hint).
Proof.
  intros Hf c e c' H. unfold check_expr_array in H.
  pose proof (check_array_items_adds value expand items Hf).
  count H.
Qed.

Lemma lower_vaargs_adds aargs t :
  Forall (fun a => counted a) (map call_arg_value aargs) ->
  adds (sum_with (fun x => statics (call_arg_value x)) aargs)
       (lower_vaargs ext rec aargs t).
Proof.
  intros Hf c e c' H. unfold lower_vaargs in H.
  pose proof (fun h => check_expr_array_adds call_arg_value
                         (fun _ => false) aargs h Hf).
  count H.
Qed.

Lemma check_call_args_adds v aargs :
  Forall (fun a => counted a) (map call_arg_value aargs) ->
  forall params,
    adds (sum_with (fun x => statics (call_arg_value x)) aargs)
         (check_call_args ext rec v params aargs).
Proof.
  induction aargs as [| aarg arest IH]; intros Hf params c r c' H;
    simpl in H.
  - count H.
  - pose proof (fun t => lower_vaargs_adds (aarg :: arest) t Hf) as Hv.
    inversion_clear Hf. specialize (IH ltac:(assumption)).
    destruct params as [| param prest]; [minv H |].
    destruct (list_is_nil prest
              && (if variadism_eq_dec v VARIADISM_HARE then true else false)
              && negb (call_arg_variadic aarg)).
    + simpl in Hv. count H.
    + count H.
Qed.

Lemma check_expr_call_adds f aargs hint :
  counted f -> Forall (fun a => counted a) (map call_arg_value aargs) ->
  adds (statics f + sum_with (fun x => statics (call_arg_value x)) aargs)
       (check_expr_call ext rec f aargs hint).
Proof.
  intros Hf Ha c e c' H. unfold check_expr_call in H.
  pose proof (fun v p => check_call_args_adds v aargs Ha p).
  count H.
Qed.

Lemma check_expr_cast_adds kind t v hint :
  counted v -> adds (statics v) (check_expr_cast ext rec kind t v hint).
Proof. intros Hv c e c' H. unfold check_expr_cast in H. count H. Qed.

Lemma check_expr_constant_adds s k hint :
  adds 0 (check_expr_constant ext s k hint).
Proof. intros c e c' H. unfold check_expr_constant in H. count H. Qed.

Lemma check_expr_defer_adds d hint :
  counted d -> adds (statics d) (check_expr_defer ext rec d hint).
Proof. intros Hd c e c' H. unfold check_expr_defer in H. count H. Qed.

Lemma check_expr_control_adds kind label hint :
  adds 0 (check_expr_control kind label hint).
Proof. intros c e c' H. unfold check_expr_control in H. count H. Qed.

Lemma check_expr_for_adds label b ac a body hint :
  Forall (fun a => counted a) (option_list b) -> counted ac ->
  Forall (fun a => counted a) (option_list a) -> counted body ->
  adds (opt_with statics b + statics ac + opt_with statics a
        + statics body)
       (check_expr_for ext rec label b ac a body hint).
Proof.
  intros Hb Hc Ha Hbody c e c' H. unfold check_expr_for in H.
  destruct b, a; simpl in *; inversion_clear Hb; inversion_clear Ha;
    count H.
Qed.

Lemma check_expr_if_adds ac t f hint :
  counted ac -> counted t -> Forall (fun a => counted a) (option_list f) ->
  adds (statics ac + statics t + opt_with statics f)
       (check_expr_if ext rec ac t f hint).
Proof.
  intros Hc Ht Hf c e c' H. unfold check_expr_if in H.
  destruct f; simpl in *; inversion_clear Hf; count H.
Qed.

Lemma check_list_items_adds alist :
  Forall (fun a => counted a) alist ->
  adds (sum_with statics alist) (check_list_items rec alist).
Proof.
  induction 1 as [| a rest Ha _ IH]; intros c r c' H; simpl in H.
  - count H.
  - count H.
Qed.

Lemma check_expr_list_adds alist hint :
  Forall (fun a => counted a) alist ->
  adds (sum_with statics alist) (check_expr_list rec alist hint).
Proof.
  intros Hf c e c' H. unfold check_expr_list in H.
  pose proof (check_list_items_adds alist Hf).
  count H.
Qed.

Lemma check_expr_measure_len_adds v :
  counted v -> adds (statics v) (check_expr_measure_len ext rec v).
Proof. intros Hv c e c' H. unfold check_expr_measure_len in H. count H. Qed.

Lemma check_expr_measure_size_adds t :
  adds 0 (check_expr_measure_size ext t).
Proof. intros c e c' H. unfold check_expr_measure_size in H. count H. Qed.

Lemma check_expr_return_adds v hint :
  Forall (fun a => counted a) (option_list v) ->
  adds (opt_with statics v) (check_expr_return ext rec v hint).
Proof.
  intros Hv c e c' H. unfold check_expr_return in H.
  destruct v; simpl in *; inversion_clear Hv; count H.
Qed.

Lemma check_expr_slice_adds o s e hint :
  counted o -> Forall (fun a => counted a) (option_list s) ->
  Forall (fun a => counted a) (option_list e) ->
  adds (statics o + opt_with statics s + opt_with statics e)
       (check_expr_slice ext rec o s e hint).
Proof.
  intros Ho Hs He c r c' H. unfold check_expr_slice in H.
  destruct s, e; simpl in *; inversion_clear Hs; inversion_clear He;
    count H.
Qed.

Lemma check_struct_value_adds f :
  counted (field_value_initializer f) ->
  adds (statics (field_value_initializer f)) (check_struct_value ext rec f).
Proof. intros Hf c e c' H. unfold check_struct_value in H. count H. Qed.

Lemma check_struct_field_adds t fv : adds 0 (check_struct_field ext t fv).
Proof. intros c e c' H. unfold check_struct_field in H. count H. Qed.

Lemma check_expr_struct_adds autofill name fs hint :
  Forall (fun a => counted a) (map field_value_initializer fs) ->
  adds (sum_with (fun f => statics (field_value_initializer f)) fs)
       (check_expr_struct ext rec autofill name fs hint).
Proof.
  intros Hf c e c' H. unfold check_expr_struct in H.
  rewrite List.Forall_map in Hf.
  assert (H1 : adds (sum_with (fun f => statics (field_value_initializer f))
                              fs)
                    (mapM (check_struct_value ext rec) fs)).
  { apply adds_mapM. eapply Forall_impl; [exact Hf |].
    intros x Hx. apply check_struct_value_adds, Hx. }
  assert (H2 : forall t l, adds 0 (mapM (check_struct_field ext t) l)).
  { intros t l. apply adds_mapM_pure. intros x.
    apply check_struct_field_adds. }
  destruct fs; count H.
Qed.

Lemma check_case_option_adds t a :
  counted a -> adds (statics a) (check_case_option ext rec t a).
Proof. intros Ha c e c' H. unfold check_case_option in H. count H. Qed.

Lemma check_switch_cases_adds t acases :
  Forall (fun a => counted a)
    (flat_map (fun c => case_options c ++ [case_value c]) acases) ->
  forall r,
    adds (sum_with (fun k => (sum_with statics (case_options k)
                              + statics (case_value k))%nat) acases)
         (check_switch_cases ext rec t acases r).
Proof.
  induction acases as [| acase rest IH]; intros Hf r c x c' H; simpl in H.
  - count H.
  - simpl in Hf. apply Forall_app in Hf. destruct Hf as [Hf Hrest].
    apply Forall_app in Hf. destruct Hf as [Ho Hv]. inversion_clear Hv.
    specialize (IH Hrest).
    assert (adds (sum_with statics (case_options acase))
                 (mapM (check_case_option ext rec t) (case_options acase))).
    { apply adds_mapM. eapply Forall_impl; [exact Ho |].
      intros y Hy. apply check_case_option_adds, Hy. }
    count H.
Qed.

Lemma check_expr_switch_adds v acases hint :
  counted v ->
  Forall (fun a => counted a)
    (flat_map (fun c => case_options c ++ [case_value c]) acases) ->
  adds (statics v
        + sum_with (fun k => (sum_with statics (case_options k)
                              + statics (case_value k))%nat) acases)
       (check_expr_switch ext rec v acases hint).
Proof.
  intros Hv Hf c e c' H. unfold check_expr_switch in H.
  pose proof (fun t r => check_switch_cases_adds t acases Hf r).
  count H.
Qed.

Lemma check_expr_unarithm_adds op o hint :
  counted o -> adds (statics o) (check_expr_unarithm ext rec op o hint).
Proof. intros Ho c e c' H. unfold check_expr_unarithm in H. count H. Qed.

End CounterOfElaborations.

Lemma check_expression_adds ext a :
  forall hint, adds (statics a) (check_expression ext a hint).
Proof.
  induction a as [[loc u] IH] using ast_expression_children_ind.
  intros hint. unfold ast_children in IH.
  destruct u; simpl in IH |- *;
    repeat match goal with
      | H : Forall _ (_ :: _) |- _ => inversion_clear H
      | H : Forall _ (_ ++ _) |- _ => apply Forall_app in H; destruct H
      end.
  - apply check_expr_access_ident_adds.
  - apply check_expr_access_index_adds; assumption.
  - apply check_expr_access_field_adds; assumption.
  - apply check_expr_assert_adds; assumption.
  - apply check_expr_assign_adds; assumption.
  - apply check_expr_binarithm_adds; assumption.
  - apply check_expr_binding_adds; assumption.
  - apply check_expr_control_adds.
  - apply check_expr_call_adds; assumption.
  - apply check_expr_cast_adds; assumption.
  - apply check_expr_constant_adds.
  - apply (check_expr_array_adds ext (check_expression ext)
             array_item_value array_item_expand); assumption.
  - apply check_expr_defer_adds; assumption.
  - apply check_expr_for_adds; assumption.
  - apply check_expr_if_adds; assumption.
  - apply check_expr_list_adds; assumption.
  - intros c e c' H. discriminate H.
  - apply check_expr_measure_len_adds; assumption.
  - apply check_expr_measure_size_adds.
  - intros c e c' H. discriminate H.
  - apply check_expr_return_adds; assumption.
  - apply check_expr_slice_adds; assumption.
  - apply check_expr_struct_adds; assumption.
  - apply check_expr_switch_adds; assumption.
  - apply check_expr_unarithm_adds; assumption.
Qed.

(** *** The counter as a number *)

Lemma wrap_int_small z : INT_MIN <= z <= INT_MAX -> wrap_int z = z.
Proof.
  unfold wrap_int, INT_MIN, INT_MAX. intros H.
  rewrite Z.mod_small by lia. lia.
Qed.

Lemma wrap_int_range z : INT_MIN <= wrap_int z <= INT_MAX.
Proof.
  unfold wrap_int, INT_MIN, INT_MAX.
  pose proof (Z.mod_pos_bound (z + 2 ^ 31) (2 ^ 32) ltac:(lia)). lia.
Qed.

Lemma wrap_int_succ z : wrap_int (wrap_int z + 1) = wrap_int (z + 1).
Proof.
  unfold wrap_int. f_equal.
  replace ((z + 2 ^ 31) mod 2 ^ 32 - 2 ^ 31 + 1 + 2 ^ 31)
    with ((z + 2 ^ 31) mod 2 ^ 32 + 1) by lia.
  rewrite Zplus_mod_idemp_l. f_equal. lia.
Qed.

Lemma bumped_S k z : bumped (S k) z = wrap_int (bumped k z + 1).
Proof. reflexivity. Qed.

Lemma bumped_wrap k z : bumped (S k) z = wrap_int (z + Z.of_nat (S k)).
Proof.
  induction k as [| k IH].
  - reflexivity.
  - rewrite bumped_S, IH, wrap_int_succ. f_equal. lia.
Qed.

Lemma bumped_no_wrap k z :
  INT_MIN <= z -> z + Z.of_nat k <= INT_MAX -> bumped k z = z + Z.of_nat k.
Proof.
  intros L U. destruct k as [| k]; [simpl; lia |].
  rewrite bumped_wrap. apply wrap_int_small. lia.
Qed.

Lemma wrap_int_eq u v :
  wrap_int u = wrap_int v -> (v - u) mod 2 ^ 32 = 0.
Proof.
  unfold wrap_int. intros H.
  assert (E : (u + 2 ^ 31) mod 2 ^ 32 = (v + 2 ^ 31) mod 2 ^ 32) by lia.
  replace (v - u) with ((v + 2 ^ 31) - (u + 2 ^ 31)) by lia.
  rewrite Zminus_mod, E, Z.sub_diag. reflexivity.
Qed.

(** Two numbers that the counter gives out are different, as long as
    it has not gone round. *)
Lemma bumped_apart a b z :
  (a < b)%nat -> Z.of_nat b < 2 ^ 32 -> bumped a z <> bumped b z.
Proof.
  intros L U E.
  assert (W : wrap_int (z + Z.of_nat a) = wrap_int (z + Z.of_nat b)).
  { destruct b as [| b]; [lia |]. rewrite bumped_wrap in E.
    destruct a as [| a].
    - simpl bumped in E. change (Z.of_nat 0) with 0. rewrite Z.add_0_r.
      pose proof (wrap_int_range (z + Z.of_nat (S b))) as R.
      rewrite <- E in R. rewrite (wrap_int_small z R). exact E.
    - rewrite bumped_wrap in E. exact E. }
  apply wrap_int_eq in W.
  replace (z + Z.of_nat b - (z + Z.of_nat a))
    with (Z.of_nat b - Z.of_nat a) in W by lia.
  rewrite Z.mod_small in W by lia. lia.
Qed.

(** ** The scopes of loops and lists *)

Lemma steadily_run {A} (m : M A) c a c' :
  m c = Ok (a, c') -> steadily m -> steady c c'.
Proof. intros H S. exact (S c a c' H). Qed.

(** The scope that [scope_push] and the two stores after it make. *)
Lemma push_kind_scope c p c1 t l u c2 :
  scope_push c = Ok (p, c1) -> scope_set_kind p t l c1 = Ok (u, c2) ->
  p = length (ctx_scopes c)
  /\ ctx_scope c2 = Some p
  /\ ctx_scopes c2 = ctx_scopes c ++ [mk_scope t l (ctx_scope c) []]
  /\ steady c c2.
Proof.
  intros E1 E2.
  assert (S : steady c c2).
  { apply (steadily_run
             (bind scope_push
                (fun p => bind (scope_set_kind p t l) (fun _ => ret tt)))
             c tt c2).
    - unfold bind. rewrite E1, E2. destruct u. reflexivity.
    - apply steadily_push_kind. intros q. apply steadily_ret. }
  unfold scope_push in E1. injection E1 as <- <-.
  unfold scope_set_kind in E2. simpl in E2.
  rewrite lookup_app_r in E2 by lia. rewrite Nat.sub_diag in E2.
  simpl in E2. injection E2 as E2. subst c2.
  split; [reflexivity |]. split; [reflexivity |]. split; [| exact S].
  simpl.
  replace (length (ctx_scopes c)) with (length (ctx_scopes c) + 0)%nat
    at 1 by lia.
  rewrite insert_app_r. reflexivity.
Qed.

(** X6.  When a [for] checks, the node is void and does not terminate, its
    condition is a [bool], and the scope that the node records is a new one,
    made for a [for], with the label of the loop, under the scope that was
    current on entry, which is current again on exit. *)
Theorem check_expr_for_scope
    (ext : externals) (loc : location) (label : option string)
    (label_loc : location) (abindings : option ast_expression)
    (acond : ast_expression) (aafterthought : option ast_expression)
    (abody : ast_expression) (hint : option type)
    (c : context) (e : expression) (c' : context) :
  check_expression ext
    (mk_ast_expression loc
       (A_for label label_loc abindings acond aafterthought abody)) hint c
  = Ok (e, c') ->
  exists bindings cond afterthought body s t,
    e = mk_expression EXPR_FOR (Some (builtin_type_void ext)) false
          (E_for bindings cond afterthought body (length (ctx_scopes c))
                 label)
    /\ expr_result cond = Some t
    /\ type_storage_of t = TYPE_STORAGE_BOOL
    /\ ctx_scopes c' !! length (ctx_scopes c) = Some s
    /\ scope_type s = EXPR_FOR
    /\ scope_label s = label
    /\ scope_parent s = ctx_scope c
    /\ ctx_scope c' = ctx_scope c.
Proof.
  intros H.
  pose proof (proj1 (check_expression_preserves ext _ hint c e c' H)) as Hs.
  simpl in H. unfold check_expr_for in H.
  apply bind_ok in H. destruct H as (p & c1 & E1 & H).
  apply bind_ok in H. destruct H as (u & c2 & E2 & H).
  destruct (push_kind_scope _ _ _ _ _ _ _ E1 E2) as (-> & _ & Hh & _).
  assert (S : steady c2 c').
  { apply (steadily_run _ _ _ _ H).
    pose proof (check_expression_steadily ext) as R.
    assert (O : forall a h,
               steadily (check_optional (check_expression ext) a h)).
    { intros [a |] h; simpl; stdy. }
    stdy. }
  destruct S as (_ & _ & _ & _ & [_ G]).
  destruct (G (length (ctx_scopes c)) (mk_scope EXPR_FOR label (ctx_scope c) []))
    as (s & Hl & T & L & P & _).
  { rewrite Hh. rewrite lookup_app_r by lia. rewrite Nat.sub_diag.
    reflexivity. }
  minv H.
  all: match goal with
       | E : storage_is _ _ = true |- _ => apply storage_is_eq in E
       end.
  all: do 6 eexists; split; [reflexivity |];
    repeat (split; [eassumption |]); assumption.
Qed.

Lemma check_list_items_shape rec alist :
  forall c exprs result terminates c',
    check_list_items rec alist c = Ok (exprs, result, terminates, c') ->
    alist <> [] ->
    exists init lexpr,
      exprs = init ++ [lexpr] /\ length exprs = length alist
      /\ result = expr_result lexpr /\ terminates = expr_terminates lexpr.
Proof.
  induction alist as [| a rest IH]; intros c exprs result terminates c' H Hne;
    [congruence |].
  simpl in H. apply bind_ok in H. destruct H as (lexpr & c1 & _ & H).
  destruct rest as [| b rest].
  - minv H. exists [], lexpr. repeat split; reflexivity.
  - apply bind_ok in H.
    destruct H as ([[exprs' result'] terminates'] & c2 & E & H). minv H.
    destruct (IH _ _ _ _ _ E ltac:(discriminate)) as (init & l & -> & L & R & T).
    exists (lexpr :: init), l. repeat split; try assumption.
    simpl. rewrite L. reflexivity.
Qed.

(** X7.  When an expression list checks, it stores one expression for each
    one written, has the result type and the [terminates] flag of the last
    one, and records a new scope without label, made for a list, under the
    scope that was current on entry, which is current again on exit. *)
Theorem check_expr_list_scope
    (ext : externals) (loc : location) (alist : list ast_expression)
    (hint : option type) (c : context) (e : expression) (c' : context) :
  check_expression ext (mk_ast_expression loc (A_list alist)) hint c
  = Ok (e, c') ->
  exists init lexpr s,
    e = mk_expression EXPR_LIST (expr_result lexpr) (expr_terminates lexpr)
          (E_list (init ++ [lexpr]) (length (ctx_scopes c)))
    /\ length (init ++ [lexpr]) = length alist
    /\ ctx_scopes c' !! length (ctx_scopes c) = Some s
    /\ scope_type s = EXPR_LIST
    /\ scope_label s = None
    /\ scope_parent s = ctx_scope c
    /\ ctx_scope c' = ctx_scope c.
Proof.
  intros H.
  pose proof (proj1 (check_expression_preserves ext _ hint c e c' H)) as Hs.
  simpl in H. unfold check_expr_list in H.
  apply bind_ok in H. destruct H as (p & c1 & E1 & H).
  apply bind_ok in H. destruct H as (u & c2 & E2 & H).
  destruct (push_kind_scope _ _ _ _ _ _ _ E1 E2) as (-> & _ & Hh & _).
  assert (S : steady c2 c').
  { apply (steadily_run _ _ _ _ H).
    pose proof (check_expression_steadily ext) as R.
    assert (L : forall l, steadily (check_list_items (check_expression ext) l)).
    { intros l. apply check_list_items_steadily.
      apply Forall_forall. intros x _. exact (R x). }
    stdy. }
  destruct S as (_ & _ & _ & _ & [_ G]).
  destruct (G (length (ctx_scopes c)) (mk_scope EXPR_LIST None (ctx_scope c) []))
    as (s & Hl & T & L & P & _).
  { rewrite Hh. rewrite lookup_app_r by lia. rewrite Nat.sub_diag.
    reflexivity. }
  apply bind_ok in H.
  destruct H as ([[exprs result] terminates] & c3 & E & H). minv H.
  destruct alist as [| a0 rest]; [discriminate E |].
  destruct (check_list_items_shape _ _ _ _ _ _ _ E ltac:(discriminate))
    as (init & l & -> & Hlen & -> & ->).
  exists init, l, s. split; [reflexivity |].
  repeat (split; [assumption |]). assumption.
Qed.

(** ** What a check leaves of the context *)

(** X8.  A successful [check_expression] leaves the namespace, the unit
    scope, the [deferring] flag and [current_fntype] of the context as it
    found them, and has bumped the counter of the static names once for each
    [static] binding of the tree, with the wrap-around of an [int]; where
    the counter does not pass [INT_MAX], it has grown by the number of these
    bindings. *)
Theorem check_expression_keeps_context
    (ext : externals) (a : ast_expression) (hint : option type)
    (c : context) (e : expression) (c' : context) :
  check_expression ext a hint c = Ok (e, c') ->
  ctx_ns c' = ctx_ns c
  /\ ctx_unit c' = ctx_unit c
  /\ ctx_deferring c' = ctx_deferring c
  /\ ctx_current_fntype c' = ctx_current_fntype c
  /\ ctx_id c' = bumped (statics a) (ctx_id c)
  /\ (INT_MIN <= ctx_id c ->
      ctx_id c + Z.of_nat (statics a) <= INT_MAX ->
      ctx_id c' = ctx_id c + Z.of_nat (statics a)).
Proof.
  intros H.
  destruct (check_expression_steadily ext a hint c e c' H)
    as (N & U & D & F & _).
  pose proof (check_expression_adds ext a hint c e c' H) as I.
  repeat (split; [assumption |]).
  intros L M. rewrite I. apply bumped_no_wrap; assumption.
Qed.

(** X9.  A successful [check_expression] keeps every scope that was there on
    entry, with its type, its label and its parent; the objects of such a
    scope are the ones it had, followed by those that were added. *)
Theorem check_expression_scopes_grow
    (ext : externals) (a : ast_expression) (hint : option type)
    (c : context) (e : expression) (c' : context) :
  check_expression ext a hint c = Ok (e, c') ->
  forall p s, ctx_scopes c !! p = Some s ->
    exists s' added,
      ctx_scopes c' !! p = Some s'
      /\ scope_type s' = scope_type s
      /\ scope_label s' = scope_label s
      /\ scope_parent s' = scope_parent s
      /\ scope_objects s' = scope_objects s ++ added.
Proof.
  intros H p s Hp.
  destruct (check_expression_steadily ext a hint c e c' H)
    as (_ & _ & _ & _ & [_ G]).
  destruct (G p s Hp) as (s' & Hp' & T & L & P & added & O).
  exists s', added. repeat split; assumption.
Qed.

(** ** The label of a loop *)

Lemma for_label_walk_chain h label :
  scopes_wf h ->
  forall p l, scope_chain h p l ->
  forall fuel,
    match p with Some i => (i < fuel)%nat | None => True end ->
    for_label_walk fuel h p label = Some (negb (existsb (carries label) l)).
Proof.
  intros W p l C.
  induction C as [| p s l Hp C IH]; intros fuel Hf.
  - destruct fuel; reflexivity.
  - destruct fuel as [| fuel]; [lia |]. simpl. rewrite Hp.
    assert (Hnext : match scope_parent s with
                    | Some i => (i < fuel)%nat
                    | None => True
                    end).
    { destruct (scope_parent s) as [q |] eqn:Hq; [| exact I].
      specialize (W p s q Hp Hq). lia. }
    unfold carries at 1; simpl.
    destruct (label_matches label (scope_label s)); simpl;
      [reflexivity | apply IH, Hnext].
Qed.

Lemma scope_chain_app h x p l :
  scope_chain h p l -> scope_chain (h ++ x) p l.
Proof.
  induction 1 as [| p s l Hp C IH]; [constructor |].
  econstructor; [apply lookup_app_l_Some, Hp | exact IH].
Qed.

Lemma scopes_wf_push c s :
  ctx_wf c -> scope_parent s = ctx_scope c ->
  scopes_wf (ctx_scopes c ++ [s]).
Proof.
  intros [W V] Hs p t q Ht Hq. apply lookup_app_Some in Ht.
  destruct Ht as [Ht | [Hge Ht]]; [exact (W p t q Ht Hq) |].
  destruct (p - length (ctx_scopes c))%nat eqn:Hd; simpl in Ht;
    [| discriminate].
  injection Ht as <-. rewrite Hs in Hq. specialize (V q Hq). lia.
Qed.

(** X10.  In a heap where parents are older than their children, a [for]
    with a label that some scope of the parent chain of the current scope
    carries is refused: the label of a loop is unique among its ancestors. *)
Theorem check_expr_for_label_unique
    (ext : externals) (loc : location) (label : string)
    (label_loc : location) (abindings : option ast_expression)
    (acond : ast_expression) (aafterthought : option ast_expression)
    (abody : ast_expression) (hint : option type)
    (c : context) (l : list (scope_ptr * scope)) :
  ctx_wf c ->
  scope_chain (ctx_scopes c) (ctx_scope c) l ->
  existsb (carries label) l = true ->
  check_expression ext
    (mk_ast_expression loc
       (A_for (Some label) label_loc abindings acond aafterthought abody))
    hint c
  = Abort "for loop label must be unique among its ancestors".
Proof.
  intros W C X. simpl check_expression. unfold check_expr_for.
  set (s := mk_scope EXPR_FOR (Some label) (ctx_scope c) []).
  set (c2 := set_scopes (ctx_scopes c ++ [s])
               (set_scope (Some (length (ctx_scopes c))) c)).
  assert (E1 : exists c1,
             scope_push c = Ok (length (ctx_scopes c), c1)
             /\ scope_set_kind (length (ctx_scopes c)) EXPR_FOR (Some label) c1
                = Ok (tt, c2)).
  { eexists. split; [reflexivity |]. unfold scope_set_kind. simpl.
    rewrite lookup_app_r by lia. rewrite Nat.sub_diag. simpl.
    unfold c2, set_scopes, set_scope. simpl. f_equal. f_equal. f_equal.
    replace (length (ctx_scopes c)) with (length (ctx_scopes c) + 0)%nat
      at 1 by lia.
    rewrite insert_app_r. reflexivity. }
  destruct E1 as (c1 & E1 & E2).
  unfold bind at 1. rewrite E1. unfold bind at 1. rewrite E2.
  assert (L : ctx_scopes c2 !! length (ctx_scopes c) = Some s).
  { unfold c2. simpl. rewrite lookup_app_r by lia. rewrite Nat.sub_diag.
    reflexivity. }
  assert (F : for_label_walk (length (ctx_scopes c2)) (ctx_scopes c2)
                (scope_parent s) label = Some false).
  { rewrite (for_label_walk_chain (ctx_scopes c2) label) with (l := l).
    - rewrite X. reflexivity.
    - apply scopes_wf_push; [exact W | reflexivity].
    - apply scope_chain_app, C.
    - simpl. destruct (ctx_scope c) as [q |] eqn:Q; [| exact I].
      rewrite length_app. simpl. pose proof (proj2 W q Q). lia. }
  unfold bind, get_ctx, deref. rewrite L, F. reflexivity.
Qed.

(** ** Refusal: a node is refused with its operands *)

Section Rejection.

Variable Inv : context -> Prop.

Lemma maintains_ret {A} (a : A) : maintains Inv (ret a).
Proof. intros c b c' I H. minv H. exact I. Qed.

Lemma maintains_bind {A B} (m : M A) (k : A -> M B) :
  maintains Inv m -> (forall a, maintains Inv (k a)) ->
  maintains Inv (bind m k).
Proof.
  intros Hm Hk c b c' I H. apply bind_ok in H.
  destruct H as (a & c1 & E1 & E2). eapply Hk; [| exact E2].
  eapply Hm; eassumption.
Qed.

Lemma maintains_crash {A} : maintains Inv (@crash A).
Proof. intros c a c' _ H. discriminate. Qed.

Lemma maintains_expect b msg : maintains Inv (expect b msg).
Proof. intros c a c' I H. minv H. exact I. Qed.

Lemma maintains_c_assert b : maintains Inv (c_assert b).
Proof. intros c a c' I H. minv H. exact I. Qed.

Lemma maintains_deref {A} (o : option A) : maintains Inv (deref o).
Proof. intros c a c' I H. minv H. exact I. Qed.

Lemma maintains_get_ctx : maintains Inv get_ctx.
Proof. intros c a c' I H. minv H. exact I. Qed.

Lemma maintains_modify_ctx f :
  (forall c, Inv c -> Inv (f c)) -> maintains Inv (modify_ctx f).
Proof. intros Hf c a c' I H. minv H. apply Hf, I. Qed.

Lemma maintains_mapM {A B} (f : A -> M B) l :
  (forall a, maintains Inv (f a)) -> maintains Inv (mapM f l).
Proof.
  intros Hf. induction l as [| a l IH]; simpl.
  - apply maintains_ret.
  - apply maintains_bind; [apply Hf |]. intros b.
    apply maintains_bind; [exact IH |]. intros bs. apply maintains_ret.
Qed.

Lemma rejects_bind_l {A B} (m : M A) (k : A -> M B) :
  rejects Inv m -> rejects Inv (bind m k).
Proof.
  intros Hm c r I H. destruct r as [b c']. apply bind_ok in H.
  destruct H as (a & c1 & E1 & _). exact (Hm c _ I E1).
Qed.

Lemma rejects_bind_r {A B} (m : M A) (k : A -> M B) :
  maintains Inv m -> (forall a, rejects Inv (k a)) -> rejects Inv (bind m k).
Proof.
  intros Hm Hk c r I H. destruct r as [b c']. apply bind_ok in H.
  destruct H as (a & c1 & E1 & E2).
  exact (Hk a c1 _ (Hm _ _ _ I E1) E2).
Qed.

Lemma rejects_bind_deref {A B} (a : A) (k : A -> M B) :
  rejects Inv (k a) -> rejects Inv (bind (deref (Some a)) k).
Proof. intros Hk c r I H. exact (Hk c r I H). Qed.

Lemma rejects_crash {A} : rejects Inv (@crash A).
Proof. intros c r _ H. discriminate. Qed.

Lemma rejects_mapM {A B} (f : A -> M B) l a :
  (forall x, maintains Inv (f x)) -> In a l -> rejects Inv (f a) ->
  rejects Inv (mapM f l).
Proof.
  intros Hf. induction l as [| x l IH]; intros Hin Ha; [contradiction |].
  simpl. destruct Hin as [-> | Hin].
  - apply rejects_bind_l, Ha.
  - apply rejects_bind_r; [apply Hf |]. intros b.
    apply rejects_bind_l, IH; assumption.
Qed.

End Rejection.

Ltac mnt_step :=
  first
    [ solve [eauto]
    | apply maintains_ret | apply maintains_crash | apply maintains_expect
    | apply maintains_c_assert | apply maintains_deref
    | apply maintains_get_ctx
    | apply maintains_modify_ctx; solve [eauto]
    | apply maintains_bind; [| intros ?]
    | match goal with
      | |- maintains _ (match ?x with _ => _ end) => destruct x
      end ].

Ltac mnt := repeat mnt_step.

Ltac rej :=
  first
    [ solve [eauto]
    | apply rejects_crash
    | match goal with
      | |- rejects _ (bind (deref (Some _)) _) =>
          apply rejects_bind_deref; rej
      end
    | apply rejects_bind_l; solve [rej]
    | apply rejects_bind_r; [solve [mnt] | intros ?; rej]
    | match goal with
      | |- rejects _ (match ?x with _ => _ end) => destruct x; rej
      end ].

Section RejectionOfElaborations.

Context (ext : externals).
Variable rec : ast_expression -> option type -> M expression.
Variable Inv : context -> Prop.

Hypothesis Inv_insert :
  forall p k i n t v, maintains Inv (scope_insert p k i n t v).
Hypothesis Inv_set_id : forall n c, Inv c -> Inv (set_id n c).
Hypothesis Inv_set_deferring : forall c, Inv c -> Inv (set_deferring true c).
Hypothesis Inv_list :
  forall c p c1 u c2,
    Inv c -> scope_push c = Ok (p, c1) ->
    scope_set_kind p EXPR_LIST None c1 = Ok (u, c2) -> Inv c2.
Hypothesis rec_maintains : forall a hint, maintains Inv (rec a hint).

(** The check of [b] never returns from a context that satisfies
    [Inv]. *)
Local Abbreviation doomed b := (forall hint, rejects Inv (rec b hint)).

Lemma is_assignable_maintains to from :
  maintains Inv (is_assignable ext to from).
Proof. unfold is_assignable. mnt. Qed.

Hint Resolve is_assignable_maintains : core.

Lemma check_optional_maintains a hint :
  maintains Inv (check_optional rec a hint).
Proof. unfold check_optional. mnt. Qed.

Lemma check_slice_operand_maintains a :
  maintains Inv (check_slice_operand ext rec a).
Proof. unfold check_slice_operand. mnt. Qed.

Lemma check_one_binding_maintains b :
  maintains Inv (check_one_binding ext rec b).
Proof. unfold check_one_binding. mnt. Qed.

Lemma check_case_option_maintains t a :
  maintains Inv (check_case_option ext rec t a).
Proof. unfold check_case_option. mnt. Qed.

Lemma check_struct_value_maintains f :
  maintains Inv (check_struct_value ext rec f).
Proof. unfold check_struct_value. mnt. Qed.

Hint Resolve check_optional_maintains check_slice_operand_maintains
  check_one_binding_maintains check_case_option_maintains
  check_struct_value_maintains : core.

Lemma check_expr_access_index_rejects a i b :
  In b [a; i] -> doomed b ->
  rejects Inv (check_expr_access_index ext rec a i).
Proof.
  unfold check_expr_access_index.
  intros [<- | [<- | []]] Hb; rej.
Qed.

Lemma check_expr_access_field_rejects a f b :
  In b [a] -> doomed b -> rejects Inv (check_expr_access_field ext rec a f).
Proof.
  unfold check_expr_access_field. intros [<- | []] Hb; rej.
Qed.

Lemma check_expr_assert_rejects loc c m hint b :
  In b (option_list c ++ option_list m) -> doomed b ->
  rejects Inv (check_expr_assert ext rec loc c m hint).
Proof.
  unfold check_expr_assert. intros Hin Hb.
  destruct c as [c |], m as [m |]; simpl in Hin;
    repeat match goal with
      | H : _ \/ _ |- _ => destruct H
      | H : False |- _ => destruct H
      end; subst; rej.
Qed.

Lemma check_expr_assign_rejects op o v ind hint b :
  In b [o; v] -> doomed b ->
  rejects Inv (check_expr_assign ext rec op o v ind hint).
Proof.
  unfold check_expr_assign. intros [<- | [<- | []]] Hb; rej.
Qed.

Lemma check_expr_binarithm_rejects op l r hint b :
  In b [l; r] -> doomed b ->
  rejects Inv (check_expr_binarithm ext rec op l r hint).
Proof.
  unfold check_expr_binarithm. intros [<- | [<- | []]] Hb; rej.
Qed.

Lemma check_one_binding_rejects ab :
  doomed (binding_initializer ab) ->
  rejects Inv (check_one_binding ext rec ab).
Proof. unfold check_one_binding. intros Hb. rej. Qed.

Lemma check_expr_binding_rejects bs hint b :
  In b (map binding_initializer bs) -> doomed b ->
  rejects Inv (check_expr_binding ext rec bs hint).
Proof.
  intros Hin Hb. unfold check_expr_binding.
  apply in_map_iff in Hin. destruct Hin as (ab & <- & Hin).
  destruct bs as [| b0 bs]; [contradiction |].
  apply rejects_bind_l.
  eapply rejects_mapM;
    [apply check_one_binding_maintains | exact Hin |].
  apply check_one_binding_rejects, Hb.
Qed.

Lemma check_array_items_rejects {A} (value : A -> ast_expression)
    (expand : A -> bool) items b :
  In b (map value items) -> doomed b ->
  forall t, rejects Inv (check_array_items ext rec value expand items t).
Proof.
  intros Hin Hb.
  induction items as [| item rest IH]; intros t; [contradiction |].
  simpl in Hin |- *. destruct Hin as [<- | Hin]; [rej |].
  specialize (IH Hin). rej.
Qed.

Lemma check_expr_array_rejects {A} (value : A -> ast_expression)
    (expand : A -> bool) items hint b :
  In b (map value items) -> doomed b ->
  rejects Inv (check_expr_array ext rec value expand items hint).
Proof.
  intros Hin Hb. unfold check_expr_array.
  pose proof (check_array_items_rejects value expand items b Hin Hb). rej.
Qed.

Lemma lower_vaargs_rejects aargs t b :
  In b (map call_arg_value aargs) -> doomed b ->
  rejects Inv (lower_vaargs ext rec aargs t).
Proof.
  intros Hin Hb. unfold lower_vaargs.
  pose proof (fun h => check_expr_array_rejects call_arg_value
                         (fun _ => false) aargs h b Hin Hb).
  rej.
Qed.

Lemma check_call_args_rejects v aargs b :
  In b (map call_arg_value aargs) -> doomed b ->
  forall params, rejects Inv (check_call_args ext rec v params aargs).
Proof.
  intros Hin Hb.
  induction aargs as [| aarg arest IH]; intros params; [contradiction |].
  pose proof (fun t => lower_vaargs_rejects (aarg :: arest) t b Hin Hb)
    as Hv.
  simpl in Hin |- *.
  destruct Hin as [<- | Hin].
  - destruct params as [| param prest]; [| rej].
    apply rejects_bind_l. intros c r _ H. discriminate.
  - specialize (IH Hin).
    destruct params as [| param prest]; [| rej].
    apply rejects_bind_l. intros c r _ H. discriminate.
Qed.

Lemma check_expr_call_rejects f aargs hint b :
  In b (f :: map call_arg_value aargs) -> doomed b ->
  rejects Inv (check_expr_call ext rec f aargs hint).
Proof.
  intros Hin Hb. unfold check_expr_call. destruct Hin as [<- | Hin].
  - rej.
  - pose proof (check_call_args_rejects) as Ha.
    specialize (fun v => Ha v aargs b Hin Hb). rej.
Qed.

Lemma check_expr_cast_rejects kind t v hint b :
  In b [v] -> doomed b -> rejects Inv (check_expr_cast ext rec kind t v hint).
Proof. unfold check_expr_cast. intros [<- | []] Hb; rej. Qed.

Lemma check_expr_defer_rejects d hint b :
  In b [d] -> doomed b -> rejects Inv (check_expr_defer ext rec d hint).
Proof. unfold check_expr_defer. intros [<- | []] Hb; rej. Qed.

Lemma check_expr_if_rejects c t f hint b :
  In b ([c; t] ++ option_list f) -> doomed b ->
  rejects Inv (check_expr_if ext rec c t f hint).
Proof.
  unfold check_expr_if. intros Hin Hb.
  destruct f as [f |]; simpl in Hin;
    repeat match goal with
      | H : _ \/ _ |- _ => destruct H
      | H : False |- _ => destruct H
      end; subst; rej.
Qed.

Lemma check_list_items_rejects alist b :
  In b alist -> doomed b -> rejects Inv (check_list_items rec alist).
Proof.
  intros Hin Hb.
  induction alist as [| a rest IH]; [contradiction |].
  simpl. destruct Hin as [<- | Hin]; [rej |].
  specialize (IH Hin). apply rejects_bind_r; [mnt |]. intros lexpr.
  destruct rest as [| a' rest]; [contradiction |]. rej.
Qed.

Lemma rejects_push_kind (Inv' : context -> Prop) {B} t l
    (k : scope_ptr -> M B) :
  (forall c p c1 u c2,
     Inv c -> scope_push c = Ok (p, c1) ->
     scope_set_kind p t l c1 = Ok (u, c2) -> Inv' c2) ->
  (forall p, rejects Inv' (k p)) ->
  rejects Inv (bind scope_push
                 (fun p => bind (scope_set_kind p t l) (fun _ => k p))).
Proof.
  intros Hi Hk c r I H. destruct r as [b c'].
  apply bind_ok in H. destruct H as (p & c1 & E1 & H).
  apply bind_ok in H. destruct H as (u & c2 & E2 & H).
  exact (Hk p c2 _ (Hi _ _ _ _ _ I E1 E2) H).
Qed.

Lemma check_expr_list_rejects alist hint b :
  In b alist -> doomed b -> rejects Inv (check_expr_list rec alist hint).
Proof.
  intros Hin Hb. unfold check_expr_list.
  pose proof (check_list_items_rejects alist b Hin Hb).
  apply (rejects_push_kind Inv); [exact Inv_list |]. intros p.
  destruct alist; [contradiction |]. rej.
Qed.

Lemma check_expr_measure_len_rejects v b :
  In b [v] -> doomed b -> rejects Inv (check_expr_measure_len ext rec v).
Proof. unfold check_expr_measure_len. intros [<- | []] Hb; rej. Qed.

Lemma check_expr_return_rejects v hint b :
  In b (option_list v) -> doomed b ->
  rejects Inv (check_expr_return ext rec v hint).
Proof.
  unfold check_expr_return. intros Hin Hb.
  destruct v as [v |]; simpl in Hin; [| contradiction].
  destruct Hin as [<- | []]. rej.
Qed.

Lemma check_slice_operand_rejects a b :
  In b (option_list a) -> doomed b ->
  rejects Inv (check_slice_operand ext rec a).
Proof.
  unfold check_slice_operand. intros Hin Hb.
  destruct a as [a |]; simpl in Hin; [| contradiction].
  destruct Hin as [<- | []]. rej.
Qed.

Lemma check_expr_slice_rejects o s e hint b :
  In b (o :: option_list s ++ option_list e) -> doomed b ->
  rejects Inv (check_expr_slice ext rec o s e hint).
Proof.
  intros Hin Hb. unfold check_expr_slice.
  destruct Hin as [<- | Hin]; [rej |].
  apply in_app_or in Hin. destruct Hin as [Hin | Hin].
  - pose proof (check_slice_operand_rejects s b Hin Hb). rej.
  - pose proof (check_slice_operand_rejects e b Hin Hb). rej.
Qed.

Lemma check_struct_value_rejects f :
  doomed (field_value_initializer f) ->
  rejects Inv (check_struct_value ext rec f).
Proof. unfold check_struct_value. intros Hb. rej. Qed.

Lemma check_expr_struct_rejects autofill name fs hint b :
  In b (map field_value_initializer fs) -> doomed b ->
  rejects Inv (check_expr_struct ext rec autofill name fs hint).
Proof.
  intros Hin Hb. unfold check_expr_struct.
  apply in_map_iff in Hin. destruct Hin as (f & <- & Hin).
  assert (R : rejects Inv (mapM (check_struct_value ext rec) fs)).
  { eapply rejects_mapM;
      [apply check_struct_value_maintains | exact Hin |].
    apply check_struct_value_rejects, Hb. }
  destruct fs as [| f0 fs]; [contradiction |]. rej.
Qed.

Lemma check_case_option_rejects t a :
  doomed a -> rejects Inv (check_case_option ext rec t a).
Proof. unfold check_case_option. intros Hb. rej. Qed.

Lemma check_switch_cases_rejects t acases b :
  In b (flat_map (fun c => case_options c ++ [case_value c]) acases) ->
  doomed b ->
  forall r, rejects Inv (check_switch_cases ext rec t acases r).
Proof.
  intros Hin Hb.
  induction acases as [| acase rest IH]; intros r; [contradiction |].
  simpl in Hin |- *. apply in_app_or in Hin. destruct Hin as [Hin | Hin].
  - apply in_app_or in Hin. destruct Hin as [Hin | [<- | []]].
    + apply rejects_bind_l.
      eapply rejects_mapM;
        [apply check_case_option_maintains | exact Hin |].
      apply check_case_option_rejects, Hb.
    + apply rejects_bind_r;
        [apply maintains_mapM, check_case_option_maintains |].
      intros options. rej.
  - specialize (IH Hin).
    apply rejects_bind_r;
      [apply maintains_mapM, check_case_option_maintains |].
    intros options. rej.
Qed.

Lemma check_expr_switch_rejects v acases hint b :
  In b (v :: flat_map (fun c => case_options c ++ [case_value c]) acases) ->
  doomed b ->
  rejects Inv (check_expr_switch ext rec v acases hint).
Proof.
  intros Hin Hb. unfold check_expr_switch. destruct Hin as [<- | Hin].
  - rej.
  - pose proof (fun t => check_switch_cases_rejects t acases b Hin Hb). rej.
Qed.

Lemma check_expr_unarithm_rejects op o hint b :
  In b [o] -> doomed b -> rejects Inv (check_expr_unarithm ext rec op o hint).
Proof. unfold check_expr_unarithm. intros [<- | []] Hb; rej. Qed.

End RejectionOfElaborations.

(** ** No defer inside a defer *)

Lemma check_expr_for_rejects ext rec (Inv Inv2 : context -> Prop)
    label b c a body hint x :
  (forall c p c1 u c2,
     Inv c -> scope_push c = Ok (p, c1) ->
     scope_set_kind p EXPR_FOR label c1 = Ok (u, c2) -> Inv2 c2) ->
  (forall a hint, maintains Inv2 (rec a hint)) ->
  In x (option_list b ++ [c] ++ option_list a ++ [body]) ->
  (forall hint, rejects Inv2 (rec x hint)) ->
  rejects Inv (check_expr_for ext rec label b c a body hint).
Proof.
  intros Hpush Hrec Hin Hx. unfold check_expr_for.
  apply (rejects_push_kind Inv Inv2); [exact Hpush |]. intros p.
  pose proof (check_optional_maintains rec Inv2 Hrec) as Ho.
  assert (Hl : maintains Inv2
                 match label with
                 | Some label =>
                     c0 <- get_ctx ;;
                     s <- deref (ctx_scopes c0 !! p) ;;
                     unique <- deref (for_label_walk (length (ctx_scopes c0))
                                        (ctx_scopes c0) (scope_parent s) label) ;;
                     expect unique
                       "for loop label must be unique among its ancestors"
                 | None => ret tt
                 end) by mnt.
  apply rejects_bind_r; [exact Hl |]. intros _.
  destruct b as [b |], a as [a |]; simpl in Hin;
    repeat match goal with
      | H : _ \/ _ |- _ => destruct H
      | H : False |- _ => destruct H
      end; subst; simpl; rej.
Qed.

Section RejectionOfNodes.

Context (ext : externals).
Variable Inv : context -> Prop.

Hypothesis Inv_insert :
  forall p k i n t v, maintains Inv (scope_insert p k i n t v).
Hypothesis Inv_set_id : forall n c, Inv c -> Inv (set_id n c).
Hypothesis Inv_set_deferring : forall c, Inv c -> Inv (set_deferring true c).
Hypothesis Inv_list :
  forall c p c1 u c2,
    Inv c -> scope_push c = Ok (p, c1) ->
    scope_set_kind p EXPR_LIST None c1 = Ok (u, c2) -> Inv c2.
Hypothesis rec_maintains :
  forall a hint, maintains Inv (check_expression ext a hint).

(** A node other than a [for], one of whose sub-expressions is never
    accepted, is never accepted. *)
Lemma check_expression_rejects_child a b :
  ~ is_for a -> In b (ast_children a) ->
  (forall hint, rejects Inv (check_expression ext b hint)) ->
  forall hint, rejects Inv (check_expression ext a hint).
Proof.
  intros Hf Hin Hb hint. destruct a as [loc u].
  unfold ast_children in Hin. unfold is_for in Hf.
  destruct u; cbn [ast_union] in Hin, Hf; simpl check_expression;
    try contradiction.
  - eapply check_expr_access_index_rejects; first [exact Hin | exact Hb | eassumption].
  - eapply check_expr_access_field_rejects; first [exact Hin | exact Hb | eassumption].
  - eapply check_expr_assert_rejects; first [exact Hin | exact Hb | eassumption].
  - eapply check_expr_assign_rejects; first [exact Hin | exact Hb | eassumption].
  - eapply check_expr_binarithm_rejects; first [exact Hin | exact Hb | eassumption].
  - eapply check_expr_binding_rejects; first [exact Hin | exact Hb | eassumption].
  - eapply check_expr_call_rejects; first [exact Hin | exact Hb | eassumption].
  - eapply check_expr_cast_rejects; first [exact Hin | exact Hb | eassumption].
  - eapply check_expr_array_rejects; first [exact Hin | exact Hb | eassumption].
  - eapply check_expr_defer_rejects; first [exact Hin | exact Hb | eassumption].
  - eapply check_expr_if_rejects; first [exact Hin | exact Hb | eassumption].
  - eapply check_expr_list_rejects; first [exact Hin | exact Hb | eassumption].
  - eapply check_expr_measure_len_rejects; first [exact Hin | exact Hb | eassumption].
  - eapply check_expr_return_rejects; first [exact Hin | exact Hb | eassumption].
  - eapply check_expr_slice_rejects; first [exact Hin | exact Hb | eassumption].
  - eapply check_expr_struct_rejects; first [exact Hin | exact Hb | eassumption].
  - eapply check_expr_switch_rejects; first [exact Hin | exact Hb | eassumption].
  - eapply check_expr_unarithm_rejects; first [exact Hin | exact Hb | eassumption].
Qed.

End RejectionOfNodes.

Lemma is_for_dec a : {is_for a} + {~ is_for a}.
Proof.
  destruct a as [loc []]; unfold is_for; simpl;
    first [left; exact I | right; intros []].
Qed.

Lemma deferring_steady c c' : steady c c' -> deferring c -> deferring c'.
Proof. unfold deferring. intros (_ & _ & D & _) H. congruence. Qed.

Lemma deferring_insert p k i n t v :
  maintains deferring (scope_insert p k i n t v).
Proof.
  intros c a c' I H. eapply deferring_steady; [| exact I].
  eapply steadily_scope_insert, H.
Qed.

Lemma deferring_push_kind t l c p c1 u c2 :
  deferring c -> scope_push c = Ok (p, c1) ->
  scope_set_kind p t l c1 = Ok (u, c2) -> deferring c2.
Proof.
  intros I E1 E2. eapply deferring_steady; [| exact I].
  eapply push_kind_scope; eassumption.
Qed.

Lemma deferring_check_expression ext a hint :
  maintains deferring (check_expression ext a hint).
Proof.
  intros c e c' I H. eapply deferring_steady; [| exact I].
  eapply check_expression_steadily, H.
Qed.

Lemma within_defer_rejected ext a :
  within is_defer a ->
  forall hint, rejects deferring (check_expression ext a hint).
Proof.
  induction 1 as [a Ha | a b Hin Hb IH]; intros hint.
  - destruct a as [loc u]. destruct u; try contradiction.
    intros c r I H. destruct r as [e c']. simpl in H.
    unfold check_expr_defer in H. minv H.
    unfold deferring in I.
    match goal with
    | E : negb _ = true |- _ => rewrite I in E; discriminate E
    end.
  - destruct (is_for_dec a) as [F | F].
    + destruct a as [loc u]. destruct u; try contradiction.
      simpl check_expression. unfold ast_children in Hin.
      cbn [ast_union] in Hin.
      eapply (check_expr_for_rejects ext _ deferring deferring).
      * intros. eapply deferring_push_kind; eassumption.
      * apply deferring_check_expression.
      * exact Hin.
      * exact IH.
    + eapply check_expression_rejects_child; try eassumption.
      * apply deferring_insert.
      * intros n c I. exact I.
      * intros c I. reflexivity.
      * intros. eapply deferring_push_kind; eassumption.
      * apply deferring_check_expression.
Qed.

Lemma nested_defer_rejected ext a :
  within nested_defer a ->
  forall hint, rejects any_context (check_expression ext a hint).
Proof.
  induction 1 as [a Ha | a b Hin Hb IH]; intros hint.
  - destruct a as [loc u]. destruct u; try contradiction.
    unfold nested_defer in Ha. simpl in Ha.
    intros c r _ H. destruct r as [e c']. simpl in H.
    unfold check_expr_defer in H. minv H.
    match goal with
    | E : check_expression _ _ _ ?c1 = Ok ?r |- _ =>
        exact (within_defer_rejected ext deferred Ha None c1 r eq_refl E)
    end.
  - destruct (is_for_dec a) as [F | F].
    + destruct a as [loc u]. destruct u; try contradiction.
      simpl check_expression. unfold ast_children in Hin.
      cbn [ast_union] in Hin.
      eapply (check_expr_for_rejects ext _ any_context any_context).
      * intros. exact I.
      * intros x h c r c' _ _. exact I.
      * exact Hin.
      * exact IH.
    + eapply check_expression_rejects_child; try eassumption.
      * intros p k i n t v c r c' _ _. exact I.
      * intros n c _. exact I.
      * intros c _. exact I.
      * intros. exact I.
      * intros x h c r c' _ _. exact I.
Qed.

(** X11.  A tree that checks has no [defer] inside the operand of a [defer],
    however deep and under whatever node; and when the context is deferring
    already, it has no [defer] at all. *)
Theorem check_expression_no_nested_defer
    (ext : externals) (a : ast_expression) (hint : option type)
    (c : context) (e : expression) (c' : context) :
  check_expression ext a hint c = Ok (e, c') ->
  ~ within nested_defer a
  /\ (ctx_deferring c = true -> ~ within is_defer a).
Proof.
  intros H. split.
  - intros W. exact (nested_defer_rejected ext a W hint c (e, c') I H).
  - intros D W. exact (within_defer_rejected ext a W hint c (e, c') D H).
Qed.

(** ** Controls and the loops around them *)

Lemma scope_chain_grows h h' p l :
  heap_grows h h' -> scope_chain h p l ->
  exists l', scope_chain h' p l' /\ for_labels l' = for_labels l.
Proof.
  intros [_ G]. induction 1 as [| p s l Hp C (l' & C' & F)].
  - exists []. split; [constructor | reflexivity].
  - destruct (G p s Hp) as (s' & Hp' & T & L & P & _).
    exists ((p, s') :: l'). split.
    + econstructor; [exact Hp' |]. rewrite P. exact C'.
    + unfold for_labels, is_for_scope in *. simpl. rewrite T.
      destruct (expr_type_eqb (scope_type s) EXPR_FOR); simpl; congruence.
Qed.

Lemma in_loops_steady ls c c' :
  steady c c' -> ctx_scope c' = ctx_scope c -> ctx_wf c' ->
  in_loops ls c -> in_loops ls c'.
Proof.
  intros (_ & _ & _ & _ & G) S W [_ (l & C & F)]. split; [exact W |].
  destruct (scope_chain_grows _ _ _ _ G C) as (l' & C' & F').
  exists l'. rewrite S. split; [exact C' | congruence].
Qed.

Lemma in_loops_frame ls c c' :
  steady c c' -> frame c c' -> in_loops ls c -> in_loops ls c'.
Proof.
  intros S (E & _ & _ & W) I.
  eapply in_loops_steady; [exact S | exact E | apply W, I | exact I].
Qed.

Lemma in_loops_insert ls p k i n t v :
  maintains (in_loops ls) (scope_insert p k i n t v).
Proof.
  intros c a c' I H. eapply in_loops_frame; [| | exact I].
  - eapply steadily_scope_insert, H.
  - eapply preserves_scope_insert, H.
Qed.

Lemma in_loops_check_expression ext ls a hint :
  maintains (in_loops ls) (check_expression ext a hint).
Proof.
  intros c e c' I H. eapply in_loops_frame; [| | exact I].
  - eapply check_expression_steadily, H.
  - eapply check_expression_preserves, H.
Qed.

Lemma in_loops_same ls c c' :
  ctx_scopes c' = ctx_scopes c -> ctx_scope c' = ctx_scope c ->
  in_loops ls c -> in_loops ls c'.
Proof.
  unfold in_loops, ctx_wf. intros -> ->. auto.
Qed.

Lemma in_loops_push_kind ls t label c p c1 u c2 :
  in_loops ls c -> scope_push c = Ok (p, c1) ->
  scope_set_kind p t label c1 = Ok (u, c2) ->
  in_loops (if expr_type_eqb t EXPR_FOR then label :: ls else ls) c2.
Proof.
  intros [W (l & C & F)] E1 E2.
  destruct (push_kind_scope _ _ _ _ _ _ _ E1 E2) as (-> & Hs & Hh & _).
  set (s := mk_scope t label (ctx_scope c) []) in *.
  split.
  - split.
    + rewrite Hh. apply scopes_wf_push; [exact W | reflexivity].
    + intros q Hq. rewrite Hs in Hq. injection Hq as <-.
      rewrite Hh, length_app. simpl. lia.
  - exists ((length (ctx_scopes c), s) :: l). split.
    + rewrite Hs, Hh. econstructor.
      * rewrite lookup_app_r by lia. rewrite Nat.sub_diag. reflexivity.
      * apply scope_chain_app, C.
    + unfold for_labels, is_for_scope in *. simpl.
      destruct (expr_type_eqb t EXPR_FOR); simpl; congruence.
Qed.

Lemma find_eligible_unlabelled l :
  for_labels l = [] -> find (eligible None) l = None.
Proof.
  unfold for_labels, is_for_scope. induction l as [| ps l IH]; [reflexivity |].
  simpl. unfold eligible at 1.
  destruct (expr_type_eqb (scope_type (snd ps)) EXPR_FOR); simpl;
    [discriminate | exact IH].
Qed.

Lemma find_eligible_labelled label l :
  ~ In (Some label) (for_labels l) -> find (eligible (Some label)) l = None.
Proof.
  unfold for_labels, is_for_scope. induction l as [| ps l IH]; [reflexivity |].
  simpl. unfold eligible at 1.
  destruct (expr_type_eqb (scope_type (snd ps)) EXPR_FOR); simpl;
    [| exact IH].
  intros N. destruct (scope_label (snd ps)) as [sl |] eqn:L.
  - destruct (String.eqb label sl) eqn:Q.
    + apply String.eqb_eq in Q. subst sl. exfalso. apply N. left. reflexivity.
    + apply IH. intros H. apply N. right. exact H.
  - apply IH. intros H. apply N. right. exact H.
Qed.

Lemma check_expr_control_rejected ls kind label hint :
  match label with
  | None => ls = []
  | Some lbl => ~ In (Some lbl) ls
  end ->
  rejects (in_loops ls) (check_expr_control kind label hint).
Proof.
  intros Hl c r [W (l & C & F)] H. destruct r as [e c'].
  unfold check_expr_control in H.
  apply bind_ok in H. destruct H as (c0 & c1 & E & H). minv E.
  rewrite (control_walk_chain (ctx_scopes c) label (proj1 W) _ l C) in H.
  - assert (N : find (eligible label) l = None).
    { destruct label as [lbl |].
      - apply find_eligible_labelled. exact Hl.
      - apply find_eligible_unlabelled. exact Hl. }
    rewrite N in H. minv H.
  - destruct (ctx_scope c) as [q |] eqn:Q; [| exact I].
    exact (proj2 W q Q).
Qed.

Lemma stray_rejected ext ls a :
  stray ls a ->
  forall hint, rejects (in_loops ls) (check_expression ext a hint).
Proof.
  induction 1 as [loc kind | ls loc kind label N | ls a b F Hin Hb IH
                 | ls loc label label_loc bs cond af body b Hin Hb IH];
    intros hint.
  - simpl. apply check_expr_control_rejected. reflexivity.
  - simpl. apply check_expr_control_rejected. exact N.
  - eapply check_expression_rejects_child; try eassumption.
    + apply in_loops_insert.
    + intros n c. apply in_loops_same; reflexivity.
    + intros c. apply in_loops_same; reflexivity.
    + intros c p c1 u c2 I E1 E2.
      exact (in_loops_push_kind ls EXPR_LIST None _ _ _ _ _ I E1 E2).
    + apply in_loops_check_expression.
  - simpl check_expression.
    eapply (check_expr_for_rejects ext _ (in_loops ls)
              (in_loops (label :: ls))).
    + intros c p c1 u c2 I E1 E2.
      exact (in_loops_push_kind ls EXPR_FOR label _ _ _ _ _ I E1 E2).
    + apply in_loops_check_expression.
    + exact Hin.
    + exact IH.
Qed.

(** X12.  When the current scope lies in loops labelled [ls], a tree that
    checks has no stray [break] or [continue]: one without label is inside a
    loop, of the tree or of [ls], and one with a label names a loop around
    it. *)
Theorem check_expression_binds_controls
    (ext : externals) (a : ast_expression) (hint : option type)
    (c : context) (e : expression) (c' : context)
    (ls : list (option string)) :
  in_loops ls c ->
  check_expression ext a hint c = Ok (e, c') ->
  ~ stray ls a.
Proof.
  intros I H S. exact (stray_rejected ext ls a S hint c (e, c') I H).
Qed.

(** ** What the declarations leave of the context *)

Lemma settled_refl c : settled c c.
Proof. repeat split; try lia; apply heap_grows_refl. Qed.

Lemma settled_trans c1 c2 c3 :
  settled c1 c2 -> settled c2 c3 -> settled c1 c3.
Proof.
  intros (N1 & U1 & D1 & H1) (N2 & U2 & D2 & H2).
  repeat split; try congruence; try lia;
    apply (heap_grows_trans _ _ _ H1 H2).
Qed.

Lemma steady_settled c c' : steady c c' -> settled c c'.
Proof. intros (N & U & D & _ & H). repeat split; try assumption; apply H. Qed.

Lemma settles_steadily {A} (m : M A) : steadily m -> settles m.
Proof. intros H c a c' E. apply steady_settled, (H c a c' E). Qed.

Lemma settles_bind {A B} (m : M A) (k : A -> M B) :
  settles m -> (forall a, settles (k a)) -> settles (bind m k).
Proof.
  intros Hm Hk c b c' H. apply bind_ok in H. destruct H as (a & c1 & E1 & E2).
  eapply settled_trans; [eapply Hm | eapply Hk]; eassumption.
Qed.

Lemma settles_set_current_fntype t :
  settles (modify_ctx (set_current_fntype t)).
Proof.
  intros c a c' H. minv H. repeat split; simpl; try lia; apply heap_grows_refl.
Qed.

Ltac stl_step :=
  first
    [ solve [eauto]
    | apply settles_set_current_fntype
    | apply settles_steadily; solve [stdy]
    | apply settles_bind; [| intros ?]
    | match goal with
      | |- settles (match ?x with _ => _ end) => destruct x
      end ].

Ltac stl := repeat stl_step.

Section FramesOfDeclarations.

Context (ext : externals).

Lemma check_function_params_steadily v scope params :
  steadily (check_function_params ext v scope params).
Proof. induction params as [| p rest IH]; simpl; stdy. Qed.

Lemma check_function_settles adecl f : settles (check_function ext adecl f).
Proof.
  unfold check_function.
  pose proof (check_function_params_steadily) as Hp.
  pose proof (check_expression_steadily ext) as Hb.
  pose proof (is_assignable_steadily ext) as Ha.
  destruct (fn_body f) as [abody |]; [| stl].
  cbv zeta. stl.
Qed.

Lemma check_global_steadily adecl g : steadily (check_global ext adecl g).
Proof.
  unfold check_global.
  pose proof (check_expression_steadily ext) as Hb.
  pose proof (is_assignable_steadily ext) as Ha.
  stdy.
Qed.

Lemma check_type_steadily adecl t : steadily (check_type ext adecl t).
Proof. unfold check_type. stdy. Qed.

Lemma check_declarations_settles adecls :
  settles (check_declarations ext adecls).
Proof.
  induction adecls as [| adecl rest IH]; simpl; [stl |].
  pose proof (check_function_settles adecl).
  pose proof (check_global_steadily adecl).
  pose proof (check_type_steadily adecl).
  stl.
Qed.

Lemma scan_enum_values_steadily decl ident values :
  steadily (scan_enum_values ext decl ident values).
Proof.
  induction values as [| v rest IH]; simpl; [stdy |].
  unfold scan_enum_value. stdy.
Qed.

Lemma scan_declarations_steadily decls :
  steadily (scan_declarations ext decls).
Proof.
  pose proof (check_expression_steadily ext) as Hb.
  pose proof (is_assignable_steadily ext) as Ha.
  pose proof scan_enum_values_steadily as He.
  induction decls as [| decl rest IH]; simpl; [stdy |].
  unfold scan_const, scan_function, scan_global, scan_type. stdy.
Qed.

Lemma scan_enum_values_preserves decl ident values :
  preserves (scan_enum_values ext decl ident values).
Proof.
  induction values as [| v rest IH]; simpl; [pres |].
  unfold scan_enum_value. pres.
Qed.

Lemma scan_declarations_preserves decls :
  preserves (scan_declarations ext decls).
Proof.
  pose proof (check_expression_preserves ext) as Hb.
  pose proof (is_assignable_preserves ext) as Ha.
  pose proof scan_enum_values_preserves as He.
  induction decls as [| decl rest IH]; simpl; [pres |].
  unfold scan_const, scan_function, scan_global, scan_type. pres.
Qed.

End FramesOfDeclarations.

(** ** Controls in declarations *)

Lemma in_loops_grows ls c c' :
  heap_grows (ctx_scopes c) (ctx_scopes c') -> ctx_scope c' = ctx_scope c ->
  ctx_wf c' -> in_loops ls c -> in_loops ls c'.
Proof.
  intros G S W [_ (l & C & F)]. split; [exact W |].
  destruct (scope_chain_grows _ _ _ _ G C) as (l' & C' & F').
  exists l'. rewrite S. split; [exact C' | congruence].
Qed.

Lemma in_loops_settles ls {A} (m : M A) :
  settles m -> preserves m -> maintains (in_loops ls) m.
Proof.
  intros Hs Hp c a c' I H.
  destruct (Hs c a c' H) as (_ & _ & _ & G).
  destruct (Hp c a c' H) as (E & _ & _ & W).
  eapply in_loops_grows; [exact G | exact E | apply W, I | exact I].
Qed.

Lemma in_loops_push ls : maintains (in_loops ls) scope_push.
Proof.
  intros c p c' [W (l & C & F)] H. unfold scope_push in H.
  injection H as <- <-.
  set (s := mk_scope EXPR_ACCESS None (ctx_scope c) []).
  split.
  - split; simpl.
    + apply scopes_wf_push; [exact W | reflexivity].
    + intros q Hq. injection Hq as <-. rewrite length_app. simpl. lia.
  - exists ((length (ctx_scopes c), s) :: l). split.
    + simpl. econstructor.
      * rewrite lookup_app_r by lia. rewrite Nat.sub_diag. reflexivity.
      * apply scope_chain_app, C.
    + exact F.
Qed.

Lemma for_labels_tail ps l : for_labels (ps :: l) = [] -> for_labels l = [].
Proof.
  unfold for_labels. simpl. destruct (is_for_scope ps); [discriminate | auto].
Qed.

Lemma in_loops_nil_pop : maintains (in_loops []) scope_pop.
Proof.
  intros c p c' [[W V] (l & C & F)] H. unfold scope_pop in H.
  destruct (ctx_scope c) as [n |] eqn:Hn; [| discriminate].
  destruct (ctx_scopes c !! n) as [s |] eqn:Hs; [| discriminate].
  injection H as <- <-.
  inversion C as [| n' s' l' Hs' C' E1 E2]; subst.
  assert (s' = s) by congruence. subst s'.
  split.
  - split; simpl; [exact W |]. intros q Hq.
    specialize (W n s q Hs Hq). apply lookup_lt_Some in Hs. lia.
  - exists l'. split; [exact C' | eapply for_labels_tail, F].
Qed.

Section RejectionOfDeclarations.

Context (ext : externals).
Variable ls : list (option string).

Lemma in_loops_set_current_fntype t c :
  in_loops ls c -> in_loops ls (set_current_fntype t c).
Proof. apply in_loops_same; reflexivity. Qed.

Lemma check_function_params_in_loops v scope params :
  maintains (in_loops ls) (check_function_params ext v scope params).
Proof.
  apply in_loops_settles.
  - apply settles_steadily, check_function_params_steadily.
  - apply check_function_params_preserves.
Qed.

Lemma check_function_in_loops adecl f :
  maintains (in_loops ls) (check_function ext adecl f).
Proof.
  apply in_loops_settles;
    [apply check_function_settles | apply check_function_preserves].
Qed.

Lemma check_global_in_loops adecl g :
  maintains (in_loops ls) (check_global ext adecl g).
Proof.
  apply in_loops_settles;
    [apply settles_steadily, check_global_steadily
    | apply check_global_preserves].
Qed.

Lemma check_type_in_loops adecl t :
  maintains (in_loops ls) (check_type ext adecl t).
Proof.
  apply in_loops_settles;
    [apply settles_steadily, check_type_steadily
    | apply check_type_preserves].
Qed.

Lemma check_declarations_in_loops adecls :
  maintains (in_loops ls) (check_declarations ext adecls).
Proof.
  apply in_loops_settles;
    [apply check_declarations_settles | apply check_declarations_preserves].
Qed.

Lemma scan_declarations_in_loops decls :
  maintains (in_loops ls) (scan_declarations ext decls).
Proof.
  apply in_loops_settles;
    [apply settles_steadily, scan_declarations_steadily
    | apply scan_declarations_preserves].
Qed.

Lemma check_function_rejects adecl f body :
  fn_body f = Some body -> stray ls body ->
  rejects (in_loops ls) (check_function ext adecl f).
Proof.
  intros Hb S. unfold check_function. rewrite Hb. cbv zeta.
  pose proof (stray_rejected ext ls body S) as Hr.
  pose proof (in_loops_push ls) as Hp.
  pose proof in_loops_set_current_fntype as Hf.
  pose proof check_function_params_in_loops as Hq.
  rej.
Qed.

Lemma check_global_rejects adecl g x :
  gl_init g = Some x -> stray ls x ->
  rejects (in_loops ls) (check_global ext adecl g).
Proof.
  intros Hb S. unfold check_global. rewrite Hb.
  pose proof (stray_rejected ext ls x S) as Hr. rej.
Qed.

Lemma scan_const_rejects k x :
  gl_init k = Some x -> stray ls x ->
  rejects (in_loops ls) (scan_const ext k).
Proof.
  intros Hb S. unfold scan_const. rewrite Hb.
  pose proof (stray_rejected ext ls x S) as Hr. rej.
Qed.

Lemma check_declarations_rejects adecls d x :
  In d adecls -> In x (checked_exprs d) -> stray ls x ->
  rejects (in_loops ls) (check_declarations ext adecls).
Proof.
  intros Hd Hx S.
  induction adecls as [| adecl rest IH]; [contradiction |].
  simpl. destruct Hd as [-> | Hd].
  - apply rejects_bind_l. unfold checked_exprs in Hx.
    destruct (adecl_u d) as [f | g | t | k]; simpl in Hx; try contradiction.
    + destruct (fn_body f) as [b |] eqn:B; simpl in Hx; [| contradiction].
      destruct Hx as [<- | []]. eapply check_function_rejects; eassumption.
    + destruct (gl_init g) as [b |] eqn:B; simpl in Hx; [| contradiction].
      destruct Hx as [<- | []]. eapply check_global_rejects; eassumption.
  - specialize (IH Hd). apply rejects_bind_r.
    + destruct (adecl_u adecl);
        [apply check_function_in_loops | apply check_global_in_loops
        | apply check_type_in_loops | apply maintains_ret].
    + intros od. apply rejects_bind_l, IH.
Qed.

Lemma scan_declarations_rejects decls d x :
  In d decls -> In x (scanned_exprs d) -> stray ls x ->
  rejects (in_loops ls) (scan_declarations ext decls).
Proof.
  intros Hd Hx S.
  induction decls as [| decl rest IH]; [contradiction |].
  simpl. destruct Hd as [-> | Hd].
  - apply rejects_bind_l. unfold scanned_exprs in Hx.
    destruct (adecl_u d) as [f | g | t | k]; simpl in Hx; try contradiction.
    destruct (gl_init k) as [b |] eqn:B; simpl in Hx; [| contradiction].
    destruct Hx as [<- | []]. eapply scan_const_rejects; eassumption.
  - specialize (IH Hd). apply rejects_bind_r; [| intros u; exact IH].
    pose proof (scan_declarations_in_loops [decl]) as H1.
    intros c a c' I H. eapply (H1 c tt c' I). simpl.
    unfold bind. rewrite H. destruct a. reflexivity.
Qed.

End RejectionOfDeclarations.

(** ** The two passes *)

Lemma subunit_scope_grows h h' u p :
  heap_grows h h' -> subunit_scope h u p -> subunit_scope h' u p.
Proof.
  intros G (s & l & Hp & Hu & C & F).
  destruct (proj2 G p s Hp) as (s' & Hp' & _ & _ & P & _).
  destruct (scope_chain_grows _ _ _ _ G C) as (l' & C' & F').
  exists s', l'. repeat split; congruence.
Qed.

Lemma settled_heap c c' :
  settled c c' -> heap_grows (ctx_scopes c) (ctx_scopes c').
Proof. intros (_ & _ & _ & G). exact G. Qed.

Section Passes.

Context (ext : externals).

(** The first pass. *)
Lemma scan_subunits_spec sus :
  forall c scopes c',
    in_loops [] c ->
    scan_subunits ext sus c = Ok (scopes, c') ->
    in_loops [] c' /\ settled c c' /\ ctx_scope c' = ctx_scope c
    /\ Forall (subunit_scope (ctx_scopes c') (ctx_scope c)) scopes
    /\ length scopes = length sus
    /\ Forall (fun su => su_imports su = None) sus
    /\ (forall su d x, In su sus -> In d (su_decls su) ->
          In x (scanned_exprs d) -> ~ stray [] x).
Proof.
  induction sus as [| su rest IH]; intros c scopes c' I H; simpl in H.
  - minv H. split; [exact I |]. split; [apply settled_refl |].
    split; [reflexivity |]. split; [constructor |].
    split; [reflexivity |]. split; [constructor |].
    intros su d x [].
  - apply bind_ok in H. destruct H as (p & c1 & E1 & H).
    apply bind_ok in H. destruct H as (u1 & c1' & E & H). minv E.
    apply bind_ok in H. destruct H as (u2 & c2 & E2 & H).
    apply bind_ok in H. destruct H as (q & c3 & E3 & H).
    apply bind_ok in H. destruct H as (scopes' & c4 & E4 & H). minv H.
    pose proof (in_loops_push [] _ _ _ I E1) as I1.
    pose proof (steadily_scope_push _ _ _ E1) as S1.
    pose proof (scan_declarations_in_loops ext [] _ _ _ _ I1 E2) as I2.
    pose proof (scan_declarations_steadily ext _ _ _ _ E2) as S2.
    pose proof (proj1 (scan_declarations_preserves ext _ _ _ _ E2)) as F2.
    pose proof (in_loops_nil_pop _ _ _ I2 E3) as I3.
    pose proof (steadily_scope_pop _ _ _ E3) as S3.
    destruct (IH _ _ _ I3 E4) as (I4 & S4 & F4 & Sub & Len & Imp & Str).
    assert (Hp : ctx_scope c1 = Some (length (ctx_scopes c))
                 /\ ctx_scopes c1 !! length (ctx_scopes c)
                    = Some (mk_scope EXPR_ACCESS None (ctx_scope c) [])).
    { unfold scope_push in E1. injection E1 as _ <-. simpl.
      split; [reflexivity |]. rewrite lookup_app_r by lia.
      rewrite Nat.sub_diag. reflexivity. }
    destruct Hp as [Hp1 Hp2].
    destruct (proj2 (proj2 (proj2 (proj2 (proj2 S2)))) _ _ Hp2)
      as (s2 & Hs2 & _ & _ & P2 & _). simpl in P2.
    assert (Hq : q = length (ctx_scopes c)
                 /\ ctx_scope c3 = ctx_scope c
                 /\ ctx_scopes c3 = ctx_scopes c2).
    { unfold scope_pop in E3. rewrite F2, Hp1, Hs2 in E3.
      injection E3 as <- <-. simpl. auto. }
    destruct Hq as (-> & Hq2 & Hq3).
    split; [exact I4 |].
    split.
    { eapply settled_trans; [| exact S4].
      eapply settled_trans; [apply steady_settled, S1 |].
      eapply settled_trans; [apply steady_settled, S2 |].
      apply steady_settled, S3. }
    split; [congruence |].
    split.
    { constructor.
      - apply (subunit_scope_grows (ctx_scopes c3));
          [apply settled_heap, S4 |].
        rewrite Hq3. destruct I2 as [_ (l & C & Fl)].
        rewrite F2, Hp1 in C. exists s2, l. auto.
      - rewrite <- Hq2. exact Sub. }
    split; [simpl; rewrite Len; reflexivity |].
    split.
    { constructor; [| exact Imp].
      match goal with
      | N : negb _ = true |- _ =>
          apply negb_true_iff in N; destruct (su_imports su);
            [discriminate | reflexivity]
      end. }
    intros su' d x [<- | Hin] Hd Hx S.
    + exact (scan_declarations_rejects ext [] _ d x Hd Hx S _ _ I1 E2).
    + exact (Str su' d x Hin Hd Hx S).
Qed.

(** The second pass. *)
Lemma check_subunits_spec u sus :
  forall scopes c decls c',
    scopes_wf (ctx_scopes c) ->
    Forall (subunit_scope (ctx_scopes c) u) scopes ->
    check_subunits ext sus scopes c = Ok (decls, c') ->
    ctx_ns c' = ctx_ns c /\ ctx_unit c' = ctx_unit c
    /\ heap_grows (ctx_scopes c) (ctx_scopes c')
    /\ Forall2 declared_by
         (List.filter adecl_emits (flat_map su_decls sus)) decls
    /\ (sus <> [] ->
        exists p, ctx_scope c' = Some p
                  /\ subunit_scope (ctx_scopes c') u p)
    /\ (forall su d x, In su sus -> In d (su_decls su) ->
          In x (checked_exprs d) -> ~ stray [] x).
Proof.
  induction sus as [| su rest IH]; intros scopes c decls c' W Sub H;
    simpl in H.
  - minv H. split; [reflexivity |]. split; [reflexivity |].
    split; [apply heap_grows_refl |]. split; [constructor |].
    split; [congruence |]. intros su d x [].
  - destruct scopes as [| p srest]; [discriminate H |].
    apply bind_ok in H. destruct H as (u1 & c1 & E & H). minv E.
    apply bind_ok in H. destruct H as (ds & c2 & E2 & H).
    apply bind_ok in H. destruct H as (more & c3 & E3 & H). minv H.
    inversion Sub as [| p' srest' Hp Hrest]; subst.
    assert (I1 : in_loops [] (set_scope (Some p) c)).
    { destruct Hp as (s & l & Hs & _ & C & F). split.
      - split; [exact W |]. intros q Hq. injection Hq as <-.
        eapply lookup_lt_Some, Hs.
      - exists l. split; [exact C | exact F]. }
    pose proof (check_declarations_in_loops ext [] _ _ _ _ I1 E2) as I2.
    pose proof (check_declarations_settles ext _ _ _ _ E2)
      as (N2 & U2 & _ & G2).
    pose proof (proj1 (check_declarations_preserves ext _ _ _ _ E2)) as F2.
    simpl in N2, U2, G2, F2.
    assert (Sub2 : Forall (subunit_scope (ctx_scopes c2) u) (p :: srest)).
    { eapply Forall_impl; [exact Sub |]. intros q.
      apply subunit_scope_grows, G2. }
    inversion Sub2 as [| p' srest' Hp2 Hrest2]; subst.
    destruct (IH _ _ _ _ (proj1 (proj1 I2)) Hrest2 E3)
      as (N3 & U3 & G3 & D3 & Last & Str).
    split; [congruence |]. split; [congruence |].
    split; [eapply heap_grows_trans; eassumption |].
    split.
    { simpl. rewrite List.filter_app. apply Forall2_app; [| exact D3].
      eapply check_declarations_declared, E2. }
    split.
    { intros _. destruct rest as [| su' rest'].
      - simpl in E3. minv E3. exists p. split; [exact F2 | exact Hp2].
      - apply Last. discriminate. }
    intros su' d x [<- | Hin] Hd Hx S.
    + exact (check_declarations_rejects ext [] _ d x Hd Hx S _ _ I1 E2).
    + exact (Str su' d x Hin Hd Hx S).
Qed.

End Passes.

Lemma check_spec ext aunit ns c decls c' :
  ctx_scope c = None -> scopes_wf (ctx_scopes c) ->
  check ext aunit ns c = Ok (decls, c') ->
  ctx_ns c' = ns
  /\ ctx_unit c' = Some (length (ctx_scopes c))
  /\ Forall (fun su => su_imports su = None) (aunit_subunits aunit)
  /\ Forall2 declared_by
       (List.filter adecl_emits (flat_map su_decls (aunit_subunits aunit)))
       decls
  /\ (exists p, ctx_scope c' = Some p
                /\ subunit_scope (ctx_scopes c')
                     (Some (length (ctx_scopes c))) p)
  /\ (forall su d x, In su (aunit_subunits aunit) -> In d (su_decls su) ->
        In x (scanned_exprs d ++ checked_exprs d) -> ~ stray [] x).
Proof.
  intros Hs W H. unfold check in H.
  apply bind_ok in H. destruct H as (u1 & c1 & E & H). minv E.
  apply bind_ok in H. destruct H as (unit & c2 & E2 & H).
  apply bind_ok in H. destruct H as (u3 & c3 & E & H). minv E.
  assert (I0 : in_loops [] (set_ns ns c)).
  { split.
    - split; [exact W |]. simpl. intros p Hp. congruence.
    - exists []. simpl. rewrite Hs. split; [constructor | reflexivity]. }
  pose proof (in_loops_push [] _ _ _ I0 E2) as I2.
  unfold scope_push in E2. simpl in E2. injection E2 as <- <-.
  destruct (aunit_subunits aunit) as [| su sus] eqn:Hsus; [discriminate H |].
  rewrite <- Hsus in *.
  apply bind_ok in H. destruct H as (scopes & c4 & E4 & H).
  match type of E4 with
  | scan_subunits _ _ ?c3 = _ =>
      assert (I3 : in_loops [] c3)
        by (revert I2; apply in_loops_same; reflexivity)
  end.
  destruct (scan_subunits_spec ext _ _ _ _ I3 E4)
    as (I4 & (N4 & U4 & _) & F4 & Sub & _ & Imp & Str1).
  simpl in N4, U4, F4, Sub.
  destruct (check_subunits_spec ext _ _ _ _ _ _ (proj1 (proj1 I4)) Sub H)
    as (N5 & U5 & _ & D5 & Last & Str2).
  split; [congruence |]. split; [congruence |]. split; [exact Imp |].
  split; [exact D5 |]. split.
  { apply Last. rewrite Hsus. discriminate. }
  intros s d x Hin Hd Hx. apply in_app_or in Hx. destruct Hx as [Hx | Hx].
  - exact (Str1 s d x Hin Hd Hx).
  - exact (Str2 s d x Hin Hd Hx).
Qed.

(** ** The driver *)

(** X13.  When [check] succeeds from a context without current scope, over a
    heap where parents are older than their children, the namespace of the
    context is that of the unit, the unit scope is a new scope, no subunit
    has imports, the declarations of the unit are those that the subunits
    emit, in order, and the scope that is current at the end is a child of
    the unit scope. *)
Theorem check_unit
    (ext : externals) (aunit : ast_unit) (ns : option identifier)
    (c : context) (decls : list declaration) (c' : context) :
  ctx_scope c = None ->
  scopes_wf (ctx_scopes c) ->
  check ext aunit ns c = Ok (decls, c') ->
  ctx_ns c' = ns
  /\ ctx_unit c' = Some (length (ctx_scopes c))
  /\ Forall (fun su => su_imports su = None) (aunit_subunits aunit)
  /\ Forall2 declared_by
       (List.filter adecl_emits (flat_map su_decls (aunit_subunits aunit)))
       decls
  /\ exists p s,
       ctx_scope c' = Some p /\ ctx_scopes c' !! p = Some s
       /\ scope_parent s = Some (length (ctx_scopes c)).
Proof.
  intros Hs W H.
  destruct (check_spec ext aunit ns c decls c' Hs W H)
    as (N & U & Imp & D & (p & Hp & s & l & Hl & Hu & _) & _).
  repeat (split; [assumption |]). exists p, s. auto.
Qed.

(** X14.  When [check] succeeds from a context without current scope, over a
    heap where parents are older than their children, no function body, no
    initializer of a global and no initializer of a constant of the unit has
    a stray [break] or [continue]: every one is bound by a loop of the same
    body or initializer. *)
Theorem check_binds_controls
    (ext : externals) (aunit : ast_unit) (ns : option identifier)
    (c : context) (decls : list declaration) (c' : context) :
  ctx_scope c = None ->
  scopes_wf (ctx_scopes c) ->
  check ext aunit ns c = Ok (decls, c') ->
  forall su d x,
    In su (aunit_subunits aunit) -> In d (su_decls su) ->
    In x (scanned_exprs d ++ checked_exprs d) ->
    ~ stray [] x.
Proof.
  intros Hs W H.
  destruct (check_spec ext aunit ns c decls c' Hs W H)
    as (_ & _ & _ & _ & _ & S).
  exact S.
Qed.

(** ** Pointers that may be null *)

Lemma type_dereference_not_nullable t r :
  type_dereference t = Some r -> not_nullable t.
Proof.
  intros H referent pflags S P. destruct t as [s f z p]. simpl in S, P.
  subst s p. simpl in H.
  destruct (has_flag pflags PTR_NULLABLE); [discriminate | reflexivity].
Qed.

Lemma pointer_flags_not_nullable t pflags :
  pointer_flags t = Some pflags -> has_flag pflags PTR_NULLABLE = false ->
  not_nullable t.
Proof.
  intros H N referent pflags' _ P. unfold pointer_flags in H.
  rewrite P in H. congruence.
Qed.

(** X15.  The operand that a checked node looks through, be it the array of
    an index or of a slice, the object of a field access, the callee, the
    target of an assignment through a pointer or the operand of [*], is
    never of a nullable pointer type. *)
Theorem check_expression_null_safety
    (ext : externals) (a : ast_expression) (hint : option type)
    (c : context) (e : expression) (c' : context) (operand : expression) :
  check_expression ext a hint c = Ok (e, c') ->
  dereferenced a e = Some operand ->
  exists t, expr_result operand = Some t /\ not_nullable t.
Proof.
  intros H D. destruct a as [loc u]. unfold dereferenced in D.
  destruct u; simpl in H, D; try discriminate D.
  - unfold check_expr_access_index in H. minv H. simpl in D.
    injection D as <-. eexists. split; [eassumption |].
    eapply type_dereference_not_nullable; eassumption.
  - unfold check_expr_access_field in H. minv H. simpl in D.
    injection D as <-. eexists. split; [eassumption |].
    eapply type_dereference_not_nullable; eassumption.
  - destruct indirect; [| destruct (expr_union e); discriminate D].
    unfold check_expr_assign in H. minv H. simpl in D.
    injection D as <-. eexists. split; [eassumption |].
    eapply pointer_flags_not_nullable; [eassumption |].
    apply negb_true_iff. assumption.
  - unfold check_expr_call in H. minv H. simpl in D.
    injection D as <-. eexists. split; [eassumption |].
    eapply type_dereference_not_nullable; eassumption.
  - unfold check_expr_slice in H.
    minv H; simpl in D; injection D as <-;
      (eexists; split; [eassumption |]);
      match goal with
      | E : is_some (type_dereference ?t) = true |- _ =>
          destruct (type_dereference t) eqn:Q; [| discriminate E]
      end;
      eapply type_dereference_not_nullable; eassumption.
  - destruct op; try (destruct (expr_union e); discriminate D).
    unfold check_expr_unarithm in H.
    minv H; simpl in D; injection D as <-;
      (eexists; split; [eassumption |]);
      (eapply pointer_flags_not_nullable; [eassumption |]);
      apply negb_true_iff; assumption.
Qed.

(** ** The objects of bindings *)

Lemma to_int_not_nil z : Z.to_int z <> Decimal.Pos Decimal.Nil
                         /\ Z.to_int z <> Decimal.Neg Decimal.Nil.
Proof.
  split; intros E; pose proof (DecimalZ.of_to z) as Q; rewrite E in Q;
    simpl in Q; subst z; discriminate E.
Qed.

Lemma string_of_int_inj a b : string_of_int a = string_of_int b -> a = b.
Proof.
  unfold string_of_int. intros E.
  destruct (to_int_not_nil a) as [A1 A2], (to_int_not_nil b) as [B1 B2].
  pose proof (DecimalString.NilZero.isi _ A1 A2) as Ia.
  pose proof (DecimalString.NilZero.isi _ B1 B2) as Ib.
  rewrite E in Ia. rewrite Ia in Ib. injection Ib as Ib.
  apply DecimalZ.to_int_inj. assumption.
Qed.

Lemma sum_with_app {A} (f : A -> nat) l1 l2 :
  sum_with f (l1 ++ l2) = (sum_with f l1 + sum_with f l2)%nat.
Proof. induction l1 as [| x l1 IH]; simpl; [reflexivity | rewrite IH; lia]. Qed.

Lemma sum_with_take_S {A} (f : A -> nat) l i x :
  l !! i = Some x ->
  sum_with f (take (S i) l) = (sum_with f (take i l) + f x)%nat.
Proof.
  intros H. rewrite (take_S_r _ _ _ H), sum_with_app. simpl. lia.
Qed.

Lemma sum_with_take_le {A} (f : A -> nat) l i j :
  (i <= j)%nat -> (sum_with f (take i l) <= sum_with f (take j l))%nat.
Proof.
  intros L. rewrite <- (take_drop i (take j l)), sum_with_app.
  rewrite take_take, Nat.min_l by exact L. lia.
Qed.

Lemma sum_with_take_whole {A} (f : A -> nat) l j x :
  l !! j = Some x -> (sum_with f (take j l) + f x <= sum_with f l)%nat.
Proof.
  intros H. rewrite <- (sum_with_take_S f l j x H).
  rewrite <- (take_drop (S j) l) at 2. rewrite sum_with_app. lia.
Qed.

Lemma check_one_binding_binds ext ab c b c' :
  check_one_binding ext (check_expression ext) ab c = Ok (b, c') ->
  binds (bumped (statics (binding_initializer ab)) (ctx_id c)) ab b
  /\ ctx_id c' = bumped (binding_statics ab) (ctx_id c).
Proof.
  intros H. split;
    [| exact (check_one_binding_adds ext (check_expression ext) ab
                (check_expression_adds ext _) c b c' H)].
  unfold check_one_binding in H.
  apply bind_ok in H. destruct H as (c0 & c1 & E0 & H).
  apply get_ctx_ok in E0. destruct E0 as [-> ->].
  apply bind_ok in H. destruct H as (ty & c2 & E1 & H).
  assert (c2 = c) as -> by (destruct (binding_type ab); minv E1; reflexivity).
  clear E1.
  apply bind_ok in H. destruct H as (init & c3 & E2 & H).
  pose proof (check_expression_adds ext _ _ _ _ _ E2) as I2.
  apply bind_ok in H. destruct H as (t & c4 & E3 & H).
  assert (c4 = c3) as -> by (destruct ty; minv E3; reflexivity).
  clear E3.
  apply bind_ok in H. destruct H as (u1 & c5 & E4 & H).
  apply expect_ok in E4. destruct E4 as [Z0 ->].
  apply bind_ok in H. destruct H as (ok & c6 & E5 & H).
  assert (c6 = c3) as -> by (minv E5; reflexivity). clear E5.
  apply bind_ok in H. destruct H as (u2 & c7 & E6 & H).
  apply expect_ok in E6. destruct E6 as [-> ->].
  apply bind_ok in H. destruct H as (c8 & c9 & E7 & H).
  apply get_ctx_ok in E7. destruct E7 as [-> ->].
  apply andb_true_iff in Z0. destruct Z0 as [Z1 Z2].
  apply negb_true_iff, Z.eqb_neq in Z1.
  apply negb_true_iff, Z.eqb_neq in Z2.
  unfold binds. rewrite <- I2.
  destruct (binding_is_static ab); simpl in H; minv H.
  - match goal with
    | Q : scope_insert _ _ _ _ _ _ _ = Ok _ |- _ =>
        pose proof (scope_insert_ok _ _ _ _ _ _ _ _ _ Q) as O
    end.
    subst. simpl in *. split; [reflexivity |].
    split.
    { exists t. repeat split; try assumption.
      apply lower_implicit_cast_result. }
    split; reflexivity.
  - match goal with
    | Q : scope_insert _ _ _ _ _ _ _ = Ok _ |- _ =>
        pose proof (scope_insert_ok _ _ _ _ _ _ _ _ _ Q) as O
    end.
    subst. simpl. split; [reflexivity |].
    split.
    { exists t. repeat split; try assumption.
      apply lower_implicit_cast_result. }
    split; reflexivity.
Qed.

Lemma check_bindings_binds ext abs : forall c bs c',
  mapM (check_one_binding ext (check_expression ext)) abs c = Ok (bs, c') ->
  length bs = length abs
  /\ forall i ab b,
       abs !! i = Some ab -> bs !! i = Some b ->
       binds (static_number (ctx_id c) abs i ab) ab b.
Proof.
  induction abs as [| ab0 abs IH]; intros c bs c' H; simpl in H.
  - minv H. split; [reflexivity |].
    intros i ab b Q. rewrite lookup_nil in Q. discriminate Q.
  - apply bind_ok in H. destruct H as (b0 & c1 & E1 & H).
    apply bind_ok in H. destruct H as (bs' & c2 & E2 & H).
    apply ret_ok in H. destruct H as [-> ->].
    apply check_one_binding_binds in E1. destruct E1 as [B1 I1].
    apply IH in E2. destruct E2 as (L & F).
    split; [simpl; rewrite L; reflexivity |].
    intros i ab b Qa Qb. destruct i as [| i]; simpl in Qa, Qb.
    + injection Qa as <-. injection Qb as <-. exact B1.
    + specialize (F i ab b Qa Qb). unfold static_number in *.
      rewrite I1, bumped_bumped in F. simpl take. simpl sum_with.
      fold (binding_statics ab0).
      replace (binding_statics ab0 + sum_with binding_statics (take i abs)
               + statics (binding_initializer ab))%nat
        with (binding_statics ab0
              + (sum_with binding_statics (take i abs)
                 + statics (binding_initializer ab)))%nat by lia.
      exact F.
Qed.

(** X16.  When a binding expression checks, it makes one object for each
    binding, in order: the object answers to the name of the binding and has
    a type of defined size other than zero, which the stored initializer has
    too; a binding that is not [static] is a local named after itself, a
    [static] one a declaration named [static.n], where [n] is the counter of
    the context after the [static] bindings before it and those of its own
    initializer ([static_number]).  Two [static] bindings of one expression
    have different names, provided that the expression holds less than [2 ^
    32] of them. *)
Theorem check_expr_binding_objects
    (ext : externals) (loc : location)
    (abindings : list ast_expression_binding) (hint : option type)
    (c : context) (e : expression) (c' : context) :
  check_expression ext (mk_ast_expression loc (A_binding abindings)) hint c
    = Ok (e, c') ->
  exists bindings,
    e = mk_expression EXPR_BINDING (Some (builtin_type_void ext)) false
          (E_binding bindings)
    /\ length bindings = length abindings
    /\ (forall i ab b,
          abindings !! i = Some ab -> bindings !! i = Some b ->
          binds (static_number (ctx_id c) abindings i ab) ab b)
    /\ (Z.of_nat (sum_with binding_statics abindings) < 2 ^ 32 ->
        forall i j abi abj bi bj,
          (i < j)%nat ->
          abindings !! i = Some abi -> abindings !! j = Some abj ->
          bindings !! i = Some bi -> bindings !! j = Some bj ->
          binding_is_static abi = true -> binding_is_static abj = true ->
          obj_ident (eb_object bi) <> obj_ident (eb_object bj)).
Proof.
  simpl. unfold check_expr_binding. intros H.
  destruct abindings as [| ab abs]; [discriminate H |].
  apply bind_ok in H. destruct H as (bs & c1 & E & H).
  apply ret_ok in H. destruct H as [-> ->].
  apply check_bindings_binds in E. destruct E as (L & F).
  exists bs. split; [reflexivity |]. split; [exact L |].
  split; [exact F |].
  intros U i j abi abj bi bj Lij Ai Aj Bi Bj Si Sj.
  destruct (F i abi bi Ai Bi) as (_ & _ & Ni).
  destruct (F j abj bj Aj Bj) as (_ & _ & Nj).
  rewrite Si in Ni. rewrite Sj in Nj.
  destruct Ni as [_ ->], Nj as [_ ->]. intros Q. injection Q as Q.
  apply string_of_int_inj in Q. revert Q. unfold static_number.
  pose proof (sum_with_take_S binding_statics _ _ _ Ai) as T1.
  pose proof (sum_with_take_le binding_statics (ab :: abs) (S i) j
                ltac:(lia)) as T2.
  pose proof (sum_with_take_whole binding_statics _ _ _ Aj) as T3.
  assert (Ei : binding_statics abi
               = (statics (binding_initializer abi) + 1)%nat)
    by (unfold binding_statics; rewrite Si; reflexivity).
  assert (Ej : binding_statics abj
               = (statics (binding_initializer abj) + 1)%nat)
    by (unfold binding_statics; rewrite Sj; reflexivity).
  apply bumped_apart; lia.
Qed.

(** ** Typing of the operators *)

Lemma storage_eqb_eq a b : storage_eqb a b = true <-> a = b.
Proof.
  unfold storage_eqb. destruct (type_storage_eq_dec a b); split; congruence.
Qed.

Lemma expr_type_eqb_eq a b : expr_type_eqb a b = true <-> a = b.
Proof.
  unfold expr_type_eqb. destruct (expr_type_eq_dec a b); split; congruence.
Qed.

Lemma pointer_payload t r f :
  pointer_referent t = Some r -> pointer_flags t = Some f ->
  type_payload_of t = P_pointer r f.
Proof.
  unfold pointer_referent, pointer_flags.
  destruct (type_payload_of t); congruence.
Qed.

(** X17.  When an assignment checks, the node is void.  A plain assignment
    writes to an access whose type is not [const], and the stored value has
    the type of that access; an assignment through a pointer writes through
    a pointer that is not nullable, and the stored value has the type of the
    referent. *)
Theorem check_expr_assign_rule
    (ext : externals) (loc : location) (op : option binarithm_operator)
    (aobject avalue : ast_expression) (indirect : bool)
    (hint : option type) (c : context) (e : expression) (c' : context) :
  check_expression ext
    (mk_ast_expression loc (A_assign op aobject avalue indirect)) hint c
    = Ok (e, c') ->
  exists object value otype vtype,
    e = mk_expression EXPR_ASSIGN (Some (builtin_type_void ext)) false
          (E_assign op object value indirect)
    /\ expr_result object = Some otype
    /\ expr_result value = Some vtype
    /\ if indirect then
         type_storage_of otype = TYPE_STORAGE_POINTER
         /\ exists pflags,
              type_payload_of otype = P_pointer vtype pflags
              /\ has_flag pflags PTR_NULLABLE = false
       else
         expr_type_of object = EXPR_ACCESS
         /\ has_flag (type_flags otype) TYPE_CONST = false
         /\ vtype = otype.
Proof.
  simpl. unfold check_expr_assign. intros H.
  destruct indirect; minv H; do 4 eexists;
    (split; [reflexivity |]); (split; [eassumption |]);
    (split; [rewrite lower_implicit_cast_result; first
               [reflexivity | eassumption] |]).
  - split; [apply storage_is_eq; assumption |].
    eexists. split; [apply pointer_payload; eassumption |].
    apply negb_true_iff. assumption.
  - split; [apply expr_type_eqb_eq; assumption |].
    split; [apply negb_true_iff; assumption | reflexivity].
Qed.

(** X18.  When a binary operation checks, its two operands have the same
    storage; an arithmetic, bitwise or shift operator has the type of its
    left operand, a comparison or a logical operator is [bool]. *)
Theorem check_expr_binarithm_rule
    (ext : externals) (loc : location) (op : binarithm_operator)
    (alvalue arvalue : ast_expression) (hint : option type)
    (c : context) (e : expression) (c' : context) :
  check_expression ext
    (mk_ast_expression loc (A_binarithm op alvalue arvalue)) hint c
    = Ok (e, c') ->
  exists lvalue rvalue ltype rtype,
    e = mk_expression EXPR_BINARITHM
          (Some (if binarithm_is_numeric op then ltype
                 else builtin_type_bool ext))
          false (E_binarithm op lvalue rvalue)
    /\ expr_result lvalue = Some ltype
    /\ expr_result rvalue = Some rtype
    /\ type_storage_of ltype = type_storage_of rtype.
Proof.
  simpl. unfold check_expr_binarithm. intros H. minv H.
  match goal with
  | E1 : check_expression _ alvalue _ _ = Ok (?l, _),
    E2 : check_expression _ arvalue _ _ = Ok (?r, _),
    H1 : expr_result ?l = Some ?tl, H2 : expr_result ?r = Some ?tr |- _ =>
      exists l, r, tl, tr; rewrite H1
  end.
  split; [| split; [reflexivity | split; [assumption |]]].
  - destruct (binarithm_is_numeric op); reflexivity.
  - apply storage_eqb_eq. assumption.
Qed.

(** X19.  When a unary operation checks: [!] takes a [bool] and gives
    [bool]; [~] takes an integer that is not signed and gives its type; [-]
    and [+] take a signed numeric type and give it; [&] gives the pointer
    type to the type of the operand, without pointer flags; [*] takes a
    pointer that is not nullable and gives the type of the referent. *)
Theorem check_expr_unarithm_rule
    (ext : externals) (loc : location) (op : unarithm_operator)
    (aoperand : ast_expression) (hint : option type)
    (c : context) (e : expression) (c' : context) :
  check_expression ext (mk_ast_expression loc (A_unarithm op aoperand))
    hint c = Ok (e, c') ->
  exists operand t r,
    e = mk_expression EXPR_UNARITHM (Some r) false (E_unarithm op operand)
    /\ expr_result operand = Some t
    /\ unarithm_rule ext op t r.
Proof.
  simpl. unfold check_expr_unarithm. intros H.
  destruct op; minv H; do 3 eexists;
    (split; [first [reflexivity | f_equal; eassumption] |]);
    (split; [eassumption |]); simpl;
    repeat first
      [ reflexivity | assumption
      | apply storage_is_eq; assumption
      | apply negb_true_iff; assumption
      | split
      | eexists; split; [apply pointer_payload; eassumption |] ].
Qed.

(** X20.  When an [if] with an [else] checks, its condition is a [bool], and
    its result type is that of each branch that does not terminate, so that
    two such branches have one type; when both terminate, it is void. *)
Theorem check_expr_if_result
    (ext : externals) (loc : location)
    (acond atrue afalse : ast_expression) (hint : option type)
    (c : context) (e : expression) (c' : context) :
  check_expression ext
    (mk_ast_expression loc (A_if acond atrue (Some afalse))) hint c
    = Ok (e, c') ->
  exists cond true_branch false_branch ctype,
    expr_union e = E_if cond true_branch (Some false_branch)
    /\ expr_result cond = Some ctype
    /\ type_storage_of ctype = TYPE_STORAGE_BOOL
    /\ (expr_terminates true_branch = false ->
        expr_result e = expr_result true_branch)
    /\ (expr_terminates false_branch = false ->
        expr_result e = expr_result false_branch)
    /\ (expr_terminates true_branch = true ->
        expr_terminates false_branch = true ->
        expr_result e = Some (builtin_type_void ext)).
Proof.
  simpl. unfold check_expr_if. intros H.
  minv H; do 4 eexists; (split; [reflexivity |]);
    (split; [eassumption |]);
    (split; [apply storage_is_eq; assumption |]); simpl;
    repeat match goal with
    | Q : _ && _ = true |- _ => apply andb_true_iff in Q; destruct Q
    | Q : type_ptr_eqb _ _ = true |- _ => apply type_ptr_eqb_eq in Q
    | Q : true && _ = _ |- _ => simpl in Q
    | Q : false && _ = _ |- _ => clear Q
    end;
    repeat split; intros; congruence.
Qed.

(** ** The objects of the scan pass *)

Lemma holds_object_grows h h' p o :
  heap_grows h h' -> holds_object h p o -> holds_object h' p o.
Proof.
  intros [_ G] (s & Hs & Hin).
  destruct (G p s Hs) as (s' & Hs' & _ & _ & _ & added & Ho).
  exists s'. split; [exact Hs' |]. rewrite Ho. apply in_or_app. left.
  exact Hin.
Qed.

Lemma scope_insert_holds p k i n t v c o c' :
  scope_insert p k i n t v c = Ok (o, c') ->
  exists q, p = Some q /\ holds_object (ctx_scopes c') q o
            /\ o = mk_scope_object k i n t v.
Proof.
  unfold scope_insert. destruct p as [q |]; [| discriminate].
  destruct (ctx_scopes c !! q) as [s |] eqn:Hq; [| discriminate].
  intros H. injection H as <- <-. exists q. split; [reflexivity |].
  split; [| reflexivity].
  exists (scope_add_object (mk_scope_object k i n t v) s). split.
  - simpl. apply list_lookup_insert_eq. eapply lookup_lt_Some, Hq.
  - simpl. apply in_or_app. right. left. reflexivity.
Qed.

Lemma mkident_ns c c' i : ctx_ns c' = ctx_ns c -> mkident c' i = mkident c i.
Proof. unfold mkident. intros ->. reflexivity. Qed.

Lemma scan_function_registers ext d f c u c' :
  adecl_u d = AST_DECL_FUNC f -> scan_function ext f c = Ok (u, c') ->
  exists p o, ctx_unit c = Some p /\ holds_object (ctx_scopes c') p o
              /\ registered c d o.
Proof.
  intros Hd H. unfold scan_function in H.
  apply bind_ok in H. destruct H as (c0 & c1 & E & H).
  apply get_ctx_ok in E. destruct E as [-> ->].
  apply bind_ok in H. destruct H as (u1 & c1 & E & H).
  apply c_assert_ok in E. destruct E as [T ->].
  apply bind_ok in H. destruct H as (o & c1 & E & H).
  apply ret_ok in H. destruct H as [_ ->].
  apply scope_insert_holds in E. destruct E as (q & Hq & Ho & ->).
  exists q. eexists. split; [exact Hq |]. split; [exact Ho |].
  unfold registered. rewrite Hd. simpl. repeat split. exact T.
Qed.

Lemma scan_global_registers ext d g c u c' :
  adecl_u d = AST_DECL_GLOBAL g -> scan_global ext g c = Ok (u, c') ->
  exists p o, ctx_unit c = Some p /\ holds_object (ctx_scopes c') p o
              /\ registered c d o.
Proof.
  intros Hd H. unfold scan_global in H.
  apply bind_ok in H. destruct H as (c0 & c1 & E & H).
  apply get_ctx_ok in E. destruct E as [-> ->].
  apply bind_ok in H. destruct H as (u1 & c1 & E & H).
  apply c_assert_ok in E. destruct E as [T ->].
  apply bind_ok in H. destruct H as (o & c1 & E & H).
  apply ret_ok in H. destruct H as [_ ->].
  apply scope_insert_holds in E. destruct E as (q & Hq & Ho & ->).
  exists q. eexists. split; [exact Hq |]. split; [exact Ho |].
  unfold registered. rewrite Hd. simpl. repeat split. exact T.
Qed.

Lemma scan_type_registers ext d t c u c' :
  adecl_u d = AST_DECL_TYPE t -> scan_type ext t c = Ok (u, c') ->
  exists p o, ctx_unit c = Some p /\ holds_object (ctx_scopes c') p o
              /\ registered c d o.
Proof.
  intros Hd H. unfold scan_type in H.
  apply bind_ok in H. destruct H as (c0 & c1 & E & H).
  apply get_ctx_ok in E. destruct E as [-> ->].
  apply bind_ok in H. destruct H as (o & c1 & E & H).
  apply bind_ok in H. destruct H as (ty & c2 & E2 & H).
  apply deref_ok in E2. destruct E2 as [T ->].
  assert (G : heap_grows (ctx_scopes c1) (ctx_scopes c')).
  { destruct (storage_is ty TYPE_STORAGE_ENUM).
    - apply bind_ok in H. destruct H as (vs & c3 & E3 & H).
      apply deref_ok in E3. destruct E3 as [_ ->].
      apply (scan_enum_values_steadily ext) in H.
      destruct H as (_ & _ & _ & _ & G). exact G.
    - apply ret_ok in H. destruct H as [_ ->]. apply heap_grows_refl. }
  apply scope_insert_holds in E. destruct E as (q & Hq & Ho & ->).
  exists q. eexists. split; [exact Hq |].
  split; [eapply holds_object_grows; [exact G | exact Ho] |].
  unfold registered. rewrite Hd. simpl. repeat split. rewrite T. reflexivity.
Qed.

Lemma scan_const_registers ext d k c u c' :
  adecl_u d = AST_DECL_CONST k -> scan_const ext k c = Ok (u, c') ->
  exists p o, ctx_unit c = Some p /\ holds_object (ctx_scopes c') p o
              /\ registered c d o.
Proof.
  intros Hd H. unfold scan_const in H.
  apply bind_ok in H. destruct H as (u0 & c0 & E & H).
  apply c_assert_ok in E. destruct E as [_ ->].
  apply bind_ok in H. destruct H as (c0 & c1 & E & H).
  apply get_ctx_ok in E. destruct E as [-> ->].
  apply bind_ok in H. destruct H as (ainit & c1 & E & H).
  apply deref_ok in E. destruct E as [_ ->].
  apply bind_ok in H. destruct H as (init & c1 & E & H).
  apply check_expression_steadily in E.
  destruct E as (N & U & _).
  apply bind_ok in H. destruct H as (ok & c2 & E & H).
  assert (c2 = c1) as -> by (minv E; reflexivity). clear E.
  apply bind_ok in H. destruct H as (u2 & c2 & E & H).
  apply expect_ok in E. destruct E as [_ ->].
  apply bind_ok in H. destruct H as (c3 & c2 & E & H).
  apply get_ctx_ok in E. destruct E as [-> ->].
  apply bind_ok in H. destruct H as (u3 & c2 & E & H).
  apply expect_ok in E. destruct E as [_ ->].
  apply bind_ok in H. destruct H as (value & c2 & E & H).
  apply deref_ok in E. destruct E as [_ ->].
  apply bind_ok in H. destruct H as (o & c2 & E & H).
  apply ret_ok in H. destruct H as [_ ->].
  apply scope_insert_holds in E. destruct E as (q & Hq & Ho & ->).
  exists q. eexists. split; [congruence |]. split; [exact Ho |].
  unfold registered. rewrite Hd. simpl. repeat split.
  apply mkident_ns, N.
Qed.

(** X21.  After [scan_declarations], the unit scope holds an object for
    every declaration of the list, which answers to the declared name: a
    typed declaration for a function or a global, under its symbol if it has
    one and under its name in the namespace of the unit otherwise; a
    constant with a value for a constant; a type for a type declaration. *)
Theorem scan_declarations_registers
    (ext : externals) (decls : list ast_decl)
    (c : context) (u : unit) (c' : context) (d : ast_decl) :
  scan_declarations ext decls c = Ok (u, c') ->
  In d decls ->
  exists p o,
    ctx_unit c' = Some p
    /\ holds_object (ctx_scopes c') p o
    /\ registered c d o.
Proof.
  revert c. induction decls as [| d0 rest IH]; intros c H Hin; [destruct Hin |].
  simpl in H. apply bind_ok in H. destruct H as (u1 & c1 & E & H).
  pose proof (scan_declarations_steadily ext [d0]) as S0.
  pose proof (scan_declarations_steadily ext rest _ _ _ H) as S.
  destruct S as (N & U & _ & _ & G).
  assert (S1 : ctx_ns c1 = ctx_ns c /\ ctx_unit c1 = ctx_unit c).
  { specialize (S0 c tt c1). simpl in S0.
    destruct S0 as (N1 & U1 & _).
    - unfold bind. rewrite E. destruct u1. reflexivity.
    - split; assumption. }
  destruct S1 as [N1 U1].
  destruct Hin as [<- | Hin].
  - assert (R : exists p o, ctx_unit c = Some p
                           /\ holds_object (ctx_scopes c1) p o
                           /\ registered c d0 o).
    { destruct (adecl_u d0) eqn:Hd;
        first [ eapply scan_const_registers; eassumption
              | eapply scan_function_registers; eassumption
              | eapply scan_global_registers; eassumption
              | eapply scan_type_registers; eassumption ]. }
    destruct R as (p & o & Hp & Ho & R). exists p, o.
    split; [congruence |].
    split; [eapply holds_object_grows; [exact G | exact Ho] | exact R].
  - destruct (IH c1 H Hin) as (p & o & Hp & Ho & R). exists p, o.
    split; [exact Hp |]. split; [exact Ho |].
    revert R. unfold registered, emitted_ident.
    destruct (adecl_u d) as [k | f | g | t];
      rewrite ?(mkident_ns c c1) by exact N1; auto.
Qed.

(** ** The rule of casts *)

(** X22.  When a cast, a type assertion or a type test checks, the type of
    the operand may be cast to the type named; for an assertion and for a
    test, the type of the operand stands for a tagged union, one member of
    which has the id of the type named.  A cast and an assertion have the
    type named, a test is [bool]. *)
Theorem check_expr_cast_rule
    (ext : externals) (loc : location) (kind : cast_kind) (atype : ast_type)
    (avalue : ast_expression) (hint : option type)
    (c : context) (e : expression) (c' : context) :
  check_expression ext (mk_ast_expression loc (A_cast kind atype avalue))
    hint c = Ok (e, c') ->
  exists value sec t r,
    e = mk_expression EXPR_CAST (Some r) false (E_cast kind value (Some sec))
    /\ type_store_lookup_atype ext c atype = Some sec
    /\ expr_result value = Some t
    /\ cast_rule ext kind sec t r.
Proof.
  simpl. unfold check_expr_cast. intros H.
  apply bind_ok in H. destruct H as (c0 & c1 & E & H).
  apply get_ctx_ok in E. destruct E as [-> ->].
  apply bind_ok in H. destruct H as (value & c1 & _ & H).
  apply bind_ok in H. destruct H as (sec & c2 & E & H).
  apply deref_ok in E. destruct E as [Hs ->].
  apply bind_ok in H. destruct H as (t & c2 & E & H).
  apply deref_ok in E. destruct E as [Ht ->].
  apply bind_ok in H. destruct H as (u1 & c2 & E & H).
  apply expect_ok in E. destruct E as [Hc ->].
  apply bind_ok in H. destruct H as (u2 & c2 & E & H).
  apply ret_ok in H. destruct H as [-> ->].
  exists value, sec, t.
  exists (match kind with C_TEST => builtin_type_bool ext | _ => sec end).
  rewrite Hs. split; [destruct kind; reflexivity |].
  split; [reflexivity |]. split; [exact Ht |].
  split; [exact Hc |].
  destruct kind; [reflexivity | |];
    (apply bind_ok in E; destruct E as (u3 & c3 & E1 & E);
     apply expect_ok in E1; destruct E1 as [Hu ->];
     apply bind_ok in E; destruct E as (members & c3 & E1 & E);
     apply deref_ok in E1; destruct E1 as [Hm ->];
     apply expect_ok in E; destruct E as [Hx _];
     split; [apply storage_is_eq; exact Hu |];
     split; [| reflexivity];
     apply existsb_exists in Hx; destruct Hx as (m & Hin & Hid);
     exists members, m; split; [exact Hm |]; split; [exact Hin |];
     apply Z.eqb_eq; exact Hid).
Qed.

(** ** The result type of a node that returns *)

(** X23.  When the builtin table has a type for every storage of a constant,
    and the objects in scope are typed, a node that checks and that does not
    terminate has a result type, and the objects in scope are typed
    afterwards too. *)
Theorem check_expression_types_what_returns
    (ext : externals) (a : ast_expression) (hint : option type)
    (c : context) (e : expression) (c' : context) :
  builtins_total ext ->
  good c ->
  check_expression ext a hint c = Ok (e, c') ->
  good c'
  /\ (expr_terminates e = false -> exists t, expr_result e = Some t).
Proof.
  intros Hb G H.
  destruct (check_expression_holds ext a Hb hint c e c' G H) as [G' N].
  split; [exact G' |]. intros T.
  destruct (expr_result e) as [t |] eqn:R; [exists t; reflexivity |].
  exfalso. exact (N T R).
Qed.

(** ** The properties at examples *)

Lemma ctx_wf_demo_in_loop : ctx_wf Demo.in_loop.
Proof.
  split.
  - intros p s q H Hq. destruct p as [| [| [| p]]]; simpl in H;
      try discriminate; injection H as <-; simpl in Hq;
      try discriminate; injection Hq as <-; lia.
  - intros p H. injection H as <-. simpl. lia.
Qed.

Lemma scope_chain_demo_in_loop :
  scope_chain (ctx_scopes Demo.in_loop) (ctx_scope Demo.in_loop)
              Sample.in_loop_chain.
Proof.
  repeat (apply scope_chain_cons; [reflexivity |]); apply scope_chain_root.
Qed.

Lemma in_loops_demo_in_loop : in_loops [Some "outer"] Demo.in_loop.
Proof.
  split; [exact ctx_wf_demo_in_loop |].
  exists Sample.in_loop_chain. split; [exact scope_chain_demo_in_loop |].
  reflexivity.
Qed.

Lemma check_expr_array_length_witness :
  exists e c',
    check_expression Demo.store
      (Demo.at_ (A_constant_array Sample.array_items))
      (Some Demo.t_bool) Demo.in_loop = Ok (e, c')
    /\ expr_result e = Some (Demo.lookup_array Demo.t_int 2)
    /\ exists stored t n,
         e = mk_expression EXPR_CONSTANT
               (Some (type_store_lookup_array Demo.store t n))
               false (E_constant (EC_array stored))
         /\ length stored = length Sample.array_items
         /\ (forall i item, Sample.array_items !! i = Some item ->
               array_item_expand item = true ->
               S i = length Sample.array_items)
         /\ (existsb array_item_expand Sample.array_items = false ->
             n = Z.of_nat (length Sample.array_items))
         /\ (existsb array_item_expand Sample.array_items = true ->
             exists h,
               Some Demo.t_bool = Some h
               /\ type_storage_of h = TYPE_STORAGE_ARRAY
               /\ array_length h = Some n /\ n <> SIZE_UNDEFINED
               /\ (Z.of_nat (length Sample.array_items) <= n)%Z)
         /\ match hint_members Demo.store (Some Demo.t_bool) with
            | Some m =>
                t = m
                /\ Forall (fun v => expr_result v = Some m)
                          (map ac_value stored)
            | None =>
                exists pre it post,
                  map ac_value stored = pre ++ it :: post
                  /\ Forall (fun v => expr_result v = None) pre
                  /\ expr_result it = Some t
                  /\ Forall (fun v => expr_result v = Some t) post
            end.
Proof.
  do 2 eexists. split; [vm_compute; reflexivity |].
  split; [reflexivity |].
  eapply (check_expr_array_length Demo.store Demo.here Sample.array_items
           (Some Demo.t_bool) Demo.in_loop).
  vm_compute. reflexivity.
Defined.

Lemma check_expression_types_what_returns_witness :
  exists e c',
    check_expression Demo.store Demo.a_switch None Demo.in_loop = Ok (e, c')
    /\ expr_terminates e = false
    /\ (good c'
        /\ (expr_terminates e = false -> exists t, expr_result e = Some t)).
Proof.
  do 2 eexists. split; [vm_compute; reflexivity |].
  split; [reflexivity |].
  eapply (check_expression_types_what_returns Demo.store Demo.a_switch None
            Demo.in_loop).
  - exact builtins_total_demo.
  - exact good_demo_in_loop.
  - vm_compute. reflexivity.
Defined.

Lemma check_declarations_emits_witness :
  exists decls c',
    check_declarations Demo.store
      [Demo.d_test_prototype; Demo.d_init_exported] Demo.unit_ctx
    = Ok (decls, c')
    /\ length decls = 1%nat
    /\ (Forall2 declared_by
          (List.filter adecl_emits
             [Demo.d_test_prototype; Demo.d_init_exported]) decls
        /\ length decls
           = length (List.filter adecl_emits
                       [Demo.d_test_prototype; Demo.d_init_exported])
        /\ ctx_scope c' = ctx_scope Demo.unit_ctx).
Proof.
  do 2 eexists. split; [vm_compute; reflexivity |].
  split; [reflexivity |].
  eapply (check_declarations_emits Demo.store
            [Demo.d_test_prototype; Demo.d_init_exported] Demo.unit_ctx).
  vm_compute. reflexivity.
Defined.

Lemma check_function_declaration_witness :
  exists od c',
    check_function Demo.store Demo.d_test Demo.f_test Demo.unit_ctx
    = Ok (od, c')
    /\ exists d fntype fresult v body,
         od = Some d
         /\ type_store_lookup_atype Demo.store Demo.unit_ctx
              (function_ast_type (fn_prototype Demo.f_test))
            = Some fntype
         /\ func_result fntype = Some fresult
         /\ func_variadism fntype = Some v /\ v <> VARIADISM_C
         /\ decl_u d = DECL_FUNC fntype (Some body)
                         (Some (length (ctx_scopes Demo.unit_ctx)))
                         (fn_flags Demo.f_test)
         /\ (expr_terminates body = true \/ expr_result body = Some fresult)
         /\ ctx_scope c' = ctx_scope Demo.unit_ctx
         /\ ctx_current_fntype c' = None.
Proof.
  do 2 eexists. split; [vm_compute; reflexivity |].
  eapply (check_function_declaration Demo.store Demo.d_test Demo.f_test
            (Demo.at_ (A_return None)) Demo.unit_ctx).
  - reflexivity.
  - vm_compute. reflexivity.
Defined.

Lemma check_expr_for_scope_witness :
  exists e c',
    check_expression Demo.store Sample.a_for_outer None Demo.unit_ctx
    = Ok (e, c')
    /\ exists bindings cond afterthought body s t,
         e = mk_expression EXPR_FOR (Some (builtin_type_void Demo.store))
               false
               (E_for bindings cond afterthought body
                      (length (ctx_scopes Demo.unit_ctx)) (Some "outer"))
         /\ expr_result cond = Some t
         /\ type_storage_of t = TYPE_STORAGE_BOOL
         /\ ctx_scopes c' !! length (ctx_scopes Demo.unit_ctx) = Some s
         /\ scope_type s = EXPR_FOR
         /\ scope_label s = Some "outer"
         /\ scope_parent s = ctx_scope Demo.unit_ctx
         /\ ctx_scope c' = ctx_scope Demo.unit_ctx.
Proof.
  do 2 eexists. split; [vm_compute; reflexivity |].
  eapply (check_expr_for_scope Demo.store Demo.here (Some "outer") Demo.here
            None Demo.a_true None Demo.a_break None Demo.unit_ctx).
  vm_compute. reflexivity.
Defined.

Lemma check_expr_list_scope_witness :
  exists e c',
    check_expression Demo.store Sample.a_block None Demo.in_loop
    = Ok (e, c')
    /\ exists init lexpr s,
         e = mk_expression EXPR_LIST (expr_result lexpr)
               (expr_terminates lexpr)
               (E_list (init ++ [lexpr]) (length (ctx_scopes Demo.in_loop)))
         /\ length (init ++ [lexpr]) = length [Demo.a_break]
         /\ ctx_scopes c' !! length (ctx_scopes Demo.in_loop) = Some s
         /\ scope_type s = EXPR_LIST
         /\ scope_label s = None
         /\ scope_parent s = ctx_scope Demo.in_loop
         /\ ctx_scope c' = ctx_scope Demo.in_loop.
Proof.
  do 2 eexists. split; [vm_compute; reflexivity |].
  eapply (check_expr_list_scope Demo.store Demo.here [Demo.a_break] None
            Demo.in_loop).
  vm_compute. reflexivity.
Defined.

Lemma check_expression_keeps_context_witness :
  exists e c',
    check_expression Demo.store Sample.a_static None Demo.in_loop
    = Ok (e, c')
    /\ ctx_id c' = 1
    /\ (ctx_ns c' = ctx_ns Demo.in_loop
        /\ ctx_unit c' = ctx_unit Demo.in_loop
        /\ ctx_deferring c' = ctx_deferring Demo.in_loop
        /\ ctx_current_fntype c' = ctx_current_fntype Demo.in_loop
        /\ ctx_id c' = bumped (statics Sample.a_static)
                              (ctx_id Demo.in_loop)
        /\ (INT_MIN <= ctx_id Demo.in_loop ->
            ctx_id Demo.in_loop + Z.of_nat (statics Sample.a_static)
            <= INT_MAX ->
            ctx_id c'
            = ctx_id Demo.in_loop + Z.of_nat (statics Sample.a_static))).
Proof.
  do 2 eexists. split; [vm_compute; reflexivity |].
  split; [reflexivity |].
  eapply (check_expression_keeps_context Demo.store Sample.a_static None
            Demo.in_loop).
  vm_compute. reflexivity.
Defined.

(** At [INT_MAX] the counter wraps: the binding is named after
    [INT_MAX], and the counter is left at [INT_MIN]. *)
Lemma check_expr_binding_counter_wraps :
  exists bindings c',
    check_expression Demo.store Sample.a_static None
      (set_id INT_MAX Demo.in_loop)
    = Ok (mk_expression EXPR_BINDING (Some (builtin_type_void Demo.store))
            false (E_binding bindings), c')
    /\ map (fun b => obj_ident (eb_object b)) bindings
       = [mk_identifier "static.2147483647" None]
    /\ ctx_id c' = INT_MIN.
Proof.
  do 2 eexists. split; [vm_compute; reflexivity |].
  split; reflexivity.
Qed.

Lemma check_expression_scopes_grow_witness :
  exists e c',
    check_expression Demo.store Demo.a_binding None Demo.in_loop
    = Ok (e, c')
    /\ forall p s, ctx_scopes Demo.in_loop !! p = Some s ->
         exists s' added,
           ctx_scopes c' !! p = Some s'
           /\ scope_type s' = scope_type s
           /\ scope_label s' = scope_label s
           /\ scope_parent s' = scope_parent s
           /\ scope_objects s' = scope_objects s ++ added.
Proof.
  do 2 eexists. split; [vm_compute; reflexivity |].
  eapply (check_expression_scopes_grow Demo.store Demo.a_binding None
            Demo.in_loop).
  vm_compute. reflexivity.
Defined.

Lemma check_expr_for_label_unique_witness :
  existsb (carries "outer") Sample.in_loop_chain = true
  /\ check_expression Demo.store Sample.a_for_outer None Demo.in_loop
     = Abort "for loop label must be unique among its ancestors".
Proof.
  split; [reflexivity |].
  apply (check_expr_for_label_unique Demo.store Demo.here "outer" Demo.here
           None Demo.a_true None Demo.a_break None Demo.in_loop
           Sample.in_loop_chain).
  - exact ctx_wf_demo_in_loop.
  - exact scope_chain_demo_in_loop.
  - reflexivity.
Defined.

Lemma check_expression_no_nested_defer_witness :
  exists e c',
    check_expression Demo.store Sample.a_defer None Demo.in_loop
    = Ok (e, c')
    /\ (~ within nested_defer Sample.a_defer
        /\ (ctx_deferring Demo.in_loop = true ->
            ~ within is_defer Sample.a_defer)).
Proof.
  do 2 eexists. split; [vm_compute; reflexivity |].
  eapply (check_expression_no_nested_defer Demo.store Sample.a_defer None
            Demo.in_loop).
  vm_compute. reflexivity.
Defined.

Lemma check_expression_binds_controls_witness :
  exists e c',
    check_expression Demo.store Demo.a_for None Demo.in_loop = Ok (e, c')
    /\ ~ stray [Some "outer"] Demo.a_for.
Proof.
  do 2 eexists. split; [vm_compute; reflexivity |].
  eapply (check_expression_binds_controls Demo.store Demo.a_for None
            Demo.in_loop).
  - exact in_loops_demo_in_loop.
  - vm_compute. reflexivity.
Defined.

Lemma check_expression_null_safety_witness :
  exists e c' operand,
    check_expression Demo.store Sample.a_store None Sample.with_int
    = Ok (e, c')
    /\ dereferenced Sample.a_store e = Some operand
    /\ exists t, expr_result operand = Some t /\ not_nullable t.
Proof.
  do 3 eexists. split; [vm_compute; reflexivity |].
  split; [vm_compute; reflexivity |].
  eapply (check_expression_null_safety Demo.store Sample.a_store None
            Sample.with_int).
  - vm_compute. reflexivity.
  - vm_compute. reflexivity.
Defined.

Lemma check_expr_binding_objects_witness :
  exists e c',
    check_expression Demo.store
      (Demo.at_ (A_binding Sample.static_bindings)) None Sample.with_int
    = Ok (e, c')
    /\ exists bindings,
         e = mk_expression EXPR_BINDING
               (Some (builtin_type_void Demo.store)) false
               (E_binding bindings)
         /\ length bindings = length Sample.static_bindings
         /\ (forall i ab b,
               Sample.static_bindings !! i = Some ab ->
               bindings !! i = Some b ->
               binds (static_number (ctx_id Sample.with_int)
                        Sample.static_bindings i ab) ab b)
         /\ (Z.of_nat (sum_with binding_statics Sample.static_bindings)
             < 2 ^ 32 ->
             forall i j abi abj bi bj,
               (i < j)%nat ->
               Sample.static_bindings !! i = Some abi ->
               Sample.static_bindings !! j = Some abj ->
               bindings !! i = Some bi -> bindings !! j = Some bj ->
               binding_is_static abi = true ->
               binding_is_static abj = true ->
               obj_ident (eb_object bi) <> obj_ident (eb_object bj)).
Proof.
  do 2 eexists. split; [vm_compute; reflexivity |].
  eapply (check_expr_binding_objects Demo.store Demo.here
            Sample.static_bindings None Sample.with_int).
  vm_compute. reflexivity.
Defined.

Lemma check_expr_assign_rule_witness :
  exists e c',
    check_expression Demo.store Sample.a_assign None Sample.with_int
    = Ok (e, c')
    /\ exists object value otype vtype,
         e = mk_expression EXPR_ASSIGN (Some (builtin_type_void Demo.store))
               false (E_assign None object value false)
         /\ expr_result object = Some otype
         /\ expr_result value = Some vtype
         /\ expr_type_of object = EXPR_ACCESS
            /\ has_flag (type_flags otype) TYPE_CONST = false
            /\ vtype = otype.
Proof.
  do 2 eexists. split; [vm_compute; reflexivity |].
  eapply (check_expr_assign_rule Demo.store Demo.here None Sample.a_n
            (Sample.int_ 2) false None
            Sample.with_int).
  vm_compute. reflexivity.
Defined.

Lemma check_expr_binarithm_rule_witness :
  exists e c',
    check_expression Demo.store Sample.a_sum None Sample.with_int
    = Ok (e, c')
    /\ exists lvalue rvalue ltype rtype,
         e = mk_expression EXPR_BINARITHM (Some ltype) false
               (E_binarithm BIN_PLUS lvalue rvalue)
         /\ expr_result lvalue = Some ltype
         /\ expr_result rvalue = Some rtype
         /\ type_storage_of ltype = type_storage_of rtype.
Proof.
  do 2 eexists. split; [vm_compute; reflexivity |].
  eapply (check_expr_binarithm_rule Demo.store Demo.here BIN_PLUS
            (Sample.int_ 1) (Sample.int_ 2) None
            Sample.with_int).
  vm_compute. reflexivity.
Defined.

Lemma check_expr_unarithm_rule_witness :
  exists e c',
    check_expression Demo.store Sample.a_neg None Sample.with_int
    = Ok (e, c')
    /\ exists operand t r,
         e = mk_expression EXPR_UNARITHM (Some r) false
               (E_unarithm UN_MINUS operand)
         /\ expr_result operand = Some t
         /\ unarithm_rule Demo.store UN_MINUS t r.
Proof.
  do 2 eexists. split; [vm_compute; reflexivity |].
  eapply (check_expr_unarithm_rule Demo.store Demo.here UN_MINUS
            (Sample.int_ 1) None
            Sample.with_int).
  vm_compute. reflexivity.
Defined.

Lemma check_expr_if_result_witness :
  exists e c',
    check_expression Demo.store Demo.a_if_break_else_break None Demo.in_loop
    = Ok (e, c')
    /\ exists cond true_branch false_branch ctype,
         expr_union e = E_if cond true_branch (Some false_branch)
         /\ expr_result cond = Some ctype
         /\ type_storage_of ctype = TYPE_STORAGE_BOOL
         /\ (expr_terminates true_branch = false ->
             expr_result e = expr_result true_branch)
         /\ (expr_terminates false_branch = false ->
             expr_result e = expr_result false_branch)
         /\ (expr_terminates true_branch = true ->
             expr_terminates false_branch = true ->
             expr_result e = Some (builtin_type_void Demo.store)).
Proof.
  do 2 eexists. split; [vm_compute; reflexivity |].
  eapply (check_expr_if_result Demo.store Demo.here Demo.a_true Demo.a_break
            Demo.a_break None Demo.in_loop).
  vm_compute. reflexivity.
Defined.

Lemma scopes_wf_nil : scopes_wf [].
Proof. intros p s q H. rewrite lookup_nil in H. discriminate H. Qed.

Lemma check_unit_witness :
  exists decls c',
    check Demo.store Sample.a_unit None Sample.empty_ctx = Ok (decls, c')
    /\ length decls = 2%nat
    /\ ctx_ns c' = None
    /\ ctx_unit c' = Some (length (ctx_scopes Sample.empty_ctx))
    /\ Forall (fun su => su_imports su = None)
         (aunit_subunits Sample.a_unit)
    /\ Forall2 declared_by
         (List.filter adecl_emits
            (flat_map su_decls (aunit_subunits Sample.a_unit)))
         decls
    /\ exists p s,
         ctx_scope c' = Some p /\ ctx_scopes c' !! p = Some s
         /\ scope_parent s = Some (length (ctx_scopes Sample.empty_ctx)).
Proof.
  do 2 eexists. split; [vm_compute; reflexivity |].
  split; [reflexivity |].
  eapply (check_unit Demo.store Sample.a_unit None Sample.empty_ctx).
  - reflexivity.
  - exact scopes_wf_nil.
  - vm_compute. reflexivity.
Defined.

Lemma check_binds_controls_witness :
  exists decls c',
    check Demo.store Sample.a_unit None Sample.empty_ctx = Ok (decls, c')
    /\ forall su d x,
         In su (aunit_subunits Sample.a_unit) -> In d (su_decls su) ->
         In x (scanned_exprs d ++ checked_exprs d) ->
         ~ stray [] x.
Proof.
  do 2 eexists. split; [vm_compute; reflexivity |].
  eapply (check_binds_controls Demo.store Sample.a_unit None
            Sample.empty_ctx).
  - reflexivity.
  - exact scopes_wf_nil.
  - vm_compute. reflexivity.
Defined.

Lemma scan_declarations_registers_witness :
  exists u c',
    scan_declarations Demo.store [Demo.d_test; Sample.d_spin] Demo.unit_ctx
    = Ok (u, c')
    /\ exists p o,
         ctx_unit c' = Some p
         /\ holds_object (ctx_scopes c') p o
         /\ registered Demo.unit_ctx Sample.d_spin o.
Proof.
  do 2 eexists. split; [vm_compute; reflexivity |].
  eapply (scan_declarations_registers Demo.store
            [Demo.d_test; Sample.d_spin] Demo.unit_ctx).
  - vm_compute. reflexivity.
  - right. left. reflexivity.
Defined.

Lemma check_expr_cast_rule_witness :
  exists e c',
    check_expression Demo.store Sample.a_cast None Demo.in_loop = Ok (e, c')
    /\ exists value sec t r,
         e = mk_expression EXPR_CAST (Some r) false
               (E_cast C_CAST value (Some sec))
         /\ type_store_lookup_atype Demo.store Demo.in_loop
              (mk_ast_type Demo.here TYPE_STORAGE_SIZE 0 AT_none)
            = Some sec
         /\ expr_result value = Some t
         /\ cast_rule Demo.store C_CAST sec t r.
Proof.
  do 2 eexists. split; [vm_compute; reflexivity |].
  eapply (check_expr_cast_rule Demo.store Demo.here C_CAST
            (mk_ast_type Demo.here TYPE_STORAGE_SIZE 0 AT_none)
            (Demo.at_ (A_constant TYPE_STORAGE_U8 (AC_uval 1))) None
            Demo.in_loop).
  vm_compute. reflexivity.
Defined.
